(** * Luraph unscrambler: a shallow embedding of the TypeScript sources

    The development follows the source tree:
    - [JS]               the JavaScript values and built-ins the sources rely on
    - [Decryptor]        src/lib/luraph/LuraphDecryptor.ts
    - [Lexer]            src/lib/luraph/LuaLexer.ts and types/LuaTokens.ts
    - [VMInstructions]   types/VMInstructions.ts
    - [Emitter]          src/lib/luraph/LuacGenerator.ts
    - [AST]              types/ASTNodes.ts
    - [SymbolicExecutor] SymbolicExecutor.ts
    - [Reconstructor]    BytecodeReconstructor.ts
    - [Parser]           LuaParser.ts
    - [LuraphVM]         [isValidLuraphScript] of src/lib/luraph/LuraphVM.ts,
                         and [LuraphVM_003] its later version

    The modules that follow them hold what the statements of the
    theorems need; the theorems come last.

    Strings are sequences of UTF-16 code units ([list Z]); a [Uint8Array]
    is a [list Z] whose elements are reduced modulo 256 when stored.
    Numbers that the sources use as counters, indices, registers or byte
    values are integers and are modelled by [Z] or [nat].  A method that
    can throw returns an [Outcome]; a loop or a recursion of the sources
    that is not structural runs under a bound, and [None] stands for a
    run cut off by the bound. *)

From Stdlib Require Import ZArith List Bool Lia String Ascii.
Import ListNotations.
Open Scope Z_scope.

(* ================================================================== *)
(** * JavaScript values and built-ins                                  *)
(* ================================================================== *)

Module JS.

Definition jsstring := list Z.

Definition ch (a : ascii) : Z := Z.of_N (N_of_ascii a).
Definition str (s : string) : jsstring := map ch (list_ascii_of_string s).

Definition LF : Z := 10.
Definition CR : Z := 13.
Definition DQUOTE : Z := 34.
Definition SQUOTE : Z := 39.
Definition BACKSLASH : Z := 92.

Definition in_range (lo hi c : Z) : bool := (lo <=? c) && (c <=? hi).

(** [/[0-9]/], [/[a-zA-Z]/], [/[a-zA-Z0-9]/], [\w]. *)
Definition is_digit (c : Z) : bool := in_range 48 57 c.
Definition is_alpha (c : Z) : bool := in_range 97 122 c || in_range 65 90 c.
Definition is_alnum (c : Z) : bool := is_alpha c || is_digit c.
Definition is_word (c : Z) : bool := is_alnum c || (c =? 95).
Definition is_hex_digit (c : Z) : bool :=
  is_digit c || in_range 97 102 c || in_range 65 70 c.

(** [\s] of a regular expression, which is also the set [parseInt] and
    [trim] strip: WhiteSpace and LineTerminator of ECMAScript. *)
Definition is_space (c : Z) : bool :=
  in_range 9 13 c || (c =? 32) || (c =? 160) || (c =? 5760) ||
  in_range 8192 8202 c || (c =? 8232) || (c =? 8233) || (c =? 8239) ||
  (c =? 8287) || (c =? 12288) || (c =? 65279).

(** A [.] of a regular expression without the [s] flag. *)
Definition is_line_terminator (c : Z) : bool :=
  (c =? 10) || (c =? 13) || (c =? 8232) || (c =? 8233).

Fixpoint string_eqb (a b : jsstring) : bool :=
  match a, b with
  | [], [] => true
  | x :: a', y :: b' => (x =? y) && string_eqb a' b'
  | _, _ => false
  end.

Fixpoint startsWith (p s : jsstring) : bool :=
  match p, s with
  | [], _ => true
  | _ :: _, [] => false
  | a :: p', b :: s' => (a =? b) && startsWith p' s'
  end.

(** [s.includes(p)] *)
Fixpoint includes (s p : jsstring) : bool :=
  startsWith p s ||
  match s with
  | [] => false
  | _ :: s' => includes s' p
  end.

(** ASCII part of [toLowerCase]/[toUpperCase]. *)
Definition lower_ascii (c : Z) : Z := if in_range 65 90 c then c + 32 else c.

Definition sumZ (l : list Z) : Z := fold_right Z.add 0 l.

(** ** Global matching of a regular expression

    [s.match(re)] with the [g] flag scans [s] from the left; a match of
    length [n] at some index moves [lastIndex] behind the match.  The
    matcher receives the code unit before the current index (for [\b])
    and the rest of the input, and answers with the length of the match
    that starts here.  The patterns of the sources never match the empty
    string. *)
Section GlobalMatch.
Variable matcher : option Z -> jsstring -> option nat.

Fixpoint count_from (skip : nat) (prev : option Z) (s : jsstring) : Z :=
  match s with
  | [] => 0
  | c :: rest =>
      match skip with
      | S k => count_from k (Some c) rest
      | O =>
          match matcher prev s with
          | Some len => 1 + count_from (Nat.pred len) (Some c) rest
          | None => count_from 0 (Some c) rest
          end
      end
  end.

Definition match_count (s : jsstring) : Z := count_from 0 None s.
End GlobalMatch.

(** Atoms of the small patterns the sources build. *)
Inductive Atom :=
| Lit (c : Z)
| AnyChar.          (* [.] : any code unit but a line terminator *)

Definition atom_matches (a : Atom) (c : Z) : bool :=
  match a with
  | Lit x => x =? c
  | AnyChar => negb (is_line_terminator c)
  end.

Fixpoint atoms_match (p : list Atom) (s : jsstring) : bool :=
  match p, s with
  | [], _ => true
  | _ :: _, [] => false
  | a :: p', c :: s' => atom_matches a c && atoms_match p' s'
  end.

Definition atoms_matcher (p : list Atom) : option Z -> jsstring -> option nat :=
  fun _ s => if atoms_match p s then Some (List.length p) else None.

Definition is_word_opt (c : option Z) : bool :=
  match c with Some x => is_word x | None => false end.

(** [\b] between two neighbouring positions. *)
Definition word_boundary (before after : option Z) : bool :=
  xorb (is_word_opt before) (is_word_opt after).

(** [\bw\b] for a literal word [w]. *)
Definition word_matcher (w : jsstring) : option Z -> jsstring -> option nat :=
  fun prev s =>
    if word_boundary prev (hd_error s) && startsWith w s &&
       word_boundary (hd_error (rev w)) (nth_error s (List.length w))
    then Some (List.length w) else None.

(** [/[...]/g] for a character class. *)
Definition class_matcher (cls : Z -> bool) : option Z -> jsstring -> option nat :=
  fun _ s => match s with
             | c :: _ => if cls c then Some 1%nat else None
             | [] => None
             end.

(** ** Typed arrays *)

Definition to_u8 (z : Z) : Z := z mod 256.

Definition all_bytes : list Z := map Z.of_nat (seq 0 256).

(** [i % n] as an index: [NaN] (no index) when [n] is zero. *)
Definition mod_index (i n : nat) : option nat :=
  if Nat.eqb n 0 then None else Some (Nat.modulo i n).

(** [a[i]] on a typed array: [undefined] outside it or at [NaN]. *)
Definition u8_get (a : list Z) (i : option nat) : option Z :=
  match i with
  | Some k => nth_error a k
  | None => None
  end.

(** [s.charCodeAt(i)]: a [NaN] index reads position 0; [None] is the
    [NaN] returned outside the string. *)
Definition charCodeAt (s : jsstring) (i : option nat) : option Z :=
  match i with
  | Some k => nth_error s k
  | None => nth_error s 0
  end.

(** [ToInt32] of a byte or of [undefined]/[NaN]. *)
Definition int_of (v : option Z) : Z :=
  match v with Some x => x | None => 0 end.

(** ** parseInt(s, 16) *)

Fixpoint trim_start (s : jsstring) : jsstring :=
  match s with
  | c :: s' => if is_space c then trim_start s' else s
  | [] => []
  end.

Definition hex_value (c : Z) : Z :=
  if is_digit c then c - 48
  else if in_range 97 102 c then c - 87
  else c - 55.

Fixpoint hex_digits (acc : option Z) (s : jsstring) : option Z :=
  match s with
  | c :: s' =>
      if is_hex_digit c
      then hex_digits (Some (16 * int_of acc + hex_value c)) s'
      else acc
  | [] => acc
  end.

Definition strip_0x (s : jsstring) : jsstring :=
  match s with
  | 48 :: x :: s' => if (x =? 120) || (x =? 88) then s' else s
  | _ => s
  end.

(** [None] is [NaN]. *)
Definition parseInt16 (s : jsstring) : option Z :=
  let s1 := trim_start s in
  let '(sign, s2) :=
    match s1 with
    | c :: s' => if c =? 45 then (-1, s')
                 else if c =? 43 then (1, s') else (1, s1)
    | [] => (1, s1)
    end in
  match hex_digits None (strip_0x s2) with
  | Some v => Some (sign * v)
  | None => None
  end.

(** ** Numbers as 32-bit integers: the operands of [&], [|] and [<<] *)

Definition toInt32 (z : Z) : Z := (z + 2 ^ 31) mod 2 ^ 32 - 2 ^ 31.
Definition toUint32 (z : Z) : Z := z mod 2 ^ 32.

Definition js_and (x y : Z) : Z := Z.land (toInt32 x) (toInt32 y).
Definition js_or (x y : Z) : Z := Z.lor (toInt32 x) (toInt32 y).
Definition js_shl (x n : Z) : Z := toInt32 (Z.shiftl (toInt32 x) (n mod 32)).

(** ** Numbers that need not be integers

    The value of a numeric literal or constant is an IEEE-754 double,
    kept as its 64 bits: sign, 11 bits of exponent, 52 bits of fraction. *)
Record JSNumber := F64 { f64_bits : Z }.

Definition f64_sign (n : JSNumber) : Z := (f64_bits n / 2 ^ 63) mod 2.
Definition f64_expo (n : JSNumber) : Z := (f64_bits n / 2 ^ 52) mod 2 ^ 11.
Definition f64_frac (n : JSNumber) : Z := f64_bits n mod 2 ^ 52.

Definition f64_finite (n : JSNumber) : bool := f64_expo n <? 2047.
Definition f64_is_nan (n : JSNumber) : bool :=
  (f64_expo n =? 2047) && negb (f64_frac n =? 0).

(** A finite number is [(-1)^sign * mantissa * 2^exponent]. *)
Definition f64_mantissa (n : JSNumber) : Z :=
  if f64_expo n =? 0 then f64_frac n else f64_frac n + 2 ^ 52.
Definition f64_exponent (n : JSNumber) : Z :=
  (if f64_expo n =? 0 then 1 else f64_expo n) - 1075.

Definition Number_isInteger (n : JSNumber) : bool :=
  f64_finite n &&
  ((0 <=? f64_exponent n) || (f64_mantissa n mod 2 ^ (- f64_exponent n) =? 0)).

(** [BigInt(n)] for an integral [n]. *)
Definition BigInt_of (n : JSNumber) : Z :=
  (if f64_sign n =? 1 then -1 else 1) *
  (if 0 <=? f64_exponent n
   then f64_mantissa n * 2 ^ f64_exponent n
   else f64_mantissa n / 2 ^ (- f64_exponent n)).

(** The truthiness of a number: everything but zero and [NaN]. *)
Definition number_truthy (n : JSNumber) : bool :=
  negb ((f64_expo n =? 0) && (f64_frac n =? 0)) && negb (f64_is_nan n).

(** The double nearest to an integer (ties to even). *)
Definition number_of_Z (z : Z) : JSNumber :=
  if z =? 0 then F64 0 else
  let sign := if z <? 0 then 2 ^ 63 else 0 in
  let n := Z.abs z in
  let k := Z.log2 n in
  if k <=? 52 then F64 (sign + (k + 1023) * 2 ^ 52 + (n * 2 ^ (52 - k) - 2 ^ 52))
  else
    let shift := k - 52 in
    let q := n / 2 ^ shift in
    let r := n mod 2 ^ shift in
    let half := 2 ^ (shift - 1) in
    let q := if (half <? r) || ((r =? half) && Z.odd q) then q + 1 else q in
    let '(q, k) := if q =? 2 ^ 53 then (2 ^ 52, k + 1) else (q, k) in
    if 1024 <=? k then F64 (sign + 2047 * 2 ^ 52)
    else F64 (sign + (k + 1023) * 2 ^ 52 + (q - 2 ^ 52)).

(** The integer part of a finite number; 0 for [NaN] and the infinities. *)
Definition number_trunc (n : JSNumber) : Z :=
  if f64_finite n then BigInt_of n else 0.

(** ** Integers as numbers

    A number that is an integer stands for itself.  A double has 53
    bits of mantissa: an integer that needs more is the double nearest
    to it (ties to even), and what lies beyond the largest double is an
    infinity, for which [2^1024] and [-2^1024] stand.  Up to [2^53]
    every integer is a double. *)
Definition to_double (z : Z) : Z :=
  let n := number_of_Z z in
  if f64_finite n then BigInt_of n
  else if z <? 0 then - 2 ^ 1024 else 2 ^ 1024.

(** [x + y] on numbers that are integers: the sum, rounded once. *)
Definition double_sum (x y : Z) : Z := to_double (x + y).

(** ** Values of mixed type: the [any] fields of the sources *)
Inductive JSValue :=
| VNull
| VUndefined
| VBool (b : bool)
| VNumber (n : JSNumber)
| VString (s : jsstring).

Definition truthy (v : JSValue) : bool :=
  match v with
  | VNull | VUndefined => false
  | VBool b => b
  | VNumber n => number_truthy n
  | VString s => match s with [] => false | _ => true end
  end.

(** ** TextEncoder: UTF-8 of a string of UTF-16 code units *)

Definition utf8_of_code_point (cp : Z) : list Z :=
  if cp <? 128 then [cp]
  else if cp <? 2048 then [192 + cp / 64; 128 + cp mod 64]
  else if cp <? 65536 then [224 + cp / 4096; 128 + (cp / 64) mod 64; 128 + cp mod 64]
  else [240 + cp / 262144; 128 + (cp / 4096) mod 64; 128 + (cp / 64) mod 64;
        128 + cp mod 64].

Definition is_high_surrogate (c : Z) : bool := in_range 55296 56319 c.
Definition is_low_surrogate (c : Z) : bool := in_range 56320 57343 c.

(** [pending] is a high surrogate waiting for its low half; a lone
    surrogate is encoded as U+FFFD. *)
Fixpoint utf8_from (pending : option Z) (s : jsstring) : list Z :=
  let flush := match pending with
               | Some _ => utf8_of_code_point 65533
               | None => []
               end in
  match s with
  | [] => flush
  | c :: rest =>
      match pending with
      | Some h =>
          if is_low_surrogate c
          then utf8_of_code_point (65536 + (h - 55296) * 1024 + (c - 56320))
               ++ utf8_from None rest
          else if is_high_surrogate c then flush ++ utf8_from (Some c) rest
          else flush ++ utf8_of_code_point c ++ utf8_from None rest
      | None =>
          if is_high_surrogate c then utf8_from (Some c) rest
          else if is_low_surrogate c then utf8_of_code_point 65533 ++ utf8_from None rest
          else utf8_of_code_point c ++ utf8_from None rest
      end
  end.

Definition utf8_encode (s : jsstring) : list Z := utf8_from None s.

(** ** JSON.stringify and JSON.parse on strings *)

Definition hex_digit (n : Z) : Z := if n <? 10 then 48 + n else 87 + n.
Definition hex4 (c : Z) : jsstring :=
  [hex_digit (c / 4096 mod 16); hex_digit (c / 256 mod 16);
   hex_digit (c / 16 mod 16); hex_digit (c mod 16)].

Definition json_escape (c : Z) : jsstring :=
  if c =? DQUOTE then [BACKSLASH; DQUOTE]
  else if c =? BACKSLASH then [BACKSLASH; BACKSLASH]
  else if c =? 8 then [BACKSLASH; ch "b"]
  else if c =? 12 then [BACKSLASH; ch "f"]
  else if c =? 10 then [BACKSLASH; ch "n"]
  else if c =? 13 then [BACKSLASH; ch "r"]
  else if c =? 9 then [BACKSLASH; ch "t"]
  else if c <? 32 then BACKSLASH :: ch "u" :: hex4 c
  else [c].

Definition json_escape_surrogate (c : Z) : jsstring := BACKSLASH :: ch "u" :: hex4 c.

(** A surrogate pair is copied; a surrogate on its own is escaped.
    [low_half] says that the code unit in front is the low half of a
    pair whose high half has just been copied. *)
Fixpoint json_body (low_half : bool) (s : jsstring) : jsstring :=
  match s with
  | [] => []
  | c :: rest =>
      if low_half then c :: json_body false rest
      else if is_high_surrogate c then
        match rest with
        | d :: _ =>
            if is_low_surrogate d then c :: json_body true rest
            else json_escape_surrogate c ++ json_body false rest
        | [] => json_escape_surrogate c
        end
      else if is_low_surrogate c then json_escape_surrogate c ++ json_body false rest
      else json_escape c ++ json_body false rest
  end.

Definition JSON_stringify_string (s : jsstring) : jsstring :=
  DQUOTE :: json_body false s ++ [DQUOTE].

Definition is_json_space (c : Z) : bool :=
  (c =? 32) || (c =? 9) || (c =? 10) || (c =? 13).

Fixpoint hex_of (acc : Z) (digits : jsstring) : option Z :=
  match digits with
  | [] => Some acc
  | d :: rest => if is_hex_digit d then hex_of (16 * acc + hex_value d) rest else None
  end.

(** The body of a string literal behind its opening quote; [skip]
    counts the code units of an escape still to pass over.  [None] is a
    [SyntaxError]. *)
Fixpoint json_string_body (skip : nat) (s : jsstring) : option (jsstring * jsstring) :=
  match s with
  | [] => None
  | c :: rest =>
      match skip with
      | S k => json_string_body k rest
      | O =>
          if c =? DQUOTE then Some ([], rest)
          else if c <? 32 then None
          else if c =? BACKSLASH then
            match rest with
            | e :: rest' =>
                let simple (x : Z) :=
                  match json_string_body 1 rest with
                  | Some (body, after) => Some (x :: body, after)
                  | None => None
                  end in
                if e =? DQUOTE then simple DQUOTE
                else if e =? BACKSLASH then simple BACKSLASH
                else if e =? ch "/" then simple (ch "/")
                else if e =? ch "b" then simple 8
                else if e =? ch "f" then simple 12
                else if e =? ch "n" then simple 10
                else if e =? ch "r" then simple 13
                else if e =? ch "t" then simple 9
                else if e =? ch "u" then
                  match firstn 4 rest' with
                  | [h1; h2; h3; h4] =>
                      match hex_of 0 [h1; h2; h3; h4] with
                      | Some x =>
                          match json_string_body 5 rest with
                          | Some (body, after) => Some (x :: body, after)
                          | None => None
                          end
                      | None => None
                      end
                  | _ => None
                  end
                else None
            | [] => None
            end
          else
            match json_string_body 0 rest with
            | Some (body, after) => Some (c :: body, after)
            | None => None
            end
      end
  end.

Fixpoint drop_json_space (s : jsstring) : jsstring :=
  match s with
  | c :: rest => if is_json_space c then drop_json_space rest else s
  | [] => []
  end.

(** [s.split(sep)] for a separator of one code unit. *)
Fixpoint split_on (sep : Z) (s : jsstring) : list jsstring :=
  match s with
  | [] => [[]]
  | c :: rest =>
      if c =? sep then [] :: split_on sep rest
      else match split_on sep rest with
           | piece :: pieces => (c :: piece) :: pieces
           | [] => [[c]]
           end
  end.

(** The decimal text of an integer, as a template literal prints it. *)
Fixpoint decimal_digits (rounds : nat) (n : Z) (acc : jsstring) : jsstring :=
  match rounds with
  | O => acc
  | S r => if n <? 10 then (48 + n) :: acc
           else decimal_digits r (n / 10) ((48 + n mod 10) :: acc)
  end.

Definition integer_text (z : Z) : jsstring :=
  let digits := decimal_digits (S (Z.to_nat (Z.log2 (Z.abs z)))) (Z.abs z) [] in
  if z <? 0 then ch "-" :: digits else digits.

(** [parseInt] of a run of decimal digits: the number nearest to the
    integer that the digits write. *)
Definition parseInt_digits (digits : jsstring) : Z :=
  to_double (fold_left (fun acc d => 10 * acc + (d - 48)) digits 0).

End JS.
Import JS.

(* ================================================================== *)
(** * LuraphDecryptor.ts                                               *)
(* ================================================================== *)

Module Decryptor.

Record DecryptionResult := mkResult {
  success : bool;
  decrypted : jsstring;
  method : jsstring;
  error : option jsstring
}.

Record EncryptionInfo := mkInfo {
  info_method : jsstring;
  info_key : jsstring;
  info_iv : option jsstring;
  info_algorithm : jsstring;
  info_version : jsstring
}.

(** Utility methods *)

Definition stringToBytes (s : jsstring) : list Z := map to_u8 s.
Definition bytesToString (b : list Z) : jsstring := b.

Fixpoint hexToBytes_loop (n : nat) (hex : jsstring) : list Z :=
  match n with
  | O => []
  | S n' =>
      to_u8 (int_of (parseInt16 (firstn 2 hex))) :: hexToBytes_loop n' (skipn 2 hex)
  end.

(** The array has [hex.length / 2] elements (rounded down by the
    constructor); the store of a trailing odd digit falls outside it. *)
Definition hexToBytes (hex : jsstring) : list Z :=
  hexToBytes_loop (Nat.div (List.length hex) 2) hex.

Fixpoint xorBytes_from (i : nat) (a b : list Z) : list Z :=
  match a with
  | [] => []
  | x :: a' =>
      to_u8 (Z.lxor x (int_of (u8_get b (mod_index i (List.length b)))))
      :: xorBytes_from (S i) a' b
  end.
Definition xorBytes (a b : list Z) : list Z := xorBytes_from 0 a b.

Definition reverseBitManipulation (bytes : list Z) : list Z :=
  map (fun x => Z.land (Z.lor (Z.shiftl x 3) (Z.shiftr x 5)) 255) bytes.

Fixpoint customSubstitution_from (i : nat) (bytes key : list Z) : list Z :=
  match bytes with
  | [] => []
  | x :: rest =>
      (match u8_get key (mod_index i (List.length key)) with
       | Some keyByte => Z.land (x - keyByte) 255
       | None => 0                       (* NaN & 0xFF *)
       end) :: customSubstitution_from (S i) rest key
  end.
Definition customSubstitution (bytes key : list Z) : list Z :=
  customSubstitution_from 0 bytes key.

(** [key.charCodeAt(i % key.length) ^ i], sixteen times. *)
Definition generateIV (key : jsstring) : list Z :=
  map (fun i : nat =>
         to_u8 (Z.lxor (int_of (charCodeAt key (mod_index i (List.length key))))
                       (Z.of_nat i)))
      (seq 0 16).

(** [xorDecryptV1]: Luraph v11.5 *)
Fixpoint xorDecryptV1_from (i : nat) (encrypted : jsstring) (keyBytes : list Z) : jsstring :=
  match encrypted with
  | [] => []
  | charCode :: rest =>
      let keyByte := u8_get keyBytes (mod_index i (List.length keyBytes)) in
      Z.lxor charCode (int_of keyByte) :: xorDecryptV1_from (S i) rest keyBytes
  end.

Definition xorDecryptV1 (encrypted key : jsstring) : DecryptionResult :=
  mkResult true (xorDecryptV1_from 0 encrypted (stringToBytes key))
           (str "xor_v1") None.

(** [xorDecryptV2]: Luraph v11.6, the key byte is rotated by the position.
    [keyIndex] is [None] once [(keyIndex + 1) % 0] has produced [NaN]. *)
Fixpoint xorDecryptV2_from (i : nat) (keyIndex : option nat)
         (encrypted : jsstring) (keyBytes : list Z) : jsstring :=
  match encrypted with
  | [] => []
  | charCode :: rest =>
      let rotatedKey :=
        match u8_get keyBytes keyIndex with
        | Some keyByte => Z.land (keyByte + Z.of_nat i) 255
        | None => 0                      (* NaN & 0xFF *)
        end in
      Z.lxor charCode rotatedKey ::
      xorDecryptV2_from (S i)
        (match keyIndex with
         | Some k => mod_index (S k) (List.length keyBytes)
         | None => None
         end) rest keyBytes
  end.

Definition xorDecryptV2 (encrypted key : jsstring) : DecryptionResult :=
  mkResult true (xorDecryptV2_from 0 (Some 0%nat) encrypted (stringToBytes key))
           (str "xor_v2") None.

(** [simpleAESDecrypt]: the placeholder block chain of the source.  One
    round of the loop handles [encrypted.slice(i, i + 16)]; the rounds
    are counted down from the number of blocks. *)
Fixpoint simpleAESDecrypt_loop (rounds : nat) (encrypted key16 previousBlock : list Z)
  : list Z :=
  match rounds with
  | O => []
  | S r =>
      let block := firstn 16 encrypted in
      let decryptedBlock := xorBytes block key16 in
      let finalBlock := xorBytes decryptedBlock previousBlock in
      finalBlock ++ simpleAESDecrypt_loop r (skipn 16 encrypted) key16 block
  end.

Definition simpleAESDecrypt (encrypted key iv : list Z) : list Z :=
  simpleAESDecrypt_loop (Nat.div (List.length encrypted + 15) 16)
                        encrypted (firstn 16 key) iv.

Fixpoint modifyKey_from (i : nat) (key : list Z) : list Z :=
  match key with
  | [] => []
  | k :: rest => Z.land (k + Z.of_nat i * 7) 255 :: modifyKey_from (S i) rest
  end.
Definition modifyKeyForLuraph (key : list Z) : list Z := modifyKey_from 0 key.

(** [bytes.slice(0, end)]: a negative [end] counts from the end of the
    array. *)
Definition slice_to (final : Z) (bytes : list Z) : list Z :=
  let len := Z.of_nat (List.length bytes) in
  let final := if final <? 0 then Z.max (len + final) 0 else Z.min final len in
  firstn (Z.to_nat final) bytes.

Definition removeLuraphPadding (bytes : list Z) : list Z :=
  match last (map Some bytes) None with
  | Some paddingLength =>
      if (0 <? paddingLength) && (paddingLength <=? 16)
      then slice_to (Z.of_nat (List.length bytes) - paddingLength) bytes
      else bytes
  | None => bytes
  end.

Definition luraphAESDecrypt (encrypted key iv : list Z) : list Z :=
  let modifiedKey := modifyKeyForLuraph key in
  let decrypted := simpleAESDecrypt encrypted modifiedKey iv in
  removeLuraphPadding decrypted.

(** [iv ? hexToBytes(iv) : ...]: the empty string is falsy. *)
Definition iv_given (iv : option jsstring) : option jsstring :=
  match iv with
  | Some (c :: s) => Some (c :: s)
  | _ => None
  end.

Definition aesDecrypt (encrypted key : jsstring) (iv : option jsstring) : DecryptionResult :=
  let encryptedBytes := hexToBytes encrypted in
  let keyBytes := stringToBytes key in
  let ivBytes := match iv_given iv with
                 | Some v => hexToBytes v
                 | None => repeat 0 16
                 end in
  let decrypted := simpleAESDecrypt encryptedBytes keyBytes ivBytes in
  mkResult true (bytesToString decrypted) (str "aes_cbc") None.

Definition aesDecryptV2 (encrypted key : jsstring) (iv : option jsstring) : DecryptionResult :=
  let encryptedBytes := hexToBytes encrypted in
  let keyBytes := stringToBytes key in
  let ivBytes := match iv_given iv with
                 | Some v => hexToBytes v
                 | None => generateIV key
                 end in
  let decrypted := luraphAESDecrypt encryptedBytes keyBytes ivBytes in
  mkResult true (bytesToString decrypted) (str "aes_cbc_v2") None.

Definition luraphCustomDecrypt (encrypted key : jsstring) : DecryptionResult :=
  let encryptedBytes := stringToBytes encrypted in
  let keyBytes := stringToBytes key in
  let result := xorBytes encryptedBytes keyBytes in         (* Layer 1 *)
  let result := reverseBitManipulation result in            (* Layer 2 *)
  let result := customSubstitution result keyBytes in       (* Layer 3 *)
  mkResult true (bytesToString result) (str "luraph_custom") None.

(** ** scoreLuaCode *)

Definition luaKeywords : list jsstring :=
  map str ["local"; "function"; "end"; "if"; "then"; "else"; "for"; "while";
           "do"; "return"]%string.

Definition luaOperators : list jsstring :=
  map str ["="; "=="; "~="; "<="; ">="; "<"; ">"; "+"; "-"; "*"; "/"; "%"; "^";
           ".."; "and"; "or"; "not"]%string.

(** The pattern [new RegExp(`\\${op}`, 'g')] : a backslash in front of
    the first character of [op].  For the operators of the list the
    escape is an identity escape, except [\n], which is a line feed; of
    the characters that follow only [.] is a pattern character. *)
Definition escaped_atom (c : Z) : Atom :=
  if c =? ch "n" then Lit LF else Lit c.
Definition pattern_atom (c : Z) : Atom :=
  if c =? ch "." then AnyChar else Lit c.
Definition operator_pattern (op : jsstring) : list Atom :=
  match op with
  | [] => []
  | c :: rest => escaped_atom c :: map pattern_atom rest
  end.

(** [/[\x00-\x08\x0B\x0C\x0E-\x1F\x7F]/] *)
Definition nonPrintable_class (c : Z) : bool :=
  in_range 0 8 c || (c =? 11) || (c =? 12) || in_range 14 31 c || (c =? 127).

Definition scoreLuaCode (code : jsstring) : Z :=
  let score := 0 in
  let score :=
    fold_left (fun score keyword =>
                 let matches := match_count (word_matcher keyword) code in
                 score + matches * 10) luaKeywords score in
  let score :=
    fold_left (fun score op =>
                 let matches := match_count (atoms_matcher (operator_pattern op)) code in
                 score + matches * 2) luaOperators score in
  let score := if includes code (str "function") && includes code (str "end")
               then score + 20 else score in
  let score := if includes code (str "local") then score + 15 else score in
  let score := if includes code (str "print") then score + 10 else score in
  let nonPrintable := match_count (class_matcher nonPrintable_class) code in
  score - nonPrintable * 5.

(** ** selectBestResult *)

Fixpoint selectBest_loop (results : list DecryptionResult)
         (bestResult : DecryptionResult) (bestScore : Z) : DecryptionResult :=
  match results with
  | [] => bestResult
  | r :: rest =>
      let score := scoreLuaCode (decrypted r) in
      if bestScore <? score
      then selectBest_loop rest r score
      else selectBest_loop rest bestResult bestScore
  end.

Definition selectBestResult (results : list DecryptionResult) : option DecryptionResult :=
  match results with
  | [] => None
  | first :: rest => Some (selectBest_loop rest first (scoreLuaCode (decrypted first)))
  end.

(** ** decryptString and autoDetectAndDecrypt

    The two methods call each other.  [depth] bounds the nesting of the
    calls; [None] means that the bound was reached.  Nothing the five
    algorithms do can throw, so the [catch] clauses of the source have
    no counterpart here. *)

Definition auto_methods : list jsstring :=
  map str ["xor_v1"; "xor_v2"; "aes_cbc"; "luraph_custom"]%string.

(** [if (result.success) results.push(result)] over the attempts. *)
Fixpoint collect_successes (rs : list (option DecryptionResult))
  : option (list DecryptionResult) :=
  match rs with
  | [] => Some []
  | None :: _ => None
  | Some r :: rest =>
      match collect_successes rest with
      | Some l => Some (if success r then r :: l else l)
      | None => None
      end
  end.

Fixpoint decryptString (depth : nat) (encrypted : jsstring) (encryptionInfo : EncryptionInfo)
  {struct depth} : option DecryptionResult :=
  match depth with
  | O => None
  | S d =>
      let m := info_method encryptionInfo in
      let key := info_key encryptionInfo in
      let iv := info_iv encryptionInfo in
      if string_eqb m (str "xor_v1") then Some (xorDecryptV1 encrypted key)
      else if string_eqb m (str "xor_v2") then Some (xorDecryptV2 encrypted key)
      else if string_eqb m (str "aes_cbc") then Some (aesDecrypt encrypted key iv)
      else if string_eqb m (str "aes_cbc_v2") then Some (aesDecryptV2 encrypted key iv)
      else if string_eqb m (str "luraph_custom") then Some (luraphCustomDecrypt encrypted key)
      else autoDetectAndDecrypt d encrypted key
  end
with autoDetectAndDecrypt (depth : nat) (encrypted key : jsstring)
  {struct depth} : option DecryptionResult :=
  match depth with
  | O => None
  | S d =>
      let attempts :=
        map (fun method =>
               decryptString d encrypted (mkInfo method key None method (str "auto")))
            auto_methods in
      match collect_successes attempts with
      | None => None
      | Some results =>
          match selectBestResult results with
          | Some bestResult => Some bestResult
          | None => Some (mkResult false encrypted (str "auto")
                            (Some (str "No valid decryption method found")))
          end
      end
  end.

(** Three levels are enough: [decryptString] with an unknown method,
    [autoDetectAndDecrypt], [decryptString] with a method of the list. *)
Definition call_depth : nat := 3.

End Decryptor.

(* ================================================================== *)
(** * Loops                                                            *)
(* ================================================================== *)

(** A [while] loop with an optional [break], run with a bound on the
    number of rounds.  [None] means that the bound was too small; the
    theorems on each loop show that the bound the model passes never is. *)
Module Loops.

Inductive Step (St : Type) :=
| Continue (s : St)
| Break (s : St).
Arguments Continue {St} s.
Arguments Break {St} s.

Definition step_state {St} (r : Step St) : St :=
  match r with Continue s => s | Break s => s end.

Section While.
Context {St : Type}.
Variable cond : St -> bool.
Variable body : St -> option (Step St).

Fixpoint while (rounds : nat) (s : St) : option St :=
  match rounds with
  | O => None
  | S r =>
      if cond s then
        match body s with
        | Some (Continue s') => while r s'
        | Some (Break s') => Some s'
        | None => None
        end
      else Some s
  end.
End While.

End Loops.

Notation "x <- a ;; b" :=
  (match a with Some x => b | None => None end)
  (at level 61, a at next level, right associativity).
Notation "' p <- a ;; b" :=
  (match a with Some p => b | None => None end)
  (at level 61, p pattern, a at next level, right associativity).

(* ================================================================== *)
(** * types/LuaTokens.ts and LuaLexer.ts                               *)
(* ================================================================== *)

Module Lexer.
Import Loops.

Inductive LuaTokenType :=
(* Literals *)
| NUMBER | STRING | BOOLEAN | NIL
(* Identifiers *)
| IDENTIFIER
(* Keywords *)
| AND | BREAK | DO | ELSE | ELSEIF | END | FALSE | FOR | FUNCTION | IF | IN
| LOCAL | NOT | OR | REPEAT | RETURN | THEN | TRUE | UNTIL | WHILE
(* Operators *)
| PLUS | MINUS | MULTIPLY | DIVIDE | MODULO | POWER | CONCAT | LENGTH
| EQUAL | NOT_EQUAL | LESS_THAN | LESS_EQUAL | GREATER_THAN | GREATER_EQUAL
| ASSIGN
(* Delimiters *)
| SEMICOLON | COMMA | DOT | COLON | DOUBLE_COLON | LPAREN | RPAREN
| LBRACE | RBRACE | LBRACKET | RBRACKET
(* Special *)
| EOF | NEWLINE | WHITESPACE | COMMENT
(* Luraph VM specific *)
| VM_CALL | VM_HANDLER | ENCRYPTED_STRING | OBFUSCATED_NAME.

(** The position of a token type in the enumeration; [===] on token
    types compares these. *)
Definition type_tag (t : LuaTokenType) : nat :=
  match t with
  | NUMBER => 0 | STRING => 1 | BOOLEAN => 2 | NIL => 3 | IDENTIFIER => 4
  | AND => 5 | BREAK => 6 | DO => 7 | ELSE => 8 | ELSEIF => 9
  | END => 10 | FALSE => 11 | FOR => 12 | FUNCTION => 13 | IF => 14
  | IN => 15 | LOCAL => 16 | NOT => 17 | OR => 18 | REPEAT => 19
  | RETURN => 20 | THEN => 21 | TRUE => 22 | UNTIL => 23 | WHILE => 24
  | PLUS => 25 | MINUS => 26 | MULTIPLY => 27 | DIVIDE => 28 | MODULO => 29
  | POWER => 30 | CONCAT => 31 | LENGTH => 32 | EQUAL => 33 | NOT_EQUAL => 34
  | LESS_THAN => 35 | LESS_EQUAL => 36 | GREATER_THAN => 37 | GREATER_EQUAL => 38 | ASSIGN => 39
  | SEMICOLON => 40 | COMMA => 41 | DOT => 42 | COLON => 43 | DOUBLE_COLON => 44
  | LPAREN => 45 | RPAREN => 46 | LBRACE => 47 | RBRACE => 48 | LBRACKET => 49
  | RBRACKET => 50 | EOF => 51 | NEWLINE => 52 | WHITESPACE => 53 | COMMENT => 54
  | VM_CALL => 55 | VM_HANDLER => 56 | ENCRYPTED_STRING => 57 | OBFUSCATED_NAME => 58
  end%nat.

Definition tag_type (n : nat) : LuaTokenType :=
  match n with
  | 0 => NUMBER | 1 => STRING | 2 => BOOLEAN | 3 => NIL | 4 => IDENTIFIER
  | 5 => AND | 6 => BREAK | 7 => DO | 8 => ELSE | 9 => ELSEIF
  | 10 => END | 11 => FALSE | 12 => FOR | 13 => FUNCTION | 14 => IF
  | 15 => IN | 16 => LOCAL | 17 => NOT | 18 => OR | 19 => REPEAT
  | 20 => RETURN | 21 => THEN | 22 => TRUE | 23 => UNTIL | 24 => WHILE
  | 25 => PLUS | 26 => MINUS | 27 => MULTIPLY | 28 => DIVIDE | 29 => MODULO
  | 30 => POWER | 31 => CONCAT | 32 => LENGTH | 33 => EQUAL | 34 => NOT_EQUAL
  | 35 => LESS_THAN | 36 => LESS_EQUAL | 37 => GREATER_THAN | 38 => GREATER_EQUAL | 39 => ASSIGN
  | 40 => SEMICOLON | 41 => COMMA | 42 => DOT | 43 => COLON | 44 => DOUBLE_COLON
  | 45 => LPAREN | 46 => RPAREN | 47 => LBRACE | 48 => RBRACE | 49 => LBRACKET
  | 50 => RBRACKET | 51 => EOF | 52 => NEWLINE | 53 => WHITESPACE | 54 => COMMENT
  | 55 => VM_CALL | 56 => VM_HANDLER | 57 => ENCRYPTED_STRING
  | _ => OBFUSCATED_NAME
  end%nat.

Definition type_eqb (a b : LuaTokenType) : bool := Nat.eqb (type_tag a) (type_tag b).

Record LuaToken := mkToken {
  type : LuaTokenType;
  value : jsstring;
  line : nat;
  column : nat;
  position : nat
}.

Record LuaPosition := mkPosition {
  pos_line : nat;
  pos_column : nat;
  pos_position : nat
}.

(** The mutable fields of the lexer, [tokens] apart. *)
Record LexState := mkLex {
  cur_position : nat;
  cur_line : nat;
  cur_column : nat
}.

Definition keywords : list (jsstring * LuaTokenType) :=
  [ (str "and", AND); (str "break", BREAK); (str "do", DO); (str "else", ELSE);
    (str "elseif", ELSEIF); (str "end", END); (str "false", FALSE);
    (str "for", FOR); (str "function", FUNCTION); (str "if", IF); (str "in", IN);
    (str "local", LOCAL); (str "nil", NIL); (str "not", NOT); (str "or", OR);
    (str "repeat", REPEAT); (str "return", RETURN); (str "then", THEN);
    (str "true", TRUE); (str "until", UNTIL); (str "while", WHILE) ].

Fixpoint assoc_string {A} (k : jsstring) (l : list (jsstring * A)) : option A :=
  match l with
  | [] => None
  | (k', v) :: l' => if string_eqb k k' then Some v else assoc_string k l'
  end.

(** [s.substring(start, stop)] for [start <= stop]. *)
Definition substring (s : jsstring) (start stop : nat) : jsstring :=
  firstn (stop - start) (skipn start s).

(** Some suffix of [s] satisfies [p]: an unanchored [RegExp.test]. *)
Fixpoint somewhere (p : jsstring -> bool) (s : jsstring) : bool :=
  p s || match s with
         | [] => false
         | _ :: s' => somewhere p s'
         end.

(** [isEncryptedString] *)
Definition hex_escape_at (s : jsstring) : bool :=            (* /\\x[0-9a-fA-F]{2}/ *)
  match s with
  | b :: x :: h1 :: h2 :: _ =>
      (b =? BACKSLASH) && (x =? ch "x") && is_hex_digit h1 && is_hex_digit h2
  | _ => false
  end.
Definition digit_escape_at (s : jsstring) : bool :=          (* /\\[0-9]{1,3}/ *)
  match s with
  | b :: d :: _ => (b =? BACKSLASH) && is_digit d
  | _ => false
  end.
Definition outside_printable (c : Z) : bool := negb (in_range 32 126 c).
Definition unprintable_run_at (s : jsstring) : bool :=       (* /[^\x20-\x7E]{5,}/ *)
  (5 <=? List.length (firstn 5 s))%nat && forallb outside_printable (firstn 5 s).

Definition isEncryptedString (value : jsstring) : bool :=
  somewhere hex_escape_at value || somewhere digit_escape_at value ||
  somewhere unprintable_run_at value.

(** [isObfuscatedName] *)
Definition confusing_char (c : Z) : bool :=                  (* [lI1oO0] *)
  (c =? ch "l") || (c =? ch "I") || (c =? ch "1") || (c =? ch "o") ||
  (c =? ch "O") || (c =? ch "0").

Definition isObfuscatedName (name : jsstring) : bool :=
  (match name with                        (* /^[a-zA-Z_][a-zA-Z0-9_]{20,}$/ *)
   | c :: rest => (is_alpha c || (c =? ch "_")) && forallb is_word rest &&
                  (20 <=? List.length rest)%nat
   | [] => false
   end) ||
  (forallb confusing_char name && (4 <=? List.length name)%nat) ||   (* /^[lI1oO0]{4,}$/ *)
  (match name with                        (* /^[a-zA-Z]_[a-zA-Z0-9_]{10,}$/ *)
   | c :: u :: rest => is_alpha c && (u =? ch "_") && forallb is_word rest &&
                       (10 <=? List.length rest)%nat
   | _ => false
   end).

(** A test of [this.input[...]], which is [undefined] behind the end.
    [RegExp.test(undefined)] tests the text "undefined": it has letters,
    no digit and no white space. *)
Definition isWhitespace (c : option Z) : bool :=
  match c with Some x => is_space x | None => false end.
Definition isDigit (c : option Z) : bool :=
  match c with Some x => is_digit x | None => false end.
Definition isAlpha (c : option Z) : bool :=
  match c with Some x => is_alpha x | None => true end.
Definition isAlphaNumeric (c : option Z) : bool :=
  match c with Some x => is_alnum x | None => true end.

Definition is_char (c : option Z) (x : Z) : bool :=
  match c with Some y => y =? x | None => false end.

Section WithInput.
Variable input : jsstring.

Definition input_length : nat := List.length input.
Definition at_ (i : nat) : option Z := nth_error input i.
Definition current_char (st : LexState) : option Z := at_ (cur_position st).
Definition in_input (st : LexState) : bool :=
  (cur_position st <? input_length)%nat.

(** The budget of every loop: each round moves [position] forward. *)
Definition rounds : nat := S input_length.

Definition peek (st : LexState) (offset : nat) : option Z :=
  at_ (cur_position st + offset).

Fixpoint advance (count : nat) (st : LexState) : LexState :=
  match count with
  | O => st
  | S n =>
      if in_input st then
        advance n
          (if is_char (current_char st) LF
           then mkLex (S (cur_position st)) (S (cur_line st)) 1
           else mkLex (S (cur_position st)) (cur_line st) (S (cur_column st)))
      else st
  end.

Definition createPosition (st : LexState) : LuaPosition :=
  mkPosition (cur_line st) (cur_column st) (cur_position st).

Definition createToken (t : LuaTokenType) (v : jsstring) (p : LuaPosition) : LuaToken :=
  mkToken t v (pos_line p) (pos_column p) (pos_position p).

Definition skipWhitespace (st : LexState) : option LexState :=
  while (fun st => in_input st && isWhitespace (current_char st) &&
                   negb (is_char (current_char st) LF))
        (fun st => Some (Continue (advance 1 st)))
        rounds st.

(** The level of a long bracket that opens at [position], if one does. *)
Definition checkLongStringStart (st : LexState) : option (option nat) :=
  '(level, pos) <-
    while (fun '(level, pos) => (pos <? input_length)%nat && is_char (at_ pos) (ch "="))
          (fun '(level, pos) => Some (Continue (S level, S pos)))
          rounds (0%nat, S (cur_position st)) ;;
  if (pos <? input_length)%nat && is_char (at_ pos) (ch "[")
  then Some (Some level)
  else Some None.

Definition readLongString (level : nat) (st : LexState) : option (LuaToken * LexState) :=
  let position := createPosition st in
  let start := cur_position st in
  let openPattern := ch "[" :: repeat (ch "=") level ++ [ch "["] in
  let closePattern := ch "]" :: repeat (ch "=") level ++ [ch "]"] in
  let st := advance (List.length openPattern) st in
  st <- while in_input
          (fun st =>
             if startsWith closePattern (skipn (cur_position st) input)
             then Some (Break (advance (List.length closePattern) st))
             else Some (Continue (advance 1 st)))
          rounds st ;;
  Some (createToken STRING (substring input start (cur_position st)) position, st).

Definition readComment (st : LexState) : option (LuaToken * LexState) :=
  let position := createPosition st in
  let start := cur_position st in
  let st := advance 2 st in
  let short_comment (st : LexState) :=
    st <- while (fun st => in_input st && negb (is_char (current_char st) LF))
            (fun st => Some (Continue (advance 1 st)))
            rounds st ;;
    Some (createToken COMMENT (substring input start (cur_position st)) position, st) in
  if is_char (current_char st) (ch "[") then
    level <- checkLongStringStart st ;;
    match level with
    | Some level =>
        '(_, st) <- readLongString level st ;;
        Some (createToken COMMENT (substring input start (cur_position st)) position, st)
    | None => short_comment st
    end
  else short_comment st.

Definition readNumber (st : LexState) : option (LuaToken * LexState) :=
  let position := createPosition st in
  let start := cur_position st in
  st <- while (fun st =>
                 in_input st &&
                 (isDigit (current_char st) ||
                  is_char (current_char st) (ch ".") ||
                  is_char (current_char st) (ch "e") ||
                  is_char (current_char st) (ch "E") ||
                  is_char (current_char st) (ch "+") ||
                  is_char (current_char st) (ch "-")))
          (fun st => Some (Continue (advance 1 st)))
          rounds st ;;
  Some (createToken NUMBER (substring input start (cur_position st)) position, st).

Definition readString (quote : Z) (st : LexState) : option (LuaToken * LexState) :=
  let position := createPosition st in
  let start := cur_position st in
  let st := advance 1 st in
  st <- while in_input
          (fun st =>
             let current := current_char st in
             if is_char current quote then Some (Break (advance 1 st))
             else if is_char current BACKSLASH then
               let st := advance 1 st in
               if in_input st then Some (Continue (advance 1 st))
               else Some (Continue st)
             else Some (Continue (advance 1 st)))
          rounds st ;;
  let value := substring input start (cur_position st) in
  if isEncryptedString value
  then Some (createToken ENCRYPTED_STRING value position, st)
  else Some (createToken STRING value position, st).

Definition getKeywordTokenType (keyword : jsstring) : LuaTokenType :=
  match assoc_string keyword keywords with
  | Some t => t
  | None => IDENTIFIER
  end.

Definition readIdentifier (st : LexState) : option (LuaToken * LexState) :=
  let position := createPosition st in
  let start := cur_position st in
  st <- while (fun st =>
                 in_input st &&
                 (isAlphaNumeric (current_char st) || is_char (current_char st) (ch "_")))
          (fun st => Some (Continue (advance 1 st)))
          rounds st ;;
  let value := substring input start (cur_position st) in
  let lower := map lower_ascii value in
  match assoc_string lower keywords with
  | Some _ => Some (createToken (getKeywordTokenType lower) value position, st)
  | None =>
      if isObfuscatedName value
      then Some (createToken OBFUSCATED_NAME value position, st)
      else Some (createToken IDENTIFIER value position, st)
  end.

Definition twoCharOperators : list (jsstring * LuaTokenType) :=
  [ (str "==", EQUAL); (str "~=", NOT_EQUAL); (str "<=", LESS_EQUAL);
    (str ">=", GREATER_EQUAL); (str "..", CONCAT); (str "::", DOUBLE_COLON) ].

Definition singleCharTokens : list (jsstring * LuaTokenType) :=
  [ (str "+", PLUS); (str "-", MINUS); (str "*", MULTIPLY); (str "/", DIVIDE);
    (str "%", MODULO); (str "^", POWER); (str "#", LENGTH); (str "<", LESS_THAN);
    (str ">", GREATER_THAN); (str "=", ASSIGN); (str ";", SEMICOLON);
    (str ",", COMMA); (str ".", DOT); (str ":", COLON); (str "(", LPAREN);
    (str ")", RPAREN); (str "{", LBRACE); (str "}", RBRACE); (str "[", LBRACKET);
    (str "]", RBRACKET); ([LF], NEWLINE) ].

(** The token, if one is produced, and the state behind it. *)
Definition nextToken (st : LexState) : option (option LuaToken * LexState) :=
  let current := current_char st in
  let position := createPosition st in
  let some (r : option (LuaToken * LexState)) :=
    '(t, st) <- r ;; Some (Some t, st) in
  let operators (_ : unit) :=
    let twoChar := firstn 2 (skipn (cur_position st) input) in
    match assoc_string twoChar twoCharOperators with
    | Some t => Some (Some (createToken t twoChar position), advance 2 st)
    | None =>
        match current with
        | Some c =>
            match assoc_string [c] singleCharTokens with
            | Some t => Some (Some (createToken t [c] position), advance 1 st)
            | None => Some (None, advance 1 st)         (* Unknown character *)
            end
        | None => Some (None, advance 1 st)
        end
    end in
  let identifiers (_ : unit) :=
    if isAlpha current || is_char current (ch "_")
    then some (readIdentifier st)
    else operators tt in
  if is_char current (ch "-") && is_char (peek st 1) (ch "-") then some (readComment st)
  else if isDigit current then some (readNumber st)
  else if is_char current DQUOTE || is_char current SQUOTE
  then some (readString (int_of current) st)
  else if is_char current (ch "[") then
    longStringStart <- checkLongStringStart st ;;
    match longStringStart with
    | Some level => some (readLongString level st)
    | None => identifiers tt
    end
  else identifiers tt.

Definition tokenize_loop (s : LexState * list LuaToken)
  : option (LexState * list LuaToken) :=
  while (fun '(st, _) => in_input st)
        (fun '(st, tokens) =>
           st <- skipWhitespace st ;;
           if negb (in_input st) then Some (Break (st, tokens))
           else
             '(token, st) <- nextToken st ;;
             match token with
             | Some t => Some (Continue (st, tokens ++ [t]))
             | None => Some (Continue (st, tokens))
             end)
        rounds s.

Definition tokenize : option (list LuaToken) :=
  '(st, tokens) <- tokenize_loop (mkLex 0 1 1, []) ;;
  Some (tokens ++ [mkToken EOF [] (cur_line st) (cur_column st) (cur_position st)]).

End WithInput.

End Lexer.
(* ================================================================== *)
(** * types/VMInstructions.ts                                          *)
(* ================================================================== *)

Module VMInstructions.

Inductive LuaOpcode :=
| MOVE | LOADK | LOADKX | LOADBOOL | LOADNIL | GETUPVAL | GETTABUP | GETTABLE
| SETTABUP | SETUPVAL | SETTABLE | NEWTABLE | SELF | ADD | SUB | MUL | MOD | POW
| DIV | IDIV | BAND | BOR | BXOR | SHL | SHR | UNM | BNOT | NOT | LEN | CONCAT
| JMP | EQ | LT | LE | TEST | TESTSET | CALL | TAILCALL | RETURN | FORLOOP
| FORPREP | TFORCALL | TFORLOOP | SETLIST | CLOSURE | VARARG | EXTRAARG.

(** The numeric value of the enumeration member. *)
Definition opcode_number (op : LuaOpcode) : Z :=
  match op with
  | MOVE => 0 | LOADK => 1 | LOADKX => 2 | LOADBOOL => 3 | LOADNIL => 4
  | GETUPVAL => 5 | GETTABUP => 6 | GETTABLE => 7 | SETTABUP => 8 | SETUPVAL => 9
  | SETTABLE => 10 | NEWTABLE => 11 | SELF => 12 | ADD => 13 | SUB => 14
  | MUL => 15 | MOD => 16 | POW => 17 | DIV => 18 | IDIV => 19 | BAND => 20
  | BOR => 21 | BXOR => 22 | SHL => 23 | SHR => 24 | UNM => 25 | BNOT => 26
  | NOT => 27 | LEN => 28 | CONCAT => 29 | JMP => 30 | EQ => 31 | LT => 32
  | LE => 33 | TEST => 34 | TESTSET => 35 | CALL => 36 | TAILCALL => 37
  | RETURN => 38 | FORLOOP => 39 | FORPREP => 40 | TFORCALL => 41
  | TFORLOOP => 42 | SETLIST => 43 | CLOSURE => 44 | VARARG => 45
  | EXTRAARG => 46
  end.

Definition opcode_eqb (x y : LuaOpcode) : bool := opcode_number x =? opcode_number y.

Record VMInstruction := mkInstruction {
  opcode : LuaOpcode;
  a : Z;                  (* Register A *)
  b : Z;                  (* Register/constant B *)
  c : Z;                  (* Register/constant C *)
  bx : option Z;          (* Extended B operand *)
  sbx : option Z;         (* Signed extended B operand *)
  ax : option Z;          (* Extended A operand *)
  line : option Z         (* Source line number *)
}.

Inductive ConstantType := TNil | TBoolean | TNumber | TString.

Definition type_name (t : ConstantType) : jsstring :=
  match t with
  | TNil => str "nil"
  | TBoolean => str "boolean"
  | TNumber => str "number"
  | TString => str "string"
  end.

Record VMConstant := mkConstant {
  ctype : ConstantType;
  cvalue : JSValue;
  cindex : Z
}.

Record VMUpvalue := mkUpvalue {
  up_name : jsstring;
  up_index : Z;
  up_isLocal : bool;
  up_register : Z
}.

#[local] Unset Elimination Schemes.
Inductive VMProto := mkProto {
  instructions : list VMInstruction;
  constants : list VMConstant;
  upvalues : list VMUpvalue;
  protos : list VMProto;
  source : jsstring;
  lineDefined : Z;
  lastLineDefined : Z;
  numParams : Z;
  isVararg : bool;
  maxStackSize : Z
}.
#[local] Set Elimination Schemes.

Record LuraphVMHandler := mkHandler {
  h_index : Z;
  h_opcode : Z;
  h_handler : jsstring;
  h_encrypted : bool;
  h_decrypted : option jsstring
}.

End VMInstructions.
(* ================================================================== *)
(** * LuacGenerator.ts                                                 *)
(* ================================================================== *)

Module Emitter.
Import VMInstructions.

(** ** DataView over an ArrayBuffer

    The buffer is a list of bytes of fixed length.  A write outside it
    throws a [RangeError]: [None]. *)
Definition DataView := list Z.

Fixpoint store (i : nat) (v : Z) (buffer : DataView) : DataView :=
  match buffer, i with
  | [], _ => []
  | _ :: rest, O => v :: rest
  | x :: rest, S i' => x :: store i' v rest
  end.

Fixpoint store_bytes (i : nat) (bytes : list Z) (buffer : DataView) : DataView :=
  match bytes with
  | [] => buffer
  | v :: rest => store_bytes (S i) rest (store i v buffer)
  end.

(** The bytes of [v mod 256^n], least significant first. *)
Fixpoint little_endian (n : nat) (v : Z) : list Z :=
  match n with
  | O => []
  | S n' => v mod 256 :: little_endian n' (v / 256)
  end.

Definition set_bytes (dataView : DataView) (offset : Z) (bytes : list Z)
  : option DataView :=
  if (0 <=? offset) && (offset + Z.of_nat (List.length bytes) <=? Z.of_nat (List.length dataView))
  then Some (store_bytes (Z.to_nat offset) bytes dataView)
  else None.

Definition setUint8 (dataView : DataView) (offset v : Z) : option DataView :=
  set_bytes dataView offset (little_endian 1 v).
Definition setUint32 (dataView : DataView) (offset v : Z) : option DataView :=
  set_bytes dataView offset (little_endian 4 v).
Definition setBigInt64 (dataView : DataView) (offset v : Z) : option DataView :=
  set_bytes dataView offset (little_endian 8 v).
Definition setFloat64 (dataView : DataView) (offset : Z) (v : JSNumber) : option DataView :=
  set_bytes dataView offset (little_endian 8 (f64_bits v)).

(** [getUint32(0, true)] and [getUint8(4)]; [None] is the [RangeError]
    of a view that is too short. *)
Definition getUint32_at0 (dataView : DataView) : option Z :=
  match dataView with
  | b0 :: b1 :: b2 :: b3 :: _ => Some (b0 + 256 * (b1 + 256 * (b2 + 256 * b3)))
  | _ => None
  end.
Definition getUint8_at (dataView : DataView) (i : nat) : option Z := nth_error dataView i.

(** ** Constants of the class *)

Definition LUA_SIGNATURE : Z := 0x1B4C7561.
Definition LUAC_VERSION : Z := 0x53.
Definition LUAC_FORMAT : Z := 0.
Definition LUAC_DATA : jsstring := [0x19; 0x93; CR; LF; 0x1a; LF].

(** The number literal [370.5]: 741 * 2^-1 = 0x1.728p+8. *)
Definition number_370_5 : JSNumber := F64 0x4077280000000000.

(** A writer returns the buffer it has written to and the new offset. *)
Definition Written := (DataView * Z)%type.

Fixpoint write_u8s (dataView : DataView) (offset : Z) (values : list Z) : option Written :=
  match values with
  | [] => Some (dataView, offset)
  | v :: rest =>
      dataView <- setUint8 dataView offset v ;;
      write_u8s dataView (offset + 1) rest
  end.

Definition writeHeader (dataView : DataView) (offset : Z) : option Written :=
  (* Lua signature *)
  dataView <- setUint32 dataView offset LUA_SIGNATURE ;;
  let offset := offset + 4 in
  (* Version *)
  dataView <- setUint8 dataView offset LUAC_VERSION ;;
  let offset := offset + 1 in
  (* Format *)
  dataView <- setUint8 dataView offset LUAC_FORMAT ;;
  let offset := offset + 1 in
  (* Data to catch conversion errors *)
  '(dataView, offset) <- write_u8s dataView offset LUAC_DATA ;;
  (* Size of int, size_t, Instruction, lua_Integer, lua_Number *)
  dataView <- setUint8 dataView offset 4 ;;
  let offset := offset + 1 in
  dataView <- setUint8 dataView offset 8 ;;
  let offset := offset + 1 in
  dataView <- setUint8 dataView offset 4 ;;
  let offset := offset + 1 in
  dataView <- setUint8 dataView offset 8 ;;
  let offset := offset + 1 in
  dataView <- setUint8 dataView offset 8 ;;
  let offset := offset + 1 in
  (* Lua integers and numbers for validation *)
  dataView <- setBigInt64 dataView offset 0x5678 ;;
  let offset := offset + 8 in
  dataView <- setFloat64 dataView offset number_370_5 ;;
  let offset := offset + 8 in
  Some (dataView, offset).

Section WithConversions.
(** Built-in conversions that only matter for a constant whose value
    does not have the type its tag announces. *)
Variable Number_toString : JSNumber -> jsstring.
Variable String_toNumber : jsstring -> JSNumber.

Definition ToString (v : JSValue) : jsstring :=
  match v with
  | VNull => str "null"
  | VUndefined => str "undefined"
  | VBool true => str "true"
  | VBool false => str "false"
  | VNumber n => Number_toString n
  | VString s => s
  end.

Definition NaN : JSNumber := F64 0x7FF8000000000000.

Definition ToNumber (v : JSValue) : JSNumber :=
  match v with
  | VNull => F64 0
  | VUndefined => NaN
  | VBool true => number_of_Z 1
  | VBool false => F64 0
  | VNumber n => n
  | VString s => String_toNumber s
  end.

Definition writeString (dataView : DataView) (offset : Z) (s : JSValue) : option Written :=
  if negb (truthy s) then
    dataView <- setUint8 dataView offset 0 ;;
    Some (dataView, offset + 1)
  else
    let strBytes := utf8_encode (ToString s) in
    (* Write size (including null terminator) *)
    dataView <- setUint8 dataView offset (Z.of_nat (List.length strBytes) + 1) ;;
    let offset := offset + 1 in
    (* Write string bytes *)
    '(dataView, offset) <- write_u8s dataView offset strBytes ;;
    (* Null terminator *)
    dataView <- setUint8 dataView offset 0 ;;
    Some (dataView, offset + 1).

Definition writeConstant (dataView : DataView) (offset : Z) (constant : VMConstant)
  : option Written :=
  match ctype constant with
  | TNil =>
      dataView <- setUint8 dataView offset 0 ;;             (* LUA_TNIL *)
      Some (dataView, offset + 1)
  | TBoolean =>
      dataView <- setUint8 dataView offset 1 ;;             (* LUA_TBOOLEAN *)
      let offset := offset + 1 in
      dataView <- setUint8 dataView offset (if truthy (cvalue constant) then 1 else 0) ;;
      Some (dataView, offset + 1)
  | TNumber =>
      match cvalue constant with
      | VNumber n =>
          if Number_isInteger n then
            dataView <- setUint8 dataView offset 3 ;;       (* LUA_TNUMINT *)
            let offset := offset + 1 in
            dataView <- setBigInt64 dataView offset (BigInt_of n) ;;
            Some (dataView, offset + 8)
          else
            dataView <- setUint8 dataView offset 19 ;;      (* LUA_TNUMFLT *)
            let offset := offset + 1 in
            dataView <- setFloat64 dataView offset n ;;
            Some (dataView, offset + 8)
      | v =>                           (* Number.isInteger is false *)
          dataView <- setUint8 dataView offset 19 ;;
          let offset := offset + 1 in
          dataView <- setFloat64 dataView offset (ToNumber v) ;;
          Some (dataView, offset + 8)
      end
  | TString =>
      dataView <- setUint8 dataView offset 4 ;;             (* LUA_TSHRSTR or LUA_TLNGSTR *)
      let offset := offset + 1 in
      writeString dataView offset (cvalue constant)
  end.

Definition encodeInstruction (instruction : VMInstruction) : Z :=
  let encoded := 0 in
  (* Opcode (6 bits) *)
  let encoded := js_or encoded (js_and (opcode_number (opcode instruction)) 0x3F) in
  (* Register A (8 bits) *)
  let encoded := js_or encoded (js_shl (js_and (a instruction) 0xFF) 6) in
  match bx instruction, sbx instruction, ax instruction with
  | Some bx, _, _ =>
      js_or encoded (js_shl (js_and bx 0x3FFFF) 14)
  | None, Some sbx, _ =>
      let sBx := double_sum sbx 131071 in
      js_or encoded (js_shl (js_and sBx 0x3FFFF) 14)
  | None, None, Some ax =>
      js_or encoded (js_shl (js_and ax 0x3FFFFFF) 6)
  | None, None, None =>
      let encoded := js_or encoded (js_shl (js_and (b instruction) 0x1FF) 23) in
      js_or encoded (js_shl (js_and (c instruction) 0x1FF) 14)
  end.

(** A [for ... of] loop over [items] that threads the buffer and the
    offset through [write]. *)
Section ForEach.
Context {A : Type}.
Variable write : DataView -> Z -> A -> option Written.

Fixpoint write_each (dataView : DataView) (offset : Z) (items : list A)
  : option Written :=
  match items with
  | [] => Some (dataView, offset)
  | x :: rest =>
      '(dataView, offset) <- write dataView offset x ;;
      write_each dataView offset rest
  end.
End ForEach.

Definition writeDebugInfo (dataView : DataView) (offset : Z) (proto : VMProto)
  : option Written :=
  (* Line info *)
  dataView <- setUint32 dataView offset (Z.of_nat (List.length (instructions proto))) ;;
  let offset := offset + 4 in
  '(dataView, offset) <-
    write_each (fun dataView offset instruction =>
                  dataView <- setUint32 dataView offset
                                (match line instruction with
                                 | Some l => l
                                 | None => 0
                                 end) ;;
                  Some (dataView, offset + 4))
               dataView offset (instructions proto) ;;
  (* Local variables *)
  dataView <- setUint32 dataView offset 0 ;;
  let offset := offset + 4 in
  (* Upvalue names *)
  dataView <- setUint32 dataView offset (Z.of_nat (List.length (upvalues proto))) ;;
  let offset := offset + 4 in
  write_each (fun dataView offset upvalue =>
                writeString dataView offset (VString (up_name upvalue)))
             dataView offset (upvalues proto).

Fixpoint writeFunction (dataView : DataView) (offset : Z) (proto : VMProto)
  {struct proto} : option Written :=
  (* Source name *)
  '(dataView, offset) <-
    (if truthy (VString (source proto))
     then writeString dataView offset (VString (source proto))
     else writeString dataView offset (VString (str "@deobfuscated.lua"))) ;;
  (* Line defined *)
  dataView <- setUint32 dataView offset (lineDefined proto) ;;
  let offset := offset + 4 in
  (* Last line defined *)
  dataView <- setUint32 dataView offset (lastLineDefined proto) ;;
  let offset := offset + 4 in
  (* Number of parameters *)
  dataView <- setUint8 dataView offset (numParams proto) ;;
  let offset := offset + 1 in
  (* Is vararg *)
  dataView <- setUint8 dataView offset (if isVararg proto then 1 else 0) ;;
  let offset := offset + 1 in
  (* Max stack size *)
  dataView <- setUint8 dataView offset (Z.max (maxStackSize proto) 2) ;;
  let offset := offset + 1 in
  (* Instructions *)
  dataView <- setUint32 dataView offset (Z.of_nat (List.length (instructions proto))) ;;
  let offset := offset + 4 in
  '(dataView, offset) <-
    write_each (fun dataView offset instruction =>
                  dataView <- setUint32 dataView offset (encodeInstruction instruction) ;;
                  Some (dataView, offset + 4))
               dataView offset (instructions proto) ;;
  (* Constants *)
  dataView <- setUint32 dataView offset (Z.of_nat (List.length (constants proto))) ;;
  let offset := offset + 4 in
  '(dataView, offset) <- write_each writeConstant dataView offset (constants proto) ;;
  (* Upvalues *)
  dataView <- setUint32 dataView offset (Z.of_nat (List.length (upvalues proto))) ;;
  let offset := offset + 4 in
  '(dataView, offset) <-
    write_each (fun dataView offset upvalue =>
                  dataView <- setUint8 dataView offset (if up_isLocal upvalue then 1 else 0) ;;
                  let offset := offset + 1 in
                  dataView <- setUint8 dataView offset (up_register upvalue) ;;
                  Some (dataView, offset + 1))
               dataView offset (upvalues proto) ;;
  (* Nested functions *)
  dataView <- setUint32 dataView offset (Z.of_nat (List.length (protos proto))) ;;
  let offset := offset + 4 in
  '(dataView, offset) <- write_each writeFunction dataView offset (protos proto) ;;
  (* Debug info *)
  writeDebugInfo dataView offset proto.

(** [new ArrayBuffer(n)]: [n] zero bytes. *)
Definition ArrayBuffer (n : Z) : DataView := repeat 0 (Z.to_nat n).

(** The body of [generateLuac], for the buffer it allocates.  The
    result is the content of the buffer that [buffer.slice(0, offset)]
    makes, of which the array returned is the whole. *)
Definition generateLuac_in (buffer : DataView) (proto : VMProto) : option (list Z) :=
  let dataView := buffer in
  let offset := 0 in
  (* Write Lua header *)
  '(dataView, offset) <- writeHeader dataView offset ;;
  (* Write main function prototype *)
  '(dataView, offset) <- writeFunction dataView offset proto ;;
  (* Return the used portion of the buffer *)
  Some (firstn (Z.to_nat offset) dataView).

Definition generateLuac (proto : VMProto) : option (list Z) :=
  generateLuac_in (ArrayBuffer (1024 * 64)) proto.           (* 64KB initial buffer *)

End WithConversions.

(** Helper method to create a basic function prototype *)
Definition createBasicProto (source : jsstring) : VMProto :=
  mkProto
    [ mkInstruction LOADK 0 0 0 (Some 0) None None (Some 1);
      mkInstruction CALL 0 1 1 None None None (Some 1);
      mkInstruction RETURN 0 1 0 None None None (Some 1) ]
    [ mkConstant TString (VString (str "print")) 0 ]
    [] [] source 0 1 0 false 2.

(** A [Uint8Array]: the [array_length] bytes of [buffer] that start at
    [byteOffset]. *)
Record Uint8Array := mkUint8Array {
  buffer : list Z;
  byteOffset : nat;
  array_length : nat
}.

(** [new Uint8Array(buffer)]: the whole of a buffer. *)
Definition new_Uint8Array (buffer : list Z) : Uint8Array :=
  mkUint8Array buffer 0 (List.length buffer).

(** [bytecode.subarray(start)] *)
Definition subarray (bytecode : Uint8Array) (start : nat) : Uint8Array :=
  let start := Nat.min start (array_length bytecode) in
  mkUint8Array (buffer bytecode) (byteOffset bytecode + start)
               (array_length bytecode - start).

(** The elements of the array. *)
Definition elements (bytecode : Uint8Array) : list Z :=
  firstn (array_length bytecode) (skipn (byteOffset bytecode) (buffer bytecode)).

(** Validate the generated bytecode.  The view is made of the buffer
    behind the array and starts at the first byte of it, wherever the
    array starts.  A read outside the view
    throws, and the [catch] clause answers [false]. *)
Definition validateLuac (bytecode : Uint8Array) : bool :=
  let dataView := buffer bytecode in            (* new DataView(bytecode.buffer) *)
  match getUint32_at0 dataView with
  | None => false
  | Some signature =>
      if negb (signature =? LUA_SIGNATURE) then false
      else
        match getUint8_at dataView 4 with
        | None => false
        | Some version =>
            if negb (version =? LUAC_VERSION) then false
            else true
        end
  end.

End Emitter.
(* ================================================================== *)
(** * types/ASTNodes.ts                                                *)
(* ================================================================== *)

Module AST.

(** The [position] of a node: the parser stores the byte offset of a
    token there, or the object [{ line, column }]; objects built by hand
    have none. *)
Inductive Position :=
| PosOffset (offset : nat)
| PosLineColumn (line column : nat)
| PosUndefined.

Inductive FieldKind := ListField | RecordField.
Inductive ForKind := NumericFor | GenericFor.

(** Every node has a position and may have [children]; the rest depends
    on its [type].  [Untyped] is an object literal without a [type], as
    [createMockFunctionFromHandler] builds them. *)
#[local] Unset Elimination Schemes.
Inductive ASTNode :=
| Node (position : Position) (children : option (list ASTNode)) (variant : Variant)
with Variant :=
| Literal (value : JSValue) (dataType : jsstring)
| Identifier (name : jsstring) (isObfuscated : bool)
| FunctionDeclaration (name : ASTNode) (parameters : list ASTNode) (body : ASTNode)
                      (isLocal : bool) (isVMHandler : bool) (handlerIndex : option Z)
| CallExpression (callee : ASTNode) (arguments : list ASTNode)
                 (isVMCall : bool) (vmOperation : option jsstring)
| BlockStatement (statements : list ASTNode)
| AssignmentExpression (left right : list ASTNode) (isLocal : bool)
| TableConstructor (fields : list ASTNode) (isConstantTable : bool)
| TableField (key : option ASTNode) (value : ASTNode) (kind : FieldKind)
| IfStatement (condition consequent : ASTNode) (alternate : option ASTNode)
| ForStatement (init : ASTNode) (condition : option ASTNode) (update body : ASTNode)
               (kind : ForKind)
| WhileStatement (condition body : ASTNode)
| ReturnStatement (arguments : list ASTNode)
| BinaryExpression (left : ASTNode) (operator : jsstring) (right : ASTNode)
| UnaryExpression (operator : jsstring) (argument : ASTNode)
| EncryptedString (encryptedValue : jsstring) (encryptionMethod : jsstring)
| Untyped (name : option jsstring) (value : option JSValue).
#[local] Set Elimination Schemes.

Definition variant_of (n : ASTNode) : Variant :=
  match n with Node _ _ v => v end.
Definition position_of (n : ASTNode) : Position :=
  match n with Node p _ _ => p end.
Definition children_of (n : ASTNode) : option (list ASTNode) :=
  match n with Node _ c _ => c end.

(** [node.type] *)
Definition type_of (n : ASTNode) : option jsstring :=
  match variant_of n with
  | Literal _ _ => Some (str "Literal")
  | Identifier _ _ => Some (str "Identifier")
  | FunctionDeclaration _ _ _ _ _ _ => Some (str "FunctionDeclaration")
  | CallExpression _ _ _ _ => Some (str "CallExpression")
  | BlockStatement _ => Some (str "BlockStatement")
  | AssignmentExpression _ _ _ => Some (str "AssignmentExpression")
  | TableConstructor _ _ => Some (str "TableConstructor")
  | TableField _ _ _ => Some (str "TableField")
  | IfStatement _ _ _ => Some (str "IfStatement")
  | ForStatement _ _ _ _ _ => Some (str "ForStatement")
  | WhileStatement _ _ => Some (str "WhileStatement")
  | ReturnStatement _ => Some (str "ReturnStatement")
  | BinaryExpression _ _ _ => Some (str "BinaryExpression")
  | UnaryExpression _ _ => Some (str "UnaryExpression")
  | EncryptedString _ _ => Some (str "EncryptedString")
  | Untyped _ _ => None
  end.

(** A node as the parser builds it: without [children]. *)
Definition node (p : Position) (v : Variant) : ASTNode := Node p None v.

(** An object literal written without a position. *)
Definition object (v : Variant) : ASTNode := Node PosUndefined None v.

(** What a statement did: it returned, or it threw. *)
Inductive Outcome (A : Type) :=
| Returned (x : A)
| Threw (message : jsstring).
Arguments Returned {A} x.
Arguments Threw {A} message.

End AST.
(* ================================================================== *)
(** * SymbolicExecutor.ts                                              *)
(* ================================================================== *)

Module SymbolicExecutor.
Import AST VMInstructions.

(** A [Map] with numeric keys, in insertion order. *)
Definition NumberMap (V : Type) := list (Z * V).

Fixpoint map_get {V} (m : NumberMap V) (key : Z) : option V :=
  match m with
  | [] => None
  | (k, v) :: m' => if k =? key then Some v else map_get m' key
  end.

Fixpoint map_set {V} (m : NumberMap V) (key : Z) (v : V) : NumberMap V :=
  match m with
  | [] => [(key, v)]
  | (k, v') :: m' => if k =? key then (k, v) :: m' else (k, v') :: map_set m' key v
  end.

Definition or_undefined (v : option JSValue) : JSValue :=
  match v with Some x => x | None => VUndefined end.

Record SymbolicContext := mkContext {
  registers : NumberMap JSValue;
  ctx_constants : NumberMap JSValue;
  globals : list (jsstring * JSValue);
  stack : list JSValue;
  pc : Z
}.

Record ExecutionResult := mkExecution {
  exec_opcode : LuaOpcode;
  operands : list Z;
  sideEffects : list (jsstring * JSValue);
  isComplete : bool
}.

Definition maxExecutionSteps : nat := 1000.

Definition resetContext : SymbolicContext := mkContext [] [] [] [] 0.

(** [vmContext.constants.forEach((constant, index) => ...)]; the
    reconstruction context has no [globals]. *)
Fixpoint initialize_from (index : Z) (constants : list VMConstant)
         (m : NumberMap JSValue) : NumberMap JSValue :=
  match constants with
  | [] => m
  | constant :: rest => initialize_from (index + 1) rest (map_set m index (cvalue constant))
  end.

Definition initializeContext (ctx : SymbolicContext) (constants : list VMConstant)
  : SymbolicContext :=
  mkContext (registers ctx) (initialize_from 0 constants (ctx_constants ctx))
            (globals ctx) (stack ctx) (pc ctx).

Definition type_is (n : ASTNode) (t : string) : bool :=
  match type_of n with
  | Some s => string_eqb s (str t)
  | None => false
  end.

Definition access_of (table : string) (n : ASTNode) : bool :=
  match variant_of n with
  | BinaryExpression binary_left operator _ =>
      string_eqb operator (str "[]") && type_is binary_left "Identifier" &&
      match variant_of binary_left with
      | Identifier name _ => string_eqb name (str table)
      | _ => false
      end
  | _ => false
  end.

Definition isRegisterAccess (n : ASTNode) : bool := access_of "R" n.
Definition isConstantAccess (n : ASTNode) : bool := access_of "K" n.

(** The operands of an instruction are integers.  An index literal that
    is not an integer has no counterpart among them; its integer part
    stands for it. *)
Definition extractRegisterIndex (n : ASTNode) : Z :=
  match variant_of n with
  | BinaryExpression _ _ binary_right =>
      match variant_of binary_right with
      | Literal (VNumber v) _ => number_trunc v
      | Literal _ _ => -1
      | _ => -1
      end
  | _ => -1
  end.

Definition extractConstantIndex (n : ASTNode) : Z := extractRegisterIndex n.

Definition mapOperatorToOpcode (operator : jsstring) : option LuaOpcode :=
  if string_eqb operator (str "+") then Some ADD
  else if string_eqb operator (str "-") then Some SUB
  else if string_eqb operator (str "*") then Some MUL
  else if string_eqb operator (str "/") then Some DIV
  else if string_eqb operator (str "%") then Some MOD
  else if string_eqb operator (str "^") then Some POW
  else if string_eqb operator (str "..") then Some CONCAT
  else if string_eqb operator (str "&") then Some BAND
  else if string_eqb operator (str "|") then Some BOR
  else if string_eqb operator (str "~") then Some BXOR
  else if string_eqb operator (str "<<") then Some SHL
  else if string_eqb operator (str ">>") then Some SHR
  else None.

Definition set_register (ctx : SymbolicContext) (r : Z) (v : JSValue) : SymbolicContext :=
  mkContext (map_set (registers ctx) r v) (ctx_constants ctx) (globals ctx)
            (stack ctx) (pc ctx).

(** The result, [null] or not, and the context the statement leaves. *)
Definition executeAssignment (ctx : SymbolicContext) (lefts rights : list ASTNode)
  : option ExecutionResult * SymbolicContext :=
  match hd_error lefts, hd_error rights with
  | Some left0, Some right0 =>
      let arithmetic :=
        (* Handle arithmetic operations: R[A] = R[B] + R[C] *)
        match variant_of right0 with
        | BinaryExpression binary_left operator binary_right =>
            if isRegisterAccess left0 then
              let regA := extractRegisterIndex left0 in
              let regB := extractRegisterIndex binary_left in
              let regC := extractRegisterIndex binary_right in
              if negb (regA =? -1) && negb (regB =? -1) && negb (regC =? -1) then
                match mapOperatorToOpcode operator with
                | Some opcode =>
                    (Some (mkExecution opcode [regA; regB; regC] [] true), ctx)
                | None => (None, ctx)
                end
              else (None, ctx)
            else (None, ctx)
        | _ => (None, ctx)
        end in
      let constant_loading :=
        (* Handle constant loading: R[A] = K[B] *)
        if isRegisterAccess left0 && isConstantAccess right0 then
          let regA := extractRegisterIndex left0 in
          let constB := extractConstantIndex right0 in
          if negb (regA =? -1) && negb (constB =? -1) then
            (Some (mkExecution LOADK [regA; constB; 0] [] true),
             set_register ctx regA (or_undefined (map_get (ctx_constants ctx) constB)))
          else arithmetic
        else arithmetic in
      (* Handle register assignments: R[A] = R[B] *)
      if isRegisterAccess left0 && isRegisterAccess right0 then
        let regA := extractRegisterIndex left0 in
        let regB := extractRegisterIndex right0 in
        if negb (regA =? -1) && negb (regB =? -1) then
          (Some (mkExecution MOVE [regA; regB; 0] [] true),
           set_register ctx regA (or_undefined (map_get (registers ctx) regB)))
        else constant_loading
      else constant_loading
  | _, _ => (None, ctx)
  end.

Definition executeCall (ctx : SymbolicContext) (callee : ASTNode) (args : list ASTNode)
  : option ExecutionResult * SymbolicContext :=
  if isRegisterAccess callee then
    let regA := extractRegisterIndex callee in
    let numArgs := Z.of_nat (List.length args) in
    let numReturns := 1 in
    (Some (mkExecution CALL [regA; numArgs + 1; numReturns + 1] [] true), ctx)
  else (None, ctx).

Definition executeReturn (ctx : SymbolicContext)
  : option ExecutionResult * SymbolicContext :=
  (Some (mkExecution RETURN [0; 1; 0] [] true), ctx).

Definition executeStatement (ctx : SymbolicContext) (n : ASTNode)
  : option ExecutionResult * SymbolicContext :=
  match variant_of n with
  | AssignmentExpression lefts rights _ => executeAssignment ctx lefts rights
  | CallExpression callee args _ _ => executeCall ctx callee args
  | ReturnStatement _ => executeReturn ctx
  | _ => (None, ctx)
  end.

(** [operands[i] || 0] *)
Definition operand (l : list Z) (i : nat) : Z := nth i l 0.

(** The loop of [executeBlock]: [executionSteps] counts the statements
    met so far, [lastInstruction] is the last completed one. *)
Fixpoint executeBlock_loop (statements : list ASTNode) (executionSteps : nat)
         (lastInstruction : option VMInstruction) (ctx : SymbolicContext)
  : option VMInstruction * SymbolicContext :=
  match statements with
  | [] => (lastInstruction, ctx)
  | statement :: rest =>
      if (maxExecutionSteps <? executionSteps)%nat then (lastInstruction, ctx)
      else
        let '(result, ctx) := executeStatement ctx statement in
        let lastInstruction :=
          match result with
          | Some result =>
              if isComplete result
              then Some (mkInstruction (exec_opcode result)
                                       (operand (operands result) 0)
                                       (operand (operands result) 1)
                                       (operand (operands result) 2)
                                       None None None None)
              else lastInstruction
          | None => lastInstruction
          end in
        executeBlock_loop rest (S executionSteps) lastInstruction ctx
  end.

Definition executeBlock (ctx : SymbolicContext) (block : option ASTNode)
  : Outcome (ExecutionResult * SymbolicContext) :=
  match block with
  | Some (Node _ _ (BlockStatement statements)) =>
      let '(lastInstruction, ctx) := executeBlock_loop statements 0 None ctx in
      Returned
        (match lastInstruction with
         | Some i => mkExecution (opcode i) [a i; b i; c i] [] true
         | None => mkExecution MOVE [0; 0; 0] [] false
         end, ctx)
  | _ => Threw (str "TypeError")        (* no [statements] to iterate over *)
  end.

(** [handler.body] *)
Definition body_of (handler : ASTNode) : option ASTNode :=
  match variant_of handler with
  | FunctionDeclaration _ _ body _ _ _ => Some body
  | _ => None
  end.

Definition executeVMHandler (handler : ASTNode) (vmConstants : list VMConstant)
  : Outcome (ExecutionResult * SymbolicContext) :=
  let ctx := resetContext in
  let ctx := initializeContext ctx vmConstants in
  executeBlock ctx (body_of handler).

End SymbolicExecutor.
(* ================================================================== *)
(** * BytecodeReconstructor.ts                                         *)
(* ================================================================== *)

Module Reconstructor.
Import AST VMInstructions SymbolicExecutor.

Record ReconstructionContext := mkReconstruction {
  handlers : NumberMap LuraphVMHandler;
  rc_constants : list VMConstant;
  encryptionInfo : Decryptor.EncryptionInfo;
  vmVersion : jsstring;
  instructionMapping : NumberMap Z
}.

Record Statistics := mkStatistics {
  handlersProcessed : Z;
  instructionsReconstructed : Z;
  constantsDecrypted : Z;
  errors : list jsstring
}.

Record ReconstructionResult := mkReconstructionResult {
  rr_success : bool;
  rr_proto : VMProto;
  statistics : Statistics
}.

(** ** The patterns of [parseHandlerCode] and [reconstructFromPatterns]

    A pattern is a sequence of literal characters, [(\d+)] groups and
    [\s*].  In every pattern of the source a repetition is followed by a
    character outside its class, so that the match which gives each
    repetition all it can take is the only one. *)
Inductive Item :=
| Chr (c : Z)
| Digits                (* (\d+), captured *)
| Spaces.               (* \s* *)

Fixpoint span (p : Z -> bool) (s : jsstring) : jsstring * jsstring :=
  match s with
  | c :: rest => if p c then let '(taken, remaining) := span p rest in (c :: taken, remaining)
                 else ([], s)
  | [] => ([], [])
  end.

(** The groups of a match that starts at the head of [s]. *)
Fixpoint match_here (items : list Item) (s : jsstring) : option (list jsstring) :=
  match items with
  | [] => Some []
  | Chr c :: items' =>
      match s with
      | x :: rest => if x =? c then match_here items' rest else None
      | [] => None
      end
  | Digits :: items' =>
      let '(digits, rest) := span is_digit s in
      match digits with
      | [] => None
      | _ => groups <- match_here items' rest ;; Some (digits :: groups)
      end
  | Spaces :: items' =>
      let '(_, rest) := span is_space s in match_here items' rest
  end.

(** [s.match(regex)]: the leftmost match. *)
Fixpoint regex_match (items : list Item) (s : jsstring) : option (list jsstring) :=
  match match_here items s with
  | Some groups => Some groups
  | None =>
      match s with
      | [] => None
      | _ :: rest => regex_match items rest
      end
  end.

Definition literal (s : string) : list Item := map Chr (str s).

Definition register_group : list Item := literal "R[" ++ [Digits] ++ literal "]".
Definition constant_group : list Item := literal "K[" ++ [Digits] ++ literal "]".
Definition assigns : list Item := [Spaces; Chr (ch "="); Spaces].

(** /R\[(\d+)\]\s*=\s*R\[(\d+)\]/ *)
Definition move_regex : list Item := register_group ++ assigns ++ register_group.
(** /R\[(\d+)\]\s*=\s*K\[(\d+)\]/ *)
Definition loadk_regex : list Item := register_group ++ assigns ++ constant_group.
(** /R\[(\d+)\]\s*=\s*R\[(\d+)\]\s*\+\s*R\[(\d+)\]/ *)
Definition add_regex : list Item :=
  register_group ++ assigns ++ register_group ++ [Spaces; Chr (ch "+"); Spaces]
  ++ register_group.
(** /R\[(\d+)\]\s*=\s*R\[(\d+)\]\s*-\s*R\[(\d+)\]/ *)
Definition sub_regex : list Item :=
  register_group ++ assigns ++ register_group ++ [Spaces; Chr (ch "-"); Spaces]
  ++ register_group.
(** /R\[(\d+)\]\(/ *)
Definition call_regex : list Item := register_group ++ literal "(".
(** /return/ *)
Definition return_regex : list Item := literal "return".

(** [parseInt(match[i])]; [match[0]] is the whole match, which the
    sources never read.  [None] is the [NaN] of a group that is not
    there. *)
Definition group (groups : list jsstring) (i : nat) : option Z :=
  match nth_error groups (i - 1) with
  | Some digits => Some (parseInt_digits digits)
  | None => None
  end.

(** ** decryptConstants *)

(** [decryptString] of the decryptor, which always returns. *)
Definition decryptString (encrypted : jsstring) (info : Decryptor.EncryptionInfo)
  : Decryptor.DecryptionResult :=
  match Decryptor.decryptString Decryptor.call_depth encrypted info with
  | Some r => r
  | None => Decryptor.mkResult false encrypted (Decryptor.info_method info)
                               (Some (str "Unknown decryption error"))
  end.

Fixpoint decryptConstants_from (i : Z) (constants : list VMConstant)
         (info : Decryptor.EncryptionInfo) : list VMConstant :=
  match constants with
  | [] => []
  | constant :: rest =>
      (match ctype constant, cvalue constant with
       | TString, VString value =>
           let decryptionResult := decryptString value info in
           if Decryptor.success decryptionResult
           then mkConstant (ctype constant)
                           (VString (Decryptor.decrypted decryptionResult)) i
           else constant
       | _, _ => constant
       end) :: decryptConstants_from (i + 1) rest info
  end.

Definition decryptConstants (constants : list VMConstant) (info : Decryptor.EncryptionInfo)
  : list VMConstant :=
  decryptConstants_from 0 constants info.

(** ** reconstructHandler *)

Definition handler_patterns : list (list Item) :=
  [move_regex; loadk_regex; add_regex; sub_regex; call_regex; return_regex].

Definition number_or_NaN (v : option Z) : JSValue :=
  match v with
  | Some z => VNumber (number_of_Z z)
  | None => VNumber (F64 0x7FF8000000000000)
  end.

Definition mock_access (index : option Z) : ASTNode :=
  object (BinaryExpression (object (Untyped (Some (str "R")) None))
                           (str "[]")
                           (object (Untyped None (Some (number_or_NaN index))))).

(** The statements come from the first pattern that matches. *)
Fixpoint parseHandlerCode_loop (patterns : list (list Item)) (handlerCode : jsstring)
  : list ASTNode :=
  match patterns with
  | [] => []
  | pattern :: rest =>
      match regex_match pattern handlerCode with
      | Some groups =>
          [object (AssignmentExpression [mock_access (group groups 1)]
                                        [mock_access (group groups 2)] false)]
      | None => parseHandlerCode_loop rest handlerCode
      end
  end.

Definition parseHandlerCode (handlerCode : jsstring) : list ASTNode :=
  parseHandlerCode_loop handler_patterns handlerCode.

Definition createMockFunctionFromHandler (handler : LuraphVMHandler) (handlerCode : jsstring)
  : ASTNode :=
  object (FunctionDeclaration
            (object (Untyped (Some (str "handler_" ++ integer_text (h_index handler))) None))
            []
            (object (BlockStatement (parseHandlerCode handlerCode)))
            false false None).

Definition analyzeHandlerWithSymbolicExecution
           (handler : LuraphVMHandler) (handlerCode : jsstring)
           (context : ReconstructionContext) : Outcome ExecutionResult :=
  let mockFunction := createMockFunctionFromHandler handler handlerCode in
  match executeVMHandler mockFunction (rc_constants context) with
  | Returned (result, _) => Returned result
  | Threw e => Threw e
  end.

Definition instruction (opcode : LuaOpcode) (a b c : Z) (line : Z) : VMInstruction :=
  mkInstruction opcode a b c None None None (Some line).

Definition reconstructFromPatterns (handler : LuraphVMHandler) (handlerCode : jsstring)
  : option VMInstruction :=
  let emit opcode (operands : list Z) :=
    Some (instruction opcode (nth 0 operands 0) (nth 1 operands 0) (nth 2 operands 0)
                      (h_index handler)) in
  let g groups i := match group groups i with Some v => v | None => 0 end in
  match regex_match move_regex handlerCode with
  | Some m => emit MOVE [g m 1%nat; g m 2%nat; 0]
  | None =>
  match regex_match loadk_regex handlerCode with
  | Some m => emit LOADK [g m 1%nat; g m 2%nat; 0]
  | None =>
  match regex_match add_regex handlerCode with
  | Some m => emit ADD [g m 1%nat; g m 2%nat; g m 3%nat]
  | None =>
  match regex_match sub_regex handlerCode with
  | Some m => emit SUB [g m 1%nat; g m 2%nat; g m 3%nat]
  | None =>
  match regex_match call_regex handlerCode with
  | Some m => emit CALL [g m 1%nat; 1; 1]
  | None =>
  match regex_match return_regex handlerCode with
  | Some _ => emit RETURN [0; 1; 0]
  | None =>
      (* Default fallback *)
      Some (instruction MOVE 0 0 0 (h_index handler))
  end end end end end end.

(** Step 1 of [reconstructHandler]: the code to analyse. *)
Definition handlerCode_of (handler : LuraphVMHandler) (context : ReconstructionContext)
  : jsstring :=
  match h_encrypted handler, h_decrypted handler with
  | true, Some (x :: code) => x :: code
  | true, _ =>
      let decryptionResult := decryptString (h_handler handler) (encryptionInfo context) in
      if Decryptor.success decryptionResult
      then Decryptor.decrypted decryptionResult
      else h_handler handler
  | false, _ => h_handler handler
  end.

(** [None] is [null]. *)
Definition reconstructHandler (handler : LuraphVMHandler) (context : ReconstructionContext)
  : option VMInstruction :=
  (* Step 1: Decrypt handler if needed *)
  let handlerCode := handlerCode_of handler context in
  (* Step 2: Use symbolic execution to analyze the handler *)
  match analyzeHandlerWithSymbolicExecution handler handlerCode context with
  | Returned executionResult =>
      if isComplete executionResult then
        Some (instruction (exec_opcode executionResult)
                          (operand (operands executionResult) 0)
                          (operand (operands executionResult) 1)
                          (operand (operands executionResult) 2)
                          (h_index handler))
      else
        (* Step 3: Fallback to pattern matching *)
        reconstructFromPatterns handler handlerCode
  | Threw _ => None                                         (* catch *)
  end.

(** ** calculateMaxStackSize *)

Definition stack_after (currentStack : Z) (i : VMInstruction) : Z :=
  match opcode i with
  | LOADK | LOADBOOL | LOADNIL | MOVE => Z.max currentStack (double_sum (a i) 1)
  | CALL =>
      let currentStack :=
        if 0 <? b i then Z.max currentStack (double_sum (a i) (b i)) else currentStack in
      if 0 <? c i then Z.max currentStack (double_sum (double_sum (a i) (c i)) (-1))
      else currentStack
  | NEWTABLE => Z.max currentStack (double_sum (a i) 1)
  | ADD | SUB | MUL | DIV | MOD | POW => Z.max currentStack (double_sum (a i) 1)
  | _ => currentStack
  end.

Fixpoint calculateMaxStackSize_loop (instructions : list VMInstruction)
         (maxStack currentStack : Z) : Z :=
  match instructions with
  | [] => maxStack
  | i :: rest =>
      let currentStack := stack_after currentStack i in
      let maxStack := Z.max maxStack currentStack in
      calculateMaxStackSize_loop rest maxStack currentStack
  end.

Definition calculateMaxStackSize (instructions : list VMInstruction) : Z :=
  Z.max (calculateMaxStackSize_loop instructions 0 0) 2.     (* Minimum stack size *)

(** ** removeRedundantInstructions *)

Definition arithmeticOps : list LuaOpcode := [ADD; SUB; MUL; DIV].

Definition isRedundantArithmetic (current : VMInstruction) (next : option VMInstruction)
  : bool :=
  match next with
  | None => false
  | Some next =>
      if existsb (opcode_eqb (opcode current)) arithmeticOps &&
         existsb (opcode_eqb (opcode next)) arithmeticOps
      then (a current =? a next) && (b current =? b next) && (c current =? c next)
      else false
  end.

Fixpoint removeRedundantInstructions (instructions : list VMInstruction)
  : list VMInstruction :=
  match instructions with
  | [] => []
  | current :: rest =>
      let next := hd_error rest in
      if opcode_eqb (opcode current) MOVE && (a current =? b current)
      then removeRedundantInstructions rest
      else if opcode_eqb (opcode current) LOADK &&
              match next with
              | Some next => opcode_eqb (opcode next) LOADK && (a next =? a current)
              | None => false
              end
      then removeRedundantInstructions rest
      else if isRedundantArithmetic current next
      then removeRedundantInstructions rest
      else current :: removeRedundantInstructions rest
  end.

(** ** optimizeConstantLoading *)

Section WithConversions.
(** Built-ins on numbers that the pass calls: the text of a finite
    number, [parseFloat], and [JSON.parse] on a text that is none of
    [null], [true], [false] and a string literal. *)
Variable Number_toString : JSNumber -> jsstring.
Variable parseFloat : jsstring -> JSNumber.
Variable JSON_parse_other : jsstring -> Outcome JSValue.

(** [`${JSON.stringify(v)}`] *)
Definition JSON_stringify (v : JSValue) : jsstring :=
  match v with
  | VNull => str "null"
  | VUndefined => str "undefined"
  | VBool true => str "true"
  | VBool false => str "false"
  | VNumber n => if f64_finite n then Number_toString n else str "null"
  | VString s => JSON_stringify_string s
  end.

Definition JSON_parse (text : jsstring) : Outcome JSValue :=
  let t := drop_json_space text in
  let finish (v : JSValue) (after : jsstring) :=
    match drop_json_space after with
    | [] => Returned v
    | _ => Threw (str "SyntaxError")
    end in
  if startsWith (str "null") t then finish VNull (skipn 4 t)
  else if startsWith (str "true") t then finish (VBool true) (skipn 4 t)
  else if startsWith (str "false") t then finish (VBool false) (skipn 5 t)
  else match t with
       | c :: rest =>
           if c =? DQUOTE then
             match json_string_body 0 rest with
             | Some (body, after) => finish (VString body) after
             | None => Threw (str "SyntaxError")
             end
           else JSON_parse_other text
       | [] => Threw (str "SyntaxError")
       end.

Definition constant_key (constant : VMConstant) : jsstring :=
  type_name (ctype constant) ++ str ":" ++ JSON_stringify (cvalue constant).

(** A [Map] with string keys, in insertion order. *)
Fixpoint key_index (m : list (jsstring * Z)) (key : jsstring) : option Z :=
  match m with
  | [] => None
  | (k, v) :: m' => if string_eqb k key then Some v else key_index m' key
  end.

(** The first [forEach]: [uniqueConstants] and [constantMapping]. *)
Fixpoint number_constants (constants : list VMConstant) (index : Z)
         (uniqueConstants : list (jsstring * Z)) (constantMapping : NumberMap Z)
  : list (jsstring * Z) * NumberMap Z :=
  match constants with
  | [] => (uniqueConstants, constantMapping)
  | constant :: rest =>
      let key := constant_key constant in
      match key_index uniqueConstants key with
      | Some known =>
          number_constants rest (index + 1) uniqueConstants
                           (map_set constantMapping index known)
      | None =>
          let newIndex := Z.of_nat (List.length uniqueConstants) in
          number_constants rest (index + 1) (uniqueConstants ++ [(key, newIndex)])
                           (map_set constantMapping index newIndex)
      end
  end.

(** [constantMapping.get(instruction.bx) || instruction.bx] *)
Definition remap (constantMapping : NumberMap Z) (bx : Z) : Z :=
  match map_get constantMapping bx with
  | Some mapped => if mapped =? 0 then bx else mapped
  | None => bx
  end.

Definition remap_instruction (constantMapping : NumberMap Z) (i : VMInstruction)
  : VMInstruction :=
  match bx i with
  | Some x =>
      if opcode_eqb (opcode i) LOADK
      then mkInstruction (opcode i) (a i) (b i) (c i)
                         (Some (remap constantMapping x)) (sbx i) (ax i) (line i)
      else i
  | None => i
  end.

Definition type_of_name (name : jsstring) : ConstantType :=
  if string_eqb name (str "boolean") then TBoolean
  else if string_eqb name (str "number") then TNumber
  else if string_eqb name (str "string") then TString
  else TNil.

(** The rebuilt constant of one entry of [uniqueConstants]. *)
Definition rebuild_constant (entry : jsstring * Z) : Outcome VMConstant :=
  let '(key, index) := entry in
  match split_on (ch ":") key with
  | type :: value :: _ =>
      if string_eqb type (str "number")
      then Returned (mkConstant TNumber (VNumber (parseFloat value)) index)
      else match JSON_parse value with
           | Returned v => Returned (mkConstant (type_of_name type) v index)
           | Threw e => Threw e
           end
  | _ => Threw (str "SyntaxError")       (* JSON.parse(undefined) *)
  end.

Fixpoint rebuild_constants (entries : list (jsstring * Z)) : Outcome (list VMConstant) :=
  match entries with
  | [] => Returned []
  | entry :: rest =>
      match rebuild_constant entry with
      | Threw e => Threw e
      | Returned k =>
          match rebuild_constants rest with
          | Threw e => Threw e
          | Returned l => Returned (k :: l)
          end
      end
  end.

Definition with_code (proto : VMProto) (instructions : list VMInstruction) : VMProto :=
  mkProto instructions (constants proto) (upvalues proto) (protos proto)
          (source proto) (lineDefined proto) (lastLineDefined proto)
          (numParams proto) (isVararg proto) (maxStackSize proto).

Definition with_constants (proto : VMProto) (constants : list VMConstant) : VMProto :=
  mkProto (instructions proto) constants (upvalues proto) (protos proto)
          (source proto) (lineDefined proto) (lastLineDefined proto)
          (numParams proto) (isVararg proto) (maxStackSize proto).

Definition with_maxStackSize (proto : VMProto) (size : Z) : VMProto :=
  mkProto (instructions proto) (constants proto) (upvalues proto) (protos proto)
          (source proto) (lineDefined proto) (lastLineDefined proto)
          (numParams proto) (isVararg proto) size.

Definition optimizeConstantLoading (proto : VMProto) : Outcome VMProto :=
  (* Remove duplicate constants *)
  let '(uniqueConstants, constantMapping) :=
    number_constants (constants proto) 0 [] [] in
  (* Update constant references in instructions *)
  let proto := with_code proto (map (remap_instruction constantMapping)
                                    (instructions proto)) in
  (* Rebuild constants array *)
  match rebuild_constants uniqueConstants with
  | Returned constants => Returned (with_constants proto constants)
  | Threw e => Threw e
  end.

(** ** removeDeadCode *)

(** One round pops [pc] from the worklist, which never holds more
    than one entry.  [None] is the bound on the rounds. *)
Fixpoint reachable_from (rounds : nat) (instructions : list VMInstruction)
         (reachable : list Z) (worklist : list Z) : option (Outcome (list Z)) :=
  match worklist with
  | [] => Some (Returned reachable)
  | pc :: worklist =>
      match rounds with
      | O => None
      | S r =>
          if existsb (Z.eqb pc) reachable ||
             (Z.of_nat (List.length instructions) <=? pc)
          then reachable_from r instructions reachable worklist
          else
            let reachable := reachable ++ [pc] in
            if pc <? 0 then Some (Threw (str "TypeError"))   (* instructions[pc] is undefined *)
            else
              match nth_error instructions (Z.to_nat pc) with
              | None => Some (Threw (str "TypeError"))
              | Some instruction =>
                  match opcode instruction with
                  | JMP =>
                      match sbx instruction with
                      | Some s => reachable_from r instructions reachable
                                                 ((pc + 1 + s) :: worklist)
                      | None => reachable_from r instructions reachable worklist
                      end
                  | RETURN => reachable_from r instructions reachable worklist
                  | _ => reachable_from r instructions reachable ((pc + 1) :: worklist)
                  end
              end
      end
  end.

Fixpoint filter_indexed {A} (keep : Z -> bool) (index : Z) (l : list A) : list A :=
  match l with
  | [] => []
  | x :: rest =>
      if keep index then x :: filter_indexed keep (index + 1) rest
      else filter_indexed keep (index + 1) rest
  end.

Definition removeDeadCode (proto : VMProto) : option (Outcome VMProto) :=
  r <- reachable_from (2 * List.length (instructions proto) + 2) (instructions proto)
                      [] [0] ;;
  match r with
  | Threw e => Some (Threw e)
  | Returned reachable =>
      Some (Returned (with_code proto
                        (filter_indexed (fun index => existsb (Z.eqb index) reachable)
                                        0 (instructions proto))))
  end.

(** ** optimizeRegisterUsage *)

Definition count_use (registerUsage : NumberMap Z) (r : Z) : NumberMap Z :=
  map_set registerUsage r
          (match map_get registerUsage r with Some n => n | None => 0 end + 1).

Definition track_usage (registerUsage : NumberMap Z) (i : VMInstruction) : NumberMap Z :=
  let registerUsage := count_use registerUsage (a i) in
  let registerUsage := if b i <? 256 then count_use registerUsage (b i)
                       else registerUsage in
  if c i <? 256 then count_use registerUsage (c i) else registerUsage.

Definition optimizeRegisterUsage (proto : VMProto) : VMProto :=
  let registerUsage := fold_left track_usage (instructions proto) [] in
  let maxUsedRegister := fold_right Z.max 0 (map fst registerUsage) in
  with_maxStackSize proto (Z.max (double_sum maxUsedRegister 1) (maxStackSize proto)).

Definition optimizeReconstructedBytecode (proto : VMProto) : option (Outcome VMProto) :=
  (* Remove redundant instructions *)
  let proto := with_code proto (removeRedundantInstructions (instructions proto)) in
  (* Optimize constant loading *)
  match optimizeConstantLoading proto with
  | Threw e => Some (Threw e)
  | Returned proto =>
      (* Remove dead code *)
      r <- removeDeadCode proto ;;
      match r with
      | Threw e => Some (Threw e)
      | Returned proto =>
          (* Optimize register usage *)
          Some (Returned (optimizeRegisterUsage proto))
      end
  end.

(** ** reconstructFromVM *)

(** [Array.from(entries).sort(([a], [b]) => a - b)]: a stable sort
    on the handler index. *)
Fixpoint insert_sorted {V} (e : Z * V) (l : list (Z * V)) : list (Z * V) :=
  match l with
  | [] => [e]
  | x :: rest => if fst e <? fst x then e :: l else x :: insert_sorted e rest
  end.

Definition sort_entries {V} (l : list (Z * V)) : list (Z * V) :=
  fold_left (fun sorted e => insert_sorted e sorted) l [].

(** The loop over the handlers; the [catch] clause of its body cannot
    be reached, since [reconstructHandler] catches what it throws. *)
Fixpoint process_handlers (handlerArray : list (Z * LuraphVMHandler))
         (context : ReconstructionContext)
         (instructions : list VMInstruction) (stats : Statistics)
  : list VMInstruction * Statistics :=
  match handlerArray with
  | [] => (instructions, stats)
  | (index, handler) :: rest =>
      let reconstructedInstruction := reconstructHandler handler context in
      let '(instructions, stats) :=
        match reconstructedInstruction with
        | Some i =>
            (instructions ++ [i],
             mkStatistics (handlersProcessed stats) (instructionsReconstructed stats + 1)
                          (constantsDecrypted stats) (errors stats))
        | None => (instructions, stats)
        end in
      let stats := mkStatistics (handlersProcessed stats + 1)
                                (instructionsReconstructed stats)
                                (constantsDecrypted stats) (errors stats) in
      process_handlers rest context instructions stats
  end.

Definition createEmptyProto : VMProto :=
  mkProto [] [] [] [] (str "@deobfuscated.lua") 0 0 0 false 2.

Definition reconstructFromVM (context : ReconstructionContext)
  : option ReconstructionResult :=
  let statistics := mkStatistics 0 0 0 [] in
  (* Step 1: Decrypt constants *)
  let decryptedConstants := decryptConstants (rc_constants context) (encryptionInfo context) in
  let statistics := mkStatistics (handlersProcessed statistics)
                                 (instructionsReconstructed statistics)
                                 (Z.of_nat (List.length decryptedConstants))
                                 (errors statistics) in
  (* Step 2: Process VM handlers *)
  let handlerArray := sort_entries (handlers context) in
  let '(instructions, statistics) := process_handlers handlerArray context [] statistics in
  (* Step 3: Create VM prototype *)
  let proto := mkProto instructions decryptedConstants [] []
                       (str "@deobfuscated.lua") 0 (Z.of_nat (List.length instructions))
                       0 false (calculateMaxStackSize instructions) in
  (* Step 4: Optimize the reconstructed bytecode *)
  r <- optimizeReconstructedBytecode proto ;;
  match r with
  | Returned proto => Some (mkReconstructionResult true proto statistics)
  | Threw message =>
      Some (mkReconstructionResult false createEmptyProto
              (mkStatistics (handlersProcessed statistics)
                            (instructionsReconstructed statistics)
                            (constantsDecrypted statistics)
                            (errors statistics ++ [message])))
  end.

End WithConversions.

End Reconstructor.
(* ================================================================== *)
(** * LuaParser.ts                                                     *)
(* ================================================================== *)

Module Parser.
Import AST Lexer Loops.

(** The two fields of the parser that change: [tokens] is set once by
    the constructor. *)
Record ParserState := mkParser {
  position : nat;
  current : option LuaToken
}.

(** A method of the parser: it runs from a state, and returns or throws
    in a new state.  [None] stands for a computation cut off by a bound
    of the model. *)
Definition M (A : Type) : Type := ParserState -> option (Outcome A * ParserState).

Definition ret {A} (x : A) : M A := fun s => Some (Returned x, s).

Definition throw {A} (message : jsstring) : M A := fun s => Some (Threw message, s).

Definition bind {A B} (m : M A) (k : A -> M B) : M B :=
  fun s => match m s with
           | Some (Returned x, s') => k x s'
           | Some (Threw message, s') => Some (Threw message, s')
           | None => None
           end.

Notation "x <~ m ;; k" := (bind m (fun x => k))
  (at level 61, m at next level, right associativity).

(** [try { m } catch (error) { handler }] *)
Definition try_catch {A} (m : M A) (handler : jsstring -> M A) : M A :=
  fun s => match m s with
           | Some (Threw message, s') => handler message s'
           | r => r
           end.

Definition out_of_fuel {A} : M A := fun _ => None.

Definition read {A} (f : ParserState -> A) : M A := fun s => Some (Returned (f s), s).

Definition update (f : ParserState -> ParserState) : M unit :=
  fun s => Some (Returned tt, f s).

(** Reading a property of [f()], which throws when [f()] is undefined. *)
Definition deref {A} (f : ParserState -> option A) : M A :=
  fun s => match f s with
           | Some x => Some (Returned x, s)
           | None => Some (Threw (str "TypeError: Cannot read properties of undefined"), s)
           end.

Definition some {A} (m : M A) : M (option A) := x <~ m ;; ret (Some x).

(** [a && b] and [!a] on conditions that are method calls. *)
Definition and_then (a b : M bool) : M bool := x <~ a ;; if x then b else ret false.
Definition not_ (a : M bool) : M bool := x <~ a ;; ret (negb x).

(** A loop whose body says whether to go on. *)
Fixpoint loop {A} (rounds : nat) (body : A -> M (Step A)) (acc : A) : M A :=
  match rounds with
  | O => out_of_fuel
  | S r => step <~ body acc ;;
           match step with
           | Continue acc' => loop r body acc'
           | Break acc' => ret acc'
           end
  end.

(** ** Luraph-specific detection *)

Definition identifier_name (n : ASTNode) : jsstring :=
  match variant_of n with
  | Identifier name _ => name
  | _ => []
  end.

Definition has_type (n : ASTNode) (t : string) : bool :=
  match type_of n with
  | Some s => string_eqb s (str t)
  | None => false
  end.

(** The number of leading characters of [s] in the class [p]. *)
Fixpoint leading (p : Z -> bool) (s : jsstring) : nat :=
  match s with
  | c :: s' => if p c then S (leading p s') else O
  | [] => O
  end.

(** [prefix] and then at least [n] characters of the class [p]. *)
Definition prefix_then (prefix : jsstring) (p : Z -> bool) (n : nat) (s : jsstring) : bool :=
  startsWith prefix s && (n <=? leading p (skipn (List.length prefix) s))%nat.

(** [[a-zA-Z_][a-zA-Z0-9_]{n,}] at the start of [s]. *)
Definition long_name_at (n : nat) (s : jsstring) : bool :=
  match s with
  | c :: rest => (is_alpha c || (c =? ch "_")) && (n <=? leading is_word rest)%nat
  | [] => false
  end.

Definition isVMCall (callee : ASTNode) (args : list ASTNode) : bool :=
  if negb (has_type callee "Identifier") then false
  else
    let name := identifier_name callee in
    startsWith (str "vm_") name || startsWith (str "handler_") name ||
    startsWith (str "op_") name || startsWith (str "exec_") name ||
    ((3 <=? List.length args)%nat && (15 <? List.length name)%nat).

Definition hasVMOperations (block : ASTNode) : bool :=
  match variant_of block with
  | BlockStatement statements =>
      existsb (fun stmt =>
                 match variant_of stmt with
                 | CallExpression callee arguments _ _ => isVMCall callee arguments
                 | _ => false
                 end) statements
  | _ => false
  end.

Definition isVMHandler (name : jsstring) (body : ASTNode) : bool :=
  somewhere (prefix_then (str "handler_") is_digit 1) name ||      (* /handler_\d+/ *)
  somewhere (prefix_then (str "vm_") is_word 1) name ||            (* /vm_\w+/ *)
  somewhere (long_name_at 20) name ||            (* /[a-zA-Z_][a-zA-Z0-9_]{20,}/ *)
  hasVMOperations body.

(** [name.match(/(\d+)/)], then [parseInt]; exact below 2^53. *)
Fixpoint first_digits (s : jsstring) : option jsstring :=
  match s with
  | [] => None
  | c :: s' => if is_digit c then Some (firstn (leading is_digit s) s)
               else first_digits s'
  end.

Definition extractHandlerIndex (name : jsstring) : Z :=
  match first_digits name with
  | Some digits => parseInt_digits digits
  | None => -1
  end.

Definition detectVMOperation (callee : ASTNode) (args : list ASTNode) : jsstring :=
  if negb (has_type callee "Identifier") then str "unknown"
  else
    let name := identifier_name callee in
    if includes name (str "move") || includes name (str "MOVE") then str "MOVE"
    else if includes name (str "load") || includes name (str "LOAD") then str "LOADK"
    else if includes name (str "call") || includes name (str "CALL") then str "CALL"
    else if includes name (str "jump") || includes name (str "JMP") then str "JMP"
    else str "unknown".

Definition field_value (field : ASTNode) : option ASTNode :=
  match variant_of field with
  | TableField _ value _ => Some value
  | _ => None
  end.

Definition isConstantTable (fields : list ASTNode) : bool :=
  forallb (fun field =>
             match field_value field with
             | Some value => has_type value "Literal" || has_type value "EncryptedString"
             | None => false
             end) fields &&
  (5 <? List.length fields)%nat.

(** [value.slice(1, -1)] *)
Definition slice_1_m1 (value : jsstring) : jsstring := removelast (tl value).

(** ** The parser over its token array *)

(** The constructor drops white space and comments. *)
Definition LuaParser (tokens : list LuaToken) : list LuaToken :=
  filter (fun token => negb (type_eqb (type token) WHITESPACE) &&
                       negb (type_eqb (type token) COMMENT)) tokens.

Section WithTokens.
Variable tokens : list LuaToken.
Variable parseFloat : jsstring -> JSNumber.

(** No loop of the parser runs more often than there are tokens. *)
Definition rounds : nat := S (List.length tokens).

(** No call of the parser is nested deeper than this. *)
Definition call_depth : nat := 32 * S (List.length tokens).

(** [this.tokens[i] || this.tokens[this.tokens.length - 1]] *)
Definition token_or_last (i : nat) : option LuaToken :=
  match nth_error tokens i with
  | Some token => Some token
  | None => nth_error tokens (List.length tokens - 1)
  end.

Definition start : ParserState := mkParser 0 (nth_error tokens 0).

Definition isAtEnd (s : ParserState) : bool :=
  (List.length tokens <=? position s)%nat ||
  match current s with
  | Some token => type_eqb (type token) EOF
  | None => false
  end.

Definition check (type_ : LuaTokenType) : M bool :=
  atEnd <~ read isAtEnd ;;
  if atEnd then ret false
  else token <~ deref current ;; ret (type_eqb (type token) type_).

(** [this.tokens[this.position - 1]] *)
Definition previous (s : ParserState) : option LuaToken :=
  match position s with
  | O => None
  | S p => nth_error tokens p
  end.

Definition advanced (s : ParserState) : ParserState :=
  let position' := if isAtEnd s then position s else S (position s) in
  mkParser position' (token_or_last position').

Definition advance : M (option LuaToken) :=
  _ <~ update advanced ;; read previous.

Fixpoint match_ (types : list LuaTokenType) : M bool :=
  match types with
  | [] => ret false
  | type_ :: rest =>
      found <~ check type_ ;;
      if found then _ <~ advance ;; ret true else match_ rest
  end.

(** [this.current?.value || 'EOF'] *)
Definition got (s : ParserState) : jsstring :=
  match current s with
  | Some token => match value token with [] => str "EOF" | v => v end
  | None => str "EOF"
  end.

Definition consume (type_ : LuaTokenType) (message : string) : M (option LuaToken) :=
  found <~ check type_ ;;
  if found then advance
  else seen <~ read got ;; throw (str message ++ str ". Got: " ++ seen).

Definition statement_starts : list LuaTokenType :=
  [FUNCTION; LOCAL; FOR; IF; WHILE; RETURN].

Definition synchronize : M unit :=
  _ <~ advance ;;
  loop rounds
       (fun _ =>
          atEnd <~ read isAtEnd ;;
          if atEnd then ret (Break tt)
          else
            before <~ deref previous ;;
            if type_eqb (type before) SEMICOLON then ret (Break tt)
            else
              token <~ deref current ;;
              if existsb (type_eqb (type token)) statement_starts then ret (Break tt)
              else _ <~ advance ;; ret (Continue tt))
       tt.

Definition parseIdentifier : M ASTNode :=
  token <~ deref previous ;;
  ret (node (PosOffset (Lexer.position token))
            (Identifier (value token) (type_eqb (type token) OBFUSCATED_NAME))).

(** [names.push(this.parseIdentifier());
    while (this.match(COMMA)) names.push(this.parseIdentifier());] *)
Definition identifier_list : M (list ASTNode) :=
  first <~ parseIdentifier ;;
  loop rounds
       (fun names =>
          comma <~ match_ [COMMA] ;;
          if comma then name <~ parseIdentifier ;; ret (Continue (names ++ [name]))
          else ret (Break names))
       [first].

(** One level of binary operators:
    [let expr = operand(); while (this.match(...operators)) { ... }] *)
Definition binary (expr : ASTNode) (operator : jsstring) (operand : ASTNode) : ASTNode :=
  node (position_of expr) (BinaryExpression expr operator operand).

Definition binary_level (operators : list LuaTokenType) (operand right_operand : M ASTNode)
  : M ASTNode :=
  first <~ operand ;;
  loop rounds
       (fun expr =>
          found <~ match_ operators ;;
          if found then
            operator <~ deref previous ;;
            right_ <~ right_operand ;;
            ret (Continue (binary expr (value operator) right_))
          else ret (Break expr))
       first.

Definition expression_list (parseExpression : M ASTNode) : M (list ASTNode) :=
  first <~ parseExpression ;;
  loop rounds
       (fun expressions =>
          comma <~ match_ [COMMA] ;;
          if comma then
            expression <~ parseExpression ;; ret (Continue (expressions ++ [expression]))
          else ret (Break expressions))
       [first].

Definition literal (token : LuaToken) (v : JSValue) (dataType : string) : ASTNode :=
  node (PosOffset (Lexer.position token)) (Literal v (str dataType)).

Definition block_position (s : ParserState) : Position :=
  match current s with
  | Some token => PosOffset (Lexer.position token)
  | None => PosLineColumn 1 1
  end.

Definition push (statements : list ASTNode) (stmt : option ASTNode) : list ASTNode :=
  match stmt with
  | Some x => statements ++ [x]
  | None => statements
  end.

Definition statement_list (continues : M bool) (parseStatement : M (option ASTNode))
  : M (list ASTNode) :=
  loop rounds
       (fun statements =>
          more <~ continues ;;
          if more then stmt <~ parseStatement ;; ret (Continue (push statements stmt))
          else ret (Break statements))
       [].

#[warnings="-non-full-mutual"]
Fixpoint parseStatement (fuel : nat) {struct fuel} : M (option ASTNode) :=
  match fuel with
  | O => out_of_fuel
  | S fuel =>
      try_catch (tryStatement fuel)
                (fun error => _ <~ synchronize ;; ret None)
  end

(** The [try] block of [parseStatement]. *)
with tryStatement (fuel : nat) {struct fuel} : M (option ASTNode) :=
  match fuel with
  | O => out_of_fuel
  | S fuel =>
      _ <~ loop rounds
             (fun _ => newline <~ match_ [NEWLINE] ;;
                       ret (if newline then Continue tt else Break tt)) tt ;;
      atEnd <~ read isAtEnd ;;
      if atEnd then ret None else
      is_local <~ match_ [LOCAL] ;;
      if is_local then some (parseLocalStatement fuel) else
      is_function <~ match_ [FUNCTION] ;;
      if is_function then some (parseFunctionDeclaration fuel false) else
      is_if <~ match_ [IF] ;;
      if is_if then some (parseIfStatement fuel) else
      is_for <~ match_ [FOR] ;;
      if is_for then some (parseForStatement fuel) else
      is_while <~ match_ [WHILE] ;;
      if is_while then some (parseWhileStatement fuel) else
      is_return <~ match_ [RETURN] ;;
      if is_return then some (parseReturnStatement fuel) else
      some (parseExpressionStatement fuel)
  end

with parseLocalStatement (fuel : nat) {struct fuel} : M ASTNode :=
  match fuel with
  | O => out_of_fuel
  | S fuel =>
      is_function <~ check FUNCTION ;;
      if is_function then _ <~ advance ;; parseFunctionDeclaration fuel true
      else
        names <~ identifier_list ;;
        assigned <~ match_ [ASSIGN] ;;
        values <~ (if assigned then parseExpressionList fuel else ret []) ;;
        last <~ deref previous ;;
        ret (node (PosOffset (Lexer.position last))
                  (AssignmentExpression names values true))
  end

with parseFunctionDeclaration (fuel : nat) (isLocal : bool) {struct fuel} : M ASTNode :=
  match fuel with
  | O => out_of_fuel
  | S fuel =>
      name <~ parseIdentifier ;;
      _ <~ consume LPAREN "Expected '(' after function name" ;;
      closing <~ check RPAREN ;;
      parameters <~ (if closing then ret [] else identifier_list) ;;
      _ <~ consume RPAREN "Expected ')' after parameters" ;;
      body <~ parseBlock fuel ;;
      _ <~ consume END "Expected 'end' after function body" ;;
      ret (node (position_of name)
                (if isVMHandler (identifier_name name) body
                 then FunctionDeclaration name parameters body isLocal true
                        (Some (extractHandlerIndex (identifier_name name)))
                 else FunctionDeclaration name parameters body isLocal false None))
  end

with parseIfStatement (fuel : nat) {struct fuel} : M ASTNode :=
  match fuel with
  | O => out_of_fuel
  | S fuel =>
      condition <~ parseExpression fuel ;;
      _ <~ consume THEN "Expected 'then' after if condition" ;;
      consequent <~ parseBlock fuel ;;
      is_elseif <~ match_ [ELSEIF] ;;
      alternate <~ (if is_elseif then some (parseIfStatement fuel)
                    else is_else <~ match_ [ELSE] ;;
                         if is_else then some (parseBlock fuel) else ret None) ;;
      _ <~ consume END "Expected 'end' after if statement" ;;
      last <~ deref previous ;;
      ret (node (PosOffset (Lexer.position last))
                (IfStatement condition consequent alternate))
  end

with parseForStatement (fuel : nat) {struct fuel} : M ASTNode :=
  match fuel with
  | O => out_of_fuel
  | S fuel =>
      for_token <~ deref previous ;;
      let for_position := PosOffset (Lexer.position for_token) in
      checkpoint <~ read position ;;
      identifier <~ parseIdentifier ;;
      numeric <~ match_ [ASSIGN] ;;
      if numeric then
        init <~ parseExpression fuel ;;
        _ <~ consume COMMA "Expected ',' in numeric for loop" ;;
        limit <~ parseExpression fuel ;;
        has_step <~ match_ [COMMA] ;;
        step <~ (if has_step then some (parseExpression fuel) else ret None) ;;
        _ <~ consume DO "Expected 'do' after for clause" ;;
        body <~ parseBlock fuel ;;
        _ <~ consume END "Expected 'end' after for body" ;;
        ret (node for_position
                  (ForStatement
                     (node (position_of identifier)
                           (AssignmentExpression [identifier] [init] true))
                     (Some limit)
                     (match step with
                      | Some x => x
                      | None => node for_position
                                     (Literal (VNumber (number_of_Z 1)) (str "number"))
                      end)
                     body NumericFor))
      else
        _ <~ update (fun s => mkParser checkpoint (current s)) ;;
        names <~ identifier_list ;;
        _ <~ consume IN "Expected 'in' in generic for loop" ;;
        expressions <~ parseExpressionList fuel ;;
        _ <~ consume DO "Expected 'do' after for clause" ;;
        body <~ parseBlock fuel ;;
        _ <~ consume END "Expected 'end' after for body" ;;
        ret (node for_position
                  (ForStatement
                     (node for_position (AssignmentExpression names expressions true))
                     (nth_error expressions 0)
                     (node for_position (Literal VNull (str "nil")))
                     body GenericFor))
  end

with parseWhileStatement (fuel : nat) {struct fuel} : M ASTNode :=
  match fuel with
  | O => out_of_fuel
  | S fuel =>
      condition <~ parseExpression fuel ;;
      _ <~ consume DO "Expected 'do' after while condition" ;;
      body <~ parseBlock fuel ;;
      _ <~ consume END "Expected 'end' after while body" ;;
      last <~ deref previous ;;
      ret (node (PosOffset (Lexer.position last)) (WhileStatement condition body))
  end

with parseReturnStatement (fuel : nat) {struct fuel} : M ASTNode :=
  match fuel with
  | O => out_of_fuel
  | S fuel =>
      return_token <~ deref previous ;;
      has_values <~ and_then (not_ (check NEWLINE))
                      (and_then (not_ (check END)) (not_ (read isAtEnd))) ;;
      args <~ (if has_values then parseExpressionList fuel else ret []) ;;
      ret (node (PosOffset (Lexer.position return_token)) (ReturnStatement args))
  end

with parseExpressionStatement (fuel : nat) {struct fuel} : M ASTNode :=
  match fuel with
  | O => out_of_fuel
  | S fuel =>
      expr <~ parseExpression fuel ;;
      assigned <~ match_ [ASSIGN] ;;
      if assigned then
        values <~ parseExpressionList fuel ;;
        ret (node (position_of expr) (AssignmentExpression [expr] values false))
      else ret expr
  end

with parseBlock (fuel : nat) {struct fuel} : M ASTNode :=
  match fuel with
  | O => out_of_fuel
  | S fuel =>
      block_start <~ read block_position ;;
      statements <~ statement_list
                      (and_then (not_ (check END))
                         (and_then (not_ (check ELSE))
                            (and_then (not_ (check ELSEIF)) (not_ (read isAtEnd)))))
                      (parseStatement fuel) ;;
      ret (node block_start (BlockStatement statements))
  end

with parseExpression (fuel : nat) {struct fuel} : M ASTNode :=
  match fuel with
  | O => out_of_fuel
  | S fuel => parseOr fuel
  end

with parseOr (fuel : nat) {struct fuel} : M ASTNode :=
  match fuel with
  | O => out_of_fuel
  | S fuel => binary_level [OR] (parseAnd fuel) (parseAnd fuel)
  end

with parseAnd (fuel : nat) {struct fuel} : M ASTNode :=
  match fuel with
  | O => out_of_fuel
  | S fuel => binary_level [AND] (parseEquality fuel) (parseEquality fuel)
  end

with parseEquality (fuel : nat) {struct fuel} : M ASTNode :=
  match fuel with
  | O => out_of_fuel
  | S fuel => binary_level [EQUAL; NOT_EQUAL] (parseComparison fuel) (parseComparison fuel)
  end

with parseComparison (fuel : nat) {struct fuel} : M ASTNode :=
  match fuel with
  | O => out_of_fuel
  | S fuel => binary_level [GREATER_THAN; GREATER_EQUAL; LESS_THAN; LESS_EQUAL]
                           (parseConcat fuel) (parseConcat fuel)
  end

with parseConcat (fuel : nat) {struct fuel} : M ASTNode :=
  match fuel with
  | O => out_of_fuel
  | S fuel => binary_level [CONCAT] (parseAdditive fuel) (parseAdditive fuel)
  end

with parseAdditive (fuel : nat) {struct fuel} : M ASTNode :=
  match fuel with
  | O => out_of_fuel
  | S fuel => binary_level [PLUS; MINUS] (parseMultiplicative fuel) (parseMultiplicative fuel)
  end

with parseMultiplicative (fuel : nat) {struct fuel} : M ASTNode :=
  match fuel with
  | O => out_of_fuel
  | S fuel => binary_level [MULTIPLY; DIVIDE; MODULO] (parseUnary fuel) (parseUnary fuel)
  end

with parseUnary (fuel : nat) {struct fuel} : M ASTNode :=
  match fuel with
  | O => out_of_fuel
  | S fuel =>
      found <~ match_ [NOT; MINUS; LENGTH] ;;
      if found then
        operator <~ deref previous ;;
        right_ <~ parseUnary fuel ;;
        last <~ deref previous ;;
        ret (node (PosOffset (Lexer.position last))
                  (UnaryExpression (value operator) right_))
      else parsePower fuel
  end

with parsePower (fuel : nat) {struct fuel} : M ASTNode :=
  match fuel with
  | O => out_of_fuel
  | S fuel => binary_level [POWER] (parseCall fuel) (parseUnary fuel)
  end

with parseCall (fuel : nat) {struct fuel} : M ASTNode :=
  match fuel with
  | O => out_of_fuel
  | S fuel =>
      first <~ parsePrimary fuel ;;
      loop rounds
           (fun expr =>
              called <~ match_ [LPAREN] ;;
              if called then
                call <~ finishCall fuel expr ;; ret (Continue call)
              else
                indexed <~ match_ [LBRACKET] ;;
                if indexed then
                  index <~ parseExpression fuel ;;
                  _ <~ consume RBRACKET "Expected ']' after index" ;;
                  ret (Continue (binary expr (str "[]") index))
                else
                  dotted <~ match_ [DOT] ;;
                  if dotted then
                    name <~ parseIdentifier ;;
                    ret (Continue (binary expr (str ".") name))
                  else ret (Break expr))
           first
  end

with finishCall (fuel : nat) (callee : ASTNode) {struct fuel} : M ASTNode :=
  match fuel with
  | O => out_of_fuel
  | S fuel =>
      closing <~ check RPAREN ;;
      args <~ (if closing then ret [] else parseExpressionList fuel) ;;
      _ <~ consume RPAREN "Expected ')' after arguments" ;;
      ret (node (position_of callee)
                (if isVMCall callee args
                 then CallExpression callee args true (Some (detectVMOperation callee args))
                 else CallExpression callee args false None))
  end

with parsePrimary (fuel : nat) {struct fuel} : M ASTNode :=
  match fuel with
  | O => out_of_fuel
  | S fuel =>
      is_true <~ match_ [TRUE] ;;
      if is_true then token <~ deref previous ;; ret (literal token (VBool true) "boolean")
      else
      is_false <~ match_ [FALSE] ;;
      if is_false then token <~ deref previous ;; ret (literal token (VBool false) "boolean")
      else
      is_nil <~ match_ [NIL] ;;
      if is_nil then token <~ deref previous ;; ret (literal token VNull "nil")
      else
      is_number <~ match_ [NUMBER] ;;
      if is_number then
        token <~ deref previous ;;
        ret (literal token (VNumber (parseFloat (value token))) "number")
      else
      is_string <~ match_ [STRING] ;;
      if is_string then
        token <~ deref previous ;;
        ret (literal token (VString (slice_1_m1 (value token))) "string")
      else
      is_encrypted <~ match_ [ENCRYPTED_STRING] ;;
      if is_encrypted then
        token <~ deref previous ;;
        ret (node (PosOffset (Lexer.position token))
                  (EncryptedString (value token) (str "luraph")))
      else
      is_name <~ match_ [IDENTIFIER; OBFUSCATED_NAME] ;;
      if is_name then parseIdentifier
      else
      is_paren <~ match_ [LPAREN] ;;
      if is_paren then
        expr <~ parseExpression fuel ;;
        _ <~ consume RPAREN "Expected ')' after expression" ;;
        ret expr
      else
      is_table <~ match_ [LBRACE] ;;
      if is_table then parseTableConstructor fuel
      else
      seen <~ read got ;; throw (str "Unexpected token: " ++ seen)
  end

with parseTableConstructor (fuel : nat) {struct fuel} : M ASTNode :=
  match fuel with
  | O => out_of_fuel
  | S fuel =>
      brace <~ deref previous ;;
      closing <~ check RBRACE ;;
      fields <~ (if closing then ret []
                 else
                   first <~ parseTableField fuel ;;
                   loop rounds
                        (fun fields =>
                           separated <~ match_ [COMMA; SEMICOLON] ;;
                           if separated then
                             closing <~ check RBRACE ;;
                             if closing then ret (Break fields)
                             else field <~ parseTableField fuel ;;
                                  ret (Continue (fields ++ [field]))
                           else ret (Break fields))
                        [first]) ;;
      _ <~ consume RBRACE "Expected '}' after table constructor" ;;
      ret (node (PosOffset (Lexer.position brace))
                (TableConstructor fields (isConstantTable fields)))
  end

with parseTableField (fuel : nat) {struct fuel} : M ASTNode :=
  match fuel with
  | O => out_of_fuel
  | S fuel =>
      token <~ deref current ;;
      let field_position := PosOffset (Lexer.position token) in
      bracketed <~ match_ [LBRACKET] ;;
      if bracketed then
        key <~ parseExpression fuel ;;
        _ <~ consume RBRACKET "Expected ']' after table key" ;;
        _ <~ consume ASSIGN "Expected '=' after table key" ;;
        value_ <~ parseExpression fuel ;;
        ret (node field_position (TableField (Some key) value_ RecordField))
      else
        expr <~ parseExpression fuel ;;
        assigned <~ match_ [ASSIGN] ;;
        if assigned then
          value_ <~ parseExpression fuel ;;
          ret (node field_position (TableField (Some expr) value_ RecordField))
        else ret (node field_position (TableField None expr ListField))
  end

with parseExpressionList (fuel : nat) {struct fuel} : M (list ASTNode) :=
  match fuel with
  | O => out_of_fuel
  | S fuel => expression_list (parseExpression fuel)
  end.

Definition parse : M ASTNode :=
  statements <~ statement_list (not_ (read isAtEnd)) (parseStatement call_depth) ;;
  ret (node (PosLineColumn 1 1) (BlockStatement statements)).

End WithTokens.

(** [new LuaParser(tokens).parse()] *)
Definition parse_tokens (parseFloat : jsstring -> JSNumber) (tokens : list LuaToken)
  : option (Outcome ASTNode) :=
  let filtered := LuaParser tokens in
  match parse filtered parseFloat (start filtered) with
  | Some (result, _) => Some result
  | None => None
  end.

End Parser.
(* ================================================================== *)
(** * LuraphVM.ts: is this a Luraph script?                            *)
(* ================================================================== *)

(** [isValidLuraphScript] as src/lib/luraph/LuraphVM.ts has it. *)
Module LuraphVM.
Import AST.

(** The three variables that [checkNode] assigns. *)
Record Indicators := mkIndicators {
  hasVMHandlers : bool;
  hasEncryptedContent : bool;
  hasObfuscatedNames : bool
}.

(** [node.type === 'FunctionDeclaration' && node.isVMHandler] *)
Definition is_vm_handler (node : ASTNode) : bool :=
  match variant_of node with
  | FunctionDeclaration _ _ _ _ isVMHandler _ => isVMHandler
  | _ => false
  end.

Definition is_encrypted_string (node : ASTNode) : bool :=
  match variant_of node with
  | EncryptedString _ _ => true
  | _ => false
  end.

(** [node.type === 'Identifier' && node.isObfuscated] *)
Definition is_obfuscated_identifier (node : ASTNode) : bool :=
  match variant_of node with
  | Identifier _ isObfuscated => isObfuscated
  | _ => false
  end.

(** The three tests at the head of [checkNode]. *)
Definition inspect (node : ASTNode) (flags : Indicators) : Indicators :=
  let flags := if is_vm_handler node
               then mkIndicators true (hasEncryptedContent flags) (hasObfuscatedNames flags)
               else flags in
  let flags := if is_encrypted_string node
               then mkIndicators (hasVMHandlers flags) true (hasObfuscatedNames flags)
               else flags in
  if is_obfuscated_identifier node
  then mkIndicators (hasVMHandlers flags) (hasEncryptedContent flags) true
  else flags.

Fixpoint checkNode (node : ASTNode) (flags : Indicators) : Indicators :=
  let flags := inspect node flags in
  match node with
  | Node _ children variant =>
      let flags :=
        match children with
        | Some nodes => fold_left (fun flags child => checkNode child flags) nodes flags
        | None => flags
        end in
      match variant with
      | BlockStatement statements =>
          fold_left (fun flags stmt => checkNode stmt flags) statements flags
      | _ => flags
      end
  end.

(** [indicators.filter(Boolean).length] *)
Definition count_true (indicators : list bool) : nat :=
  List.length (filter (fun b => b) indicators).

Definition isValidLuraphScript (ast : ASTNode) : bool :=
  let flags := checkNode ast (mkIndicators false false false) in
  (* Require at least 2 of 3 indicators for positive identification *)
  (2 <=? count_true [hasVMHandlers flags; hasEncryptedContent flags;
                     hasObfuscatedNames flags])%nat.

End LuraphVM.

(** [isValidLuraphScript] as the later version of the class in
    unnamed/part_003 has it. *)
Module LuraphVM_003.
Import AST.

(** [x.name], where it is a string. *)
Definition name_property (x : ASTNode) : option jsstring :=
  match variant_of x with
  | Identifier name _ => Some name
  | Untyped name _ => name
  | _ => None
  end.

(** [${x?.name || ''}] *)
Definition name_or_empty (x : ASTNode) : jsstring :=
  match variant_of x with
  | FunctionDeclaration _ _ _ _ _ _ => str "[object Object]"
  | _ => match name_property x with
         | Some name => name
         | None => []
         end
  end.

(** ** The patterns *)

(** A pattern without anchors matches somewhere; with [/i], letters
    are compared without case. *)
Definition includes_i (s : jsstring) (lower_case : string) : bool :=
  includes (map lower_ascii s) (str lower_case).

(** [prefix], white space, and a name of more than [n] characters. *)
Definition keyword_and_long_name (prefix : string) (n : nat) (s : jsstring) : bool :=
  startsWith (str prefix) s &&
  let rest := skipn (String.length prefix) s in
  (1 <=? Parser.leading is_space rest)%nat &&
  Parser.long_name_at n (skipn (Parser.leading is_space rest) rest).

(** [table\[.*?\]]: the bracket is closed on the same line. *)
Fixpoint closed_on_line (s : jsstring) : bool :=
  match s with
  | [] => false
  | c :: s' => (c =? ch "]") || (negb (is_line_terminator c) && closed_on_line s')
  end.

Definition table_access (table : string) (s : jsstring) : bool :=
  startsWith (str table ++ str "[") s && closed_on_line (skipn 2 s).

Definition luraphPatterns : list (jsstring -> bool) :=
  [ (fun s => includes_i s "luraph");                                (* /luraph/i *)
    (fun s => includes_i s "protected using luraph");
    (fun s => includes_i s "lura.ph");                              (* /lura\.ph/i *)
    (fun s => includes_i s "obfuscator");
    Lexer.somewhere (Parser.prefix_then (str "0x") is_hex_digit 1); (* /0x[0-9a-fA-F]+/g *)
    Lexer.somewhere (keyword_and_long_name "local" 20);
    Lexer.somewhere (keyword_and_long_name "function" 15);
    Lexer.somewhere (table_access "R");                             (* /R\[.*?\]/g *)
    Lexer.somewhere (table_access "K");                             (* /K\[.*?\]/g *)
    (fun s => Lexer.somewhere (Parser.prefix_then (str "handler_") is_digit 1)
                              (map lower_ascii s));                 (* /handler_\d+/i *)
    (fun s => Lexer.somewhere (Parser.prefix_then (str "vm_") is_word 1)
                              (map lower_ascii s));                 (* /vm_\w+/i *)
    (fun s => includes_i s "encrypted");
    (fun s => includes_i s "decrypt") ].

Definition patternMatches (codeString : jsstring) : nat :=
  List.length (filter (fun pattern => pattern codeString) luraphPatterns).

(** ** The structure *)

Record Indicators := mkIndicators {
  hasObfuscatedStructure : bool;
  hasComplexExpressions : bool;
  hasLongIdentifiers : bool
}.

(** [identifier.name && identifier.name.length > 15] *)
Definition is_long_identifier (node : ASTNode) : bool :=
  match variant_of node with
  | Identifier name _ => (15 <? List.length name)%nat
  | _ => false
  end.

Definition is_binary (node : ASTNode) : bool :=
  match variant_of node with
  | BinaryExpression _ _ _ => true
  | _ => false
  end.

(** [func.name && func.name.name && func.name.name.length > 10] *)
Definition has_long_name (node : ASTNode) : bool :=
  match variant_of node with
  | FunctionDeclaration name _ _ _ _ _ =>
      match name_property name with
      | Some x => (10 <? List.length x)%nat
      | None => false
      end
  | _ => false
  end.

Definition inspect (node : ASTNode) (flags : Indicators) : Indicators :=
  let flags := if is_long_identifier node
               then mkIndicators (hasObfuscatedStructure flags)
                                 (hasComplexExpressions flags) true
               else flags in
  let flags := if is_binary node
               then mkIndicators (hasObfuscatedStructure flags) true
                                 (hasLongIdentifiers flags)
               else flags in
  if has_long_name node
  then mkIndicators true (hasComplexExpressions flags) (hasLongIdentifiers flags)
  else flags.

Fixpoint checkNode (node : ASTNode) (flags : Indicators) : Indicators :=
  let flags := inspect node flags in
  match node with
  | Node _ children variant =>
      let flags :=
        match children with
        | Some nodes => fold_left (fun flags child => checkNode child flags) nodes flags
        | None => flags
        end in
      match variant with
      | BlockStatement statements =>
          fold_left (fun flags stmt => checkNode stmt flags) statements flags
      | _ => flags
      end
  end.

Section WithConversions.
Variable Number_toString : JSNumber -> jsstring.

(** [value?.toString() || ''] *)
Definition value_text (v : JSValue) : jsstring :=
  match v with
  | VNull | VUndefined => []
  | VBool true => str "true"
  | VBool false => str "false"
  | VNumber x => Number_toString x
  | VString s => s
  end.

(** [traverse] appends to [result]. *)
Fixpoint traverse (n : ASTNode) (result : jsstring) : jsstring :=
  match n with
  | Node _ children variant =>
      let result :=
        match variant with
        | Literal value _ => result ++ value_text value
        | Identifier name _ => result ++ name
        | FunctionDeclaration name _ _ _ _ _ =>
            result ++ str "function " ++ name_or_empty name
        | AssignmentExpression _ _ _ => result ++ str "assignment"
        | CallExpression callee _ _ _ => result ++ str "call " ++ name_or_empty callee
        | BinaryExpression _ operator _ => result ++ str "binary " ++ operator
        | BlockStatement statements =>
            fold_left (fun result stmt => traverse stmt result) statements result
        | _ => result
        end in
      match children with
      | Some nodes => fold_left (fun result child => traverse child result) nodes result
      | None => result
      end
  end.

Definition astToString (node : ASTNode) : jsstring := traverse node [].

Definition isValidLuraphScript (ast : ASTNode) : bool :=
  let codeString := astToString ast in
  let flags := checkNode ast (mkIndicators false false false) in
  (* More lenient detection *)
  let hasLuraphPatterns := (2 <=? patternMatches codeString)%nat in
  let hasObfuscationIndicators :=
    hasObfuscatedStructure flags || hasComplexExpressions flags ||
    hasLongIdentifiers flags in
  hasLuraphPatterns || hasObfuscationIndicators.

End WithConversions.

End LuraphVM_003.
(* ================================================================== *)
(** * LuraphDecryptor.ts: detecting the method and the key             *)
(* ================================================================== *)

Module Detection.
Import Lexer Parser Decryptor.

(** ** The regular expressions of the two methods

    Each of them is a sequence of literal characters and of
    repetitions of a character class, and the character that has to
    follow a repetition is never in its class: a match gives every
    repetition all the characters it can take. *)

Definition is_quote (c : Z) : bool := (c =? SQUOTE) || (c =? DQUOTE).

(** [[a-zA-Z0-9+/=]] *)
Definition is_base64_like (c : Z) : bool :=
  is_alnum c || (c =? ch "+") || (c =? ch "/") || (c =? ch "=").

(** At least [n] characters of the class [p] start [s]. *)
Definition run_at (p : Z -> bool) (n : nat) (s : jsstring) : bool :=
  (n <=? leading p s)%nat.

(** A quote, between [lo] and [hi] characters of the class [p], and a
    quote, at the start of [s]: the run, which is the captured group. *)
Definition quoted_run (p : Z -> bool) (lo : nat) (hi : option nat) (s : jsstring)
  : option jsstring :=
  match s with
  | q :: rest =>
      if is_quote q then
        let n := leading p rest in
        if (lo <=? n)%nat &&
           match hi with Some h => (n <=? h)%nat | None => true end &&
           match nth_error rest n with Some q' => is_quote q' | None => false end
        then Some (firstn n rest)
        else None
      else None
  | [] => None
  end.

(** The assignment pattern at the start of [s]: [local], white space, a
    word, [=] with optional white space around it, and a quoted run of
    sixteen or more characters that are no quotes. *)
Definition assignment_at (s : jsstring) : option jsstring :=
  if startsWith (str "local") s then
    let s := skipn 5 s in
    let spaces := leading is_space s in
    if (1 <=? spaces)%nat then
      let s := skipn spaces s in
      let word := leading is_word s in
      if (1 <=? word)%nat then
        let s := skipn word s in
        let s := skipn (leading is_space s) s in
        match s with
        | e :: s =>
            if e =? ch "=" then
              let s := skipn (leading is_space s) s in
              quoted_run (fun c => negb (is_quote c)) 16 None s
            else None
        | [] => None
        end
      else None
    else None
  else None.

(** [code.match(pattern)]: the group of the leftmost match. *)
Fixpoint first_match (pattern : jsstring -> option jsstring) (code : jsstring)
  : option jsstring :=
  match pattern code with
  | Some group => Some group
  | None =>
      match code with
      | [] => None
      | _ :: rest => first_match pattern rest
      end
  end.

(** ** extractKeyFromCode *)

Definition keyPatterns : list (jsstring -> option jsstring) :=
  [ quoted_run is_hex_digit 16 (Some 32%nat);       (* Hex strings *)
    quoted_run is_base64_like 20 None;              (* Base64-like strings *)
    assignment_at ].                                (* Assignment patterns *)

Fixpoint extractKey_loop (patterns : list (jsstring -> option jsstring)) (code : jsstring)
  : jsstring :=
  match patterns with
  | [] => str "default_key"                         (* Fallback *)
  | pattern :: rest =>
      match first_match pattern code with
      | Some (c :: group) => c :: group             (* match && match[1] *)
      | _ => extractKey_loop rest code
      end
  end.

Definition extractKeyFromCode (code method : jsstring) : jsstring :=
  extractKey_loop keyPatterns code.

(** ** detectEncryptionMethod *)

Record Pattern := mkPattern {
  regex : jsstring -> bool;          (* the pattern at the start of a text *)
  pattern_method : jsstring;
  pattern_version : jsstring
}.

Definition patterns : list Pattern :=
  [ mkPattern (run_at is_hex_digit 32) (str "aes_cbc") (str "11.7");
    mkPattern (run_at is_hex_digit 16) (str "xor_v2") (str "11.6");
    mkPattern (run_at outside_printable 10) (str "luraph_custom") (str "11.8.1") ].

Definition detectEncryptionMethod (obfuscatedCode : jsstring) : list EncryptionInfo :=
  flat_map
    (fun pattern =>
       if somewhere (regex pattern) obfuscatedCode
       then [ mkInfo (pattern_method pattern)
                     (extractKeyFromCode obfuscatedCode (pattern_method pattern))
                     None
                     (pattern_method pattern)
                     (pattern_version pattern) ]
       else [])
    patterns.

End Detection.
(* ================================================================== *)
(** * SymbolicExecutor.ts: analyzeHandlerPattern                       *)
(* ================================================================== *)

Module HandlerPatterns.
Import AST VMInstructions SymbolicExecutor.

Record PatternAnalysis := mkAnalysis {
  patterns : list jsstring;
  complexity : Z;
  likelyOpcode : LuaOpcode
}.

(** Reading a property of [undefined]. *)
Definition TypeError : jsstring := str "TypeError".

(** [patterns] is the array that the calls share; [complexity] is a
    number, which every call counts up in a variable of its own.  The
    result is the array behind the call, or what was thrown. *)
Fixpoint analyzeNode (node : ASTNode) (patterns : list jsstring) {struct node}
  : Outcome (list jsstring) :=
  match node with
  | Node _ _ variant =>
      match variant with
      | AssignmentExpression lefts _ _ =>
          match hd_error lefts with
          | Some left0 =>
              Returned (if isRegisterAccess left0
                        then patterns ++ [str "register_assignment"]
                        else patterns)
          | None => Threw TypeError            (* the [type] of [left[0]] *)
          end
      | CallExpression callee _ _ _ =>
          Returned (if isRegisterAccess callee
                    then patterns ++ [str "register_call"]
                    else patterns)
      | BinaryExpression _ operator _ =>
          Returned (patterns ++ [str "binary_" ++ operator])
      | BlockStatement statements =>
          (fix forEach (l : list ASTNode) (patterns : list jsstring)
             : Outcome (list jsstring) :=
             match l with
             | [] => Returned patterns
             | stmt :: rest =>
                 match analyzeNode stmt patterns with
                 | Returned patterns => forEach rest patterns
                 | Threw e => Threw e
                 end
             end) statements patterns
      | _ => Returned patterns
      end
  end.

Definition determineOpcodeFromPatterns (patterns : list jsstring) : LuaOpcode :=
  let includes_ (p : jsstring) := existsb (string_eqb p) patterns in
  if includes_ (str "register_assignment") && includes_ (str "binary_+") then ADD
  else if includes_ (str "register_assignment") && includes_ (str "binary_-") then SUB
  else if includes_ (str "register_call") then CALL
  else if includes_ (str "register_assignment") &&
          negb (existsb (startsWith (str "binary_")) patterns) then MOVE
  else MOVE.                                              (* Default fallback *)

(** [analyzeHandlerPattern] for the [body] of its argument, which is
    [None] when the argument has none. *)
Definition analyzeHandlerPattern_of (body : option ASTNode) : Outcome PatternAnalysis :=
  match body with
  | None => Threw TypeError                    (* the [type] of [handler.body] *)
  | Some node =>
      match analyzeNode node [] with
      | Returned patterns =>
          Returned (mkAnalysis patterns 0 (determineOpcodeFromPatterns patterns))
      | Threw e => Threw e
      end
  end.

Definition analyzeHandlerPattern (handler : ASTNode) : Outcome PatternAnalysis :=
  analyzeHandlerPattern_of (body_of handler).

End HandlerPatterns.

(* ================================================================== *)
(** * LuraphVM.ts: analyzeAST                                          *)
(* ================================================================== *)

Module LuraphAnalysis.
Import AST VMInstructions SymbolicExecutor.

Record LuraphVMContext := mkVMContext {
  ctx_handlers : NumberMap LuraphVMHandler;
  ctx_constants : list VMConstant;
  ctx_encryptionKey : option jsstring;
  ctx_vmVersion : jsstring
}.

(** The fields of a [LuraphVM] that its methods read and write.  A
    handler object is stored under the same key in [handlers] and in
    [vmContext.handlers]; a write to the object shows in both. *)
Record VMState := mkVM {
  vmContext : LuraphVMContext;
  vm_handlers : NumberMap LuraphVMHandler;
  vm_constants : list VMConstant;
  encryptionKey : jsstring;
  vm_encryptionInfo : Decryptor.EncryptionInfo
}.

Record DeobfuscationContext := mkDeobfuscation {
  dc_vmContext : LuraphVMContext;
  extractedInstructions : list VMInstruction;
  decryptedConstants : list VMConstant;
  reconstructedProto : VMProto
}.

(** The constructor. *)
Definition new_LuraphVM : VMState :=
  mkVM (mkVMContext [] [] None (str "11.8.1")) [] [] []
       (Decryptor.mkInfo (str "auto") [] None (str "auto") (str "11.8.1")).

(** A method that has run: it has returned, or it has thrown, and the
    object is in the state it has left.  What follows a throw is not
    run. *)
Inductive Run :=
| Running (vm : VMState)
| Thrown (message : jsstring) (vm : VMState).

Definition state_of (run : Run) : VMState :=
  match run with Running vm => vm | Thrown _ vm => vm end.

Definition TypeError : jsstring := str "TypeError".

(** ** The tests on handlers *)

(** [/^[a-zA-Z0-9+/=]+$/] and [/^[a-fA-F0-9]+$/] *)
Definition all_of (p : Z -> bool) (value : jsstring) : bool :=
  match value with
  | [] => false
  | _ => forallb p value
  end.

Definition isEncryptionKey (value : jsstring) : bool :=
  ((16 <=? List.length value)%nat &&            (* Minimum key length *)
   all_of Detection.is_base64_like value)       (* Base64-like pattern *)
  ||
  ((32 <=? List.length value)%nat &&            (* Hex key *)
   all_of is_hex_digit value).

Definition mapLiteralType (dataType : jsstring) : ConstantType :=
  if string_eqb dataType (str "nil") then TNil
  else if string_eqb dataType (str "boolean") then TBoolean
  else if string_eqb dataType (str "number") then TNumber
  else if string_eqb dataType (str "string") then TString
  else TNil.

Fixpoint containsEncryptedContent (node : ASTNode) : bool :=
  match node with
  | Node _ children variant =>
      match variant with
      | EncryptedString _ _ => true
      | Identifier _ true => true
      | _ =>
          match children with
          | Some nodes => existsb containsEncryptedContent nodes
          | None =>
              match variant with
              | BlockStatement statements => existsb containsEncryptedContent statements
              | _ => false
              end
          end
      end
  end.

Section WithBuiltins.
(** [String.prototype.toLowerCase] *)
Variable toLowerCase : jsstring -> jsstring.

(** The first assignment of the body that shows a pattern decides. *)
Fixpoint analyzeHandlerBody_loop (statements : list ASTNode) : LuaOpcode :=
  match statements with
  | [] => MOVE                                   (* Default to MOVE if unknown *)
  | stmt :: rest =>
      match variant_of stmt with
      | AssignmentExpression lefts rights _ =>
          match hd_error lefts, hd_error rights with
          | Some left0, Some right0 =>
              (* Pattern: R[A] = R[B] (MOVE) *)
              if isRegisterAccess left0 && isRegisterAccess right0 then MOVE
              (* Pattern: R[A] = K[B] (LOADK) *)
              else if isRegisterAccess left0 && isConstantAccess right0 then LOADK
              (* Pattern: R[A] = R[B] + R[C] (ADD) *)
              else match variant_of right0 with
                   | BinaryExpression _ operator _ =>
                       if string_eqb operator (str "+") then ADD
                       else analyzeHandlerBody_loop rest
                   | _ => analyzeHandlerBody_loop rest
                   end
          | _, _ => analyzeHandlerBody_loop rest
          end
      | _ => analyzeHandlerBody_loop rest
      end
  end.

(** [func.body.statements] is [undefined] unless the body is a block,
    and the loop over it throws. *)
Definition analyzeHandlerBody (body : ASTNode) : Outcome LuaOpcode :=
  match variant_of body with
  | BlockStatement statements => Returned (analyzeHandlerBody_loop statements)
  | _ => Threw TypeError
  end.

(** The checks of [guessOpcodeFromHandler] on the lower-case name, in
    their order. *)
Definition guessFromName (name : jsstring) : option LuaOpcode :=
  let has (part : jsstring) := includes name part in
  if has (str "move") || has (str "copy") then Some MOVE
  else if has (str "load") && has (str "const") then Some LOADK
  else if has (str "load") && has (str "bool") then Some LOADBOOL
  else if has (str "load") && has (str "nil") then Some LOADNIL
  else if has (str "call") then Some CALL
  else if has (str "return") then Some RETURN
  else if has (str "jump") || has (str "jmp") then Some JMP
  else if has (str "add") then Some ADD
  else if has (str "sub") then Some SUB
  else if has (str "mul") then Some MUL
  else if has (str "div") then Some DIV
  else if has (str "mod") then Some MOD
  else if has (str "pow") then Some POW
  else if has (str "concat") then Some CONCAT
  else if has (str "table") then Some NEWTABLE
  else if has (str "get") && has (str "table") then Some GETTABLE
  else if has (str "set") && has (str "table") then Some SETTABLE
  else None.

(** [func.name.name] must be a string for [toLowerCase] to be there. *)
Definition guessOpcodeFromHandler (name body : ASTNode) : Outcome LuaOpcode :=
  match LuraphVM_003.name_property name with
  | None => Threw TypeError
  | Some text =>
      match guessFromName (toLowerCase text) with
      | Some opcode => Returned opcode
      | None =>
          (* Try to analyze the function body for patterns *)
          analyzeHandlerBody body
      end
  end.

(** [`${func.name.name}`] *)
Definition name_text (name : ASTNode) : jsstring :=
  match variant_of name with
  | Identifier text _ => text
  | Untyped (Some text) _ => text
  | FunctionDeclaration _ _ _ _ _ _ => str "[object Object]"
  | _ => str "undefined"
  end.

Definition extractHandlerCode (name : ASTNode) : jsstring :=
  str "function " ++ name_text name ++ str "(...) /* handler code */ end".

Definition isHandlerEncrypted (body : ASTNode) : bool := containsEncryptedContent body.

(** ** extractVMHandlers *)

Definition with_handlers (vm : VMState) (own shared : NumberMap LuraphVMHandler)
  : VMState :=
  mkVM (mkVMContext shared
                    (ctx_constants (vmContext vm))
                    (ctx_encryptionKey (vmContext vm))
                    (ctx_vmVersion (vmContext vm)))
       own (vm_constants vm) (encryptionKey vm) (vm_encryptionInfo vm).

(** [this.handlers.set(index, handler);
     this.vmContext.handlers.set(index, handler);] *)
Definition set_handler (vm : VMState) (index : Z) (handler : LuraphVMHandler) : VMState :=
  with_handlers vm (map_set (vm_handlers vm) index handler)
                   (map_set (ctx_handlers (vmContext vm)) index handler).

(** The test of [extractVMHandlers] on the node itself. *)
Definition extract_handler (node : ASTNode) (run : Run) : Run :=
  match run with
  | Thrown _ _ => run
  | Running vm =>
      match variant_of node with
      | FunctionDeclaration name _ body _ true (Some handlerIndex) =>
          match guessOpcodeFromHandler name body with
          | Threw e => Thrown e vm
          | Returned opcode =>
              let handler := mkHandler handlerIndex (opcode_number opcode)
                                       (extractHandlerCode name)
                                       (isHandlerEncrypted body) None in
              Running (set_handler vm handlerIndex handler)
          end
      | _ => run
      end
  end.

Fixpoint extractVMHandlers (node : ASTNode) (run : Run) : Run :=
  let run := extract_handler node run in
  match node with
  | Node _ children variant =>
      (* Recursively process children *)
      let run :=
        match children with
        | Some nodes => fold_left (fun run child => extractVMHandlers child run) nodes run
        | None => run
        end in
      (* Handle specific node types with statements *)
      match variant with
      | BlockStatement statements =>
          fold_left (fun run stmt => extractVMHandlers stmt run) statements run
      | _ => run
      end
  end.

(** ** findEncryptionInfo *)

Definition set_key (vm : VMState) (key : jsstring) : VMState :=
  mkVM (mkVMContext (ctx_handlers (vmContext vm))
                    (ctx_constants (vmContext vm))
                    (Some key)
                    (ctx_vmVersion (vmContext vm)))
       (vm_handlers vm) (vm_constants vm) key
       (Decryptor.mkInfo (Decryptor.info_method (vm_encryptionInfo vm)) key
                         (Decryptor.info_iv (vm_encryptionInfo vm))
                         (Decryptor.info_algorithm (vm_encryptionInfo vm))
                         (Decryptor.info_version (vm_encryptionInfo vm))).

Definition set_method (vm : VMState) (method : jsstring) : VMState :=
  mkVM (vmContext vm) (vm_handlers vm) (vm_constants vm) (encryptionKey vm)
       (Decryptor.mkInfo method
                         (Decryptor.info_key (vm_encryptionInfo vm))
                         (Decryptor.info_iv (vm_encryptionInfo vm))
                         (Decryptor.info_algorithm (vm_encryptionInfo vm))
                         (Decryptor.info_version (vm_encryptionInfo vm))).

(** The two tests of [findEncryptionInfo] on the node itself; none of
    them throws. *)
Definition find_info (node : ASTNode) (run : Run) : Run :=
  match run with
  | Thrown _ _ => run
  | Running vm =>
      match variant_of node with
      (* Look for encryption key patterns *)
      | AssignmentExpression _ rights _ =>
          match hd_error rights with
          | Some value =>
              match variant_of value with
              | Literal (VString text) _ =>
                  (* Check if this looks like an encryption key *)
                  if isEncryptionKey text then Running (set_key vm text) else run
              | _ => run
              end
          | None => run
          end
      (* Look for encrypted string patterns *)
      | EncryptedString _ encryptionMethod =>
          match encryptionMethod with
          | [] => run
          | _ => Running (set_method vm encryptionMethod)
          end
      | _ => run
      end
  end.

Fixpoint findEncryptionInfo (node : ASTNode) (run : Run) : Run :=
  let run := find_info node run in
  match node with
  | Node _ children variant =>
      (* Recursively search *)
      let run :=
        match children with
        | Some nodes => fold_left (fun run child => findEncryptionInfo child run) nodes run
        | None => run
        end in
      match variant with
      | BlockStatement statements =>
          fold_left (fun run stmt => findEncryptionInfo stmt run) statements run
      | _ => run
      end
  end.

(** ** extractConstants *)

Definition push_constant (vm : VMState) (constant : VMConstant) : VMState :=
  mkVM (vmContext vm) (vm_handlers vm) (vm_constants vm ++ [constant])
       (encryptionKey vm) (vm_encryptionInfo vm).

(** One round of the loop over the fields of a constant table.
    [field.value] is a node for a table field; for a literal it is the
    value of the literal, which has a [type] to read unless it is
    [null] or [undefined]; other nodes have none. *)
Definition extract_field (field : ASTNode) (index : Z) (vm : VMState) : Run :=
  match variant_of field with
  | TableField _ value _ =>
      match variant_of value with
      | Literal v dataType =>
          Running (push_constant vm (mkConstant (mapLiteralType dataType) v index))
      | EncryptedString encryptedValue _ =>
          let decryptionResult :=
            Reconstructor.decryptString encryptedValue (vm_encryptionInfo vm) in
          Running (push_constant vm
                     (mkConstant TString
                        (VString (if Decryptor.success decryptionResult
                                  then Decryptor.decrypted decryptionResult
                                  else encryptedValue))
                        index))
      | _ => Running vm
      end
  | Literal v _ | Untyped _ (Some v) =>
      match v with
      | VNull | VUndefined => Thrown TypeError vm
      | _ => Running vm
      end
  | _ => Thrown TypeError vm
  end.

Fixpoint extract_fields (fields : list ASTNode) (index : Z) (vm : VMState) : Run :=
  match fields with
  | [] => Running vm
  | field :: rest =>
      match extract_field field index vm with
      | Running vm => extract_fields rest (index + 1) vm
      | Thrown e vm => Thrown e vm
      end
  end.

(** The test of [extractConstants] on the node itself. *)
Definition extract_table (node : ASTNode) (run : Run) : Run :=
  match run with
  | Thrown _ _ => run
  | Running vm =>
      match variant_of node with
      | TableConstructor fields true =>
          (* Extract constants from the table *)
          extract_fields fields 0 vm
      | _ => run
      end
  end.

Fixpoint extractConstants (node : ASTNode) (run : Run) : Run :=
  let run := extract_table node run in
  match node with
  | Node _ children variant =>
      (* Recursively process *)
      let run :=
        match children with
        | Some nodes => fold_left (fun run child => extractConstants child run) nodes run
        | None => run
        end in
      match variant with
      | BlockStatement statements =>
          fold_left (fun run stmt => extractConstants stmt run) statements run
      | _ => run
      end
  end.

(** ** mapVMOperations *)

(** A write to the handler object that is stored under [index]. *)
Definition update_handler (vm : VMState) (index : Z) (handler : LuraphVMHandler)
  : VMState :=
  set_handler vm index handler.

(** The rounds of [this.handlers.forEach].  The argument that
    [analyzeHandlerPattern] gets is a handler of the virtual machine,
    which has no [body]. *)
Fixpoint mapVMOperations_loop (entries : list (Z * LuraphVMHandler)) (vm : VMState)
  : Run :=
  match entries with
  | [] => Running vm
  | (index, handler) :: rest =>
      (* Decrypt handler if needed *)
      let handler :=
        if h_encrypted handler then
          let decryptionResult :=
            Reconstructor.decryptString (h_handler handler) (vm_encryptionInfo vm) in
          if Decryptor.success decryptionResult
          then mkHandler (h_index handler) (h_opcode handler) (h_handler handler)
                         (h_encrypted handler)
                         (Some (Decryptor.decrypted decryptionResult))
          else handler
        else handler in
      let vm := update_handler vm index handler in
      (* Use symbolic execution to determine the actual opcode *)
      match HandlerPatterns.analyzeHandlerPattern_of None with
      | Threw e => Thrown e vm
      | Returned analysisResult =>
          let handler :=
            mkHandler (h_index handler)
                      (opcode_number (HandlerPatterns.likelyOpcode analysisResult))
                      (h_handler handler) (h_encrypted handler) (h_decrypted handler) in
          mapVMOperations_loop rest (update_handler vm index handler)
      end
  end.

Definition mapVMOperations (run : Run) : Run :=
  match run with
  | Thrown _ _ => run
  | Running vm => mapVMOperations_loop (vm_handlers vm) vm
  end.

(** ** analyzeAST *)

Definition createEmptyProto (vm : VMState) : VMProto :=
  mkProto [] (vm_constants vm) [] [] (str "@deobfuscated.lua") 0 0 0 false 0.

Definition analyzeAST (vm : VMState) (ast : ASTNode)
  : Outcome DeobfuscationContext * VMState :=
  (* Reset context *)
  let vm := mkVM (vmContext vm) [] [] (encryptionKey vm) (vm_encryptionInfo vm) in
  (* Step 1: Extract VM handlers *)
  let run := extractVMHandlers ast (Running vm) in
  (* Step 2: Find encryption information *)
  let run := findEncryptionInfo ast run in
  (* Step 3: Extract and decrypt constants *)
  let run := extractConstants ast run in
  (* Step 4: Map VM operations to Lua opcodes *)
  let run := mapVMOperations run in
  match run with
  | Running vm =>
      (Returned (mkDeobfuscation (vmContext vm) [] (vm_constants vm) (createEmptyProto vm)),
       vm)
  | Thrown e vm => (Threw e, vm)
  end.

End WithBuiltins.

(** ** reconstructBytecode *)

Section WithConversions.
Variable Number_toString : JSNumber -> jsstring.
Variable parseFloat : jsstring -> JSNumber.
Variable JSON_parse_other : jsstring -> Outcome JSValue.

(** [None] is the bound of the model on the dead-code pass. *)
Definition reconstructBytecode (vm : VMState) : option VMProto :=
  let reconstructionContext :=
    Reconstructor.mkReconstruction (vm_handlers vm) (vm_constants vm)
                                   (vm_encryptionInfo vm)
                                   (ctx_vmVersion (vmContext vm)) [] in
  result <- Reconstructor.reconstructFromVM Number_toString parseFloat JSON_parse_other
                                            reconstructionContext ;;
  if Reconstructor.rr_success result
  then Some (Reconstructor.rr_proto result)
  else Some (createEmptyProto vm).

End WithConversions.

End LuraphAnalysis.
(* ================================================================== *)
(** * Reference encryptions of the specification                       *)
(* ================================================================== *)

(** The sources only decrypt.  §4.D of the specification gives each
    algorithm as a formula on the ciphertext; the encryptions below are
    those formulas solved for the ciphertext.  They are written from the
    specification, not from the sources, and serve as the other side of
    the round trip. *)
Module ReferenceEncryption.

Inductive KeyedMethod := xor_v1 | xor_v2 | luraph_custom.

Definition method_name (m : KeyedMethod) : jsstring :=
  match m with
  | xor_v1 => str "xor_v1"
  | xor_v2 => str "xor_v2"
  | luraph_custom => str "luraph_custom"
  end.

(** [key[i mod |key|]], the key taken as bytes. *)
Definition key_byte (key : jsstring) (i : nat) : Z :=
  to_u8 (nth (Nat.modulo i (List.length key)) key 0).

Definition rotate_right (b : Z) (n : Z) : Z :=
  Z.land (Z.lor (Z.shiftr b n) (Z.shiftl b (8 - n))) 255.

Fixpoint map_indexed (f : nat -> Z -> Z) (i : nat) (l : list Z) : list Z :=
  match l with
  | [] => []
  | x :: l' => f i x :: map_indexed f (S i) l'
  end.

(** [cipher[i] = plain[i] XOR key[i mod |key|]] *)
Definition encrypt_xor_v1 (plain key : jsstring) : jsstring :=
  map_indexed (fun i p => Z.lxor p (key_byte key i)) 0 plain.

(** [cipher[i] = plain[i] XOR ((key[i mod |key|] + i) mod 256)] *)
Definition encrypt_xor_v2 (plain key : jsstring) : jsstring :=
  map_indexed (fun i p => Z.lxor p ((key_byte key i + Z.of_nat i) mod 256)) 0 plain.

(** The three layers undone from the last to the first: add the key
    byte modulo 256, rotate right by 3, XOR with the key byte. *)
Definition encrypt_luraph_custom (plain key : jsstring) : jsstring :=
  map_indexed
    (fun i p => Z.lxor (rotate_right ((p + key_byte key i) mod 256) 3) (key_byte key i))
    0 plain.

Definition encrypt (m : KeyedMethod) (plain key : jsstring) : jsstring :=
  match m with
  | xor_v1 => encrypt_xor_v1 plain key
  | xor_v2 => encrypt_xor_v2 plain key
  | luraph_custom => encrypt_luraph_custom plain key
  end.

End ReferenceEncryption.

(* ================================================================== *)
(** * The scoring formula as the specification words it                *)
(* ================================================================== *)

Module ClaimedScore.

(** The reserved words of Lua 5.3. *)
Definition lua53_reserved_words : list jsstring :=
  map str ["and"; "break"; "do"; "else"; "elseif"; "end"; "false"; "for";
           "function"; "goto"; "if"; "in"; "local"; "nil"; "not"; "or";
           "repeat"; "return"; "then"; "true"; "until"; "while"]%string.

(** The single- and two-character operators of §4.L. *)
Definition lua_operators : list jsstring :=
  map str ["+"; "-"; "*"; "/"; "%"; "^"; "#"; "<"; ">"; "=";
           "=="; "~="; "<="; ">="; ".."; "::"]%string.

Definition literal_matcher (p : jsstring) : option Z -> jsstring -> option nat :=
  fun _ s => if startsWith p s then Some (List.length p) else None.

Definition keyword_count (kw code : jsstring) : Z := match_count (word_matcher kw) code.
Definition operator_count (op code : jsstring) : Z := match_count (literal_matcher op) code.
Definition non_printable_count (code : jsstring) : Z :=
  Z.of_nat (List.length (filter Decryptor.nonPrintable_class code)).

Definition indicator (b : bool) : Z := if b then 1 else 0.

Definition score (code : jsstring) : Z :=
  10 * sumZ (map (fun kw => keyword_count kw code) lua53_reserved_words)
  + 2 * sumZ (map (fun op => operator_count op code) lua_operators)
  + 20 * indicator (includes code (str "function") && includes code (str "end"))
  + 15 * indicator (includes code (str "local"))
  + 10 * indicator (includes code (str "print"))
  - 5 * non_printable_count code.

End ClaimedScore.

(** The formula with the lists of the code: the ten words of
    [luaKeywords] as whole words, and the operators of [luaOperators]
    as plain substrings. *)
Module ScoreFormula.
Import ClaimedScore.

Definition score (code : jsstring) : Z :=
  10 * sumZ (map (fun kw => keyword_count kw code) Decryptor.luaKeywords)
  + 2 * sumZ (map (fun op => operator_count op code) Decryptor.luaOperators)
  + 20 * indicator (includes code (str "function") && includes code (str "end"))
  + 15 * indicator (includes code (str "local"))
  + 10 * indicator (includes code (str "print"))
  - 5 * non_printable_count code.

End ScoreFormula.

(** The plaintext candidates of [autoDetectAndDecrypt], in the order of
    its method list. *)
Module AutoDetect.
Import Decryptor.

Definition candidates (encrypted key : jsstring) : list DecryptionResult :=
  [ xorDecryptV1 encrypted key; xorDecryptV2 encrypted key;
    aesDecrypt encrypted key None; luraphCustomDecrypt encrypted key ].

Definition score_of (r : DecryptionResult) : Z := scoreLuaCode (decrypted r).

(** [r] sits at index [j] of [l], nothing in [l] scores higher, and
    everything before [j] scores strictly lower. *)
Definition first_best (l : list DecryptionResult) (r : DecryptionResult) (j : nat) : Prop :=
  nth_error l j = Some r /\
  (forall c, In c l -> score_of c <= score_of r) /\
  (forall i c, (i < j)%nat -> nth_error l i = Some c -> score_of c < score_of r).

End AutoDetect.

(** What the claims on the lexer speak about. *)
Module LexerSpec.
Import Lexer.

(** The byte offsets of successive tokens do not decrease. *)
Definition offsets_nondecreasing (tokens : list LuaToken) : Prop :=
  forall i a b,
    nth_error tokens i = Some a -> nth_error tokens (S i) = Some b ->
    (position a <= position b)%nat.

(** The lexer has not run past the end of its input. *)
Definition bounded (input : jsstring) (st : LexState) : Prop :=
  (cur_position st <= input_length input)%nat.

(** The lexer has consumed at least one character. *)
Definition moved (st st' : LexState) : Prop :=
  (cur_position st < cur_position st')%nat.

(** What the loop of [tokenize] maintains: the tokens collected so far
    lie, in order, before the current position. *)
Definition tokenize_invariant (input : jsstring) (s : LexState * list LuaToken) : Prop :=
  bounded input (fst s) /\ offsets_nondecreasing (snd s) /\
  (forall t, In t (snd s) -> (position t <= cur_position (fst s))%nat).

(** The characters with which [nextToken] starts a token of its own. *)
Definition token_start_chars : jsstring :=
  str "+-*/%^#<>=;,.:(){}[]_" ++ [DQUOTE; SQUOTE; LF].

(** A character the lexer does not recognise at this place: no letter,
    no digit, none of the characters above, and no [~] in front of an
    [=]. *)
Definition unrecognized (c : Z) (next : option Z) : Prop :=
  is_alpha c = false /\ is_digit c = false /\ ~ In c token_start_chars /\
  ~ (c = ch "~" /\ next = Some (ch "=")).

End LexerSpec.

(** The header of a Lua 5.3 chunk as §4.E of the specification lays it
    out. *)
Module LuacHeader.
Import Emitter.

Definition header_bytes : list Z :=
  little_endian 4 0x1B4C7561             (* magic, u32 *)
  ++ [0x53]                              (* version *)
  ++ [0]                                 (* format *)
  ++ [0x19; 0x93; 0x0D; 0x0A; 0x1A; 0x0A]  (* data *)
  ++ [4; 8; 4; 8; 8]                     (* sizes *)
  ++ little_endian 8 0x5678              (* int_check, i64 *)
  ++ little_endian 8 (f64_bits number_370_5).   (* num_check, f64 *)

Definition header_size : nat := 33.

(** Writing from [offset] on has left the first [k] bytes and the size
    of the buffer alone, and has not moved the offset back. *)
Definition frame (k : nat) (before after : Written) : Prop :=
  firstn k (fst after) = firstn k (fst before) /\
  List.length (fst after) = List.length (fst before) /\
  snd before <= snd after.

Definition preserves (k : nat) (write : DataView -> Z -> option Written) : Prop :=
  forall dataView offset w,
    Z.of_nat k <= offset -> write dataView offset = Some w ->
    frame k (dataView, offset) w.

(** The prototype of an empty function. *)
Definition emptyProto : VMInstructions.VMProto :=
  VMInstructions.mkProto [] [] [] [] (str "@deobfuscated.lua") 0 0 0 false 2.

End LuacHeader.

(** What the claims on the reconstructor speak about. *)
Module ReconstructorSpec.
Import VMInstructions Reconstructor.

(** A handler body that none of the six patterns recognises. *)
Definition unrecognizable (handlerCode : jsstring) : Prop :=
  Forall (fun pattern => regex_match pattern handlerCode = None) handler_patterns.

(** The safe no-op that stands for such a handler. *)
Definition placeholder (handler : LuraphVMHandler) : VMInstruction :=
  mkInstruction MOVE 0 0 0 None None None (Some (h_index handler)).

(** The program counters a dead-code pass may have visited. *)
Definition visited_ok (instructions : list VMInstruction) (reachable : list Z) : Prop :=
  NoDup reachable /\
  forall pc, In pc reachable -> 0 <= pc < Z.of_nat (List.length instructions).

(** A handler as [LuraphVM.extractHandlerCode] hands it over, and a
    context that holds nothing else. *)
Definition opaque_handler : LuraphVMHandler :=
  mkHandler 1 0 (str "function handler_1(...) /* handler code */ end") false None.

Definition opaque_context : ReconstructionContext :=
  mkReconstruction [(1, opaque_handler)] []
    (Decryptor.mkInfo (str "auto") [] None (str "auto") (str "11.8.1"))
    (str "11.8.1") [].

(** Two equal string constants that hold a colon, which the empty
    key leaves as they are, a handler that loads the second one, and
    the prototype that [reconstructFromVM] makes of them before it
    optimizes. *)
Definition loads_second : LuraphVMHandler :=
  mkHandler 0 0 (str "R[0] = K[1]") false None.

Definition two_equal_strings : ReconstructionContext :=
  mkReconstruction [(0, loads_second)]
    [mkConstant TString (VString (str "a:b")) 0;
     mkConstant TString (VString (str "a:b")) 1]
    (Decryptor.mkInfo (str "xor_v1") [] None (str "xor_v1") (str "11.5"))
    (str "11.5") [].

Definition pool_of_two : VMProto :=
  mkProto [instruction LOADK 0 1 0 0]
          [mkConstant TString (VString (str "a:b")) 0;
           mkConstant TString (VString (str "a:b")) 1]
          [] [] (str "@deobfuscated.lua") 0 1 0 false 2.

End ReconstructorSpec.

(** What is proved of the parser, method by method. *)
Module ParserSpec.
Import AST Lexer Loops Parser.

Section WithTokens.
Variable tokens : list LuaToken.
Variable parseFloat : jsstring -> JSNumber.

(** [current] is the token at [position], as [advance] leaves it. *)
Definition in_sync (s : ParserState) : Prop :=
  (position s <= List.length tokens)%nat /\
  current s = token_or_last tokens (position s).

(** A method run from [s] comes back, in step with the token array and
    not before [s], with an outcome that satisfies [Q]. *)
Definition steps {A} (m : M A) (s : ParserState)
           (Q : Outcome A -> ParserState -> Prop) : Prop :=
  exists r s', m s = Some (r, s') /\ in_sync s' /\
               (position s <= position s')%nat /\ Q r s'.

Definition anything {A} : Outcome A -> ParserState -> Prop := fun _ _ => True.

(** It returns only after a token was consumed. *)
Definition advances {A} (s : ParserState) : Outcome A -> ParserState -> Prop :=
  fun r s' => match r with
              | Returned _ => (position s < position s')%nat
              | Threw _ => True
              end.

(** It does not throw. *)
Definition returns {A} (P : A -> ParserState -> Prop) : Outcome A -> ParserState -> Prop :=
  fun r s' => match r with
              | Returned x => P x s'
              | Threw _ => False
              end.

(** It returns a value and leaves the state alone. *)
Definition pure {A} (m : M A) (s : ParserState) (P : A -> Prop) : Prop :=
  exists x, m s = Some (Returned x, s) /\ P x.

(** What one round of a loop must establish. *)
Definition round {A} (Inv : A -> ParserState -> Prop)
           (Q : Outcome A -> ParserState -> Prop) (s : ParserState)
  : Outcome (Step A) -> ParserState -> Prop :=
  fun r s' => match r with
              | Returned (Continue acc) => (position s < position s')%nat /\ Inv acc s'
              | Returned (Break acc) => Q (Returned acc) s'
              | Threw message => Q (Threw message) s'
              end.

(** The nesting of calls that is left: 32 levels for each token not
    yet consumed, and [rank] more. *)
Definition enough (rank fuel : nat) (s : ParserState) : Prop :=
  ((List.length tokens - position s) * 32 + rank <= fuel)%nat.

Definition total {A} (rank : nat) (strict : bool) (method : nat -> M A) (fuel : nat)
  : Prop :=
  forall s, in_sync s -> enough rank fuel s ->
            steps (method fuel) s (if strict then advances s else anything).


Definition all_total (fuel : nat) : Prop :=
  total 1 true (parsePrimary tokens parseFloat) fuel /\
  total 2 true (parseCall tokens parseFloat) fuel /\
  total 3 true (parsePower tokens parseFloat) fuel /\
  total 4 true (parseUnary tokens parseFloat) fuel /\
  total 5 true (parseMultiplicative tokens parseFloat) fuel /\
  total 6 true (parseAdditive tokens parseFloat) fuel /\
  total 7 true (parseConcat tokens parseFloat) fuel /\
  total 8 true (parseComparison tokens parseFloat) fuel /\
  total 9 true (parseEquality tokens parseFloat) fuel /\
  total 10 true (parseAnd tokens parseFloat) fuel /\
  total 11 true (parseOr tokens parseFloat) fuel /\
  total 12 true (parseExpression tokens parseFloat) fuel /\
  total 13 true (parseExpressionList tokens parseFloat) fuel /\
  total 13 true (parseTableField tokens parseFloat) fuel /\
  total 14 false (parseTableConstructor tokens parseFloat) fuel /\
  (forall callee,
      total 14 false (fun fuel => finishCall tokens parseFloat fuel callee) fuel) /\
  total 14 false (parseReturnStatement tokens parseFloat) fuel /\
  total 13 true (parseExpressionStatement tokens parseFloat) fuel /\
  total 13 false (parseWhileStatement tokens parseFloat) fuel /\
  total 13 false (parseForStatement tokens parseFloat) fuel /\
  total 13 false (parseIfStatement tokens parseFloat) fuel /\
  (forall isLocal,
      total 13 false (fun fuel => parseFunctionDeclaration tokens parseFloat fuel isLocal)
            fuel) /\
  total 14 false (parseLocalStatement tokens parseFloat) fuel /\
  (forall s, in_sync s -> enough 15 fuel s ->
             steps (tryStatement tokens parseFloat fuel) s
                   (fun r s' => match r with
                                | Returned _ => isAtEnd tokens s = false ->
                                                (position s < position s')%nat
                                | Threw _ => True
                                end)) /\
  (forall s, in_sync s -> enough 16 fuel s ->
             steps (parseStatement tokens parseFloat fuel) s
                   (returns (fun _ s' => isAtEnd tokens s = false ->
                                         (position s < position s')%nat))) /\
  total 17 false (parseBlock tokens parseFloat) fuel.

(** Where [synchronize] stops: at the end, behind a semicolon, or in
    front of a word that starts a statement. *)
Definition recovery_point (j : nat) : bool :=
  (List.length tokens <=? j)%nat ||
  match nth_error tokens j with
  | Some token => type_eqb (type token) EOF ||
                  existsb (type_eqb (type token)) statement_starts
  | None => false
  end ||
  match j with
  | O => false
  | S p => match nth_error tokens p with
           | Some token => type_eqb (type token) SEMICOLON
           | None => false
           end
  end.

(** [s'] is where recovery from an error at [s] resumes: the token at
    [s] is dropped, then every token up to the first recovery point. *)
Definition resumes (s s' : ParserState) : Prop :=
  in_sync s' /\
  if isAtEnd tokens s then s' = s
  else (position s < position s')%nat /\
       recovery_point (position s') = true /\
       forall j, (position s < j < position s')%nat -> recovery_point j = false.

(** The statements that the loop of [parse] collects from [s] on, and
    where it stops.  At the end of the tokens there are none.  A
    statement that is parsed stands in front of those collected from
    where it ends.  A statement that throws leaves nothing, and the
    statements behind it are those collected from where recovery
    resumes. *)
Inductive collected (s : ParserState) : list ASTNode -> ParserState -> Prop :=
| collected_none :
    isAtEnd tokens s = true ->
    collected s [] s
| collected_statement (stmt : option ASTNode) (s1 : ParserState)
                      (rest : list ASTNode) (s' : ParserState) :
    isAtEnd tokens s = false ->
    tryStatement tokens parseFloat (pred (call_depth tokens)) s
    = Some (Returned stmt, s1) ->
    collected s1 rest s' ->
    collected s (match stmt with Some x => x :: rest | None => rest end) s'
| collected_error (message : jsstring) (s1 s2 : ParserState)
                  (rest : list ASTNode) (s' : ParserState) :
    isAtEnd tokens s = false ->
    tryStatement tokens parseFloat (pred (call_depth tokens)) s
    = Some (Threw message, s1) ->
    resumes s1 s2 ->
    collected s2 rest s' ->
    collected s rest s'.

End WithTokens.

(** The tokens of [if x then], where the input ends inside the
    statement. *)
Definition unfinished_if : list LuaToken :=
  [mkToken IF (str "if") 1 1 0; mkToken IDENTIFIER (str "x") 1 4 3;
   mkToken THEN (str "then") 1 6 5; mkToken EOF [] 1 10 9].

End ParserSpec.

(** The test §4.O of the specification describes, and the nodes the
    tests of the code look at. *)
Module GateSpec.
Import AST.

(** The nodes [checkNode] visits: the node, its [children], and the
    statements of a block. *)
Fixpoint visited (node : ASTNode) : list ASTNode :=
  node ::
  match node with
  | Node _ children variant =>
      match children with
      | Some nodes => flat_map visited nodes
      | None => []
      end ++
      match variant with
      | BlockStatement statements => flat_map visited statements
      | _ => []
      end
  end.

(** Every node of a tree. *)
Fixpoint subnodes (node : ASTNode) : list ASTNode :=
  let some_subnodes (x : option ASTNode) :=
    match x with Some n => subnodes n | None => [] end in
  node ::
  match node with
  | Node _ children variant =>
      match children with
      | Some nodes => flat_map subnodes nodes
      | None => []
      end ++
      match variant with
      | Literal _ _ | Identifier _ _ | EncryptedString _ _ | Untyped _ _ => []
      | FunctionDeclaration name parameters body _ _ _ =>
          subnodes name ++ flat_map subnodes parameters ++ subnodes body
      | CallExpression callee arguments _ _ =>
          subnodes callee ++ flat_map subnodes arguments
      | BlockStatement statements => flat_map subnodes statements
      | AssignmentExpression lefts rights _ =>
          flat_map subnodes lefts ++ flat_map subnodes rights
      | TableConstructor fields _ => flat_map subnodes fields
      | TableField key value _ => some_subnodes key ++ subnodes value
      | IfStatement condition consequent alternate =>
          subnodes condition ++ subnodes consequent ++ some_subnodes alternate
      | ForStatement init condition update body _ =>
          subnodes init ++ some_subnodes condition ++ subnodes update ++ subnodes body
      | WhileStatement condition body => subnodes condition ++ subnodes body
      | ReturnStatement arguments => flat_map subnodes arguments
      | BinaryExpression binary_left _ binary_right =>
          subnodes binary_left ++ subnodes binary_right
      | UnaryExpression _ argument => subnodes argument
      end
  end.

(** (a) the source text contains a Luraph marker, in any case *)
Definition markers : list jsstring :=
  [str "luraph"; str "lura.ph"; str "protected using luraph"; str "obfuscator"].

Definition has_marker (source : jsstring) : bool :=
  existsb (includes (map lower_ascii source)) markers.

(** (b) the obfuscation patterns: [R[...]], [K[...]], [handler_\d+],
    [vm_\w+], hex literals, identifiers of more than 15 characters *)
Definition obfuscation_patterns : list (jsstring -> bool) :=
  [ Lexer.somewhere (LuraphVM_003.table_access "R");
    Lexer.somewhere (LuraphVM_003.table_access "K");
    Lexer.somewhere (Parser.prefix_then (str "handler_") is_digit 1);
    Lexer.somewhere (Parser.prefix_then (str "vm_") is_word 1);
    Lexer.somewhere (Parser.prefix_then (str "0x") is_hex_digit 1);
    Lexer.somewhere (Parser.long_name_at 15) ].

Definition distinct_patterns (source : jsstring) : nat :=
  List.length (filter (fun pattern => pattern source) obfuscation_patterns).

(** (c) a [vm_handler] function and an [EncryptedString] in the tree *)
Definition has_handler_and_encrypted (ast : ASTNode) : bool :=
  existsb LuraphVM.is_vm_handler (subnodes ast) &&
  existsb LuraphVM.is_encrypted_string (subnodes ast).

Definition looks_like_luraph (source : jsstring) (ast : ASTNode) : bool :=
  has_marker source || (2 <=? distinct_patterns source)%nat ||
  has_handler_and_encrypted ast.

(** Lexing and parsing a source text. *)
Definition parsed (source : jsstring) : option ASTNode :=
  match Lexer.tokenize source with
  | Some tokens =>
      match Parser.parse_tokens (fun _ => F64 0) tokens with
      | Some (Returned ast) => Some ast
      | _ => None
      end
  | None => None
  end.

(** Two Lua programs that have nothing to do with Luraph. *)
Definition plain_call : jsstring := str "io.write('hi')".
Definition odd_name : jsstring := str "lI1O '\x41'".

End GateSpec.

(* ================================================================== *)
(** * What the further properties speak about                          *)
(* ================================================================== *)

Module DetectionSpec.
Import Detection.

(** [group] is a piece of [s] that stands between two quote characters,
    has sixteen or more characters and contains no quote. *)
Definition between_quotes (s group : jsstring) : Prop :=
  exists before q q' after,
    s = before ++ q :: group ++ q' :: after /\
    is_quote q = true /\ is_quote q' = true /\
    (16 <= List.length group)%nat /\
    forallb (fun c => negb (is_quote c)) group = true.

End DetectionSpec.

(** What the further properties of the lexer say about its tokens. *)
Module TokenSpec.
Import Lexer.

(** The offset behind the last character of a token. *)
Definition token_end (t : LuaToken) : nat := (position t + List.length (value t))%nat.

(** Every token is the piece of the input that starts at its offset,
    and no token begins before the one in front of it has ended. *)
Definition disjoint_slices (input : jsstring) (tokens : list LuaToken) : Prop :=
  forall i a,
    nth_error tokens i = Some a ->
    value a = substring input (position a) (token_end a) /\
    (token_end a <= List.length input)%nat /\
    (forall b, nth_error tokens (S i) = Some b -> (token_end a <= position b)%nat).

(** The line of an offset: one more than the line feeds in front of it. *)
Definition line_of (input : jsstring) (offset : nat) : nat :=
  S (count_occ Z.eq_dec (firstn offset input) LF).

(** The column of an offset: one more than the characters between the
    last line feed in front of it, or the start of the input, and it. *)
Definition column_of (input : jsstring) (offset : nat) : nat :=
  S (Parser.leading (fun c => negb (c =? LF)) (rev (firstn offset input))).

Definition located (input : jsstring) (t : LuaToken) : Prop :=
  line t = line_of input (position t) /\ column t = column_of input (position t).

(** The line and the column of the lexer are those of its offset. *)
Definition consistent (input : jsstring) (st : LexState) : Prop :=
  cur_line st = line_of input (cur_position st) /\
  cur_column st = column_of input (cur_position st).

Definition good (input : jsstring) (st : LexState) : Prop :=
  LexerSpec.bounded input st /\ consistent input st.

(** What a reader returns: the token is the piece of the input between
    the offsets in front of and behind the call, and it carries the
    line, the column and the offset of the lexer in front of it. *)
Definition reads (input : jsstring) (st : LexState) (t : LuaToken) (st' : LexState)
  : Prop :=
  value t = substring input (cur_position st) (cur_position st') /\
  line t = cur_line st /\ column t = cur_column st /\
  position t = cur_position st /\
  good input st'.

(** What the loop of [tokenize] keeps. *)
Definition tokens_so_far (input : jsstring) (s : LexState * list LuaToken) : Prop :=
  good input (fst s) /\ disjoint_slices input (snd s) /\
  Forall (located input) (snd s) /\
  (forall t, In t (snd s) -> (token_end t <= cur_position (fst s))%nat).

(** The characters that [readNumber] takes for part of a number. *)
Definition number_char (c : Z) : bool :=
  is_digit c || (c =? ch ".") || (c =? ch "e") || (c =? ch "E") ||
  (c =? ch "+") || (c =? ch "-").

End TokenSpec.

(** What the key of a constant is made of. *)
Module ConstantKeySpec.

(** The text that stands for one character of a string: it holds no
    colon, and a string literal is not closed by it. *)
Definition passes (encoded : jsstring) : Prop :=
  ~ In (ch ":") encoded /\
  forall tail, json_string_body 0 tail = None ->
               json_string_body 0 (encoded ++ tail) = None.

End ConstantKeySpec.

(** What the further properties of the analysis speak about. *)
Module AnalysisSpec.
Import AST VMInstructions SymbolicExecutor LuraphAnalysis.

(** A method has thrown, or it has left a handler in the table. *)
Definition handlers_found (run : Run) : Prop :=
  match run with
  | Thrown _ _ => True
  | Running vm => vm_handlers vm <> []
  end.

(** A method has thrown, or it has left the table of handlers alone. *)
Definition same_handlers (vm : VMState) (run : Run) : Prop :=
  match run with
  | Thrown _ _ => True
  | Running vm' => vm_handlers vm' = vm_handlers vm
  end.

(** A call of a register, [R[A](...)], as a statement. *)
Definition register_call (statement : ASTNode) : bool :=
  match variant_of statement with
  | CallExpression callee _ _ _ => isRegisterAccess callee
  | _ => false
  end.

(** A statement that is neither a binary expression nor a block. *)
Definition plain_statement (statement : ASTNode) : bool :=
  match variant_of statement with
  | BinaryExpression _ _ _ | BlockStatement _ => false
  | _ => true
  end.



(** The instruction that [executeBlock] keeps for a result. *)
Definition kept (result : ExecutionResult) : ExecutionResult :=
  mkExecution (exec_opcode result)
              [operand (operands result) 0; operand (operands result) 1;
               operand (operands result) 2] [] true.

End AnalysisSpec.

(** What the further properties of the parser speak about. *)
Module StatementSpec.
Import AST Lexer Parser.

(** What [check] answers: the parser is not at the end and its current
    token has this type. *)
Definition sees (tokens : list LuaToken) (s : ParserState) (type_ : LuaTokenType) : bool :=
  negb (isAtEnd tokens s) &&
  match current s with
  | Some token => type_eqb (type token) type_
  | None => false
  end.

(** The identifier that [parseIdentifier] makes of a token. *)
Definition identifier_of (token : LuaToken) : ASTNode :=
  node (PosOffset (Lexer.position token))
       (Identifier (value token) (type_eqb (type token) OBFUSCATED_NAME)).

(** The tokens of [function f() end], [for i = 1, 2 do end] and
    [local x = 1]. *)
Definition named_function : list LuaToken :=
  [mkToken FUNCTION (str "function") 1 1 0; mkToken IDENTIFIER (str "f") 1 10 9;
   mkToken LPAREN (str "(") 1 11 10; mkToken RPAREN (str ")") 1 12 11;
   mkToken END (str "end") 1 14 13; mkToken EOF [] 1 17 16].

Definition numeric_for : list LuaToken :=
  [mkToken FOR (str "for") 1 1 0; mkToken IDENTIFIER (str "i") 1 5 4;
   mkToken ASSIGN (str "=") 1 7 6; mkToken NUMBER (str "1") 1 9 8;
   mkToken COMMA (str ",") 1 10 9; mkToken NUMBER (str "2") 1 12 11;
   mkToken DO (str "do") 1 14 13; mkToken END (str "end") 1 17 16;
   mkToken EOF [] 1 20 19].

Definition local_variable : list LuaToken :=
  [mkToken LOCAL (str "local") 1 1 0; mkToken IDENTIFIER (str "x") 1 7 6;
   mkToken ASSIGN (str "=") 1 9 8; mkToken NUMBER (str "1") 1 11 10;
   mkToken EOF [] 1 12 11].

End StatementSpec.

(** What the further properties of the optimizer speak about. *)
Module OptimizerSpec.
Import VMInstructions.

(** The instructions up to the first RETURN, which is the last of
    them. *)
Fixpoint upto_return (instructions : list VMInstruction) : list VMInstruction :=
  match instructions with
  | [] => []
  | i :: rest =>
      if opcode_eqb (opcode i) RETURN then [i] else i :: upto_return rest
  end.

Definition no_jump (instructions : list VMInstruction) : bool :=
  forallb (fun i => negb (opcode_eqb (opcode i) JMP)) instructions.

(** No instruction stands behind a RETURN. *)
Definition ends_at_return (instructions : list VMInstruction) : Prop :=
  forall front i back,
    instructions = front ++ i :: back -> opcode i = RETURN -> back = [].

(** The registers an instruction names lie below [size]; an operand of
    256 or more is no register. *)
Definition fits (size : Z) (i : VMInstruction) : Prop :=
  a i < size /\ (b i < 256 -> b i < size) /\ (c i < 256 -> c i < size).

(** A MOVE, a RETURN and a CALL behind it. *)
Definition return_in_the_middle : VMProto :=
  mkProto [mkInstruction MOVE 0 1 0 None None None (Some 1);
           mkInstruction RETURN 0 1 0 None None None (Some 2);
           mkInstruction CALL 0 1 1 None None None (Some 3)]
          [] [] [] (str "@deobfuscated.lua") 0 3 0 false 2.

(** A context with the one handler [R[5] = R[3]], and one with the
    handler [R[9007199254740992] = R[0]]. *)
Definition context_of (code : string) : Reconstructor.ReconstructionContext :=
  Reconstructor.mkReconstruction
    [(1, mkHandler 1 0 (str code) false None)] []
    (Decryptor.mkInfo (str "auto") [] None (str "auto") (str "11.8.1"))
    (str "11.8.1") [].

Definition one_move : Reconstructor.ReconstructionContext := context_of "R[5] = R[3]".

Definition one_large_move : Reconstructor.ReconstructionContext :=
  context_of "R[9007199254740992] = R[0]".

End OptimizerSpec.

(* ================================================================== *)
(** * Properties of the decryptor                                      *)
(* ================================================================== *)

Section ByteFacts.

Lemma in_all_bytes x : 0 <= x < 256 -> In x all_bytes.
Proof.
  intros Hx. unfold all_bytes.
  replace x with (Z.of_nat (Z.to_nat x)) by lia.
  apply in_map, in_seq. lia.
Qed.

Lemma byte_forall (P : Z -> bool) :
  forallb P all_bytes = true -> forall x, 0 <= x < 256 -> P x = true.
Proof.
  intros H x Hx. rewrite forallb_forall in H. apply H, in_all_bytes, Hx.
Qed.

Lemma byte_forall2 (P : Z -> Z -> bool) :
  forallb (fun x => forallb (P x) all_bytes) all_bytes = true ->
  forall x y, 0 <= x < 256 -> 0 <= y < 256 -> P x y = true.
Proof.
  intros H x y Hx Hy.
  apply (byte_forall (P x)); [|exact Hy].
  apply (byte_forall (fun x => forallb (P x) all_bytes)); assumption.
Qed.

Lemma to_u8_range z : 0 <= to_u8 z < 256.
Proof. unfold to_u8. apply Z.mod_pos_bound. lia. Qed.

Lemma to_u8_small z : 0 <= z < 256 -> to_u8 z = z.
Proof. intros. unfold to_u8. apply Z.mod_small. assumption. Qed.

Lemma lxor_cancel p k : Z.lxor (Z.lxor p k) k = p.
Proof. rewrite Z.lxor_assoc, Z.lxor_nilpotent, Z.lxor_0_r. reflexivity. Qed.

(** Undoing the rotation and the XOR of one byte of [luraph_custom]. *)
Lemma custom_layers_12 v k :
  0 <= v < 256 -> 0 <= k < 256 ->
  let c := Z.lxor (ReferenceEncryption.rotate_right v 3) k in
  to_u8 c = c /\
  Z.land (Z.lor (Z.shiftl (to_u8 (Z.lxor c k)) 3) (Z.shiftr (to_u8 (Z.lxor c k)) 5)) 255 = v.
Proof.
  intros Hv Hk.
  pose (P := fun v k =>
    let c := Z.lxor (ReferenceEncryption.rotate_right v 3) k in
    (to_u8 c =? c) &&
    (Z.land (Z.lor (Z.shiftl (to_u8 (Z.lxor c k)) 3)
                   (Z.shiftr (to_u8 (Z.lxor c k)) 5)) 255 =? v)).
  assert (H : P v k = true).
  { apply byte_forall2; [vm_compute; reflexivity | assumption | assumption]. }
  unfold P in H. cbv zeta in H. apply andb_true_iff in H. destruct H as [H1 H2].
  apply Z.eqb_eq in H1, H2. cbv zeta. split; assumption.
Qed.

Lemma custom_layer_3 p k :
  0 <= p < 256 -> 0 <= k < 256 -> Z.land ((p + k) mod 256 - k) 255 = p.
Proof.
  intros Hp Hk.
  change 255 with (Z.ones 8). rewrite Z.land_ones by lia.
  change (2 ^ 8) with 256.
  rewrite Zminus_mod_idemp_l.
  replace (p + k - k) with p by lia. apply Z.mod_small. assumption.
Qed.

End ByteFacts.

Section KeyBytes.
Import Decryptor ReferenceEncryption.

Variable key : jsstring.
Hypothesis key_nonempty : key <> [].

Lemma key_length_pos : (0 < List.length key)%nat.
Proof. destruct key; [congruence | simpl; lia]. Qed.

Lemma keyBytes_at i :
  u8_get (stringToBytes key) (mod_index i (List.length (stringToBytes key)))
  = Some (key_byte key i).
Proof.
  pose proof key_length_pos as Hlen.
  unfold stringToBytes, mod_index. rewrite length_map.
  destruct (Nat.eqb_spec (List.length key) 0) as [E|E]; [lia|].
  simpl. unfold key_byte.
  rewrite nth_error_map.
  assert (Hlt : (Nat.modulo i (List.length key) < List.length key)%nat)
    by (apply Nat.mod_upper_bound; lia).
  rewrite (nth_error_nth' key 0 Hlt). reflexivity.
Qed.

Lemma key_byte_range i : 0 <= key_byte key i < 256.
Proof. apply to_u8_range. Qed.

Lemma keyIndex_step i :
  mod_index (S (Nat.modulo i (List.length (stringToBytes key))))
            (List.length (stringToBytes key))
  = Some (Nat.modulo (S i) (List.length (stringToBytes key))).
Proof.
  pose proof key_length_pos as Hlen.
  unfold stringToBytes, mod_index. rewrite length_map.
  destruct (Nat.eqb_spec (List.length key) 0) as [E|E]; [lia|].
  f_equal. replace (S (Nat.modulo i (List.length key)))
    with (Nat.modulo i (List.length key) + 1)%nat by lia.
  rewrite Nat.Div0.add_mod_idemp_l. f_equal. lia.
Qed.

Lemma xor_v1_round_trip plain i :
  xorDecryptV1_from i
    (map_indexed (fun i p => Z.lxor p (key_byte key i)) i plain)
    (stringToBytes key) = plain.
Proof.
  revert i. induction plain as [|p plain IH]; intros i; simpl; [reflexivity|].
  rewrite keyBytes_at. simpl. rewrite lxor_cancel, IH. reflexivity.
Qed.

Lemma xor_v2_round_trip plain i :
  xorDecryptV2_from i
    (Some (Nat.modulo i (List.length (stringToBytes key))))
    (map_indexed (fun i p => Z.lxor p ((key_byte key i + Z.of_nat i) mod 256)) i plain)
    (stringToBytes key) = plain.
Proof.
  revert i. induction plain as [|p plain IH]; intros i; [reflexivity|].
  cbn [map_indexed xorDecryptV2_from].
  pose proof (keyBytes_at i) as Hk. unfold mod_index in Hk.
  pose proof key_length_pos as Hlen.
  assert (Hn : Nat.eqb (List.length (stringToBytes key)) 0 = false).
  { unfold stringToBytes. rewrite length_map. apply Nat.eqb_neq. lia. }
  rewrite Hn in Hk. rewrite Hk.
  change 255 with (Z.ones 8). rewrite Z.land_ones by lia.
  change (2 ^ 8) with 256.
  rewrite lxor_cancel, keyIndex_step, IH. reflexivity.
Qed.

Lemma luraph_custom_round_trip plain i :
  Forall (fun c => 0 <= c < 256) plain ->
  customSubstitution_from i
    (reverseBitManipulation
       (xorBytes_from i
          (stringToBytes
             (map_indexed
                (fun i p => Z.lxor (rotate_right ((p + key_byte key i) mod 256) 3)
                                   (key_byte key i)) i plain))
          (stringToBytes key)))
    (stringToBytes key) = plain.
Proof.
  intros Hplain. revert i.
  induction Hplain as [|p plain Hp _ IH]; intros i; [reflexivity|].
  cbn [map_indexed stringToBytes map xorBytes_from reverseBitManipulation
       customSubstitution_from].
  rewrite keyBytes_at. cbn [int_of].
  pose proof (key_byte_range i) as Hk.
  assert (Hv : 0 <= (p + key_byte key i) mod 256 < 256)
    by (apply Z.mod_pos_bound; lia).
  destruct (custom_layers_12 _ _ Hv Hk) as [H1 H2].
  rewrite H1, H2, (custom_layer_3 p (key_byte key i) Hp Hk).
  f_equal. apply IH.
Qed.

End KeyBytes.

Section DecryptorInverse.
Import Decryptor ReferenceEncryption.

(** C4.  Decryptor inverse: for every plaintext made of bytes, every
    non-empty key and each of the methods xor_v1, xor_v2 and
    luraph_custom, decrypting the reference encryption of the plaintext
    with the same key and method succeeds and gives the plaintext back. *)
Theorem decryptor_inverse (m : KeyedMethod) (plain key : jsstring)
        (iv : option jsstring) (algorithm version : jsstring) :
  Forall (fun c => 0 <= c < 256) plain ->
  key <> [] ->
  decryptString call_depth (encrypt m plain key)
                (mkInfo (method_name m) key iv algorithm version)
  = Some (mkResult true plain (method_name m) None).
Proof.
  intros Hplain Hkey. destruct m.
  - change (Some (xorDecryptV1 (encrypt_xor_v1 plain key) key)
            = Some (mkResult true plain (str "xor_v1") None)).
    unfold xorDecryptV1, encrypt_xor_v1.
    rewrite (xor_v1_round_trip key Hkey). reflexivity.
  - change (Some (xorDecryptV2 (encrypt_xor_v2 plain key) key)
            = Some (mkResult true plain (str "xor_v2") None)).
    unfold xorDecryptV2, encrypt_xor_v2.
    pose proof (xor_v2_round_trip key Hkey plain 0) as H.
    rewrite Nat.Div0.mod_0_l in H. rewrite H. reflexivity.
  - change (Some (luraphCustomDecrypt (encrypt_luraph_custom plain key) key)
            = Some (mkResult true plain (str "luraph_custom") None)).
    unfold luraphCustomDecrypt, encrypt_luraph_custom, xorBytes,
      customSubstitution, bytesToString.
    rewrite (luraph_custom_round_trip key Hkey plain 0 Hplain). reflexivity.
Qed.

Lemma decryptor_inverse_witness :
  decryptString call_depth (encrypt luraph_custom (str "local x=1") (str "0123456789ABCDEF"))
                (mkInfo (str "luraph_custom") (str "0123456789ABCDEF") None
                        (str "luraph_custom") (str "11.8.1"))
  = Some (mkResult true (str "local x=1") (str "luraph_custom") None).
Proof.
  apply (decryptor_inverse luraph_custom (str "local x=1") (str "0123456789ABCDEF")).
  - repeat constructor; vm_compute; intuition discriminate.
  - discriminate.
Defined.

End DecryptorInverse.

Section Scoring.
Import Decryptor ClaimedScore.

Lemma fold_left_accumulate {A} (f : A -> Z) (k : Z) (l : list A) (a : Z) :
  fold_left (fun score x => score + f x * k) l a = a + k * sumZ (map f l).
Proof.
  revert a. induction l as [|x l IH]; intros a; simpl.
  - lia.
  - rewrite IH. lia.
Qed.

Lemma count_from_ext (m1 m2 : option Z -> jsstring -> option nat) :
  (forall prev s, m1 prev s = m2 prev s) ->
  forall s skip prev, count_from m1 skip prev s = count_from m2 skip prev s.
Proof.
  intros Hext. induction s as [|c s IH]; intros skip prev; simpl; [reflexivity|].
  destruct skip as [|k]; [|apply IH].
  rewrite Hext. destruct (m2 prev (c :: s)); rewrite IH; reflexivity.
Qed.

Lemma atoms_match_literal p s : atoms_match (map Lit p) s = startsWith p s.
Proof.
  revert s. induction p as [|a p IH]; intros [|c s]; simpl; try reflexivity.
  rewrite IH. reflexivity.
Qed.

(** An operator whose pattern is made of literal atoms is counted as a
    plain substring. *)
Lemma literal_operator_count op code :
  operator_pattern op = map Lit op ->
  match_count (atoms_matcher (operator_pattern op)) code = operator_count op code.
Proof.
  intros Hop. unfold operator_count, match_count.
  apply count_from_ext. intros prev s.
  unfold atoms_matcher, literal_matcher.
  rewrite Hop, atoms_match_literal, length_map. reflexivity.
Qed.

(** A pattern that can only match where [p] starts finds nothing in a
    string that does not contain [p]. *)
Lemma count_from_absent (m : option Z -> jsstring -> option nat) (p : jsstring) :
  (forall prev s len, m prev s = Some len -> startsWith p s = true) ->
  forall s skip prev, includes s p = false -> count_from m skip prev s = 0.
Proof.
  intros Hm. induction s as [|c s IH]; intros skip prev Hs; simpl; [reflexivity|].
  simpl in Hs. apply orb_false_iff in Hs. destruct Hs as [Hstart Hrest].
  destruct skip as [|k]; [|apply IH; assumption].
  destruct (m prev (c :: s)) as [len|] eqn:E.
  - apply Hm in E. simpl in E. congruence.
  - apply IH; assumption.
Qed.

Lemma atoms_match_first a pat c s :
  atoms_match (Lit a :: pat) (c :: s) = true -> a = c.
Proof. simpl. intros H. apply andb_true_iff in H. destruct H as [H _]. apply Z.eqb_eq, H. Qed.

Lemma dotdot_count_absent code :
  includes code (str ".") = false ->
  match_count (atoms_matcher (operator_pattern (str ".."))) code = 0.
Proof.
  intros H. unfold match_count.
  apply (count_from_absent _ (str ".")); [|exact H].
  intros prev s len. unfold atoms_matcher.
  destruct (atoms_match (operator_pattern (str "..")) s) eqn:E; [|discriminate].
  intros _. destruct s as [|c s]; [discriminate|].
  apply atoms_match_first in E. subst c. reflexivity.
Qed.

Lemma not_count_absent code :
  includes code (LF :: str "ot") = false ->
  match_count (atoms_matcher (operator_pattern (str "not"))) code = 0.
Proof.
  intros H. unfold match_count.
  apply (count_from_absent _ (LF :: str "ot")); [|exact H].
  intros prev s len. unfold atoms_matcher.
  change (operator_pattern (str "not")) with (map Lit (LF :: str "ot")).
  rewrite atoms_match_literal.
  destruct (startsWith (LF :: str "ot") s); [reflexivity|discriminate].
Qed.

Lemma class_count cls s skip_prev :
  count_from (class_matcher cls) 0 skip_prev s = Z.of_nat (List.length (filter cls s)).
Proof.
  revert skip_prev. induction s as [|c s IH]; intros prev; [reflexivity|].
  cbn [count_from class_matcher filter].
  destruct (cls c); cbn [Nat.pred List.length]; rewrite IH; lia.
Qed.

Lemma class_match_count cls s :
  match_count (class_matcher cls) s = Z.of_nat (List.length (filter cls s)).
Proof. apply class_count. Qed.

Lemma literal_count_absent op p code :
  startsWith p op = true -> includes code p = false -> operator_count op code = 0.
Proof.
  intros Hp H. unfold operator_count, match_count.
  apply (count_from_absent _ p); [|exact H].
  intros prev s len. unfold literal_matcher.
  destruct (startsWith op s) eqn:E; [|discriminate]. intros _.
  revert s E Hp. clear. revert op.
  induction p as [|c p IH]; intros op s E Hp; [reflexivity|].
  destruct op as [|a op]; [discriminate|]. destruct s as [|b s]; [discriminate|].
  cbn [startsWith] in *.
  apply andb_true_iff in E. destruct E as [E1 E2].
  apply andb_true_iff in Hp. destruct Hp as [Hp1 Hp2].
  apply Z.eqb_eq in E1. apply Z.eqb_eq in Hp1. subst.
  rewrite Z.eqb_refl. cbn [andb]. apply (IH op); assumption.
Qed.

(** C7 (as the code has it).  For every string that contains no [.],
    no [not] and no line feed followed by [ot], the score is ten times
    the whole-word occurrences of the ten words local, function, end,
    if, then, else, for, while, do, return, plus twice the occurrences
    of the operators =, ==, ~=, <=, >=, <, >, +, -, *, /, %, ^, ..,
    and, or, not as substrings, plus 20 if the string contains both
    function and end, plus 15 if it contains local, plus 10 if it
    contains print, minus five times the number of code units in 00-08,
    0B, 0C, 0E-1F and 7F. *)
Theorem scoreLuaCode_formula (code : jsstring) :
  includes code (str ".") = false ->
  includes code (str "not") = false ->
  includes code (LF :: str "ot") = false ->
  scoreLuaCode code = ScoreFormula.score code.
Proof.
  intros Hdot Hword Hnot.
  unfold scoreLuaCode, ScoreFormula.score.
  rewrite !fold_left_accumulate.
  rewrite (class_match_count nonPrintable_class code).
  fold (non_printable_count code).
  assert (Hops :
    sumZ (map (fun op => match_count (atoms_matcher (operator_pattern op)) code) luaOperators)
    = sumZ (map (fun op => operator_count op code) luaOperators)).
  { unfold luaOperators.
    cbn [map sumZ fold_right].
    rewrite (dotdot_count_absent code Hdot), (not_count_absent code Hnot).
    rewrite (literal_count_absent (str "..") (str ".") code eq_refl Hdot).
    rewrite (literal_count_absent (str "not") (str "not") code eq_refl Hword).
    rewrite !literal_operator_count by reflexivity.
    lia. }
  rewrite Hops.
  unfold keyword_count, indicator.
  destruct (includes code (str "function") && includes code (str "end"));
    destruct (includes code (str "local"));
    destruct (includes code (str "print")); lia.
Qed.

Lemma scoreLuaCode_formula_witness :
  scoreLuaCode (str "local x = 1") = ScoreFormula.score (str "local x = 1").
Proof.
  apply (scoreLuaCode_formula (str "local x = 1")); vm_compute; reflexivity.
Defined.

(** C7 fails as stated: [break] is a reserved word of Lua 5.3, the
    claimed formula gives the string 10 points, the code gives 0. *)
Lemma scoreLuaCode_ignores_break :
  scoreLuaCode (str "break") = 0 /\ ClaimedScore.score (str "break") = 10.
Proof. split; vm_compute; reflexivity. Qed.

End Scoring.

Section AutoDetection.
Import Decryptor AutoDetect.

Lemma autoDetect_candidates encrypted key d :
  autoDetectAndDecrypt (S (S d)) encrypted key
  = selectBestResult (candidates encrypted key).
Proof. reflexivity. Qed.

Lemma decryptString_auto encrypted key iv algorithm version d :
  decryptString (S d) encrypted (mkInfo (str "auto") key iv algorithm version)
  = autoDetectAndDecrypt d encrypted key.
Proof. reflexivity. Qed.

(** The loop of [selectBestResult] keeps the first best entry of what
    it has seen. *)
Lemma selectBest_loop_first_best rest :
  forall seen best j,
    first_best seen best j ->
    exists j', first_best (seen ++ rest)
                          (selectBest_loop rest best (score_of best)) j'.
Proof.
  induction rest as [|r rest IH]; intros seen best j Hbest.
  - exists j. rewrite app_nil_r. exact Hbest.
  - cbn [selectBest_loop]. fold (score_of r).
    destruct Hbest as (Hnth & Hmax & Hfirst).
    replace (seen ++ r :: rest) with ((seen ++ [r]) ++ rest)
      by (rewrite <- app_assoc; reflexivity).
    destruct (Z.ltb_spec (score_of best) (score_of r)) as [Hlt|Hge].
    + apply (IH (seen ++ [r]) r (List.length seen)).
      split; [|split].
      * rewrite nth_error_app2 by lia. rewrite Nat.sub_diag. reflexivity.
      * intros c Hc. apply in_app_or in Hc. destruct Hc as [Hc|[Hc|[]]].
        -- specialize (Hmax c Hc). lia.
        -- subst c. lia.
      * intros i c Hi Hc. rewrite nth_error_app1 in Hc by lia.
        apply nth_error_In in Hc. specialize (Hmax c Hc). lia.
    + apply (IH (seen ++ [r]) best j).
      assert (Hj : (j < List.length seen)%nat)
        by (apply nth_error_Some; congruence).
      split; [|split].
      * rewrite nth_error_app1 by lia. exact Hnth.
      * intros c Hc. apply in_app_or in Hc. destruct Hc as [Hc|[Hc|[]]].
        -- apply Hmax, Hc.
        -- subst c. lia.
      * intros i c Hi Hc. rewrite nth_error_app1 in Hc by lia.
        apply (Hfirst i c Hi Hc).
Qed.

Lemma selectBestResult_first_best first rest :
  exists r j, selectBestResult (first :: rest) = Some r /\
              first_best (first :: rest) r j.
Proof.
  destruct (selectBest_loop_first_best rest [first] first 0) as [j Hj].
  - split; [reflexivity|split].
    + intros c [Hc|[]]. subst c. lia.
    + intros i c Hi. lia.
  - exists (selectBest_loop rest first (score_of first)), j.
    split; [reflexivity|exact Hj].
Qed.

(** C3 (as the code has it).  With method auto, [decryptString] tries
    the four algorithms xor_v1, xor_v2, aes_cbc and luraph_custom, all
    of which succeed, and returns the candidate with the highest score;
    among equal scores the earliest in that order wins. *)
Theorem auto_returns_first_best (encrypted key : jsstring)
        (iv : option jsstring) (algorithm version : jsstring) :
  map method (candidates encrypted key) = auto_methods /\
  Forall (fun c => success c = true) (candidates encrypted key) /\
  exists r j,
    decryptString call_depth encrypted (mkInfo (str "auto") key iv algorithm version)
    = Some r /\
    first_best (candidates encrypted key) r j.
Proof.
  split; [reflexivity|split].
  - repeat constructor.
  - unfold call_depth. rewrite decryptString_auto, autoDetect_candidates.
    apply selectBestResult_first_best.
Qed.

(** C3 fails as stated: aes_cbc_v2 is not among the attempts.  For the
    ciphertext below it succeeds with a plaintext of score 37, while
    auto returns the xor_v1 candidate of score -16. *)
Lemma auto_skips_aes_cbc_v2 :
  let encrypted := str "6c6e616268257e3a787b6365780c" in
  let key := str "k" in
  exists v2 r,
    decryptString call_depth encrypted
                  (mkInfo (str "aes_cbc_v2") key None (str "aes_cbc_v2") (str "auto"))
    = Some v2 /\
    success v2 = true /\ decrypted v2 = str "local x=print" /\ score_of v2 = 37 /\
    decryptString call_depth encrypted
                  (mkInfo (str "auto") key None (str "auto") (str "auto"))
    = Some r /\
    method r = str "xor_v1" /\ score_of r = -16.
Proof.
  cbv zeta.
  eexists; eexists.
  split; [vm_compute; reflexivity|].
  split; [reflexivity|]. split; [reflexivity|]. split; [vm_compute; reflexivity|].
  split; [vm_compute; reflexivity|].
  split; vm_compute; reflexivity.
Qed.

End AutoDetection.

(* ================================================================== *)
(** * Properties of the lexer                                          *)
(* ================================================================== *)

Section WhileFacts.
Import Loops.
Context {St : Type}.
Variable cond : St -> bool.
Variable body : St -> option (Step St).
Variable Inv : St -> Prop.
Variable R : St -> St -> Prop.
Variable m : St -> nat.

Hypothesis R_trans : forall a b c, R a b -> R b c -> R a c.
Hypothesis body_ok :
  forall s, Inv s -> cond s = true ->
    exists r, body s = Some r /\ Inv (step_state r) /\ R s (step_state r) /\
              match r with
              | Continue s' => (m s' < m s)%nat
              | Break _ => True
              end.

(** A loop whose rounds decrease a measure below the budget runs to
    its end, keeps the invariant, and either never ran or ends in a
    state related to the first one. *)
Lemma while_total :
  forall n s, Inv s -> (m s < n)%nat ->
    exists s', while cond body n s = Some s' /\ Inv s' /\
               ((s' = s /\ cond s = false) \/ R s s').
Proof.
  induction n as [|n IH]; intros s Hs Hm; [lia|].
  simpl. destruct (cond s) eqn:C.
  - destruct (body_ok s Hs C) as (r & Hb & Hi & Hr & Hdec).
    rewrite Hb. destruct r as [s1|s1]; simpl in *.
    + destruct (IH s1 Hi) as (s' & Hw & Hi' & Hrel).
      { lia. }
      exists s'. split; [exact Hw|]. split; [exact Hi'|]. right.
      destruct Hrel as [[-> _]|Hrel]; [exact Hr|].
      apply (R_trans _ _ _ Hr Hrel).
    + exists s1. auto.
  - exists s. auto.
Qed.
End WhileFacts.

Section LexerFacts.
Import Loops Lexer LexerSpec.
Variable input : jsstring.

Local Abbreviation pos := cur_position.
Local Abbreviation len := (input_length input).
Local Abbreviation bounded := (LexerSpec.bounded input).

Lemma moved_trans a b c : moved a b -> moved b c -> moved a c.
Proof. unfold moved. lia. Qed.

Lemma in_input_lt st : in_input input st = true <-> (pos st < len)%nat.
Proof. unfold in_input. apply Nat.ltb_lt. Qed.

Lemma advance_spec n : forall st,
  bounded st ->
  bounded (advance input n st) /\ (pos st <= pos (advance input n st))%nat /\
  (in_input input st = true -> (0 < n)%nat -> moved st (advance input n st)).
Proof.
  unfold LexerSpec.bounded, moved.
  induction n as [|n IH]; intros st Hb; simpl.
  - repeat split; try lia.
  - destruct (in_input input st) eqn:E.
    + apply in_input_lt in E.
      match goal with |- context [advance input n ?s] => destruct (IH s) as (H1 & H2 & _) end.
      { destruct (is_char (current_char input st) LF); simpl; lia. }
      assert (Hs : forall b : bool,
                 pos (if b then mkLex (S (pos st)) (S (cur_line st)) 1
                      else mkLex (S (pos st)) (cur_line st) (S (cur_column st)))
                 = S (pos st)) by (intros []; reflexivity).
      rewrite Hs in H2. repeat split; try lia; assumption.
    + repeat split; try lia.
Qed.

Lemma advance_bounded n st : bounded st -> bounded (advance input n st).
Proof. intros H. apply (advance_spec n st H). Qed.

Lemma advance_le n st : bounded st -> (pos st <= pos (advance input n st))%nat.
Proof. intros H. apply (advance_spec n st H). Qed.

Lemma advance_moved n st :
  bounded st -> in_input input st = true -> (0 < n)%nat -> moved st (advance input n st).
Proof. intros H. apply (advance_spec n st H). Qed.

(** An unknown character costs exactly one position and one column. *)
Lemma advance_one st :
  in_input input st = true -> is_char (current_char input st) LF = false ->
  advance input 1 st = mkLex (S (pos st)) (cur_line st) (S (cur_column st)).
Proof. intros H1 H2. simpl. rewrite H1, H2. reflexivity. Qed.

(** The loops that advance while a test on the current character holds. *)
Lemma scan_total (c : LexState -> bool) :
  (forall st, c st = true -> in_input input st = true) ->
  forall st, bounded st ->
    exists st', while c (fun st => Some (Continue (advance input 1 st))) (rounds input) st
                = Some st' /\ bounded st' /\
                ((st' = st /\ c st = false) \/ moved st st').
Proof.
  intros Hc st Hb.
  apply (while_total c _ bounded moved (fun st => len - pos st)%nat moved_trans);
    [|exact Hb|unfold rounds; lia].
  intros s Hs Cs. exists (Continue (advance input 1 s)).
  split; [reflexivity|]. cbn [step_state].
  pose proof (advance_moved 1 s Hs (Hc s Cs) ltac:(lia)) as Hm.
  pose proof (advance_bounded 1 s Hs) as Hb'.
  split; [exact Hb'|]. split; [exact Hm|].
  unfold moved, LexerSpec.bounded in *.
  apply Hc, in_input_lt in Cs. lia.
Qed.

Lemma skipWhitespace_total st :
  bounded st ->
  exists st', skipWhitespace input st = Some st' /\ bounded st' /\
              (pos st <= pos st')%nat.
Proof.
  intros Hb. unfold skipWhitespace.
  destruct (scan_total
              (fun st => in_input input st && isWhitespace (current_char input st) &&
                         negb (is_char (current_char input st) LF))) with (st := st)
    as (st' & Hw & Hb' & Hrel); [|exact Hb|].
  - intros s H. apply andb_true_iff in H. destruct H as [H _].
    apply andb_true_iff in H. apply H.
  - exists st'. split; [exact Hw|]. split; [exact Hb'|].
    destruct Hrel as [[-> _]|Hm]; [lia|unfold moved in Hm; lia].
Qed.

Lemma checkLongStringStart_total st :
  exists r, checkLongStringStart input st = Some r.
Proof.
  unfold checkLongStringStart.
  destruct (while_total
              (fun '(level, p) => (p <? len)%nat && is_char (at_ input p) (ch "="))
              (fun '(level, p) => Some (Continue (S level, S p)))
              (fun _ => True) (fun _ _ => True)
              (fun s : nat * nat => len - snd s)%nat)
    with (n := rounds input) (s := (0%nat, S (pos st)))
    as ([level p] & Hw & _); auto.
  - intros [level p] _ C. eexists. split; [reflexivity|]. cbn [step_state].
    repeat split.
    apply andb_true_iff in C. destruct C as [C _]. apply Nat.ltb_lt in C.
    cbn [snd]. lia.
  - unfold rounds. cbn [snd]. lia.
  - rewrite Hw. destruct ((p <? len)%nat && is_char (at_ input p) (ch "[")); eauto.
Qed.

Lemma readLongString_total level st :
  bounded st ->
  exists t st', readLongString input level st = Some (t, st') /\ bounded st' /\
                (pos st <= pos st')%nat /\ position t = pos st /\
                (in_input input st = true -> moved st st').
Proof.
  intros Hb. unfold readLongString.
  set (opening := ch "[" :: repeat (ch "=") level ++ [ch "["]).
  set (closing := ch "]" :: repeat (ch "=") level ++ [ch "]"]).
  set (st0 := advance input (List.length opening) st).
  assert (Hb0 : bounded st0) by (apply advance_bounded; exact Hb).
  assert (Hle0 : (pos st <= pos st0)%nat) by (apply advance_le; exact Hb).
  assert (Hm0 : in_input input st = true -> moved st st0).
  { intros Hin. apply advance_moved; [exact Hb|exact Hin|simpl; lia]. }
  destruct (while_total (in_input input)
              (fun st => if startsWith closing (skipn (pos st) input)
                         then Some (Break (advance input (List.length closing) st))
                         else Some (Continue (advance input 1 st)))
              bounded moved (fun st => len - pos st)%nat moved_trans)
    with (n := rounds input) (s := st0)
    as (st' & Hw & Hb' & Hrel); [|exact Hb0|unfold rounds; lia|].
  - intros s Hs Cs.
    assert (Hc : (0 < List.length closing)%nat) by (simpl; lia).
    destruct (startsWith closing (skipn (pos s) input)); eexists;
      (split; [reflexivity|]); cbn [step_state].
    + split; [apply advance_bounded, Hs|].
      split; [apply advance_moved; assumption|]. exact I.
    + pose proof (advance_moved 1 s Hs Cs ltac:(lia)) as Hm.
      pose proof (advance_bounded 1 s Hs) as Hbs.
      split; [exact Hbs|]. split; [exact Hm|].
      unfold moved, LexerSpec.bounded in *.
      apply in_input_lt in Cs. lia.
  - rewrite Hw. eexists; eexists. split; [reflexivity|].
    assert (Hle : (pos st0 <= pos st')%nat)
      by (destruct Hrel as [[-> _]|Hm]; [lia|unfold moved in Hm; lia]).
    split; [exact Hb'|]. split; [lia|]. split; [reflexivity|].
    intros Hin. specialize (Hm0 Hin). unfold moved in *. lia.
Qed.

Lemma short_comment_total (p : LuaPosition) start st :
  bounded st ->
  exists st',
    (st1 <- while (fun st => in_input input st && negb (is_char (current_char input st) LF))
              (fun st => Some (Continue (advance input 1 st))) (rounds input) st ;;
     Some (createToken COMMENT (substring input start (pos st1)) p, st1))
    = Some (createToken COMMENT (substring input start (pos st')) p, st') /\
    bounded st' /\ (pos st <= pos st')%nat.
Proof.
  intros Hb.
  destruct (scan_total
              (fun st => in_input input st && negb (is_char (current_char input st) LF)))
    with (st := st) as (st' & Hw & Hb' & Hrel); [|exact Hb|].
  - intros s H. apply andb_true_iff in H. apply H.
  - exists st'. rewrite Hw. split; [reflexivity|]. split; [exact Hb'|].
    destruct Hrel as [[-> _]|Hm]; [lia|unfold moved in Hm; lia].
Qed.

Lemma readComment_total st :
  bounded st ->
  exists t st', readComment input st = Some (t, st') /\ bounded st' /\
                position t = pos st /\
                (in_input input st = true -> moved st st').
Proof.
  intros Hb. unfold readComment.
  set (st0 := advance input 2 st).
  assert (Hb0 : bounded st0) by (apply advance_bounded; exact Hb).
  assert (Hm0 : in_input input st = true -> moved st st0).
  { intros Hin. apply advance_moved; [exact Hb|exact Hin|lia]. }
  assert (Hshort :
    exists t st',
      (st1 <- while (fun st => in_input input st &&
                               negb (is_char (current_char input st) LF))
                (fun st => Some (Continue (advance input 1 st))) (rounds input) st0 ;;
       Some (createToken COMMENT (substring input (pos st) (pos st1))
                         (createPosition st), st1))
      = Some (t, st') /\ bounded st' /\ position t = pos st /\
      (in_input input st = true -> moved st st')).
  { destruct (short_comment_total (createPosition st) (pos st) st0 Hb0)
      as (st' & Hw & Hb' & Hle).
    eexists; eexists. split; [exact Hw|]. split; [exact Hb'|].
    split; [reflexivity|]. intros Hin. specialize (Hm0 Hin). unfold moved in *. lia. }
  destruct (is_char (current_char input st0) (ch "[")); [|exact Hshort].
  destruct (checkLongStringStart_total st0) as (r & Hr). rewrite Hr.
  destruct r as [level|]; [|exact Hshort].
  destruct (readLongString_total level st0 Hb0) as (t & st' & Hl & Hb' & Hle & _ & _).
  rewrite Hl. eexists; eexists. split; [reflexivity|]. split; [exact Hb'|].
  split; [reflexivity|]. intros Hin. specialize (Hm0 Hin). unfold moved in *. lia.
Qed.

Lemma readNumber_total st :
  bounded st ->
  exists t st', readNumber input st = Some (t, st') /\ bounded st' /\
                position t = pos st /\
                (in_input input st = true -> isDigit (current_char input st) = true ->
                 moved st st').
Proof.
  intros Hb. unfold readNumber.
  match goal with |- context [while ?c _ _ _] =>
    destruct (scan_total c) with (st := st) as (st' & Hw & Hb' & Hrel) end;
    [|exact Hb|].
  - intros s H. apply andb_true_iff in H. apply H.
  - rewrite Hw. eexists; eexists. split; [reflexivity|]. split; [exact Hb'|].
    split; [reflexivity|]. intros Hin Hd.
    destruct Hrel as [[-> C]|Hm]; [|exact Hm].
    rewrite Hin, Hd in C. discriminate.
Qed.

Lemma readString_total quote st :
  bounded st ->
  exists t st', readString input quote st = Some (t, st') /\ bounded st' /\
                position t = pos st /\
                (in_input input st = true -> moved st st').
Proof.
  intros Hb. unfold readString.
  set (st0 := advance input 1 st).
  assert (Hb0 : bounded st0) by (apply advance_bounded; exact Hb).
  assert (Hm0 : in_input input st = true -> moved st st0).
  { intros Hin. apply advance_moved; [exact Hb|exact Hin|lia]. }
  match goal with |- context [while ?c ?b _ _] =>
    destruct (while_total c b bounded moved (fun st => len - pos st)%nat moved_trans)
      with (n := rounds input) (s := st0) as (st' & Hw & Hb' & Hrel) end;
    [|exact Hb0|unfold rounds; lia|].
  - intros s Hs Cs.
    pose proof (advance_moved 1 s Hs Cs ltac:(lia)) as Hm1.
    pose proof (advance_bounded 1 s Hs) as Hb1.
    assert (Hdec : forall s1, moved s s1 -> bounded s1 -> (len - pos s1 < len - pos s)%nat).
    { intros s1 Hm Hbs. unfold moved, LexerSpec.bounded in *. apply in_input_lt in Cs. lia. }
    destruct (is_char (current_char input s) quote).
    { eexists. split; [reflexivity|]. cbn [step_state]. split; [exact Hb1|].
      split; [exact Hm1|]. exact I. }
    destruct (is_char (current_char input s) BACKSLASH).
    + destruct (in_input input (advance input 1 s)) eqn:E.
      * pose proof (advance_moved 1 _ Hb1 E ltac:(lia)) as Hm2.
        pose proof (advance_bounded 1 _ Hb1) as Hb2.
        eexists. split; [reflexivity|]. cbn [step_state].
        assert (Hm : moved s (advance input 1 (advance input 1 s)))
          by (apply (moved_trans _ _ _ Hm1 Hm2)).
        split; [exact Hb2|]. split; [exact Hm|].
        apply Hdec; assumption.
      * eexists. split; [reflexivity|]. cbn [step_state].
        split; [exact Hb1|]. split; [exact Hm1|].
        apply Hdec; assumption.
    + eexists. split; [reflexivity|]. cbn [step_state].
      split; [exact Hb1|]. split; [exact Hm1|].
      apply Hdec; assumption.
  - rewrite Hw.
    assert (Hmv : in_input input st = true -> moved st st').
    { intros Hin. specialize (Hm0 Hin).
      destruct Hrel as [[-> _]|Hm]; [exact Hm0|apply (moved_trans _ _ _ Hm0 Hm)]. }
    destruct (isEncryptedString _); eexists; eexists;
      (split; [reflexivity|]); (split; [exact Hb'|]); (split; [reflexivity|exact Hmv]).
Qed.

Lemma readIdentifier_total st :
  bounded st ->
  exists t st', readIdentifier input st = Some (t, st') /\ bounded st' /\
                position t = pos st /\
                (in_input input st = true ->
                 isAlpha (current_char input st) || is_char (current_char input st) (ch "_")
                 = true -> moved st st').
Proof.
  intros Hb. unfold readIdentifier.
  match goal with |- context [while ?c _ _ _] =>
    destruct (scan_total c) with (st := st) as (st' & Hw & Hb' & Hrel) end;
    [|exact Hb|].
  - intros s H. apply andb_true_iff in H. apply H.
  - rewrite Hw.
    assert (Hmv : in_input input st = true ->
                  isAlpha (current_char input st) ||
                  is_char (current_char input st) (ch "_") = true -> moved st st').
    { intros Hin Ha. destruct Hrel as [[-> C]|Hm]; [|exact Hm].
      rewrite Hin in C. simpl in C.
      assert (isAlphaNumeric (current_char input st) ||
              is_char (current_char input st) (ch "_") = true); [|congruence].
      apply orb_true_iff in Ha. apply orb_true_iff. destruct Ha as [Ha|Ha]; [left|now right].
      destruct (current_char input st); [|reflexivity].
      simpl in *. unfold is_alnum. rewrite Ha. reflexivity. }
    destruct (assoc_string _ keywords);
      [|destruct (isObfuscatedName _)]; eexists; eexists;
      (split; [reflexivity|]); (split; [exact Hb'|]); (split; [reflexivity|exact Hmv]).
Qed.

(** [nextToken] always returns; inside the input it moves forward, and
    a token it produces starts where it was called. *)
Lemma nextToken_total st :
  bounded st -> in_input input st = true ->
  exists tok st', nextToken input st = Some (tok, st') /\ bounded st' /\
                  moved st st' /\
                  (forall t, tok = Some t -> position t = pos st).
Proof.
  intros Hb Hin. unfold nextToken.
  assert (Hsome : forall r t st',
             r = Some (t, st') -> bounded st' -> position t = pos st -> moved st st' ->
             exists tok st'',
               (' (t0, st0) <- r ;; Some (Some t0, st0)) = Some (tok, st'') /\
               bounded st'' /\ moved st st'' /\
               (forall t1, tok = Some t1 -> position t1 = pos st)).
  { intros r t st' -> Hb' Hp Hm. eexists; eexists. split; [reflexivity|].
    split; [exact Hb'|]. split; [exact Hm|]. intros t1 E. injection E as <-. exact Hp. }
  assert (Hops :
    exists tok st',
      match assoc_string (firstn 2 (skipn (pos st) input)) twoCharOperators with
      | Some t => Some (Some (createToken t (firstn 2 (skipn (pos st) input))
                                          (createPosition st)), advance input 2 st)
      | None =>
          match current_char input st with
          | Some c =>
              match assoc_string [c] singleCharTokens with
              | Some t => Some (Some (createToken t [c] (createPosition st)),
                                advance input 1 st)
              | None => Some (None, advance input 1 st)
              end
          | None => Some (None, advance input 1 st)
          end
      end = Some (tok, st') /\ bounded st' /\ moved st st' /\
      (forall t, tok = Some t -> position t = pos st)).
  { pose proof (advance_moved 1 st Hb Hin ltac:(lia)) as Hm1.
    pose proof (advance_moved 2 st Hb Hin ltac:(lia)) as Hm2.
    pose proof (advance_bounded 1 st Hb) as Hb1.
    pose proof (advance_bounded 2 st Hb) as Hb2.
    destruct (assoc_string (firstn 2 _) twoCharOperators);
      [|destruct (current_char input st) as [c|];
        [destruct (assoc_string [c] singleCharTokens)|]];
      eexists; eexists; (split; [reflexivity|]);
      repeat split; try assumption;
      try (intros t0 E; injection E as <-; reflexivity);
      intros t0 E; discriminate. }
  assert (Hident :
    exists tok st',
      (if isAlpha (current_char input st) || is_char (current_char input st) (ch "_")
       then ' (t0, st0) <- readIdentifier input st ;; Some (Some t0, st0)
       else
         match assoc_string (firstn 2 (skipn (pos st) input)) twoCharOperators with
         | Some t => Some (Some (createToken t (firstn 2 (skipn (pos st) input))
                                             (createPosition st)), advance input 2 st)
         | None =>
             match current_char input st with
             | Some c =>
                 match assoc_string [c] singleCharTokens with
                 | Some t => Some (Some (createToken t [c] (createPosition st)),
                                   advance input 1 st)
                 | None => Some (None, advance input 1 st)
                 end
             | None => Some (None, advance input 1 st)
             end
         end) = Some (tok, st') /\ bounded st' /\ moved st st' /\
      (forall t, tok = Some t -> position t = pos st)).
  { destruct (isAlpha (current_char input st) || is_char (current_char input st) (ch "_"))
      eqn:Ea; [|exact Hops].
    destruct (readIdentifier_total st Hb) as (t & st' & Hr & Hb' & Hp & Hm).
    apply (Hsome _ t st' Hr Hb' Hp (Hm Hin Ea)). }
  destruct (is_char (current_char input st) (ch "-") && is_char (peek input st 1) (ch "-")).
  { destruct (readComment_total st Hb) as (t & st' & Hr & Hb' & Hp & Hm).
    apply (Hsome _ t st' Hr Hb' Hp (Hm Hin)). }
  destruct (isDigit (current_char input st)) eqn:Ed.
  { destruct (readNumber_total st Hb) as (t & st' & Hr & Hb' & Hp & Hm).
    apply (Hsome _ t st' Hr Hb' Hp (Hm Hin Ed)). }
  destruct (is_char (current_char input st) DQUOTE || is_char (current_char input st) SQUOTE).
  { destruct (readString_total (int_of (current_char input st)) st Hb)
      as (t & st' & Hr & Hb' & Hp & Hm).
    apply (Hsome _ t st' Hr Hb' Hp (Hm Hin)). }
  destruct (is_char (current_char input st) (ch "[")); [|exact Hident].
  destruct (checkLongStringStart_total st) as (r & Hr). rewrite Hr.
  destruct r as [level|]; [|exact Hident].
  destruct (readLongString_total level st Hb) as (t & st' & Hl & Hb' & _ & Hp & Hm).
  apply (Hsome _ t st' Hl Hb' Hp (Hm Hin)).
Qed.

Lemma nondecreasing_snoc tokens t' :
  offsets_nondecreasing tokens ->
  (forall t, In t tokens -> (position t <= position t')%nat) ->
  offsets_nondecreasing (tokens ++ [t']).
Proof.
  intros Hsorted Hle i a b Ha Hb.
  destruct (Nat.lt_ge_cases (S i) (List.length tokens)) as [Hi|Hi].
  - rewrite nth_error_app1 in Ha, Hb by lia. apply (Hsorted i a b Ha Hb).
  - rewrite nth_error_app2 in Hb by lia.
    destruct (S i - List.length tokens)%nat as [|k] eqn:E.
    + simpl in Hb. injection Hb as <-.
      rewrite nth_error_app1 in Ha by lia.
      apply Hle, (nth_error_In _ _ Ha).
    + simpl in Hb. destruct k; discriminate.
Qed.

Local Abbreviation tokenize_invariant := (LexerSpec.tokenize_invariant input).

Lemma tokenize_loop_total :
  exists st tokens,
    tokenize_loop input (mkLex 0 1 1, []) = Some (st, tokens) /\
    tokenize_invariant (st, tokens).
Proof.
  unfold tokenize_loop.
  match goal with |- context [while ?c ?b _ _] =>
    destruct (while_total c b tokenize_invariant (fun _ _ => True)
                          (fun s => len - pos (fst s))%nat)
      with (n := rounds input) (s := (mkLex 0 1 1, @nil LuaToken))
      as ([st tokens] & Hw & Hinv & _) end; auto.
  - intros [st tokens] (Hb & Hsorted & Hle) Hin. cbn [fst snd] in *.
    destruct (skipWhitespace_total st Hb) as (st1 & Hs & Hb1 & Hle1).
    rewrite Hs.
    destruct (in_input input st1) eqn:Hin1; cbn [negb].
    + destruct (nextToken_total st1 Hb1 Hin1) as (tok & st2 & Hn & Hb2 & Hm & Hp).
      rewrite Hn. unfold moved in Hm. apply in_input_lt in Hin.
      assert (Hdec : (len - pos st2 < len - pos st)%nat)
        by (unfold LexerSpec.bounded in *; lia).
      destruct tok as [t|]; eexists; (split; [reflexivity|]);
        unfold LexerSpec.tokenize_invariant; cbn [step_state fst snd];
        (split; [|split; [exact I|exact Hdec]]).
      * specialize (Hp t eq_refl).
        split; [exact Hb2|]. split.
        -- apply nondecreasing_snoc; [exact Hsorted|].
           intros t0 Ht0. specialize (Hle t0 Ht0). lia.
        -- intros t0 Ht0. apply in_app_or in Ht0.
           destruct Ht0 as [Ht0|[<-|[]]]; [specialize (Hle t0 Ht0)|]; lia.
      * split; [exact Hb2|]. split; [exact Hsorted|].
        intros t0 Ht0. specialize (Hle t0 Ht0). lia.
    + eexists. split; [reflexivity|].
      unfold LexerSpec.tokenize_invariant. cbn [step_state fst snd].
      split; [|split; exact I].
      split; [exact Hb1|]. split; [exact Hsorted|].
      intros t0 Ht0. specialize (Hle t0 Ht0). lia.
  - unfold LexerSpec.tokenize_invariant. split; [|split]; cbn [fst snd].
    + unfold LexerSpec.bounded. simpl. lia.
    + intros i a b Ha. destruct i; discriminate.
    + intros t [].
  - unfold rounds. cbn [fst]. simpl. lia.
  - exists st, tokens. split; [exact Hw|exact Hinv].
Qed.

(** C10.  For every input, [tokenize] terminates and returns a
    non-empty token list; its last token is an EOF token whose byte
    offset is at most the length of the input, and the byte offsets of
    successive tokens do not decrease. *)
Theorem tokenize_ends_with_EOF :
  exists tokens,
    tokenize input = Some tokens /\
    tokens <> [] /\
    (exists front eof,
        tokens = front ++ [eof] /\ type eof = EOF /\
        (position eof <= List.length input)%nat) /\
    offsets_nondecreasing tokens.
Proof.
  destruct tokenize_loop_total as (st & tokens & Hloop & Hb & Hsorted & Hle).
  cbn [fst snd] in *.
  unfold tokenize. rewrite Hloop.
  eexists. split; [reflexivity|]. split; [|split].
  - intros E. apply app_eq_nil in E. destruct E as [_ E]. discriminate.
  - eexists; eexists. split; [reflexivity|]. split; [reflexivity|exact Hb].
  - apply nondecreasing_snoc; [exact Hsorted|exact Hle].
Qed.

Lemma skipn_at (l : jsstring) p c :
  nth_error l p = Some c ->
  exists rest, skipn p l = c :: rest /\ nth_error l (p + 1) = hd_error rest.
Proof.
  revert l. induction p as [|p IH]; intros [|x l] H; try discriminate.
  - injection H as ->. exists l. split; [reflexivity|]. destruct l; reflexivity.
  - simpl in H. destruct (IH l H) as (rest & H1 & H2). exists rest. auto.
Qed.

Lemma assoc_string_none {A} key (l : list (jsstring * A)) :
  Forall (fun kv => string_eqb key (fst kv) = false) l -> assoc_string key l = None.
Proof.
  induction 1 as [|[k v] l Hk _ IH]; [reflexivity|].
  simpl in *. rewrite Hk. exact IH.
Qed.

(** C8 (as the code has it).  At a character that [nextToken] does not
    recognise the lexer does not fail: it produces no token for it and
    moves on by exactly one position, on the same line. *)
Theorem unknown_character_skipped (st : LexState) (c : Z) :
  nth_error input (pos st) = Some c ->
  unrecognized c (peek input st 1) ->
  nextToken input st
  = Some (None, mkLex (S (pos st)) (cur_line st) (S (cur_column st))).
Proof.
  intros Hc (Halpha & Hdigit & Hstart & Htilde).
  assert (Hne : forall k, In k token_start_chars -> (c =? k) = false).
  { intros k Hk. apply Z.eqb_neq. intros ->. apply Hstart, Hk. }
  assert (Hin : in_input input st = true).
  { apply in_input_lt, nth_error_Some. unfold LexerSpec.bounded. congruence. }
  destruct (skipn_at input (pos st) c Hc) as (rest & Hskip & Hpeek).
  unfold nextToken, current_char, at_. rewrite Hc.
  cbn [is_char isDigit isAlpha int_of].
  rewrite Halpha, Hdigit.
  rewrite !Hne by (vm_compute; tauto).
  cbn [andb orb].
  rewrite Hskip.
  assert (Htwo : assoc_string (firstn 2 (c :: rest)) twoCharOperators = None).
  { apply assoc_string_none. unfold twoCharOperators.
    destruct rest as [|n rest']; cbn [firstn].
    - repeat constructor; simpl; apply andb_false_r.
    - repeat constructor; simpl;
        try (rewrite (Hne _) by (vm_compute; tauto); reflexivity).
      destruct (Z.eqb_spec c (ch "~")) as [E|E]; [|reflexivity].
      destruct (Z.eqb_spec n (ch "=")) as [E'|E']; [|reflexivity].
      exfalso. apply Htilde. split; [exact E|].
      unfold peek, at_. rewrite Hpeek. simpl. congruence. }
  rewrite Htwo.
  assert (Hone : assoc_string [c] singleCharTokens = None).
  { apply assoc_string_none. unfold singleCharTokens.
    repeat constructor; simpl;
      rewrite (Hne _) by (vm_compute; tauto); reflexivity. }
  rewrite Hone.
  rewrite advance_one; [reflexivity|exact Hin|].
  unfold current_char, at_. rewrite Hc. apply Hne. vm_compute. tauto.
Qed.

End LexerFacts.

Lemma unknown_character_skipped_witness :
  Lexer.nextToken (str "@") (Lexer.mkLex 0 1 1) = Some (None, Lexer.mkLex 1 1 2).
Proof.
  apply (unknown_character_skipped (str "@") (Lexer.mkLex 0 1 1) (ch "@")).
  - reflexivity.
  - unfold LexerSpec.unrecognized. repeat split; try reflexivity.
    + vm_compute. intuition discriminate.
    + vm_compute. intros [_ H]. discriminate.
Defined.

(** C8 fails as stated: the lexer has no token kind for an unknown
    character.  On the input [@] it returns the EOF token alone. *)
Lemma unknown_character_leaves_no_token :
  Lexer.tokenize (str "@") = Some [Lexer.mkToken Lexer.EOF [] 1 2 1].
Proof. vm_compute. reflexivity. Qed.

(* ================================================================== *)
(** * Properties of the emitter                                        *)
(* ================================================================== *)

Section ProtoInduction.
Import VMInstructions.
Variable P : VMProto -> Prop.
Hypothesis step :
  forall i k u ps s ld lld np va ms,
    Forall P ps -> P (mkProto i k u ps s ld lld np va ms).

(** Induction on a prototype and, through the list, on the prototypes
    nested in it. *)
Fixpoint VMProto_nested_ind (p : VMProto) : P p :=
  match p with
  | mkProto i k u ps s ld lld np va ms =>
      step i k u ps s ld lld np va ms
           ((fix all (l : list VMProto) : Forall P l :=
               match l with
               | [] => Forall_nil P
               | x :: l' => Forall_cons x (VMProto_nested_ind x) (all l')
               end) ps)
  end.
End ProtoInduction.

Section EmitterFacts.
Import VMInstructions Emitter LuacHeader.

Variable k : nat.

Lemma store_frame i v buffer :
  (k <= i)%nat ->
  firstn k (store i v buffer) = firstn k buffer /\
  List.length (store i v buffer) = List.length buffer.
Proof.
  revert k i. induction buffer as [|x rest IH]; intros k' i Hk.
  - destruct i; simpl; auto.
  - destruct i as [|i]; simpl.
    + replace k' with 0%nat by lia. auto.
    + destruct k' as [|k']; simpl; [split; [reflexivity|]|].
      * f_equal. apply (IH 0%nat i). lia.
      * destruct (IH k' i) as [H1 H2]; [lia|]. rewrite H1, H2. auto.
Qed.

Lemma store_bytes_frame bytes : forall i buffer,
  (k <= i)%nat ->
  firstn k (store_bytes i bytes buffer) = firstn k buffer /\
  List.length (store_bytes i bytes buffer) = List.length buffer.
Proof.
  induction bytes as [|v rest IH]; intros i buffer Hk; simpl; [auto|].
  destruct (IH (S i) (store i v buffer)) as [H1 H2]; [lia|].
  destruct (store_frame i v buffer Hk) as [H3 H4].
  rewrite H1, H2, H3, H4. auto.
Qed.

Lemma set_bytes_frame dataView offset bytes dataView' :
  Z.of_nat k <= offset ->
  set_bytes dataView offset bytes = Some dataView' ->
  firstn k dataView' = firstn k dataView /\
  List.length dataView' = List.length dataView.
Proof.
  intros Hk H. unfold set_bytes in H.
  destruct (_ && _); [|discriminate]. injection H as <-.
  apply store_bytes_frame. lia.
Qed.

(** One step of a writer: split off the next write and record what it
    preserves. *)
Ltac next_write H :=
  match type of H with
  | match set_bytes ?d ?o ?b with _ => _ end = Some _ =>
      let E := fresh "E" in
      destruct (set_bytes d o b) eqn:E; [|discriminate H];
      apply set_bytes_frame in E; [destruct E as [? ?]|lia]
  | match ?w with _ => _ end = Some _ =>
      let E := fresh "E" in
      let newView := fresh "dataView" in
      let newOffset := fresh "offset" in
      destruct w as [[newView newOffset]|] eqn:E; [|discriminate H]
  end.

Ltac unfold_sets H := unfold setUint8, setUint32, setBigInt64, setFloat64 in H.

Ltac close_frame :=
  unfold frame; cbn [fst snd] in *; repeat split; try congruence; try lia.

Lemma write_u8s_preserves values :
  preserves k (fun dataView offset => write_u8s dataView offset values).
Proof.
  induction values as [|v rest IH]; intros dataView offset w Hk H; simpl in H.
  - injection H as <-. close_frame.
  - unfold_sets H. next_write H.
    apply IH in H; [|lia]. destruct H as (Last1 & Last2 & Last3). close_frame.
Qed.

Lemma write_each_preserves {A} (write : DataView -> Z -> A -> option Written) items :
  Forall (fun x => preserves k (fun dataView offset => write dataView offset x)) items ->
  preserves k (fun dataView offset => write_each write dataView offset items).
Proof.
  induction 1 as [|x rest Hx _ IH]; intros dataView offset w Hk H; simpl in H.
  - injection H as <-. close_frame.
  - next_write H. apply Hx in E; [|exact Hk]. destruct E as (E1 & E2 & E3).
    cbn [fst snd] in *.
    apply IH in H; [|lia]. destruct H as (Last1 & Last2 & Last3). close_frame.
Qed.

Lemma writeHeader_preserves : preserves k writeHeader.
Proof.
  intros dataView offset w Hk H. unfold writeHeader in H. unfold_sets H.
  do 3 next_write H.
  next_write H. apply write_u8s_preserves in E; [|lia].
  destruct E as (E1 & E2 & E3). cbn [fst snd] in *.
  do 7 next_write H.
  injection H as <-. close_frame.
Qed.

Section Conversions.
Variable Number_toString : JSNumber -> jsstring.
Variable String_toNumber : jsstring -> JSNumber.

Local Abbreviation writeString := (writeString Number_toString).
Local Abbreviation writeConstant := (writeConstant Number_toString String_toNumber).
Local Abbreviation writeDebugInfo := (writeDebugInfo Number_toString).
Local Abbreviation writeFunction := (writeFunction Number_toString String_toNumber).

Lemma writeString_preserves s :
  preserves k (fun dataView offset => writeString dataView offset s).
Proof.
  intros dataView offset w Hk H. unfold Emitter.writeString in H. unfold_sets H.
  destruct (negb (truthy s)).
  - next_write H. injection H as <-. close_frame.
  - next_write H. next_write H.
    apply write_u8s_preserves in E; [|lia].
    destruct E as (E1 & E2 & E3). cbn [fst snd] in *.
    next_write H. injection H as <-. close_frame.
Qed.

Lemma writeConstant_preserves constant :
  preserves k (fun dataView offset => writeConstant dataView offset constant).
Proof.
  intros dataView offset w Hk H. unfold Emitter.writeConstant in H.
  destruct (ctype constant).
  - unfold_sets H. next_write H. injection H as <-. close_frame.
  - unfold_sets H. do 2 next_write H. injection H as <-. close_frame.
  - assert (Hfloat : forall n,
               (dataView0 <- setUint8 dataView offset 19 ;;
                dataView1 <- setFloat64 dataView0 (offset + 1) n ;;
                Some (dataView1, offset + 1 + 8)) = Some w ->
               frame k (dataView, offset) w).
    { intros n Hn. unfold_sets Hn. do 2 next_write Hn.
      injection Hn as <-. close_frame. }
    destruct (cvalue constant) as [| |bv|n|sv]; try (apply (Hfloat _ H)).
    destruct (Number_isInteger n); [|apply (Hfloat _ H)].
    unfold_sets H. do 2 next_write H. injection H as <-. close_frame.
  - unfold setUint8 in H. next_write H.
    apply writeString_preserves in H; [|lia].
    destruct H as (Last1 & Last2 & Last3). close_frame.
Qed.

Lemma writeDebugInfo_preserves proto :
  preserves k (fun dataView offset => writeDebugInfo dataView offset proto).
Proof.
  intros dataView offset w Hk H. unfold Emitter.writeDebugInfo in H.
  unfold setUint32 at 1 3 4 in H.
  next_write H. next_write H.
  apply write_each_preserves in E; [|apply Forall_forall|lia].
  2:{ intros ins _ dv ofs w' Hk' Hw. unfold_sets Hw. next_write Hw.
      injection Hw as <-. close_frame. }
  destruct E as (E1 & E2 & E3). cbn [fst snd] in *.
  do 2 next_write H.
  apply write_each_preserves in H; [|apply Forall_forall|lia].
  2:{ intros u _. apply writeString_preserves. }
  destruct H as (Last1 & Last2 & Last3). close_frame.
Qed.

Lemma writeFunction_preserves proto :
  preserves k (fun dataView offset => writeFunction dataView offset proto).
Proof.
  induction proto as [i cs u ps s ld lld np va ms IH] using VMProto_nested_ind.
  intros dataView offset w Hk H.
  cbn [Emitter.writeFunction source lineDefined lastLineDefined numParams
       isVararg maxStackSize instructions constants upvalues protos] in H.
  next_write H.
  assert (Es : frame k (dataView, offset) (dataView0, offset0)).
  { destruct (truthy (VString s));
      apply writeString_preserves in E; assumption. }
  clear E. destruct Es as (E1 & E2 & E3). cbn [fst snd] in *.
  unfold setUint8, setUint32 at 1 2 3 5 6 7 in H.
  do 6 next_write H.
  (* instructions *)
  next_write H.
  apply write_each_preserves in E; [|apply Forall_forall|lia].
  2:{ intros ins _ dv ofs w' Hk' Hw. unfold_sets Hw. next_write Hw.
      injection Hw as <-. close_frame. }
  destruct E as (F1 & F2 & F3). cbn [fst snd] in *.
  (* constants *)
  next_write H. next_write H.
  apply write_each_preserves in E; [|apply Forall_forall|lia].
  2:{ intros cst _. apply writeConstant_preserves. }
  destruct E as (G1 & G2 & G3). cbn [fst snd] in *.
  (* upvalues *)
  next_write H. next_write H.
  apply write_each_preserves in E; [|apply Forall_forall|lia].
  2:{ intros up _ dv ofs w' Hk' Hw. unfold_sets Hw. do 2 next_write Hw.
      injection Hw as <-. close_frame. }
  destruct E as (I1 & I2 & I3). cbn [fst snd] in *.
  (* nested functions *)
  next_write H. next_write H.
  apply write_each_preserves in E; [|exact IH|lia].
  destruct E as (J1 & J2 & J3). cbn [fst snd] in *.
  (* debug info *)
  apply writeDebugInfo_preserves in H; [|lia].
  destruct H as (Last1 & Last2 & Last3). close_frame.
Qed.

End Conversions.
End EmitterFacts.

Section EmittedHeader.
Import VMInstructions Emitter LuacHeader.

Variable Number_toString : JSNumber -> jsstring.
Variable String_toNumber : jsstring -> JSNumber.

(** The literal 370.5 of the source: a positive double whose value is
    741/2. *)
Lemma number_370_5_value :
  f64_sign number_370_5 = 0 /\
  f64_mantissa number_370_5 * 2 = 741 * 2 ^ (- f64_exponent number_370_5).
Proof. split; vm_compute; reflexivity. Qed.

Lemma header_bytes_listed :
  header_bytes =
  [0x61; 0x75; 0x4C; 0x1B; 0x53; 0; 0x19; 0x93; 0x0D; 0x0A; 0x1A; 0x0A;
   4; 8; 4; 8; 8; 0x78; 0x56; 0; 0; 0; 0; 0; 0; 0; 0; 0; 0; 0; 0x28; 0x77; 0x40].
Proof. vm_compute. reflexivity. Qed.

Lemma string_eqb_eq (x y : list Z) : string_eqb x y = true -> x = y.
Proof.
  revert y. induction x as [|u x IH]; intros [|v y] H; try discriminate; [reflexivity|].
  simpl in H. apply andb_true_iff in H. destruct H as [H1 H2].
  apply Z.eqb_eq in H1. subst v. f_equal. apply IH, H2.
Qed.

Lemma writeHeader_fresh :
  exists dataView,
    writeHeader (ArrayBuffer (1024 * 64)) 0 = Some (dataView, 33) /\
    firstn header_size dataView = header_bytes.
Proof.
  assert (H : match writeHeader (ArrayBuffer (1024 * 64)) 0 with
              | Some (dataView, offset) =>
                  (offset =? 33) && string_eqb (firstn header_size dataView) header_bytes
              | None => false
              end = true) by (vm_compute; reflexivity).
  destruct (writeHeader (ArrayBuffer (1024 * 64)) 0) as [[dataView offset]|];
    [|discriminate].
  apply andb_true_iff in H. destruct H as [H1 H2].
  apply Z.eqb_eq in H1. subst offset.
  exists dataView. split; [reflexivity|apply string_eqb_eq, H2].
Qed.

Lemma validateLuac_header image :
  firstn header_size image = header_bytes -> validateLuac (new_Uint8Array image) = true.
Proof.
  intros H. rewrite header_bytes_listed in H.
  do 5 (destruct image as [|? image]; [discriminate|]).
  cbn [header_size firstn] in H. injection H as -> -> -> -> ->.
  reflexivity.
Qed.

Lemma generateLuac_in_header buffer dataView proto image :
  writeHeader buffer 0 = Some (dataView, 33) ->
  firstn header_size dataView = header_bytes ->
  generateLuac_in Number_toString String_toNumber buffer proto = Some image ->
  firstn header_size image = header_bytes.
Proof.
  intros Hh Hbytes H. unfold generateLuac_in in H. rewrite Hh in H.
  destruct (writeFunction Number_toString String_toNumber dataView 33 proto)
    as [[dataView' offset']|] eqn:Hf; [|discriminate].
  injection H as <-.
  apply (writeFunction_preserves header_size) in Hf; [|unfold header_size; lia].
  destruct Hf as (F1 & F2 & F3). cbn [fst snd] in *.
  rewrite firstn_firstn.
  replace (Init.Nat.min header_size (Z.to_nat offset')) with header_size
    by (unfold header_size; lia).
  rewrite F1. exact Hbytes.
Qed.

Lemma generateLuac_unfold proto :
  generateLuac Number_toString String_toNumber proto
  = generateLuac_in Number_toString String_toNumber (ArrayBuffer (1024 * 64)) proto.
Proof. reflexivity. Qed.

(** C5.  Whatever the prototype, an image that [generateLuac] emits
    starts with the header of §4.E: the magic 0x1B4C7561 as a
    little-endian u32, the version 0x53, the format 0, the data bytes
    19 93 0D 0A 1A 0A, the sizes 4 8 4 8 8, 0x5678 as a little-endian
    i64 and 370.5 as a little-endian f64; and [validateLuac] accepts
    the image. *)
Theorem emitted_image_has_header (proto : VMProto) (image : list Z) :
  generateLuac Number_toString String_toNumber proto = Some image ->
  firstn header_size image = header_bytes /\ validateLuac (new_Uint8Array image) = true.
Proof.
  intros H. rewrite generateLuac_unfold in H.
  destruct writeHeader_fresh as (dataView & Hh & Hbytes).
  pose proof (generateLuac_in_header (ArrayBuffer (1024 * 64)) dataView proto image
                                     Hh Hbytes H) as Hfirst.
  split; [exact Hfirst|apply validateLuac_header, Hfirst].
Qed.

End EmittedHeader.

Lemma emitted_image_has_header_witness :
  let image :=
    [0x61; 0x75; 0x4C; 0x1B; 0x53; 0; 0x19; 0x93; 0x0D; 0x0A; 0x1A; 0x0A;
     4; 8; 4; 8; 8; 0x78; 0x56; 0; 0; 0; 0; 0; 0; 0; 0; 0; 0; 0; 0x28; 0x77; 0x40;
     18; 64; 100; 101; 111; 98; 102; 117; 115; 99; 97; 116; 101; 100; 46; 108;
     117; 97; 0; 0; 0; 0; 0; 0; 0; 0; 0; 0; 0; 2; 0; 0; 0; 0; 0; 0; 0; 0; 0; 0;
     0; 0; 0; 0; 0; 0; 0; 0; 0; 0; 0; 0; 0; 0; 0; 0; 0; 0] in
  firstn LuacHeader.header_size image = LuacHeader.header_bytes /\
  Emitter.validateLuac (Emitter.new_Uint8Array image) = true.
Proof.
  apply (emitted_image_has_header (fun _ => []) (fun _ => F64 0) LuacHeader.emptyProto).
  vm_compute. reflexivity.
Defined.

(* ================================================================== *)
(** * Properties of the reconstructor                                  *)
(* ================================================================== *)

Section DecryptorTotal.
Import Decryptor.

(** [decryptString] returns at the depth the model gives it. *)
Lemma decryptString_total encrypted info :
  exists r, decryptString call_depth encrypted info = Some r.
Proof.
  unfold call_depth. cbn [decryptString].
  repeat match goal with
         | |- context [if ?b then _ else _] => destruct b; [eexists; reflexivity|]
         end.
  rewrite autoDetect_candidates.
  eexists. reflexivity.
Qed.

Lemma reconstructor_decryptString encrypted info :
  decryptString call_depth encrypted info
  = Some (Reconstructor.decryptString encrypted info).
Proof.
  unfold Reconstructor.decryptString.
  destruct (decryptString_total encrypted info) as [r ->]. reflexivity.
Qed.
End DecryptorTotal.

Section SymbolicAnalysis.
Import AST VMInstructions SymbolicExecutor Reconstructor ReconstructorSpec.

Lemma mock_is_no_register_access index :
  isRegisterAccess (mock_access index) = false.
Proof. reflexivity. Qed.

(** The objects that stand for [R] in a mock statement have no [type]:
    the executor recognises no register in them and completes no
    instruction. *)
Lemma mock_assignment_incomplete ctx i j :
  executeStatement ctx
    (object (AssignmentExpression [mock_access i] [mock_access j] false))
  = (None, ctx).
Proof. reflexivity. Qed.

Lemma parseHandlerCode_shape handlerCode :
  parseHandlerCode handlerCode = [] \/
  exists i j, parseHandlerCode handlerCode
              = [object (AssignmentExpression [mock_access i] [mock_access j] false)].
Proof.
  unfold parseHandlerCode. induction handler_patterns as [|p ps IH]; simpl.
  - left. reflexivity.
  - destruct (regex_match p handlerCode); [|exact IH].
    right. eexists; eexists. reflexivity.
Qed.

Lemma symbolic_execution_incomplete handler handlerCode context :
  exists r, analyzeHandlerWithSymbolicExecution handler handlerCode context = Returned r /\
            isComplete r = false.
Proof.
  unfold analyzeHandlerWithSymbolicExecution, executeVMHandler,
    createMockFunctionFromHandler.
  cbn [body_of variant_of object executeBlock].
  destruct (parseHandlerCode_shape handlerCode) as [->|(i & j & ->)].
  - eexists. split; reflexivity.
  - cbn [executeBlock_loop]. rewrite mock_assignment_incomplete.
    eexists. split; reflexivity.
Qed.

Lemma reconstructHandler_by_patterns handler context :
  reconstructHandler handler context
  = reconstructFromPatterns handler (handlerCode_of handler context).
Proof.
  unfold reconstructHandler.
  destruct (symbolic_execution_incomplete handler (handlerCode_of handler context) context)
    as (r & -> & ->).
  reflexivity.
Qed.

Lemma reconstructFromPatterns_some handler handlerCode :
  exists i, reconstructFromPatterns handler handlerCode = Some i.
Proof.
  unfold reconstructFromPatterns.
  repeat match goal with
         | |- context [match regex_match ?p ?s with _ => _ end] =>
             destruct (regex_match p s); [eexists; reflexivity|]
         end.
  eexists. reflexivity.
Qed.

Lemma reconstructFromPatterns_placeholder handler handlerCode :
  unrecognizable handlerCode ->
  reconstructFromPatterns handler handlerCode = Some (placeholder handler).
Proof.
  intros H. unfold unrecognizable, handler_patterns in H.
  repeat match goal with
         | H : Forall _ (_ :: _) |- _ => inversion H; subst; clear H
         end.
  unfold reconstructFromPatterns.
  repeat match goal with
         | E : regex_match ?p handlerCode = None |- _ => rewrite E; clear E
         end.
  reflexivity.
Qed.

(** The handler loop gives each handler one instruction and counts it
    once on either counter; it never touches the error list. *)
Lemma process_handlers_counts context handlerArray : forall instructions stats,
  let '(instructions', stats') :=
    process_handlers handlerArray context instructions stats in
  List.length instructions' = (List.length instructions + List.length handlerArray)%nat /\
  handlersProcessed stats' = handlersProcessed stats + Z.of_nat (List.length handlerArray) /\
  instructionsReconstructed stats'
  = instructionsReconstructed stats + Z.of_nat (List.length handlerArray) /\
  constantsDecrypted stats' = constantsDecrypted stats /\
  errors stats' = errors stats.
Proof.
  induction handlerArray as [|[index handler] rest IH]; intros instructions stats.
  - cbn [process_handlers List.length]. repeat split; lia.
  - cbn [process_handlers].
    rewrite reconstructHandler_by_patterns.
    destruct (reconstructFromPatterns_some handler (handlerCode_of handler context))
      as [i ->].
    match goal with |- context [process_handlers rest context ?l ?s] =>
      specialize (IH l s); destruct (process_handlers rest context l s) as [l' s'] end.
    destruct IH as (H1 & H2 & H3 & H4 & H5).
    rewrite length_app in H1. cbn [List.length handlersProcessed
      instructionsReconstructed constantsDecrypted errors] in *.
    repeat split; try lia; assumption.
Qed.

Lemma insert_sorted_length {V} (e : Z * V) l :
  List.length (insert_sorted e l) = S (List.length l).
Proof.
  induction l as [|x l IH]; [reflexivity|].
  simpl. destruct (fst e <? fst x); simpl; [reflexivity|]. rewrite IH. reflexivity.
Qed.

Lemma sort_entries_length {V} (l : list (Z * V)) :
  List.length (sort_entries l) = List.length l.
Proof.
  unfold sort_entries.
  assert (H : forall acc, List.length (fold_left (fun sorted e => insert_sorted e sorted) l acc)
                          = (List.length acc + List.length l)%nat).
  { induction l as [|e l IH]; intros acc; simpl; [lia|].
    rewrite IH, insert_sorted_length. lia. }
  rewrite H. reflexivity.
Qed.

(** ** The dead-code pass returns within its bound *)

Lemma visited_bound instructions reachable :
  visited_ok instructions reachable ->
  (List.length reachable <= List.length instructions)%nat.
Proof.
  intros [Hnodup Hrange].
  pose proof (NoDup_incl_length (l' := map Z.of_nat (seq 0 (List.length instructions)))
                Hnodup) as Hle.
  rewrite length_map, length_seq in Hle. apply Hle.
  intros pc Hpc. specialize (Hrange pc Hpc).
  replace pc with (Z.of_nat (Z.to_nat pc)) by lia.
  apply in_map, in_seq. lia.
Qed.

Lemma reachable_from_total instructions : forall rounds reachable worklist,
  visited_ok instructions reachable ->
  (2 * (List.length instructions - List.length reachable) + List.length worklist
   <= rounds)%nat ->
  exists o, reachable_from rounds instructions reachable worklist = Some o.
Proof.
  induction rounds as [|r IH]; intros reachable worklist Hok Hm.
  - destruct worklist; [eexists; reflexivity|simpl in Hm; lia].
  - destruct worklist as [|pc worklist]; [eexists; reflexivity|].
    cbn [reachable_from]. cbn [List.length] in Hm.
    destruct (existsb (Z.eqb pc) reachable ||
              (Z.of_nat (List.length instructions) <=? pc)) eqn:Eskip.
    + apply IH; [exact Hok|lia].
    + apply orb_false_iff in Eskip. destruct Eskip as [Enew Erange].
      apply Z.leb_gt in Erange.
      destruct (pc <? 0) eqn:Eneg; [eexists; reflexivity|].
      apply Z.ltb_ge in Eneg.
      assert (Hok' : visited_ok instructions (reachable ++ [pc])).
      { destruct Hok as [Hnodup Hrange]. split.
        - apply NoDup_app; [exact Hnodup|repeat constructor; intros []|].
          intros x Hx [Hpc|[]]. subst x.
          assert (existsb (Z.eqb pc) reachable = true); [|congruence].
          apply existsb_exists. exists pc. split; [exact Hx|apply Z.eqb_refl].
        - intros x Hx. apply in_app_or in Hx.
          destruct Hx as [Hx|[<-|[]]]; [apply Hrange, Hx|lia]. }
      pose proof (visited_bound _ _ Hok') as Hlen.
      rewrite length_app in Hlen. cbn [List.length] in Hlen.
      assert (Hnext : forall worklist',
                 (List.length worklist' <= S (List.length worklist))%nat ->
                 exists o, reachable_from r instructions (reachable ++ [pc]) worklist'
                           = Some o).
      { intros worklist' Hw. apply IH; [exact Hok'|].
        rewrite length_app. cbn [List.length]. lia. }
      destruct (nth_error instructions (Z.to_nat pc)) as [i|]; [|eexists; reflexivity].
      destruct (opcode i); try (apply Hnext; cbn [List.length]; lia).
      destruct (sbx i); apply Hnext; cbn [List.length]; lia.
Qed.

Section Conversions.
Variable Number_toString : JSNumber -> jsstring.
Variable parseFloat : jsstring -> JSNumber.
Variable JSON_parse_other : jsstring -> Outcome JSValue.

Local Abbreviation optimizeConstantLoading :=
  (optimizeConstantLoading Number_toString parseFloat JSON_parse_other).
Local Abbreviation optimizeReconstructedBytecode :=
  (optimizeReconstructedBytecode Number_toString parseFloat JSON_parse_other).
Local Abbreviation reconstructFromVM :=
  (reconstructFromVM Number_toString parseFloat JSON_parse_other).

Lemma removeDeadCode_total proto : exists o, removeDeadCode proto = Some o.
Proof.
  unfold removeDeadCode.
  destruct (reachable_from_total (instructions proto)
              (2 * List.length (instructions proto) + 2) [] [0]) as [o ->].
  - split; [constructor|intros pc []].
  - cbn [List.length]. lia.
  - destruct o; eexists; reflexivity.
Qed.

Lemma optimizeReconstructedBytecode_total proto :
  exists o, optimizeReconstructedBytecode proto = Some o.
Proof.
  unfold Reconstructor.optimizeReconstructedBytecode.
  destruct (Reconstructor.optimizeConstantLoading _ _ _ _) as [p|e];
    [|eexists; reflexivity].
  destruct (removeDeadCode_total p) as [o ->].
  destruct o; eexists; reflexivity.
Qed.

(** C2 (as the code has it).  Symbolic analysis of the mock function
    never completes, so every handler is lifted by the patterns.  A
    handler whose code none of them recognises gets the placeholder
    MOVE 0 0 0 with its index as line, and nothing is logged for it:
    the run returns, counts every handler once as processed and once
    as reconstructed, and its error list is empty unless the
    optimizer fails afterwards. *)
Theorem unrecognized_handler_gets_placeholder
        (context : ReconstructionContext) (handler : LuraphVMHandler) :
  unrecognizable (handlerCode_of handler context) ->
  reconstructHandler handler context = Some (placeholder handler) /\
  exists result,
    reconstructFromVM context = Some result /\
    handlersProcessed (statistics result) = Z.of_nat (List.length (handlers context)) /\
    instructionsReconstructed (statistics result)
    = Z.of_nat (List.length (handlers context)) /\
    (rr_success result = true -> errors (statistics result) = []).
Proof.
  intros Hcode. split.
  - rewrite reconstructHandler_by_patterns.
    apply reconstructFromPatterns_placeholder, Hcode.
  - unfold Reconstructor.reconstructFromVM.
    cbn [handlersProcessed instructionsReconstructed errors].
    match goal with |- context [process_handlers ?h context ?l ?s] =>
      pose proof (process_handlers_counts context h l s) as Hcount;
      destruct (process_handlers h context l s) as [instructions' stats'] end.
    destruct Hcount as (_ & H2 & H3 & _ & H5).
    rewrite sort_entries_length in H2, H3.
    cbn [handlersProcessed instructionsReconstructed errors] in H2, H3, H5.
    match goal with |- context [Reconstructor.optimizeReconstructedBytecode _ _ _ ?p] =>
      destruct (optimizeReconstructedBytecode_total p) as [o ->] end.
    destruct o as [proto'|message]; eexists; (split; [reflexivity|]);
      cbn [statistics handlersProcessed instructionsReconstructed errors rr_success].
    + split; [lia|]. split; [lia|]. intros _. exact H5.
    + split; [lia|]. split; [lia|]. discriminate.
Qed.

End Conversions.
End SymbolicAnalysis.

Lemma unrecognized_handler_gets_placeholder_witness :
  Reconstructor.reconstructHandler ReconstructorSpec.opaque_handler
                                   ReconstructorSpec.opaque_context
  = Some (ReconstructorSpec.placeholder ReconstructorSpec.opaque_handler) /\
  exists result,
    Reconstructor.reconstructFromVM (fun _ => []) (fun _ => F64 0)
                                    (fun _ => AST.Threw []) ReconstructorSpec.opaque_context
    = Some result /\
    Reconstructor.handlersProcessed (Reconstructor.statistics result) = 1 /\
    Reconstructor.instructionsReconstructed (Reconstructor.statistics result) = 1 /\
    (Reconstructor.rr_success result = true ->
     Reconstructor.errors (Reconstructor.statistics result) = []).
Proof.
  apply (unrecognized_handler_gets_placeholder
           (fun _ => []) (fun _ => F64 0) (fun _ => AST.Threw [])
           ReconstructorSpec.opaque_context ReconstructorSpec.opaque_handler).
  repeat constructor.
Defined.

(** C2 fails as stated: for a handler without a recognisable body
    nothing is logged, and the optimizer drops the placeholder again,
    so that no instruction is left. *)
Lemma opaque_handler_logs_nothing :
  ReconstructorSpec.unrecognizable
    (Reconstructor.handlerCode_of ReconstructorSpec.opaque_handler
                                  ReconstructorSpec.opaque_context) /\
  exists result,
    Reconstructor.reconstructFromVM (fun _ => []) (fun _ => F64 0)
                                    (fun _ => AST.Threw []) ReconstructorSpec.opaque_context
    = Some result /\
    Reconstructor.rr_success result = true /\
    Reconstructor.errors (Reconstructor.statistics result) = [] /\
    VMInstructions.instructions (Reconstructor.rr_proto result) = [].
Proof.
  split.
  - repeat constructor.
  - eexists. split; [vm_compute; reflexivity|]. repeat split.
Qed.

(** C6 at its failing input, a context with two equal string constants
    that hold a colon and a handler that loads the second one.  The
    handler is lifted to a LOADK without [bx], so the pass has no
    operand to remap, and the constants reach the pass as they are.
    The pass itself throws where it rebuilds the
    pool: it cuts the key of the constant at every colon and parses
    the text up to the second one, which is no JSON text.
    [reconstructFromVM] catches that and answers [success = false]
    with the empty prototype, in which no constant is left. *)
Theorem dedup_throws_on_colon
        (Number_toString : JSNumber -> jsstring) (parseFloat : jsstring -> JSNumber)
        (JSON_parse_other : jsstring -> AST.Outcome JSValue) :
  Reconstructor.reconstructHandler ReconstructorSpec.loads_second
                                   ReconstructorSpec.two_equal_strings
  = Some (VMInstructions.mkInstruction VMInstructions.LOADK 0 1 0 None None None (Some 0)) /\
  Reconstructor.decryptConstants
    (Reconstructor.rc_constants ReconstructorSpec.two_equal_strings)
    (Reconstructor.encryptionInfo ReconstructorSpec.two_equal_strings)
  = VMInstructions.constants ReconstructorSpec.pool_of_two /\
  exists message,
    Reconstructor.optimizeConstantLoading Number_toString parseFloat JSON_parse_other
                                          ReconstructorSpec.pool_of_two
    = AST.Threw message /\
    Reconstructor.reconstructFromVM Number_toString parseFloat JSON_parse_other
                                    ReconstructorSpec.two_equal_strings
    = Some (Reconstructor.mkReconstructionResult
              false Reconstructor.createEmptyProto
              (Reconstructor.mkStatistics 1 1 2 [message])) /\
    VMInstructions.constants Reconstructor.createEmptyProto = [].
Proof.
  split; [vm_compute; reflexivity|].
  split; [vm_compute; reflexivity|].
  eexists. split; [vm_compute; reflexivity|].
  split; [vm_compute; reflexivity|reflexivity].
Qed.

(* ================================================================== *)
(** * Properties of the parser                                         *)
(* ================================================================== *)

Section ParserFacts.
Import AST Lexer Loops Parser ParserSpec.

Variable tokens : list LuaToken.
Variable parseFloat : jsstring -> JSNumber.

Local Abbreviation in_sync := (ParserSpec.in_sync tokens).
Local Abbreviation steps := (ParserSpec.steps tokens).
Local Abbreviation enough := (ParserSpec.enough tokens).
Local Abbreviation isAtEnd := (Parser.isAtEnd tokens).
Local Abbreviation advanced := (Parser.advanced tokens).
Local Abbreviation check := (Parser.check tokens).
Local Abbreviation match_ := (Parser.match_ tokens).
Local Abbreviation consume := (Parser.consume tokens).
Local Abbreviation advance := (Parser.advance tokens).
Local Abbreviation previous := (Parser.previous tokens).
Local Abbreviation rounds := (Parser.rounds tokens).

#[local] Arguments loop : simpl never.
#[local] Arguments Parser.match_ : simpl never.
#[local] Arguments Parser.rounds : simpl never.
#[local] Arguments str : simpl never.
#[local] Arguments Parser.binary_level : simpl never.
#[local] Arguments Parser.expression_list : simpl never.
#[local] Arguments Parser.statement_list : simpl never.
#[local] Arguments Parser.identifier_list : simpl never.
#[local] Arguments Parser.synchronize : simpl never.
#[local] Arguments Parser.consume : simpl never.
#[local] Arguments Parser.check : simpl never.
#[local] Arguments Parser.advance : simpl never.
#[local] Arguments Parser.parseIdentifier : simpl never.
#[local] Arguments and_then : simpl never.
#[local] Arguments not_ : simpl never.
#[local] Arguments some : simpl never.
#[local] Arguments try_catch : simpl never.
#[local] Arguments bind : simpl never.

(** ** The state *)

Lemma in_sync_same s s' :
  in_sync s -> in_sync s' -> position s = position s' -> s = s'.
Proof.
  intros [_ H] [_ H'] E. destruct s, s'. simpl in *. subst. reflexivity.
Qed.

Lemma not_at_end s :
  in_sync s -> isAtEnd s = false ->
  (position s < List.length tokens)%nat /\
  exists token, current s = Some token /\ nth_error tokens (position s) = Some token /\
                type_eqb (type token) EOF = false.
Proof.
  intros [Hle Hcur] H. unfold Parser.isAtEnd in H.
  apply orb_false_iff in H. destruct H as [Hpos Heof].
  apply Nat.leb_gt in Hpos. split; [exact Hpos|].
  unfold token_or_last in Hcur.
  destruct (nth_error tokens (position s)) as [token|] eqn:E.
  - exists token. rewrite Hcur in *. auto.
  - apply nth_error_None in E. lia.
Qed.

Lemma advanced_in_sync s : in_sync s -> in_sync (advanced s).
Proof.
  intros Hs. split; [|reflexivity].
  unfold Parser.advanced. cbn [position].
  destruct (isAtEnd s) eqn:E; [apply Hs|].
  apply not_at_end in E; [lia|exact Hs].
Qed.

Lemma advanced_position s :
  position (advanced s) = if isAtEnd s then position s else S (position s).
Proof. reflexivity. Qed.

Lemma advanced_at_end s : in_sync s -> isAtEnd s = true -> advanced s = s.
Proof.
  intros Hs E. apply in_sync_same; [apply advanced_in_sync, Hs|exact Hs|].
  rewrite advanced_position, E. reflexivity.
Qed.

Lemma at_end_strict s s' :
  in_sync s -> in_sync s' -> (position s <= position s')%nat ->
  isAtEnd s = false -> isAtEnd s' = true -> (position s < position s')%nat.
Proof.
  intros Hs Hs' Hle E E'.
  destruct (Nat.eq_dec (position s) (position s')) as [Heq|]; [|lia].
  rewrite (in_sync_same s s' Hs Hs' Heq) in E. congruence.
Qed.

(** ** Rules for running a method *)

Lemma steps_ret {A} (x : A) s (Q : Outcome A -> ParserState -> Prop) :
  in_sync s -> Q (Returned x) s -> steps (ret x) s Q.
Proof. intros Hs HQ. exists (Returned x), s. auto. Qed.

Lemma steps_throw {A} message s (Q : Outcome A -> ParserState -> Prop) :
  in_sync s -> Q (Threw message) s -> steps (throw message) s Q.
Proof. intros Hs HQ. exists (Threw message), s. auto. Qed.

Lemma steps_weaken {A} (m : M A) s (Q Q' : Outcome A -> ParserState -> Prop) :
  steps m s Q ->
  (forall r s', in_sync s' -> (position s <= position s')%nat -> Q r s' -> Q' r s') ->
  steps m s Q'.
Proof.
  intros (r & s' & E & Hs' & Hle & HQ) H. exists r, s'. auto.
Qed.

Lemma steps_bind {A B} (m : M A) (k : A -> M B) s
      (Q1 : Outcome A -> ParserState -> Prop) (Q : Outcome B -> ParserState -> Prop) :
  steps m s Q1 ->
  (forall message s1, in_sync s1 -> (position s <= position s1)%nat ->
                      Q1 (Threw message) s1 -> Q (Threw message) s1) ->
  (forall x s1, in_sync s1 -> (position s <= position s1)%nat ->
                Q1 (Returned x) s1 -> steps (k x) s1 Q) ->
  steps (bind m k) s Q.
Proof.
  intros (r & s1 & E & Hs1 & Hle & HQ1) Hthrow Hk.
  unfold ParserSpec.steps, bind. rewrite E. destruct r as [x|message].
  - destruct (Hk x s1 Hs1 Hle HQ1) as (r' & s' & E' & Hs' & Hle' & HQ).
    exists r', s'. split; [exact E'|]. split; [exact Hs'|]. split; [lia|exact HQ].
  - exists (Threw message), s1. auto.
Qed.

Lemma steps_read {A B} (f : ParserState -> A) (k : A -> M B) s Q :
  steps (k (f s)) s Q -> steps (bind (read f) k) s Q.
Proof. intros H. exact H. Qed.

Lemma steps_deref {A B} (f : ParserState -> option A) (k : A -> M B) s
      (Q : Outcome B -> ParserState -> Prop) :
  in_sync s ->
  (f s = None -> Q (Threw (str "TypeError: Cannot read properties of undefined")) s) ->
  (forall x, f s = Some x -> steps (k x) s Q) ->
  steps (bind (deref f) k) s Q.
Proof.
  intros Hs Hnone Hsome. unfold ParserSpec.steps, bind, deref.
  destruct (f s) as [x|] eqn:E.
  - apply Hsome. reflexivity.
  - eexists; eexists. split; [reflexivity|]. auto.
Qed.

Lemma bind_assoc {A B C} (m : M A) (f : A -> M B) (k : B -> M C) s :
  bind (bind m f) k s = bind m (fun x => bind (f x) k) s.
Proof.
  unfold bind. destruct (m s) as [[[x|message] s1]|]; reflexivity.
Qed.

Lemma steps_assoc {A B C} (m : M A) (f : A -> M B) (k : B -> M C) s Q :
  steps (bind m (fun x => bind (f x) k)) s Q -> steps (bind (bind m f) k) s Q.
Proof. unfold ParserSpec.steps. rewrite bind_assoc. auto. Qed.

Lemma steps_ret_bind {A B} (x : A) (k : A -> M B) s Q :
  steps (k x) s Q -> steps (bind (ret x) k) s Q.
Proof. intros H. exact H. Qed.

(** ** The utility methods *)

Lemma check_value type_ s :
  in_sync s ->
  exists found, check type_ s = Some (Returned found, s) /\
                (found = true -> isAtEnd s = false).
Proof.
  intros Hs. unfold Parser.check, bind, read.
  destruct (isAtEnd s) eqn:E.
  - exists false. split; [reflexivity|discriminate].
  - destruct (not_at_end s Hs E) as (_ & token & Hcur & _).
    unfold deref. rewrite Hcur. eexists. split; [reflexivity|auto].
Qed.

Lemma match_value types s :
  in_sync s ->
  exists found : bool,
    match_ types s = Some (Returned found, if found then advanced s else s) /\
                (found = true -> isAtEnd s = false).
Proof.
  intros Hs. induction types as [|type_ rest IH].
  - exists false. split; [reflexivity|discriminate].
  - change (match_ (type_ :: rest) s)
      with (bind (check type_)
                 (fun found => if found then bind advance (fun _ => ret true)
                               else match_ rest) s).
    destruct (check_value type_ s Hs) as (found & E & Hfound).
    unfold bind at 1. rewrite E. destruct found.
    + exists true. split; [reflexivity|exact Hfound].
    + exact IH.
Qed.

Lemma steps_check {B} type_ (k : bool -> M B) s Q :
  in_sync s ->
  (forall found, steps (k found) s Q) ->
  steps (bind (check type_) k) s Q.
Proof.
  intros Hs Hk. destruct (check_value type_ s Hs) as (found & E & _).
  unfold ParserSpec.steps, bind. rewrite E. apply Hk.
Qed.

Lemma steps_match {B} types (k : bool -> M B) s Q :
  in_sync s ->
  (forall s1, in_sync s1 -> position s1 = S (position s) -> isAtEnd s = false ->
              steps (k true) s1 Q) ->
  steps (k false) s Q ->
  steps (bind (match_ types) k) s Q.
Proof.
  intros Hs Htrue Hfalse. destruct (match_value types s Hs) as (found & E & Hfound).
  unfold ParserSpec.steps, bind. rewrite E. destruct found; [|exact Hfalse].
  specialize (Hfound eq_refl).
  destruct (Htrue (advanced s)) as (r & s' & E' & Hs' & Hle & HQ).
  - apply advanced_in_sync, Hs.
  - rewrite advanced_position, Hfound. reflexivity.
  - exact Hfound.
  - exists r, s'. split; [exact E'|]. split; [exact Hs'|]. split; [|exact HQ].
    rewrite advanced_position, Hfound in Hle. lia.
Qed.

Lemma steps_advance {B} (k : option LuaToken -> M B) s Q :
  in_sync s ->
  (forall x s1, in_sync s1 ->
                position s1 = (if isAtEnd s then position s else S (position s)) ->
                steps (k x) s1 Q) ->
  steps (bind advance k) s Q.
Proof.
  intros Hs Hk.
  destruct (Hk (previous (advanced s)) (advanced s)) as (r & s' & E' & Hs' & Hle & HQ).
  - apply advanced_in_sync, Hs.
  - apply advanced_position.
  - exists r, s'. split; [exact E'|]. split; [exact Hs'|]. split; [|exact HQ].
    rewrite advanced_position in Hle. destruct (isAtEnd s); lia.
Qed.

Lemma steps_consume {B} type_ message (k : option LuaToken -> M B) s
      (Q : Outcome B -> ParserState -> Prop) :
  in_sync s ->
  (forall e, Q (Threw e) s) ->
  (forall x s1, in_sync s1 -> position s1 = S (position s) -> steps (k x) s1 Q) ->
  steps (bind (consume type_ message) k) s Q.
Proof.
  intros Hs Hthrow Hk. unfold Parser.consume. apply steps_assoc.
  destruct (check_value type_ s Hs) as (found & E & Hfound).
  unfold ParserSpec.steps. unfold bind at 1. rewrite E. destruct found.
  - specialize (Hfound eq_refl).
    apply (steps_advance k s Q Hs). intros x s1 Hs1 Hp.
    rewrite Hfound in Hp. apply Hk; assumption.
  - eexists; eexists. split; [reflexivity|]. auto.
Qed.

Lemma consume_last type_ message s (Q : Outcome (option LuaToken) -> ParserState -> Prop) :
  in_sync s ->
  (forall e, Q (Threw e) s) ->
  (forall x s1, in_sync s1 -> position s1 = S (position s) -> Q (Returned x) s1) ->
  steps (consume type_ message) s Q.
Proof.
  intros Hs Hthrow Hk.
  assert (H : steps (bind (consume type_ message) ret) s Q).
  { apply steps_consume; [exact Hs|exact Hthrow|].
    intros x s1 Hs1 Hp. exists (Returned x), s1.
    split; [reflexivity|]. split; [exact Hs1|]. split; [lia|auto]. }
  destruct H as (r & s' & E & H). exists r, s'. split; [|exact H].
  unfold bind in E. destruct (consume type_ message s) as [[[x|e] s1]|]; exact E.
Qed.

Lemma steps_parseIdentifier {B} (k : ASTNode -> M B) s
      (Q : Outcome B -> ParserState -> Prop) :
  in_sync s ->
  (forall e, Q (Threw e) s) ->
  (forall x, steps (k x) s Q) ->
  steps (bind (parseIdentifier tokens) k) s Q.
Proof.
  intros Hs Hthrow Hk. unfold Parser.parseIdentifier. apply steps_assoc.
  apply steps_deref; [exact Hs|intros _; apply Hthrow|].
  intros token _. apply Hk.
Qed.

(** ** Loops *)

Lemma steps_loop {A} (body : A -> M (Step A)) (Inv : A -> ParserState -> Prop)
      (Q : Outcome A -> ParserState -> Prop) :
  (forall acc s, in_sync s -> Inv acc s -> steps (body acc) s (round Inv Q s)) ->
  forall n acc s,
    in_sync s -> Inv acc s -> (List.length tokens - position s < n)%nat ->
    steps (loop n body acc) s Q.
Proof.
  intros Hbody. induction n as [|n IH]; intros acc s Hs Hinv Hn; [lia|].
  unfold loop; fold (@loop A).
  apply steps_bind with (Q1 := round Inv Q s).
  - apply Hbody; assumption.
  - intros message s1 _ _ H. exact H.
  - intros [acc'|acc'] s1 Hs1 Hle H; cbn [round] in H.
    + destruct H as [Hlt Hinv']. apply IH; [assumption|assumption|].
      destruct Hs1. lia.
    + apply steps_ret; assumption.
Qed.


(** ** Conditions *)

Lemma steps_pure {A B} (m : M A) (k : A -> M B) s Q (P : A -> Prop) :
  pure m s P -> (forall x, P x -> steps (k x) s Q) -> steps (bind m k) s Q.
Proof.
  intros (x & E & HP) Hk. unfold ParserSpec.steps, bind. rewrite E. apply Hk, HP.
Qed.

(** ** Lists of names, operands and statements *)

Lemma steps_reset {B} (k : unit -> M B) s Q :
  steps (k tt) s Q ->
  steps (bind (update (fun s' => mkParser (position s) (current s'))) k) s Q.
Proof.
  unfold ParserSpec.steps, bind, update. destruct s. exact (fun H => H).
Qed.

Lemma identifier_list_steps s : in_sync s -> steps (identifier_list tokens) s anything.
Proof.
  intros Hs. unfold Parser.identifier_list.
  apply steps_parseIdentifier; [exact Hs|intros; exact I|]. intros first.
  apply steps_loop with (Inv := fun _ _ => True); auto; [|unfold Parser.rounds; lia].
  intros names s1 Hs1 _.
  apply steps_match; [exact Hs1| |].
  - intros s2 Hs2 Hp _.
    apply steps_parseIdentifier; [exact Hs2|intros; exact I|].
    intros name. apply steps_ret; [exact Hs2|]. cbn. split; [lia|exact I].
  - apply steps_ret; [exact Hs1|exact I].
Qed.

Lemma binary_level_steps operators (operand right_operand : M ASTNode) s :
  in_sync s ->
  steps operand s (advances s) ->
  (forall s1, in_sync s1 -> (position s < position s1)%nat ->
              steps right_operand s1 (advances s1)) ->
  steps (binary_level tokens operators operand right_operand) s (advances s).
Proof.
  intros Hs Hoperand Hright. unfold Parser.binary_level.
  eapply steps_bind; [exact Hoperand|intros; exact I|].
  intros first s1 Hs1 Hle Hlt. cbn in Hlt.
  apply steps_loop with (Inv := fun _ s' => (position s < position s')%nat); auto;
    [|unfold Parser.rounds; destruct Hs1; lia].
  intros expr s2 Hs2 Hinv.
  apply steps_match; [exact Hs2| |].
  - intros s3 Hs3 Hp _.
    apply steps_deref; [exact Hs3|intros; exact I|]. intros operator _.
    eapply steps_bind; [apply Hright; [exact Hs3|lia]|intros; exact I|].
    intros right_ s4 Hs4 Hle4 Hlt4. cbn in Hlt4.
    apply steps_ret; [exact Hs4|]. cbn. lia.
  - apply steps_ret; [exact Hs2|]. exact Hinv.
Qed.

Lemma expression_list_steps (parseExpression : M ASTNode) s :
  in_sync s ->
  steps parseExpression s (advances s) ->
  (forall s1, in_sync s1 -> (position s < position s1)%nat ->
              steps parseExpression s1 (advances s1)) ->
  steps (expression_list tokens parseExpression) s (advances s).
Proof.
  intros Hs Hfirst Hnext. unfold Parser.expression_list.
  eapply steps_bind; [exact Hfirst|intros; exact I|].
  intros first s1 Hs1 Hle Hlt. cbn in Hlt.
  apply steps_loop with (Inv := fun _ s' => (position s < position s')%nat); auto;
    [|unfold Parser.rounds; destruct Hs1; lia].
  intros expressions s2 Hs2 Hinv.
  apply steps_match; [exact Hs2| |].
  - intros s3 Hs3 Hp _.
    eapply steps_bind; [apply Hnext; [exact Hs3|lia]|intros; exact I|].
    intros expression s4 Hs4 Hle4 Hlt4. cbn in Hlt4.
    apply steps_ret; [exact Hs4|]. cbn. lia.
  - apply steps_ret; [exact Hs2|]. exact Hinv.
Qed.

Lemma statement_list_steps (continues : M bool) (parseStatement : M (option ASTNode)) s :
  in_sync s ->
  (forall s1, in_sync s1 -> (position s <= position s1)%nat ->
              pure continues s1 (fun more => more = true -> isAtEnd s1 = false)) ->
  (forall s1, in_sync s1 -> (position s <= position s1)%nat ->
              steps parseStatement s1
                    (returns (fun _ s' => isAtEnd s1 = false ->
                                          (position s1 < position s')%nat))) ->
  steps (statement_list tokens continues parseStatement) s (returns (fun _ _ => True)).
Proof.
  intros Hs Hcontinues Hstatement. unfold Parser.statement_list.
  apply steps_loop with (Inv := fun _ s' => (position s <= position s')%nat); auto;
    [|unfold Parser.rounds; lia].
  intros statements s1 Hs1 Hinv.
  eapply steps_pure; [apply Hcontinues; assumption|].
  intros [|] Hmore.
  - specialize (Hmore eq_refl).
    eapply steps_bind; [apply Hstatement; assumption|intros ? ? ? ? []|].
    intros stmt s2 Hs2 Hle2 Hlt2. cbn in Hlt2. specialize (Hlt2 Hmore).
    apply steps_ret; [exact Hs2|]. cbn. lia.
  - apply steps_ret; [exact Hs1|]. exact I.
Qed.

Lemma not_at_end_pure s :
  pure (not_ (read isAtEnd)) s (fun more => more = true -> isAtEnd s = false).
Proof.
  exists (negb (isAtEnd s)). split; [reflexivity|].
  destruct (isAtEnd s); [discriminate|reflexivity].
Qed.

Lemma and_then_pure (a b : M bool) s (G : Prop) :
  (exists x, a s = Some (Returned x, s)) ->
  pure b s (fun more => more = true -> G) ->
  pure (and_then a b) s (fun more => more = true -> G).
Proof.
  intros (x & E) (y & E' & HG). unfold ParserSpec.pure, and_then, bind. rewrite E.
  destruct x.
  - exists y. split; [exact E'|exact HG].
  - exists false. split; [reflexivity|discriminate].
Qed.

Lemma not_check_value type_ s :
  in_sync s -> exists x, not_ (check type_) s = Some (Returned x, s).
Proof.
  intros Hs. destruct (check_value type_ s Hs) as (found & E & _).
  exists (negb found). unfold not_, bind. rewrite E. reflexivity.
Qed.

(** ** The steps of a proof *)

Ltac arith :=
  unfold ParserSpec.enough in *;
  repeat match goal with
         | H : ParserSpec.in_sync _ _ |- _ => destruct H as [? _]
         | H : context [if ?b then _ else _] |- _ => destruct b
         end;
  lia.

Ltac post :=
  first [ exact I
        | cbv beta iota delta [ParserSpec.advances ParserSpec.anything ParserSpec.returns
                               ParserSpec.round] in *;
          intros; repeat split; first [exact I | contradiction | arith] ].

Ltac step :=
  lazymatch goal with
  | |- ParserSpec.steps _ (bind (read _) _) _ _ => apply steps_read; cbv beta
  | |- ParserSpec.steps _ (bind (ret _) _) _ _ => apply steps_ret_bind; cbv beta
  | |- ParserSpec.steps _ (bind (some _) _) _ _ => unfold some at 1; apply steps_assoc
  | |- ParserSpec.steps _ (some _) _ _ => unfold some at 1
  | |- ParserSpec.steps _ (bind (deref _) _) _ _ =>
      apply steps_deref; [assumption | intros _; post | intros ? _; cbv beta]
  | |- ParserSpec.steps _ (bind (Parser.check _ _) _) _ _ =>
      apply steps_check; [assumption | intros [|]; cbv beta iota]
  | |- ParserSpec.steps _ (bind (Parser.match_ _ _) _) _ _ =>
      let s1 := fresh "s" in
      let Hs := fresh "Hs" in
      let Hp := fresh "Hp" in
      let He := fresh "He" in
      apply steps_match;
      [assumption | intros s1 Hs Hp He; cbv beta iota | cbv beta iota]
  | |- ParserSpec.steps _ (bind (Parser.consume _ _ _) _) _ _ =>
      let s1 := fresh "s" in
      let Hs := fresh "Hs" in
      let Hp := fresh "Hp" in
      apply steps_consume; [assumption | intros; post | intros ? s1 Hs Hp; cbv beta]
  | |- ParserSpec.steps _ (bind (Parser.advance _) _) _ _ =>
      let s1 := fresh "s" in
      let Hs := fresh "Hs" in
      let Hp := fresh "Hp" in
      apply steps_advance; [assumption | intros ? s1 Hs Hp; cbv beta]
  | |- ParserSpec.steps _ (bind (Parser.parseIdentifier _) _) _ _ =>
      apply steps_parseIdentifier; [assumption | intros; post | intros ?; cbv beta]
  | |- ParserSpec.steps _ (Parser.parseIdentifier _) _ _ => unfold Parser.parseIdentifier
  | |- ParserSpec.steps _ (Parser.consume _ _ _) _ _ =>
      apply consume_last; [assumption | intros; post | intros; post]
  | |- ParserSpec.steps _ (bind (Parser.identifier_list _) _) _ _ =>
      let s1 := fresh "s" in
      let Hs := fresh "Hs" in
      let Hp := fresh "Hp" in
      eapply steps_bind;
      [apply identifier_list_steps; assumption | intros; post | intros ? s1 Hs Hp _]
  | |- ParserSpec.steps _ (bind (update _) _) _ _ => apply steps_reset
  | |- ParserSpec.steps _ (bind (bind _ _) _) _ _ => apply steps_assoc
  | |- ParserSpec.steps _ (ret _) _ _ => apply steps_ret; [assumption | post]
  | |- ParserSpec.steps _ (throw _) _ _ => apply steps_throw; [assumption | post]
  end.

Ltac looping I :=
  apply steps_loop with (Inv := I);
  [ intros ? ? ? ?; cbv beta in *
  | assumption
  | cbv beta; arith
  | unfold Parser.rounds; arith ].

(** Calling a method whose totality is known, in the middle and at the
    end of a body. *)
Ltac call H :=
  let s1 := fresh "s" in
  let Hs := fresh "Hs" in
  let Hp := fresh "Hp" in
  let Hq := fresh "Hq" in
  eapply steps_bind;
  [ apply H; [assumption | arith]
  | intros; post
  | intros ? s1 Hs Hp Hq;
    cbv beta iota delta [ParserSpec.advances ParserSpec.anything] in Hq ].

Ltac tail H :=
  eapply steps_weaken;
  [ apply H; [assumption | arith]
  | let r := fresh "r" in
    intros r ? ? ? ?; destruct r;
    cbv beta iota delta [ParserSpec.advances ParserSpec.anything] in *; post ].

Ltac unpack IH :=
  destruct IH as (IHprimary & IHcall & IHpower & IHunary & IHmul & IHadd & IHconcat &
                  IHcmp & IHeq & IHand & IHor & IHexpr & IHlist & IHfield & IHtable &
                  IHfinish & IHreturn & IHexprstmt & IHwhile & IHfor & IHif &
                  IHfunction & IHlocal & IHtry & IHstatement & IHblock).

(** ** The methods, one level of calls deeper *)

Lemma parsePrimary_total n :
  all_total tokens parseFloat n -> total tokens 1 true (parsePrimary tokens parseFloat) (S n).
Proof.
  intros IH. unpack IH. intros s0 Hs0 Hfuel. simpl parsePrimary.
  repeat step.
  - call IHexpr. repeat step.
  - tail IHtable.
Qed.


Lemma parseCall_total n :
  all_total tokens parseFloat n -> total tokens 2 true (parseCall tokens parseFloat) (S n).
Proof.
  intros IH. unpack IH. intros s0 Hs0 Hfuel. simpl parseCall.
  call IHprimary.
  looping (fun (_ : ASTNode) s' => (position s0 < position s')%nat).
  repeat step.
  - call (IHfinish acc). repeat step.
  - call IHexpr. repeat step.
Qed.

Lemma binary_total operators rank (operand right_operand : nat -> M ASTNode) n :
  (rank < 31)%nat ->
  total tokens rank true operand n ->
  total tokens 4 true right_operand n \/ total tokens rank true right_operand n ->
  forall s, in_sync s -> enough (S rank) (S n) s ->
            steps (binary_level tokens operators (operand n) (right_operand n)) s
                  (advances s).
Proof.
  intros Hrank Hoperand Hright s0 Hs0 Hfuel.
  apply binary_level_steps; [exact Hs0|apply Hoperand; [exact Hs0|arith]|].
  intros s1 Hs1 Hlt. destruct Hright as [H|H]; apply H; try assumption; arith.
Qed.

Lemma parsePower_total n :
  all_total tokens parseFloat n -> total tokens 3 true (parsePower tokens parseFloat) (S n).
Proof.
  intros IH. unpack IH. intros s0 Hs0 Hfuel. simpl parsePower.
  apply (binary_total [POWER] 2); auto. lia.
Qed.

Lemma parseUnary_total n :
  all_total tokens parseFloat n -> total tokens 4 true (parseUnary tokens parseFloat) (S n).
Proof.
  intros IH. unpack IH. intros s0 Hs0 Hfuel. simpl parseUnary.
  repeat step.
  - call IHunary. repeat step.
  - tail IHpower.
Qed.

Lemma parseMultiplicative_total n :
  all_total tokens parseFloat n ->
  total tokens 5 true (parseMultiplicative tokens parseFloat) (S n).
Proof.
  intros IH. unpack IH. intros s0 Hs0 Hfuel. simpl parseMultiplicative.
  apply (binary_total [MULTIPLY; DIVIDE; MODULO] 4); auto. lia.
Qed.

Lemma parseAdditive_total n :
  all_total tokens parseFloat n -> total tokens 6 true (parseAdditive tokens parseFloat) (S n).
Proof.
  intros IH. unpack IH. intros s0 Hs0 Hfuel. simpl parseAdditive.
  apply (binary_total [PLUS; MINUS] 5); auto. lia.
Qed.

Lemma parseConcat_total n :
  all_total tokens parseFloat n -> total tokens 7 true (parseConcat tokens parseFloat) (S n).
Proof.
  intros IH. unpack IH. intros s0 Hs0 Hfuel. simpl parseConcat.
  apply (binary_total [CONCAT] 6); auto. lia.
Qed.

Lemma parseComparison_total n :
  all_total tokens parseFloat n ->
  total tokens 8 true (parseComparison tokens parseFloat) (S n).
Proof.
  intros IH. unpack IH. intros s0 Hs0 Hfuel. simpl parseComparison.
  apply (binary_total [GREATER_THAN; GREATER_EQUAL; LESS_THAN; LESS_EQUAL] 7); auto. lia.
Qed.

Lemma parseEquality_total n :
  all_total tokens parseFloat n -> total tokens 9 true (parseEquality tokens parseFloat) (S n).
Proof.
  intros IH. unpack IH. intros s0 Hs0 Hfuel. simpl parseEquality.
  apply (binary_total [EQUAL; NOT_EQUAL] 8); auto. lia.
Qed.

Lemma parseAnd_total n :
  all_total tokens parseFloat n -> total tokens 10 true (parseAnd tokens parseFloat) (S n).
Proof.
  intros IH. unpack IH. intros s0 Hs0 Hfuel. simpl parseAnd.
  apply (binary_total [AND] 9); auto. lia.
Qed.

Lemma parseOr_total n :
  all_total tokens parseFloat n -> total tokens 11 true (parseOr tokens parseFloat) (S n).
Proof.
  intros IH. unpack IH. intros s0 Hs0 Hfuel. simpl parseOr.
  apply (binary_total [OR] 10); auto. lia.
Qed.

Lemma parseExpression_total n :
  all_total tokens parseFloat n ->
  total tokens 12 true (parseExpression tokens parseFloat) (S n).
Proof.
  intros IH. unpack IH. intros s0 Hs0 Hfuel. simpl parseExpression.
  tail IHor.
Qed.

Lemma parseExpressionList_total n :
  all_total tokens parseFloat n ->
  total tokens 13 true (parseExpressionList tokens parseFloat) (S n).
Proof.
  intros IH. unpack IH. intros s0 Hs0 Hfuel. simpl parseExpressionList.
  apply expression_list_steps; [exact Hs0|apply IHexpr; [exact Hs0|arith]|].
  intros s1 Hs1 Hlt. apply IHexpr; [exact Hs1|arith].
Qed.

Lemma parseTableField_total n :
  all_total tokens parseFloat n ->
  total tokens 13 true (parseTableField tokens parseFloat) (S n).
Proof.
  intros IH. unpack IH. intros s0 Hs0 Hfuel. simpl parseTableField.
  repeat step.
  - call IHexpr. repeat step. call IHexpr. repeat step.
  - call IHexpr. repeat step. call IHexpr. repeat step.
Qed.

Lemma parseTableConstructor_total n :
  all_total tokens parseFloat n ->
  total tokens 14 false (parseTableConstructor tokens parseFloat) (S n).
Proof.
  intros IH. unpack IH. intros s0 Hs0 Hfuel. simpl parseTableConstructor.
  repeat step.
  call IHfield.
  apply steps_bind with (Q1 := anything); [|intros; exact I|intros; repeat step].
  looping (fun (_ : list ASTNode) s' => (position s0 <= position s')%nat).
  repeat step.
  call IHfield. repeat step.
Qed.

Lemma finishCall_total n :
  all_total tokens parseFloat n ->
  forall callee,
    total tokens 14 false (fun fuel => finishCall tokens parseFloat fuel callee) (S n).
Proof.
  intros IH callee. unpack IH. intros s0 Hs0 Hfuel. simpl finishCall.
  repeat step.
  call IHlist. repeat step.
Qed.

Lemma parseReturnStatement_total n :
  all_total tokens parseFloat n ->
  total tokens 14 false (parseReturnStatement tokens parseFloat) (S n).
Proof.
  intros IH. unpack IH. intros s0 Hs0 Hfuel. simpl parseReturnStatement.
  step.
  eapply steps_pure.
  { apply and_then_pure; [apply not_check_value, Hs0|].
    apply and_then_pure; [apply not_check_value, Hs0|]. apply not_at_end_pure. }
  intros [|] _; cbv beta iota.
  - call IHlist. repeat step.
  - repeat step.
Qed.

Lemma parseExpressionStatement_total n :
  all_total tokens parseFloat n ->
  total tokens 13 true (parseExpressionStatement tokens parseFloat) (S n).
Proof.
  intros IH. unpack IH. intros s0 Hs0 Hfuel. simpl parseExpressionStatement.
  call IHexpr. repeat step.
  call IHlist. repeat step.
Qed.

Lemma parseWhileStatement_total n :
  all_total tokens parseFloat n ->
  total tokens 13 false (parseWhileStatement tokens parseFloat) (S n).
Proof.
  intros IH. unpack IH. intros s0 Hs0 Hfuel. simpl parseWhileStatement.
  call IHexpr. repeat step.
  call IHblock. repeat step.
Qed.

Lemma parseForStatement_total n :
  all_total tokens parseFloat n ->
  total tokens 13 false (parseForStatement tokens parseFloat) (S n).
Proof.
  intros IH. unpack IH. intros s0 Hs0 Hfuel. simpl parseForStatement.
  repeat step.
  - call IHexpr. repeat step. call IHexpr. repeat step.
    + call IHexpr. repeat step. call IHblock. repeat step.
    + call IHblock. repeat step.
  - call IHlist. repeat step. call IHblock. repeat step.
Qed.

Lemma parseIfStatement_total n :
  all_total tokens parseFloat n ->
  total tokens 13 false (parseIfStatement tokens parseFloat) (S n).
Proof.
  intros IH. unpack IH. intros s0 Hs0 Hfuel. simpl parseIfStatement.
  call IHexpr. repeat step.
  call IHblock. repeat step.
  - call IHif. repeat step.
  - call IHblock. repeat step.
Qed.

Lemma parseFunctionDeclaration_total n :
  all_total tokens parseFloat n ->
  forall isLocal,
    total tokens 13 false
          (fun fuel => parseFunctionDeclaration tokens parseFloat fuel isLocal) (S n).
Proof.
  intros IH isLocal. unpack IH. intros s0 Hs0 Hfuel. simpl parseFunctionDeclaration.
  repeat step.
  - call IHblock. repeat step.
  - call IHblock. repeat step.
Qed.

Lemma parseLocalStatement_total n :
  all_total tokens parseFloat n ->
  total tokens 14 false (parseLocalStatement tokens parseFloat) (S n).
Proof.
  intros IH. unpack IH. intros s0 Hs0 Hfuel. simpl parseLocalStatement.
  repeat step.
  - tail (IHfunction true).
  - call IHlist. repeat step.
Qed.


(** ** Recovery *)

Lemma previous_at s p :
  position s = S p -> previous s = nth_error tokens p.
Proof. unfold Parser.previous. intros ->. reflexivity. Qed.

Lemma at_end_recovery s :
  in_sync s -> isAtEnd s = true -> recovery_point tokens (position s) = true.
Proof.
  intros [Hle Hcur] H. unfold recovery_point.
  unfold Parser.isAtEnd in H. apply orb_true_iff in H. destruct H as [H|H].
  - rewrite H. reflexivity.
  - unfold token_or_last in Hcur.
    destruct (nth_error tokens (position s)) as [token|] eqn:E.
    + rewrite Hcur in H. rewrite H. rewrite orb_true_r. reflexivity.
    + apply nth_error_None in E. apply Nat.leb_le in E. rewrite E. reflexivity.
Qed.

Lemma synchronize_resumes s :
  in_sync s ->
  exists s', synchronize tokens s = Some (Returned tt, s') /\ resumes tokens s s'.
Proof.
  intros Hs.
  assert (H : steps (synchronize tokens) s
                    (returns (fun _ s' =>
                                if isAtEnd s then s' = s
                                else (position s < position s')%nat /\
                                     recovery_point tokens (position s') = true /\
                                     forall j, (position s < j < position s')%nat ->
                                               recovery_point tokens j = false))).
  { unfold Parser.synchronize.
    apply steps_advance; [exact Hs|]. intros _ s1 Hs1 Hp1.
    destruct (isAtEnd s) eqn:Hend.
    - rewrite (in_sync_same s1 s Hs1 Hs Hp1).
      exists (Returned tt), s. split; [|split; [exact Hs|split; [lia|reflexivity]]].
      unfold Parser.rounds, loop, bind, read, ret. rewrite Hend. reflexivity.
    - apply steps_loop
        with (Inv := fun _ s' => (position s < position s')%nat /\
                                 forall j, (position s < j < position s')%nat ->
                                           recovery_point tokens j = false);
        [|exact Hs1| |unfold Parser.rounds; lia].
      + intros [] s2 Hs2 [Hlt Hnone].
        apply steps_read. destruct (isAtEnd s2) eqn:Hend2.
        { apply steps_ret; [exact Hs2|]. cbn.
          split; [exact Hlt|]. split; [apply at_end_recovery; assumption|exact Hnone]. }
        destruct (not_at_end s2 Hs2 Hend2) as (Hlen & token & Hcur & Hnth & Heof).
        destruct (position s2) as [|p] eqn:Hp2; [lia|].
        assert (Hprev : exists before, nth_error tokens p = Some before).
        { destruct (nth_error tokens p) eqn:E; [eauto|].
          apply nth_error_None in E. lia. }
        destruct Hprev as [before Hbefore].
        apply steps_deref; [exact Hs2|rewrite (previous_at s2 p Hp2), Hbefore; discriminate|].
        intros before' Hb. rewrite (previous_at s2 p Hp2), Hbefore in Hb.
        injection Hb as <-.
        destruct (type_eqb (type before) SEMICOLON) eqn:Hsemi.
        { apply steps_ret; [exact Hs2|]. cbn. rewrite Hp2.
          split; [lia|]. split; [|exact Hnone].
          unfold recovery_point. rewrite Hbefore, Hsemi. apply orb_true_r. }
        apply steps_deref; [exact Hs2|rewrite Hcur; discriminate|].
        intros token' Ht. rewrite Hcur in Ht. injection Ht as <-.
        destruct (existsb (type_eqb (type token)) statement_starts) eqn:Hstart.
        { apply steps_ret; [exact Hs2|]. cbn. rewrite Hp2.
          split; [lia|]. split; [|exact Hnone].
          unfold recovery_point. rewrite Hnth, Hstart, Heof.
          destruct (List.length tokens <=? S p)%nat; reflexivity. }
        apply steps_advance; [exact Hs2|]. intros _ s3 Hs3 Hp3. rewrite Hend2 in Hp3.
        apply steps_ret; [exact Hs3|]. cbn. rewrite Hp3, Hp2.
        split; [lia|]. split; [lia|].
        intros j Hj. destruct (Nat.eq_dec j (S p)) as [->|Hne].
        * unfold recovery_point. rewrite Hnth, Heof, Hstart, Hbefore, Hsemi.
          replace (List.length tokens <=? S p)%nat with false; [reflexivity|].
          symmetry. apply Nat.leb_gt. lia.
        * apply Hnone. lia.
      + split; [lia|]. intros j Hj. lia. }
  destruct H as ([[]|message] & s' & E & Hs' & Hle & HQ); [|contradiction].
  exists s'. split; [exact E|]. split; [exact Hs'|exact HQ].
Qed.

Lemma synchronize_steps s :
  in_sync s ->
  steps (synchronize tokens) s
        (returns (fun _ s' => isAtEnd s = false -> (position s < position s')%nat)).
Proof.
  intros Hs. destruct (synchronize_resumes s Hs) as (s' & E & Hs' & H).
  exists (Returned tt), s'. split; [exact E|]. split; [exact Hs'|].
  destruct (isAtEnd s).
  - subst s'. split; [lia|]. discriminate.
  - split; [lia|]. intros _. apply H.
Qed.

(** ** Statements and blocks *)

Lemma tryStatement_total n :
  all_total tokens parseFloat n ->
  forall s, in_sync s -> enough 15 (S n) s ->
            steps (tryStatement tokens parseFloat (S n)) s
                  (fun r s' => match r with
                               | Returned _ => isAtEnd s = false ->
                                               (position s < position s')%nat
                               | Threw _ => True
                               end).
Proof.
  intros IH. unpack IH. intros s0 Hs0 Hfuel. simpl tryStatement.
  apply steps_bind with (Q1 := anything); [|intros; exact I|].
  { looping (fun (_ : unit) s' => (position s0 <= position s')%nat).
    repeat step. }
  intros _ s1 Hs1 Hle1 _. apply steps_read.
  destruct (isAtEnd s1) eqn:Hend1.
  { apply steps_ret; [exact Hs1|]. intros Hend0.
    apply at_end_strict; assumption. }
  repeat step.
  - call IHlocal. repeat step.
  - call (IHfunction false). repeat step.
  - call IHif. repeat step.
  - call IHfor. repeat step.
  - call IHwhile. repeat step.
  - call IHreturn. repeat step.
  - call IHexprstmt. repeat step.
Qed.

Lemma parseStatement_total n :
  all_total tokens parseFloat n ->
  forall s, in_sync s -> enough 16 (S n) s ->
            steps (parseStatement tokens parseFloat (S n)) s
                  (returns (fun _ s' => isAtEnd s = false ->
                                        (position s < position s')%nat)).
Proof.
  intros IH. unpack IH. intros s0 Hs0 Hfuel. simpl parseStatement.
  destruct (IHtry s0 Hs0) as (r & s1 & E & Hs1 & Hle1 & HQ); [arith|].
  unfold ParserSpec.steps, try_catch. rewrite E. destruct r as [stmt|message].
  - exists (Returned stmt), s1. auto.
  - destruct (synchronize_steps s1 Hs1) as ([[]|e] & s2 & E2 & Hs2 & Hle2 & HQ2);
      [|contradiction].
    unfold bind. rewrite E2. exists (Returned None), s2.
    split; [reflexivity|]. split; [exact Hs2|]. split; [lia|].
    cbn in *. intros Hend0.
    destruct (isAtEnd s1) eqn:Hend1.
    + pose proof (at_end_strict s0 s1 Hs0 Hs1 Hle1 Hend0 Hend1). lia.
    + specialize (HQ2 eq_refl). lia.
Qed.

Lemma block_continues s :
  in_sync s ->
  pure (and_then (not_ (check END))
          (and_then (not_ (check ELSE))
             (and_then (not_ (check ELSEIF)) (not_ (read isAtEnd)))))
       s (fun more => more = true -> isAtEnd s = false).
Proof.
  intros Hs. repeat (apply and_then_pure; [apply not_check_value, Hs|]).
  apply not_at_end_pure.
Qed.

Lemma parseBlock_total n :
  all_total tokens parseFloat n ->
  total tokens 17 false (parseBlock tokens parseFloat) (S n).
Proof.
  intros IH. unpack IH. intros s0 Hs0 Hfuel. simpl parseBlock.
  apply steps_read.
  eapply steps_bind.
  - apply statement_list_steps; [exact Hs0| |].
    + intros s1 Hs1 _. apply block_continues, Hs1.
    + intros s1 Hs1 Hle. apply IHstatement; [exact Hs1|arith].
  - intros ? ? ? ? [].
  - intros statements s1 Hs1 Hle _. repeat step.
Qed.

(** Every method returns or throws when the nesting of calls it is
    allowed covers the tokens that are left. *)
Lemma all_total_holds n : all_total tokens parseFloat n.
Proof.
  induction n as [|n IH].
  - unfold all_total, total.
    repeat split; intros; unfold ParserSpec.enough in *; lia.
  - unfold all_total. repeat split.
    + apply parsePrimary_total, IH.
    + apply parseCall_total, IH.
    + apply parsePower_total, IH.
    + apply parseUnary_total, IH.
    + apply parseMultiplicative_total, IH.
    + apply parseAdditive_total, IH.
    + apply parseConcat_total, IH.
    + apply parseComparison_total, IH.
    + apply parseEquality_total, IH.
    + apply parseAnd_total, IH.
    + apply parseOr_total, IH.
    + apply parseExpression_total, IH.
    + apply parseExpressionList_total, IH.
    + apply parseTableField_total, IH.
    + apply parseTableConstructor_total, IH.
    + apply finishCall_total, IH.
    + apply parseReturnStatement_total, IH.
    + apply parseExpressionStatement_total, IH.
    + apply parseWhileStatement_total, IH.
    + apply parseForStatement_total, IH.
    + apply parseIfStatement_total, IH.
    + apply parseFunctionDeclaration_total, IH.
    + apply parseLocalStatement_total, IH.
    + apply tryStatement_total, IH.
    + apply parseStatement_total, IH.
    + apply parseBlock_total, IH.
Qed.

Lemma start_in_sync : in_sync (start tokens).
Proof.
  split; [cbn; lia|]. unfold start, token_or_last. cbn [position current].
  destruct tokens; reflexivity.
Qed.

Lemma call_depth_enough rank s :
  (rank <= 32)%nat -> enough rank (call_depth tokens) s.
Proof. unfold ParserSpec.enough, call_depth. lia. Qed.

Lemma parse_returns s :
  in_sync s ->
  exists statements s',
    parse tokens parseFloat s
    = Some (Returned (node (PosLineColumn 1 1) (BlockStatement statements)), s').
Proof.
  intros Hs.
  destruct (statement_list_steps (not_ (read isAtEnd))
              (parseStatement tokens parseFloat (call_depth tokens)) s Hs)
    as ([statements|message] & s' & E & _ & _ & HQ); [| | |contradiction].
  - intros s1 _ _. apply not_at_end_pure.
  - intros s1 Hs1 _.
    pose proof (all_total_holds (call_depth tokens)) as IH. unpack IH.
    apply IHstatement; [exact Hs1|apply call_depth_enough; lia].
  - exists statements, s'. unfold parse, bind. rewrite E. reflexivity.
Qed.


Lemma call_depth_S : call_depth tokens = S (pred (call_depth tokens)).
Proof. unfold call_depth. lia. Qed.

(** One call of [parseStatement] at its full depth: what the [try]
    block returns, or null behind the recovery from what it throws. *)
Lemma parseStatement_outcome s :
  in_sync s ->
  exists outcome s1,
    tryStatement tokens parseFloat (pred (call_depth tokens)) s = Some (outcome, s1) /\
    in_sync s1 /\
    match outcome with
    | Returned stmt =>
        parseStatement tokens parseFloat (call_depth tokens) s = Some (Returned stmt, s1)
    | Threw _ =>
        exists s2,
          parseStatement tokens parseFloat (call_depth tokens) s
          = Some (Returned None, s2) /\
          resumes tokens s1 s2
    end.
Proof.
  intros Hs. pose proof call_depth_S as Hdepth.
  remember (pred (call_depth tokens)) as n eqn:Hn. rewrite Hdepth.
  pose proof (all_total_holds n) as IH. unpack IH.
  destruct (IHtry s Hs) as (outcome & s1 & E & Hs1 & _ & _).
  { unfold ParserSpec.enough. unfold call_depth in Hdepth. lia. }
  exists outcome, s1. split; [exact E|]. split; [exact Hs1|].
  simpl parseStatement. unfold try_catch. rewrite E.
  destruct outcome as [stmt|message]; [reflexivity|].
  destruct (synchronize_resumes s1 Hs1) as (s2 & E2 & H2).
  exists s2. split; [|exact H2]. unfold bind. rewrite E2. reflexivity.
Qed.

(** The loop of [parse] returns the statements that were parsed, in
    their order. *)
Lemma statement_list_collects n : forall statements s result s',
  in_sync s ->
  loop n
       (fun statements =>
          more <~ not_ (read isAtEnd) ;;
          if more
          then stmt <~ parseStatement tokens parseFloat (call_depth tokens) ;;
               ret (Continue (push statements stmt))
          else ret (Break statements))
       statements s
  = Some (Returned result, s') ->
  exists rest, result = statements ++ rest /\ ParserSpec.collected tokens parseFloat s rest s'.
Proof.
  set (body := fun statements : list ASTNode =>
                 more <~ not_ (read isAtEnd) ;;
                 if more
                 then stmt <~ parseStatement tokens parseFloat (call_depth tokens) ;;
                      ret (Continue (push statements stmt))
                 else ret (Break statements)).
  assert (Hbody : forall statements s,
             body statements s
             = if isAtEnd s then Some (Returned (Break statements), s)
               else match parseStatement tokens parseFloat (call_depth tokens) s with
                    | Some (Returned stmt, s1) =>
                        Some (Returned (Continue (push statements stmt)), s1)
                    | Some (Threw message, s1) => Some (Threw message, s1)
                    | None => None
                    end).
  { intros statements s. cbv [body not_ bind read ret].
    destruct (isAtEnd s); reflexivity. }
  induction n as [|n IH]; intros statements s result s' Hs H; [discriminate|].
  change (loop (S n) body statements s)
    with (bind (body statements)
               (fun step => match step with
                            | Continue acc' => loop n body acc'
                            | Break acc' => ret acc'
                            end) s) in H.
  unfold bind at 1 in H. rewrite Hbody in H.
  destruct (isAtEnd s) eqn:Hend.
  - unfold ret in H. injection H as <- <-. exists []. split; [symmetry; apply app_nil_r|].
    apply ParserSpec.collected_none, Hend.
  - destruct (parseStatement_outcome s Hs) as (outcome & s1 & Etry & Hs1 & Hcall).
    destruct outcome as [stmt|message].
    + rewrite Hcall in H.
      destruct (IH _ _ _ _ Hs1 H) as (rest & -> & Hrest).
      exists (match stmt with Some x => x :: rest | None => rest end). split.
      * destruct stmt; cbn [push]; [rewrite <- app_assoc|]; reflexivity.
      * apply (ParserSpec.collected_statement tokens parseFloat s stmt s1 rest s'
                                              Hend Etry Hrest).
    + destruct Hcall as (s2 & Hcall & Hresumes). rewrite Hcall in H.
      destruct (IH _ _ _ _ (proj1 Hresumes) H) as (rest & -> & Hrest).
      exists rest. split; [reflexivity|].
      apply (ParserSpec.collected_error tokens parseFloat s message s1 s2 rest s'
                                        Hend Etry Hresumes Hrest).
Qed.

Lemma parse_collects s statements s' :
  in_sync s ->
  parse tokens parseFloat s
  = Some (Returned (node (PosLineColumn 1 1) (BlockStatement statements)), s') ->
  ParserSpec.collected tokens parseFloat s statements s'.
Proof.
  intros Hs. unfold parse, Parser.statement_list. unfold bind at 1.
  match goal with
  | |- context [loop ?n ?body [] s] => destruct (loop n body [] s) as [[[l|e] s1]|] eqn:E
  end; [|discriminate|discriminate].
  unfold ret. intros H. injection H as <- <-.
  destruct (statement_list_collects _ _ _ _ _ Hs E) as (rest & -> & Hrest). exact Hrest.
Qed.

(** C9 (as the code has it).  No error ends the parse: [parse] returns
    a program for every token array, and the statements of the program
    are those that were parsed, in their order, from the first token
    to the end.  A statement that throws, be it at the end of the input
    inside a construct, leaves nothing in the program and takes
    nothing out of it: it is caught by [parseStatement], which returns
    null after [synchronize] has dropped the token at which the error
    occurred and every further token up to the first recovery point:
    the end of the input, the place behind a semicolon, or the place in
    front of function, local, for, if, while or return.  Parsing
    resumes there. *)
Theorem parse_recovers_from_errors (s : ParserState) :
  in_sync s ->
  (exists statements s',
      parse tokens parseFloat (start tokens)
      = Some (Returned (node (PosLineColumn 1 1) (BlockStatement statements)), s') /\
      ParserSpec.collected tokens parseFloat (start tokens) statements s') /\
  exists outcome s1,
    tryStatement tokens parseFloat (pred (call_depth tokens)) s = Some (outcome, s1) /\
    match outcome with
    | Returned stmt =>
        parseStatement tokens parseFloat (call_depth tokens) s = Some (Returned stmt, s1)
    | Threw _ =>
        exists s2,
          parseStatement tokens parseFloat (call_depth tokens) s
          = Some (Returned None, s2) /\
          resumes tokens s1 s2
    end.
Proof.
  intros Hs. split.
  - destruct (parse_returns (start tokens) start_in_sync) as (statements & s' & E).
    exists statements, s'. split; [exact E|].
    apply parse_collects; [apply start_in_sync|exact E].
  - destruct (parseStatement_outcome s Hs) as (outcome & s1 & E & _ & H).
    exists outcome, s1. split; [exact E|exact H].
Qed.

End ParserFacts.

Lemma parse_recovers_from_errors_witness :
  (exists statements s',
      Parser.parse ParserSpec.unfinished_if (fun _ => F64 0)
                   (Parser.start ParserSpec.unfinished_if)
      = Some (AST.Returned (AST.node (AST.PosLineColumn 1 1) (AST.BlockStatement statements)),
              s') /\
      ParserSpec.collected ParserSpec.unfinished_if (fun _ => F64 0)
                           (Parser.start ParserSpec.unfinished_if) statements s') /\
  exists outcome s1,
    Parser.tryStatement ParserSpec.unfinished_if (fun _ => F64 0)
                        (pred (Parser.call_depth ParserSpec.unfinished_if))
                        (Parser.start ParserSpec.unfinished_if)
    = Some (outcome, s1) /\
    match outcome with
    | AST.Returned stmt =>
        Parser.parseStatement ParserSpec.unfinished_if (fun _ => F64 0)
                              (Parser.call_depth ParserSpec.unfinished_if)
                              (Parser.start ParserSpec.unfinished_if)
        = Some (AST.Returned stmt, s1)
    | AST.Threw _ =>
        exists s2,
          Parser.parseStatement ParserSpec.unfinished_if (fun _ => F64 0)
                                (Parser.call_depth ParserSpec.unfinished_if)
                                (Parser.start ParserSpec.unfinished_if)
          = Some (AST.Returned None, s2) /\
          ParserSpec.resumes ParserSpec.unfinished_if s1 s2
    end.
Proof.
  apply (parse_recovers_from_errors ParserSpec.unfinished_if (fun _ => F64 0)
                                    (Parser.start ParserSpec.unfinished_if)).
  split; [vm_compute; lia|reflexivity].
Defined.

(** C9 fails as stated: on [if x then], where the input ends inside
    the statement, the parser does not abort; it returns the empty
    program. *)
Lemma unfinished_if_is_no_error :
  Lexer.tokenize (str "if x then") = Some ParserSpec.unfinished_if /\
  Parser.parse_tokens (fun _ => F64 0) ParserSpec.unfinished_if
  = Some (AST.Returned (AST.node (AST.PosLineColumn 1 1) (AST.BlockStatement []))).
Proof. split; vm_compute; reflexivity. Qed.

(* ================================================================== *)
(** * Properties of the test for Luraph scripts                        *)
(* ================================================================== *)

Section VisitedInduction.
Import AST.

Variable P : ASTNode -> Prop.
Hypothesis step : forall position children variant,
    match children with
    | Some nodes => Forall P nodes
    | None => True
    end ->
    match variant with
    | BlockStatement statements => Forall P statements
    | _ => True
    end ->
    P (Node position children variant).

(** Induction along the nodes that [checkNode] visits. *)
Fixpoint visited_ind (node : ASTNode) : P node :=
  let all := fix all (l : list ASTNode) : Forall P l :=
               match l with
               | [] => Forall_nil P
               | x :: l' => Forall_cons x (visited_ind x) (all l')
               end in
  match node with
  | Node position children variant =>
      step position children variant
           (match children
                  return match children with
                         | Some nodes => Forall P nodes
                         | None => True
                         end
            with
            | Some nodes => all nodes
            | None => I
            end)
           (match variant
                  return match variant with
                         | BlockStatement statements => Forall P statements
                         | _ => True
                         end
            with
            | BlockStatement statements => all statements
            | _ => I
            end)
  end.

End VisitedInduction.

Section Traversal.
Import AST GateSpec.

(** A traversal that threads a state through the visited nodes is a
    fold over their list. *)
Variable St : Type.
Variable inspect : ASTNode -> St -> St.
Variable checkNode : ASTNode -> St -> St.
Hypothesis checkNode_eq : forall position children variant flags,
    checkNode (Node position children variant) flags
    = let flags := inspect (Node position children variant) flags in
      let flags := match children with
                   | Some nodes =>
                       fold_left (fun flags child => checkNode child flags) nodes flags
                   | None => flags
                   end in
      match variant with
      | BlockStatement statements =>
          fold_left (fun flags stmt => checkNode stmt flags) statements flags
      | _ => flags
      end.

Local Abbreviation visits := (fun node flags => fold_left (fun flags n => inspect n flags)
                                                         (visited node) flags).

Lemma fold_visits nodes :
  Forall (fun node => forall flags, checkNode node flags = visits node flags) nodes ->
  forall flags,
    fold_left (fun flags child => checkNode child flags) nodes flags
    = fold_left (fun flags n => inspect n flags) (flat_map visited nodes) flags.
Proof.
  induction 1 as [|node nodes Hnode _ IH]; intros flags; [reflexivity|].
  cbn [fold_left flat_map]. rewrite fold_left_app, Hnode. apply IH.
Qed.

Lemma checkNode_visits node : forall flags, checkNode node flags = visits node flags.
Proof.
  induction node as [position children variant Hchildren Hstatements] using visited_ind.
  intros flags. rewrite checkNode_eq. cbn [visited fold_left]. cbv zeta.
  rewrite fold_left_app.
  assert (E : match children with
              | Some nodes =>
                  fold_left (fun flags child => checkNode child flags) nodes
                            (inspect (Node position children variant) flags)
              | None => inspect (Node position children variant) flags
              end
              = fold_left (fun flags n => inspect n flags)
                          match children with
                          | Some nodes => flat_map visited nodes
                          | None => []
                          end
                          (inspect (Node position children variant) flags)).
  { destruct children as [nodes|]; [|reflexivity]. apply fold_visits, Hchildren. }
  rewrite E.
  destruct variant; try reflexivity.
  apply fold_visits, Hstatements.
Qed.

End Traversal.

Section Gate.
Import AST GateSpec.

Lemma strict_inspect node flags :
  LuraphVM.inspect node flags
  = LuraphVM.mkIndicators
      (LuraphVM.hasVMHandlers flags || LuraphVM.is_vm_handler node)
      (LuraphVM.hasEncryptedContent flags || LuraphVM.is_encrypted_string node)
      (LuraphVM.hasObfuscatedNames flags || LuraphVM.is_obfuscated_identifier node).
Proof.
  unfold LuraphVM.inspect. destruct flags as [[|] [|] [|]];
    destruct (LuraphVM.is_vm_handler node), (LuraphVM.is_encrypted_string node),
      (LuraphVM.is_obfuscated_identifier node); reflexivity.
Qed.

Lemma strict_fold nodes : forall flags,
  fold_left (fun flags n => LuraphVM.inspect n flags) nodes flags
  = LuraphVM.mkIndicators
      (LuraphVM.hasVMHandlers flags || existsb LuraphVM.is_vm_handler nodes)
      (LuraphVM.hasEncryptedContent flags || existsb LuraphVM.is_encrypted_string nodes)
      (LuraphVM.hasObfuscatedNames flags ||
       existsb LuraphVM.is_obfuscated_identifier nodes).
Proof.
  induction nodes as [|node nodes IH]; intros flags.
  - destruct flags. cbn. rewrite !orb_false_r. reflexivity.
  - cbn [fold_left existsb]. rewrite IH, strict_inspect. cbn.
    rewrite !orb_assoc. reflexivity.
Qed.

Lemma lenient_inspect node flags :
  LuraphVM_003.inspect node flags
  = LuraphVM_003.mkIndicators
      (LuraphVM_003.hasObfuscatedStructure flags || LuraphVM_003.has_long_name node)
      (LuraphVM_003.hasComplexExpressions flags || LuraphVM_003.is_binary node)
      (LuraphVM_003.hasLongIdentifiers flags || LuraphVM_003.is_long_identifier node).
Proof.
  unfold LuraphVM_003.inspect. destruct flags as [[|] [|] [|]];
    destruct (LuraphVM_003.has_long_name node), (LuraphVM_003.is_binary node),
      (LuraphVM_003.is_long_identifier node); reflexivity.
Qed.

Lemma lenient_fold nodes : forall flags,
  fold_left (fun flags n => LuraphVM_003.inspect n flags) nodes flags
  = LuraphVM_003.mkIndicators
      (LuraphVM_003.hasObfuscatedStructure flags ||
       existsb LuraphVM_003.has_long_name nodes)
      (LuraphVM_003.hasComplexExpressions flags || existsb LuraphVM_003.is_binary nodes)
      (LuraphVM_003.hasLongIdentifiers flags ||
       existsb LuraphVM_003.is_long_identifier nodes).
Proof.
  induction nodes as [|node nodes IH]; intros flags.
  - destruct flags. cbn. rewrite !orb_false_r. reflexivity.
  - cbn [fold_left existsb]. rewrite IH, lenient_inspect. cbn.
    rewrite !orb_assoc. reflexivity.
Qed.

(** C1 (as the code has it).  The test looks at the syntax tree alone,
    and only at the nodes [checkNode] visits: the root, the [children]
    of visited nodes and the statements of visited blocks.  In
    LuraphVM.ts a script passes exactly when at least two of these are
    found among them: a function flagged as VM handler, an encrypted
    string, an identifier flagged as obfuscated.  In the later version
    a script passes exactly when at least two of the thirteen patterns
    match the text of the tree, or a function with a name of more than
    10 characters, a binary expression or an identifier of more than 15
    characters is among the visited nodes.  Every other script is
    rejected. *)
Theorem gate_counts_visited_indicators
        (Number_toString : JSNumber -> jsstring) (ast : ASTNode) :
  LuraphVM.isValidLuraphScript ast
  = (2 <=? LuraphVM.count_true
             [existsb LuraphVM.is_vm_handler (visited ast);
              existsb LuraphVM.is_encrypted_string (visited ast);
              existsb LuraphVM.is_obfuscated_identifier (visited ast)])%nat /\
  LuraphVM_003.isValidLuraphScript Number_toString ast
  = (2 <=? LuraphVM_003.patternMatches (LuraphVM_003.astToString Number_toString ast))%nat
    || (existsb LuraphVM_003.has_long_name (visited ast) ||
        existsb LuraphVM_003.is_binary (visited ast) ||
        existsb LuraphVM_003.is_long_identifier (visited ast)).
Proof.
  split.
  - unfold LuraphVM.isValidLuraphScript.
    rewrite (checkNode_visits _ LuraphVM.inspect LuraphVM.checkNode); [|reflexivity].
    rewrite strict_fold. reflexivity.
  - unfold LuraphVM_003.isValidLuraphScript.
    rewrite (checkNode_visits _ LuraphVM_003.inspect LuraphVM_003.checkNode);
      [|reflexivity].
    rewrite lenient_fold. reflexivity.
Qed.

End Gate.

(** C1 fails as stated.  The call [io.write('hi')] meets none of the
    three conditions of the specification and passes the later version
    of the test, because the parser turns [io.] into a binary
    expression of its own; the call [lI1O '\x41'] meets none of them
    and passes the test of LuraphVM.ts, as an obfuscated name followed
    by an encrypted string. *)
Lemma plain_lua_passes_the_gate :
  (exists ast,
      GateSpec.parsed GateSpec.plain_call = Some ast /\
      GateSpec.looks_like_luraph GateSpec.plain_call ast = false /\
      LuraphVM_003.isValidLuraphScript (fun _ => []) ast = true) /\
  (exists ast,
      GateSpec.parsed GateSpec.odd_name = Some ast /\
      GateSpec.looks_like_luraph GateSpec.odd_name ast = false /\
      LuraphVM.isValidLuraphScript ast = true).
Proof.
  split; eexists; (split; [vm_compute; reflexivity|]); split; vm_compute; reflexivity.
Qed.

(* ================================================================== *)
(** * Further properties of the decryptor                              *)
(* ================================================================== *)

Section DecryptorBehaviour.
Import Decryptor AutoDetect.

Lemma xorDecryptV1_empty_key encrypted : forall i,
  xorDecryptV1_from i encrypted [] = encrypted.
Proof.
  induction encrypted as [|c rest IH]; intros i; cbn [xorDecryptV1_from]; [reflexivity|].
  rewrite IH. cbn. rewrite Z.lxor_0_r. reflexivity.
Qed.

Lemma xorDecryptV2_no_key encrypted : forall i,
  xorDecryptV2_from i None encrypted [] = encrypted.
Proof.
  induction encrypted as [|c rest IH]; intros i; cbn [xorDecryptV2_from]; [reflexivity|].
  rewrite IH. cbn. rewrite Z.lxor_0_r. reflexivity.
Qed.

Lemma customSubstitution_empty_key bytes : forall i,
  customSubstitution_from i bytes [] = repeat 0 (List.length bytes).
Proof.
  induction bytes as [|x rest IH]; intros i; cbn [customSubstitution_from]; [reflexivity|].
  rewrite IH. reflexivity.
Qed.

Lemma xorBytes_length a b : forall i, List.length (xorBytes_from i a b) = List.length a.
Proof.
  induction a as [|x a IH]; intros i; cbn [xorBytes_from List.length]; [reflexivity|].
  rewrite IH. reflexivity.
Qed.

(** X2.  With the empty key the three keyed algorithms do not fail:
    [xor_v1] and [xor_v2] return the text unchanged (the key byte they
    read is [undefined]), and [luraph_custom] returns as many NUL
    characters as the text has characters. *)
Theorem empty_key_results (encrypted : jsstring) (iv : option jsstring)
        (algorithm version : jsstring) :
  decryptString call_depth encrypted (mkInfo (str "xor_v1") [] iv algorithm version)
  = Some (mkResult true encrypted (str "xor_v1") None) /\
  decryptString call_depth encrypted (mkInfo (str "xor_v2") [] iv algorithm version)
  = Some (mkResult true encrypted (str "xor_v2") None) /\
  decryptString call_depth encrypted (mkInfo (str "luraph_custom") [] iv algorithm version)
  = Some (mkResult true (repeat 0 (List.length encrypted)) (str "luraph_custom") None).
Proof.
  split; [|split].
  - change (Some (xorDecryptV1 encrypted [])
            = Some (mkResult true encrypted (str "xor_v1") None)).
    unfold xorDecryptV1, stringToBytes. cbn [map].
    rewrite xorDecryptV1_empty_key. reflexivity.
  - change (Some (xorDecryptV2 encrypted [])
            = Some (mkResult true encrypted (str "xor_v2") None)).
    unfold xorDecryptV2, stringToBytes. cbn [map].
    destruct encrypted as [|c rest]; [reflexivity|].
    cbn [xorDecryptV2_from]. rewrite xorDecryptV2_no_key.
    cbn. rewrite Z.lxor_0_r. reflexivity.
  - change (Some (luraphCustomDecrypt encrypted [])
            = Some (mkResult true (repeat 0 (List.length encrypted))
                             (str "luraph_custom") None)).
    unfold luraphCustomDecrypt, customSubstitution, bytesToString.
    rewrite customSubstitution_empty_key.
    unfold reverseBitManipulation, xorBytes, stringToBytes.
    rewrite length_map, xorBytes_length, length_map. reflexivity.
Qed.

Lemma xorDecryptV1_twice keyBytes text : forall i,
  xorDecryptV1_from i (xorDecryptV1_from i text keyBytes) keyBytes = text.
Proof.
  induction text as [|c rest IH]; intros i; cbn [xorDecryptV1_from]; [reflexivity|].
  rewrite IH, lxor_cancel. reflexivity.
Qed.

Lemma xorDecryptV2_twice keyBytes text : forall i keyIndex,
  xorDecryptV2_from i keyIndex (xorDecryptV2_from i keyIndex text keyBytes) keyBytes
  = text.
Proof.
  induction text as [|c rest IH]; intros i keyIndex; cbn [xorDecryptV2_from];
    [reflexivity|].
  rewrite IH, lxor_cancel. reflexivity.
Qed.

(** X3.  The two XOR algorithms are their own inverses: decrypting the
    result of a decryption again, with the same key, gives the first
    text back, for every text and every key, the empty one included. *)
Theorem xor_methods_are_involutions (text key : jsstring) :
  decrypted (xorDecryptV1 (decrypted (xorDecryptV1 text key)) key) = text /\
  decrypted (xorDecryptV2 (decrypted (xorDecryptV2 text key)) key) = text.
Proof.
  split.
  - cbn [xorDecryptV1 decrypted]. apply xorDecryptV1_twice.
  - cbn [xorDecryptV2 decrypted]. apply xorDecryptV2_twice.
Qed.

Lemma hexToBytes_loop_length n : forall hex, List.length (hexToBytes_loop n hex) = n.
Proof.
  induction n as [|n IH]; intros hex; cbn [hexToBytes_loop List.length]; [reflexivity|].
  rewrite IH. reflexivity.
Qed.

Lemma hexToBytes_loop_bytes n : forall hex,
  Forall (fun x => 0 <= x < 256) (hexToBytes_loop n hex).
Proof.
  induction n as [|n IH]; intros hex; cbn [hexToBytes_loop]; constructor.
  - apply to_u8_range.
  - apply IH.
Qed.

Lemma xorBytes_bytes a b : forall i, Forall (fun x => 0 <= x < 256) (xorBytes_from i a b).
Proof.
  induction a as [|x a IH]; intros i; cbn [xorBytes_from]; constructor.
  - apply to_u8_range.
  - apply IH.
Qed.

Lemma simpleAESDecrypt_loop_spec rounds : forall encrypted key16 previousBlock,
  (List.length encrypted <= 16 * rounds)%nat ->
  List.length (simpleAESDecrypt_loop rounds encrypted key16 previousBlock)
  = List.length encrypted /\
  Forall (fun x => 0 <= x < 256)
         (simpleAESDecrypt_loop rounds encrypted key16 previousBlock).
Proof.
  induction rounds as [|r IH]; intros encrypted key16 previousBlock Hlen.
  - cbn [simpleAESDecrypt_loop]. split; [|constructor].
    destruct encrypted; [reflexivity|cbn [List.length] in Hlen; lia].
  - cbn [simpleAESDecrypt_loop].
    destruct (IH (skipn 16 encrypted) key16 (firstn 16 encrypted)) as [Hl Hb].
    { rewrite length_skipn. lia. }
    split.
    + rewrite length_app, Hl. unfold xorBytes. rewrite !xorBytes_length.
      rewrite length_firstn, length_skipn. lia.
    + apply Forall_app. split; [apply xorBytes_bytes|exact Hb].
Qed.

Lemma simpleAESDecrypt_spec encrypted key iv :
  List.length (simpleAESDecrypt encrypted key iv) = List.length encrypted /\
  Forall (fun x => 0 <= x < 256) (simpleAESDecrypt encrypted key iv).
Proof.
  unfold simpleAESDecrypt. apply simpleAESDecrypt_loop_spec.
  pose proof (Nat.div_mod_eq (List.length encrypted + 15) 16) as H.
  pose proof (Nat.mod_upper_bound (List.length encrypted + 15) 16) as H'.
  lia.
Qed.

Lemma last_some_in (bytes : list Z) p :
  last (map Some bytes) None = Some p -> In p bytes.
Proof.
  induction bytes as [|x [|y rest] IH]; intros H.
  - discriminate.
  - injection H as <-. left. reflexivity.
  - right. apply IH. exact H.
Qed.

Lemma removeLuraphPadding_spec bytes :
  exists removed,
    bytes = removeLuraphPadding bytes ++ removed /\ (List.length removed <= 16)%nat.
Proof.
  unfold removeLuraphPadding.
  destruct (last (map Some bytes) None) as [p|] eqn:Hlast;
    [|exists []; rewrite app_nil_r; split; [reflexivity|cbn; lia]].
  destruct ((0 <? p) && (p <=? 16)) eqn:Hp;
    [|exists []; rewrite app_nil_r; split; [reflexivity|cbn; lia]].
  apply andb_true_iff in Hp. destruct Hp as [Hp1 Hp2].
  apply Z.ltb_lt in Hp1. apply Z.leb_le in Hp2.
  unfold slice_to.
  match goal with |- context [firstn ?n bytes] => set (kept := n) end.
  exists (skipn kept bytes). split; [symmetry; apply firstn_skipn|].
  rewrite length_skipn. subst kept.
  destruct (Z.of_nat (List.length bytes) - p <? 0) eqn:Hneg.
  - apply Z.ltb_lt in Hneg. lia.
  - apply Z.ltb_ge in Hneg. lia.
Qed.

(** X4.  The two AES algorithms read their text as pairs of hexadecimal
    digits and never fail on it.  For a text of [n] characters, hex or
    not, [aes_cbc] returns [n / 2] characters (rounded down), all below
    256; [aes_cbc_v2] returns the same number less the at most 16
    characters that it takes for padding. *)
Theorem aes_output_length (encrypted key : jsstring) (iv : option jsstring) :
  let n := Nat.div (List.length encrypted) 2 in
  (List.length (decrypted (aesDecrypt encrypted key iv)) = n /\
   Forall (fun x => 0 <= x < 256) (decrypted (aesDecrypt encrypted key iv))) /\
  (n - 16 <= List.length (decrypted (aesDecryptV2 encrypted key iv)) <= n)%nat.
Proof.
  cbv zeta. split.
  - cbn [aesDecrypt decrypted]. unfold bytesToString.
    match goal with |- context [simpleAESDecrypt ?e ?k ?v] =>
      destruct (simpleAESDecrypt_spec e k v) as [Hl Hb] end.
    split; [|exact Hb].
    rewrite Hl. unfold hexToBytes. apply hexToBytes_loop_length.
  - cbn [aesDecryptV2 decrypted]. unfold bytesToString, luraphAESDecrypt.
    match goal with |- context [simpleAESDecrypt ?e ?k ?v] =>
      destruct (simpleAESDecrypt_spec e k v) as [Hl _];
      destruct (removeLuraphPadding_spec (simpleAESDecrypt e k v))
        as (removed & Heq & Hrem)
    end.
    apply (f_equal (@List.length Z)) in Heq.
    rewrite length_app, Hl in Heq.
    assert (Hhex : List.length (hexToBytes encrypted) = Nat.div (List.length encrypted) 2)
      by apply hexToBytes_loop_length.
    lia.
Qed.

Lemma modifyKey_firstn n : forall key i,
  firstn n (modifyKey_from i key) = modifyKey_from i (firstn n key).
Proof.
  induction n as [|n IH]; intros key i; [reflexivity|].
  destruct key as [|k rest]; [reflexivity|].
  cbn [modifyKey_from firstn]. rewrite IH. reflexivity.
Qed.

Lemma generateIV_firstn key : generateIV (firstn 16 key) = generateIV key.
Proof.
  unfold generateIV. apply map_ext_in. intros i Hi. apply in_seq in Hi.
  f_equal. f_equal. f_equal.
  destruct (Nat.le_gt_cases (List.length key) 16) as [Hle|Hgt].
  - rewrite firstn_all2 by exact Hle. reflexivity.
  - rewrite length_firstn. replace (Init.Nat.min 16 (List.length key)) with 16%nat by lia.
    unfold mod_index.
    destruct (Nat.eqb_spec (List.length key) 0) as [E|E]; [lia|].
    cbn [Nat.eqb charCodeAt].
    rewrite (Nat.mod_small i 16) by lia.
    rewrite (Nat.mod_small i (List.length key)) by lia.
    rewrite nth_error_firstn.
    destruct (Nat.ltb_spec i 16); [reflexivity|lia].
Qed.

(** X5.  The AES algorithms use no more than the first sixteen
    characters of the key: cutting the key down to them changes the
    result of neither [aes_cbc] nor [aes_cbc_v2], the initialisation
    vector that [aes_cbc_v2] derives from the key included. *)
Theorem aes_key_is_truncated (encrypted key : jsstring) (iv : option jsstring) :
  aesDecrypt encrypted (firstn 16 key) iv = aesDecrypt encrypted key iv /\
  aesDecryptV2 encrypted (firstn 16 key) iv = aesDecryptV2 encrypted key iv.
Proof.
  split.
  - unfold aesDecrypt, simpleAESDecrypt, stringToBytes.
    rewrite <- !firstn_map, firstn_firstn. reflexivity.
  - unfold aesDecryptV2, luraphAESDecrypt, simpleAESDecrypt, stringToBytes,
      modifyKeyForLuraph.
    rewrite generateIV_firstn.
    rewrite !modifyKey_firstn, <- !firstn_map, firstn_firstn. reflexivity.
Qed.

End DecryptorBehaviour.

(* ================================================================== *)
(** * Properties of the detection of method and key                    *)
(* ================================================================== *)

Section DetectionFacts.
Import Lexer Parser Decryptor Detection DetectionSpec.

Lemma leading_le p s : (leading p s <= List.length s)%nat.
Proof.
  induction s as [|c s IH]; cbn [leading List.length]; [lia|].
  destruct (p c); lia.
Qed.

Lemma leading_all p s : forallb p (firstn (leading p s) s) = true.
Proof.
  induction s as [|c s IH]; cbn [leading]; [reflexivity|].
  destruct (p c) eqn:E; [|reflexivity].
  cbn [firstn forallb]. rewrite E, IH. reflexivity.
Qed.

Lemma leading_tail p s : (leading p (tl s) + 1 >= leading p s)%nat.
Proof.
  destruct s as [|c s]; cbn [leading tl]; [lia|].
  destruct (p c); lia.
Qed.

Lemma somewhere_exists (p : jsstring -> bool) s :
  somewhere p s = true <-> exists before rest, s = before ++ rest /\ p rest = true.
Proof.
  induction s as [|c s IH]; cbn [somewhere].
  - rewrite orb_false_r. split.
    + intros H. exists [], []. split; [reflexivity|exact H].
    + intros (before & rest & E & H).
      symmetry in E. apply app_eq_nil in E. destruct E as [_ ->]. exact H.
  - rewrite orb_true_iff, IH. split.
    + intros [H|(before & rest & -> & H)].
      * exists [], (c :: s). split; [reflexivity|exact H].
      * exists (c :: before), rest. split; [reflexivity|exact H].
    + intros (before & rest & E & H). destruct before as [|b before].
      * left. cbn [app] in E. subst rest. exact H.
      * right. cbn [app] in E. injection E as -> ->.
        exists before, rest. split; [reflexivity|exact H].
Qed.

Lemma run_at_shorter p n m s :
  (m <= n)%nat -> run_at p n s = true -> run_at p m s = true.
Proof.
  unfold run_at. intros Hle H. apply Nat.leb_le in H. apply Nat.leb_le. lia.
Qed.

Lemma first_match_at pattern code group :
  first_match pattern code = Some group ->
  exists before rest, code = before ++ rest /\ pattern rest = Some group.
Proof.
  induction code as [|c code IH]; cbn [first_match].
  - destruct (pattern []) eqn:E; [|discriminate].
    intros H. injection H as <-. exists [], []. split; [reflexivity|exact E].
  - destruct (pattern (c :: code)) eqn:E.
    + intros H. injection H as <-. exists [], (c :: code). split; [reflexivity|exact E].
    + intros H. destruct (IH H) as (before & rest & -> & Hr).
      exists (c :: before), rest. split; [reflexivity|exact Hr].
Qed.

(** The group of a quoted run stands between two quotes. *)
Lemma quoted_run_spec p lo hi s group :
  quoted_run p lo hi s = Some group ->
  exists q q' after,
    s = q :: group ++ q' :: after /\ is_quote q = true /\ is_quote q' = true /\
    (lo <= List.length group)%nat /\ forallb p group = true.
Proof.
  unfold quoted_run. destruct s as [|q rest]; [discriminate|].
  destruct (is_quote q) eqn:Hq; [|discriminate].
  destruct (nth_error rest (leading p rest)) as [q'|] eqn:Hnth;
    [|rewrite andb_false_r; discriminate].
  destruct ((lo <=? leading p rest)%nat &&
            match hi with Some h => (leading p rest <=? h)%nat | None => true end &&
            is_quote q') eqn:Hc; [|discriminate].
  intros H. injection H as <-.
  apply andb_true_iff in Hc. destruct Hc as [Hc Hq'].
  apply andb_true_iff in Hc. destruct Hc as [Hlo _]. apply Nat.leb_le in Hlo.
  pose proof (leading_all p rest) as Hall.
  apply nth_error_split in Hnth. destruct Hnth as (l1 & l2 & Hrest & Hlen).
  assert (Hfirst : firstn (leading p rest) rest = l1).
  { rewrite <- Hlen. rewrite Hrest.
    rewrite firstn_app, Nat.sub_diag, firstn_all. cbn [firstn]. apply app_nil_r. }
  rewrite Hfirst in *.
  exists q, q', l2.
  split; [rewrite Hrest at 1; reflexivity|].
  split; [exact Hq|]. split; [exact Hq'|]. split; [lia|exact Hall].
Qed.

Lemma hex_digit_is_no_quote c : is_hex_digit c = true -> is_quote c = false.
Proof.
  unfold is_hex_digit, is_digit, in_range, is_quote, SQUOTE, DQUOTE. intros H.
  destruct (Z.eqb_spec c 39) as [->|_]; [discriminate|].
  destruct (Z.eqb_spec c 34) as [->|_]; [discriminate|]. reflexivity.
Qed.

Lemma base64_like_is_no_quote c : is_base64_like c = true -> is_quote c = false.
Proof.
  unfold is_base64_like, is_alnum, is_alpha, is_digit, in_range, is_quote,
    SQUOTE, DQUOTE. intros H.
  destruct (Z.eqb_spec c 39) as [->|_]; [discriminate|].
  destruct (Z.eqb_spec c 34) as [->|_]; [discriminate|]. reflexivity.
Qed.

Lemma forallb_weaken (p q : Z -> bool) l :
  (forall c, p c = true -> q c = true) -> forallb p l = true -> forallb q l = true.
Proof.
  intros Hpq. rewrite !forallb_forall. intros H x Hx. apply Hpq, H, Hx.
Qed.

Lemma quoted_run_between p lo hi s group :
  (forall c, p c = true -> is_quote c = false) -> (16 <= lo)%nat ->
  quoted_run p lo hi s = Some group -> between_quotes s group.
Proof.
  intros Hp Hlo H.
  destruct (quoted_run_spec _ _ _ _ _ H) as (q & q' & after & -> & Hq & Hq' & Hlen & Hall).
  exists [], q, q', after.
  split; [reflexivity|]. split; [exact Hq|]. split; [exact Hq'|].
  split; [lia|].
  apply (forallb_weaken p); [|exact Hall].
  intros c Hc. rewrite (Hp c Hc). reflexivity.
Qed.

Lemma between_quotes_later before s group :
  between_quotes s group -> between_quotes (before ++ s) group.
Proof.
  intros (b & q & q' & after & -> & H).
  exists (before ++ b), q, q', after. rewrite <- app_assoc. split; [reflexivity|exact H].
Qed.

Lemma skipn_later n (s : jsstring) group :
  between_quotes (skipn n s) group -> between_quotes s group.
Proof.
  intros H. rewrite <- (firstn_skipn n s). apply between_quotes_later, H.
Qed.

Lemma assignment_at_between s group :
  assignment_at s = Some group -> between_quotes s group.
Proof.
  unfold assignment_at.
  destruct (startsWith (str "local") s); [|discriminate].
  destruct (1 <=? leading is_space (skipn 5 s))%nat; [|discriminate].
  set (s1 := skipn (leading is_space (skipn 5 s)) (skipn 5 s)).
  destruct (1 <=? leading is_word s1)%nat; [|discriminate].
  set (s2 := skipn (leading is_word s1) s1).
  set (s3 := skipn (leading is_space s2) s2).
  destruct s3 as [|e s4] eqn:E3; [discriminate|].
  destruct (e =? ch "="); [|discriminate].
  intros H.
  apply quoted_run_between in H; [|intros c Hc; apply negb_true_iff, Hc|lia].
  apply (skipn_later 5). apply (skipn_later (leading is_space (skipn 5 s))).
  fold s1. apply (skipn_later (leading is_word s1)). fold s2.
  apply (skipn_later (leading is_space s2)). fold s3. rewrite E3.
  apply (between_quotes_later [e]).
  apply (skipn_later (leading is_space s4)). exact H.
Qed.

Lemma keyPatterns_between :
  Forall (fun pattern => forall s group, pattern s = Some group -> between_quotes s group)
         keyPatterns.
Proof.
  repeat constructor.
  - intros s group. apply quoted_run_between; [apply hex_digit_is_no_quote|lia].
  - intros s group. apply quoted_run_between; [apply base64_like_is_no_quote|lia].
  - apply assignment_at_between.
Qed.

Lemma extractKey_loop_spec patterns code :
  Forall (fun pattern => forall s group, pattern s = Some group -> between_quotes s group)
         patterns ->
  extractKey_loop patterns code = str "default_key" \/
  between_quotes code (extractKey_loop patterns code).
Proof.
  induction 1 as [|pattern rest Hp _ IH]; cbn [extractKey_loop]; [left; reflexivity|].
  destruct (first_match pattern code) as [[|c group]|] eqn:E; try exact IH.
  right. apply first_match_at in E. destruct E as (before & s & -> & Hs).
  apply between_quotes_later, (Hp _ _ Hs).
Qed.

(** X6.  The key that [extractKeyFromCode] returns is the fallback
    [default_key], or it is a piece of the code that stands between two
    quote characters (which need not be the same), has at least sixteen
    characters and contains no quote; the method it is asked for plays
    no part. *)
Theorem extracted_key_is_quoted (code method : jsstring) :
  extractKeyFromCode code method = str "default_key" \/
  between_quotes code (extractKeyFromCode code method).
Proof.
  unfold extractKeyFromCode.
  apply (extractKey_loop_spec keyPatterns code keyPatterns_between).
Qed.

Lemma detected pattern code :
  In (pattern_method pattern)
     (map info_method
          (if somewhere (regex pattern) code
           then [mkInfo (pattern_method pattern)
                        (extractKeyFromCode code (pattern_method pattern)) None
                        (pattern_method pattern) (pattern_version pattern)]
           else []))
  <-> somewhere (regex pattern) code = true.
Proof.
  destruct (somewhere (regex pattern) code); cbn; [tauto|].
  split; [intros []|discriminate].
Qed.

(** X7.  [detectEncryptionMethod] proposes methods among [aes_cbc],
    [xor_v2] and [luraph_custom] only, each at most once and in this
    order; whenever it proposes [aes_cbc] it proposes [xor_v2] as well,
    since a run of 32 hexadecimal digits contains one of 16; and every
    proposal carries the same key, which is not empty. *)
Theorem detected_methods (code : jsstring) :
  let found := detectEncryptionMethod code in
  (exists aes xor custom : bool,
      map info_method found
      = (if aes then [str "aes_cbc"] else []) ++
        (if xor then [str "xor_v2"] else []) ++
        (if custom then [str "luraph_custom"] else []) /\
      (aes = true -> xor = true)) /\
  (exists key, key <> [] /\ Forall (fun info => info_key info = key) found).
Proof.
  cbv zeta. unfold detectEncryptionMethod, patterns. cbn [flat_map regex pattern_method
    pattern_version]. rewrite app_nil_r.
  split.
  - exists (somewhere (run_at is_hex_digit 32) code),
           (somewhere (run_at is_hex_digit 16) code),
           (somewhere (run_at outside_printable 10) code).
    split.
    + destruct (somewhere (run_at is_hex_digit 32) code),
        (somewhere (run_at is_hex_digit 16) code),
        (somewhere (run_at outside_printable 10) code); reflexivity.
    + intros H. apply somewhere_exists in H. destruct H as (before & rest & E & H).
      apply somewhere_exists. exists before, rest. split; [exact E|].
      apply (run_at_shorter _ 32); [lia|exact H].
  - exists (extractKeyFromCode code []). split.
    + unfold extractKeyFromCode.
      destruct (extractKey_loop_spec keyPatterns code keyPatterns_between) as [E|E].
      * rewrite E. discriminate.
      * destruct E as (before & q & q' & after & _ & _ & _ & Hlen & _).
        intros E. rewrite E in Hlen. cbn in Hlen. lia.
    + destruct (somewhere (run_at is_hex_digit 32) code),
        (somewhere (run_at is_hex_digit 16) code),
        (somewhere (run_at outside_printable 10) code);
        repeat constructor.
Qed.

End DetectionFacts.

(* ================================================================== *)
(** * Further properties of the emitter                                *)
(* ================================================================== *)

Section Doubles.

(** Up to [2^53] an integer is a double, and sums that stay there are
    exact. *)

(** The three fields of the 64 bits. *)
Lemma f64_fields s e f :
  0 <= s <= 1 -> 0 <= e < 2 ^ 11 -> 0 <= f < 2 ^ 52 ->
  let n := F64 (s * 2 ^ 63 + e * 2 ^ 52 + f) in
  f64_sign n = s /\ f64_expo n = e /\ f64_frac n = f.
Proof.
  intros Hs He Hf. cbv zeta. unfold f64_sign, f64_expo, f64_frac. cbn [f64_bits].
  change (2 ^ 63) with 9223372036854775808 in *.
  change (2 ^ 52) with 4503599627370496 in *.
  change (2 ^ 11) with 2048 in *.
  repeat split; Z.div_mod_to_equations; lia.
Qed.

Lemma to_double_exact z : - 2 ^ 53 <= z <= 2 ^ 53 -> to_double z = z.
Proof.
  intros Hz.
  destruct (Z.eq_dec z 0) as [->|Hnz]; [reflexivity|].
  destruct (Z.eq_dec z (2 ^ 53)) as [->|Hhi]; [vm_compute; reflexivity|].
  destruct (Z.eq_dec z (- 2 ^ 53)) as [->|Hlo]; [vm_compute; reflexivity|].
  unfold to_double, number_of_Z.
  replace (z =? 0) with false by (symmetry; apply Z.eqb_neq; exact Hnz).
  set (n := Z.abs z). set (k := Z.log2 n). cbv zeta.
  assert (Hn : 0 < n < 2 ^ 53) by (unfold n; lia).
  destruct (Z.log2_spec n ltac:(lia)) as [Hk1 Hk2]. fold k in Hk1, Hk2.
  assert (Hk0 : 0 <= k) by apply Z.log2_nonneg.
  assert (Hk : k <= 52).
  { destruct (Z_le_gt_dec k 52) as [H|H]; [exact H|]. exfalso.
    assert (2 ^ 53 <= 2 ^ k) by (apply Z.pow_le_mono_r; lia). lia. }
  replace (k <=? 52) with true by (symmetry; apply Z.leb_le; exact Hk).
  set (P := 2 ^ (52 - k)).
  assert (HP : 2 ^ k * P = 2 ^ 52).
  { unfold P. rewrite <- Z.pow_add_r by lia. f_equal. lia. }
  assert (HP0 : 0 < P) by (apply Z.pow_pos_nonneg; lia).
  assert (Hk2' : n < 2 * 2 ^ k).
  { replace (Z.succ k) with (k + 1) in Hk2 by lia.
    rewrite Z.pow_add_r in Hk2 by lia. lia. }
  assert (Hf : 0 <= n * P - 2 ^ 52 < 2 ^ 52) by nia.
  set (s := if z <? 0 then 1 else 0).
  replace (if z <? 0 then 2 ^ 63 else 0) with (s * 2 ^ 63)
    by (unfold s; destruct (z <? 0); lia).
  destruct (f64_fields s (k + 1023) (n * P - 2 ^ 52)) as (Hsign & Hexpo & Hfrac);
    [unfold s; destruct (z <? 0); lia|change (2 ^ 11) with 2048; lia|exact Hf|].
  unfold f64_finite, BigInt_of, f64_exponent, f64_mantissa.
  rewrite Hsign, Hexpo, Hfrac.
  replace (k + 1023 <? 2047) with true by (symmetry; apply Z.ltb_lt; lia).
  replace (k + 1023 =? 0) with false by (symmetry; apply Z.eqb_neq; lia).
  replace (n * P - 2 ^ 52 + 2 ^ 52) with (n * P) by lia.
  replace (k + 1023 - 1075) with (k - 52) by lia.
  assert (Hvalue : (if 0 <=? k - 52 then n * P * 2 ^ (k - 52)
                    else n * P / 2 ^ (- (k - 52))) = n).
  { destruct (Z.leb_spec 0 (k - 52)) as [H|H].
    - assert (k = 52) by lia. unfold P. subst k.
      replace (52 - Z.log2 n) with 0 by lia.
      replace (Z.log2 n - 52) with 0 by lia. change (2 ^ 0) with 1. lia.
    - replace (- (k - 52)) with (52 - k) by lia. fold P.
      apply Z.div_mul. lia. }
  rewrite Hvalue. unfold s, n.
  destruct (Z.ltb_spec z 0);
    [change (1 =? 1) with true|change (0 =? 1) with false]; cbv iota; lia.
Qed.

Lemma double_sum_exact x y : - 2 ^ 53 <= x + y <= 2 ^ 53 -> double_sum x y = x + y.
Proof. apply to_double_exact. Qed.

End Doubles.

Section Words.

Lemma toInt32_mod z k :
  0 <= k <= 32 -> toInt32 z mod 2 ^ k = z mod 2 ^ k.
Proof.
  intros Hk. unfold toInt32.
  assert (E : 2 ^ 32 = 2 ^ k * 2 ^ (32 - k)).
  { rewrite <- Z.pow_add_r by lia. f_equal. lia. }
  assert (Hpos : 0 < 2 ^ k) by (apply Z.pow_pos_nonneg; lia).
  rewrite (Z.mod_eq (z + 2 ^ 31) (2 ^ 32)) by (apply Z.pow_nonzero; lia).
  set (q := (z + 2 ^ 31) / 2 ^ 32).
  replace (z + 2 ^ 31 - 2 ^ 32 * q - 2 ^ 31) with (z + (- (2 ^ (32 - k) * q)) * 2 ^ k)
    by (rewrite E; ring).
  apply Z_mod_plus_full.
Qed.

Lemma toUint32_toInt32 z : toUint32 (toInt32 z) = toUint32 z.
Proof. unfold toUint32. apply (toInt32_mod z 32). lia. Qed.

Lemma toInt32_small z : - 2 ^ 31 <= z < 2 ^ 31 -> toInt32 z = z.
Proof. intros H. unfold toInt32. rewrite Z.mod_small; lia. Qed.

Lemma toUint32_or x y : toUint32 (js_or x y) = Z.lor (toUint32 x) (toUint32 y).
Proof.
  unfold js_or, toUint32.
  rewrite <- !Z.land_ones by lia.
  rewrite Z.land_lor_distr_l, !Z.land_ones by lia.
  rewrite !(toInt32_mod _ 32) by lia. reflexivity.
Qed.

(** [x & mask] for a mask of [k] low bits. *)
Lemma js_and_ones x k :
  0 <= k < 32 -> js_and x (Z.ones k) = x mod 2 ^ k.
Proof.
  intros Hk. unfold js_and.
  assert (Hones : 0 <= Z.ones k < 2 ^ 31).
  { rewrite Z.ones_equiv.
    assert (0 < 2 ^ k) by (apply Z.pow_pos_nonneg; lia).
    assert (2 ^ k <= 2 ^ 31) by (apply Z.pow_le_mono_r; lia). lia. }
  rewrite (toInt32_small (Z.ones k)) by lia.
  rewrite Z.land_ones by lia. apply toInt32_mod. lia.
Qed.

(** [v << n] for a field [v] that fits the word. *)
Lemma toUint32_shl v n :
  0 <= n < 32 -> 0 <= v -> v * 2 ^ n < 2 ^ 32 -> v < 2 ^ 31 ->
  toUint32 (js_shl v n) = v * 2 ^ n.
Proof.
  intros Hn Hv Hfit Hsmall. unfold js_shl.
  rewrite toUint32_toInt32, (toInt32_small v) by lia.
  rewrite (Z.mod_small n 32) by lia.
  rewrite Z.shiftl_mul_pow2 by lia.
  unfold toUint32. apply Z.mod_small.
  assert (0 <= 2 ^ n) by (apply Z.pow_nonneg; lia). nia.
Qed.

(** Fields that do not overlap add up. *)
Lemma lor_fields x y k :
  0 <= k -> 0 <= x < 2 ^ k -> Z.lor x (y * 2 ^ k) = x + y * 2 ^ k.
Proof.
  intros Hk Hx.
  assert (Hland : Z.land x (y * 2 ^ k) = 0).
  { apply Z.bits_inj'. intros n Hn. rewrite Z.land_spec, Z.bits_0.
    destruct (Z.lt_ge_cases n k) as [Hlt|Hge].
    - rewrite Z.mul_pow2_bits_low by lia. apply andb_false_r.
    - rewrite <- (Z.mod_small x (2 ^ k)) by lia.
      rewrite Z.mod_pow2_bits_high by lia. reflexivity. }
  pose proof (Z.add_lor_land x (y * 2 ^ k)) as H. rewrite Hland in H. lia.
Qed.

Lemma little_endian_mod n : forall v,
  Emitter.little_endian n (v mod 256 ^ Z.of_nat n) = Emitter.little_endian n v.
Proof.
  induction n as [|n IH]; intros v; [reflexivity|].
  cbn [Emitter.little_endian].
  replace (256 ^ Z.of_nat (S n)) with (256 * 256 ^ Z.of_nat n)
    by (rewrite Nat2Z.inj_succ, Z.pow_succ_r by lia; reflexivity).
  assert (Hpos : 0 < 256 ^ Z.of_nat n) by (apply Z.pow_pos_nonneg; lia).
  f_equal.
  - rewrite Z.rem_mul_r by lia.
    rewrite (Z.mul_comm 256 ((v / 256) mod _)), Z_mod_plus_full.
    apply Z.mod_mod. lia.
  - transitivity (Emitter.little_endian n ((v / 256) mod 256 ^ Z.of_nat n));
      [f_equal|apply IH].
    rewrite Z.rem_mul_r by lia.
    rewrite (Z.mul_comm 256 ((v / 256) mod _)), Z.div_add by lia.
    rewrite (Z.div_small (v mod 256) 256) by (apply Z.mod_pos_bound; lia).
    reflexivity.
Qed.

Lemma little_endian_word v :
  Emitter.little_endian 4 v = Emitter.little_endian 4 (toUint32 v).
Proof. symmetry. apply (little_endian_mod 4 v). Qed.

End Words.

Section Encoding.
Import VMInstructions Emitter.

Lemma opcode_number_range op : 0 <= opcode_number op < 47.
Proof. destruct op; cbn; lia. Qed.

(** The opcode and the register A, as every format has them. *)
Lemma encoded_head op a :
  toUint32 (js_or (js_or 0 (js_and (opcode_number op) 0x3F))
                  (js_shl (js_and a 0xFF) 6))
  = opcode_number op + a mod 256 * 2 ^ 6 /\
  0 <= opcode_number op + a mod 256 * 2 ^ 6 < 2 ^ 14.
Proof.
  pose proof (opcode_number_range op) as Hop.
  pose proof (Z.mod_pos_bound a 256 ltac:(lia)) as Ha.
  split; [|lia].
  rewrite !toUint32_or.
  change 0x3F with (Z.ones 6). change 0xFF with (Z.ones 8).
  rewrite !js_and_ones by lia.
  change (2 ^ 6) with 64. change (2 ^ 8) with 256.
  rewrite (Z.mod_small (opcode_number op) 64) by lia.
  rewrite toUint32_shl by lia.
  unfold toUint32. rewrite (Z.mod_small 0), Z.lor_0_l by lia.
  rewrite (Z.mod_small (opcode_number op)) by lia.
  apply lor_fields; lia.
Qed.

(** X8.  The word that the emitter stores for an instruction.  Without
    extended operands it holds the opcode in bits 0 to 5, A in bits 6
    to 13, C in bits 14 to 22 and B in bits 23 to 31; with [bx], bits
    14 to 31 hold that operand instead, and with [sbx] they hold the
    sum of [sbx] and the bias 131071 as numbers add up, which is the
    sum of the integers as long as it does not pass [2^53].  An operand
    that does not fit its field is cut down to the low bits of the
    field, and the four bytes are written least significant first. *)
Theorem encodeInstruction_layout (op : LuaOpcode) (a b c : Z) (ax line : option Z) :
  let stored i := little_endian 4 (encodeInstruction i) in
  let head := opcode_number op + a mod 256 * 2 ^ 6 in
  stored (mkInstruction op a b c None None None line)
  = little_endian 4 (head + c mod 512 * 2 ^ 14 + b mod 512 * 2 ^ 23) /\
  (forall bx sbx,
      stored (mkInstruction op a b c (Some bx) sbx ax line)
      = little_endian 4 (head + bx mod 2 ^ 18 * 2 ^ 14)) /\
  (forall sbx,
      stored (mkInstruction op a b c None (Some sbx) ax line)
      = little_endian 4 (head + double_sum sbx 131071 mod 2 ^ 18 * 2 ^ 14)) /\
  (forall sbx,
      - 2 ^ 53 <= sbx + 131071 <= 2 ^ 53 ->
      stored (mkInstruction op a b c None (Some sbx) ax line)
      = little_endian 4 (head + (sbx + 131071) mod 2 ^ 18 * 2 ^ 14)).
Proof.
  cbv zeta.
  cbn [encodeInstruction opcode VMInstructions.a VMInstructions.b VMInstructions.c
       bx sbx VMInstructions.ax].
  destruct (encoded_head op a) as [Hhead Hrange].
  set (h := js_or (js_or 0 (js_and (opcode_number op) 0x3F))
                  (js_shl (js_and a 0xFF) 6)) in *.
  pose proof (Z.mod_pos_bound b 512 ltac:(lia)) as Hb.
  pose proof (Z.mod_pos_bound c 512 ltac:(lia)) as Hc.
  assert (Hwide : forall x,
             toUint32 (js_or h (js_shl (js_and x 0x3FFFF) 14))
             = opcode_number op + a mod 256 * 2 ^ 6 + x mod 2 ^ 18 * 2 ^ 14).
  { intros x. pose proof (Z.mod_pos_bound x (2 ^ 18) ltac:(lia)) as Hx.
    rewrite toUint32_or, Hhead.
    change 0x3FFFF with (Z.ones 18). rewrite js_and_ones by lia.
    rewrite toUint32_shl by lia.
    apply lor_fields; lia. }
  split; [|split; [|split]].
  - rewrite little_endian_word. f_equal.
    rewrite !toUint32_or, Hhead.
    change 0x1FF with (Z.ones 9). rewrite !js_and_ones by lia.
    change (2 ^ 9) with 512.
    rewrite !toUint32_shl by lia.
    rewrite <- Z.lor_assoc, (Z.lor_comm (b mod 512 * 2 ^ 23)), Z.lor_assoc.
    rewrite (lor_fields _ (c mod 512) 14) by lia.
    apply lor_fields; lia.
  - intros bx0 sbx0. rewrite little_endian_word. f_equal. apply Hwide.
  - intros sbx0. rewrite little_endian_word. f_equal. apply Hwide.
  - intros sbx0 Hsum. rewrite little_endian_word. f_equal.
    rewrite Hwide, (double_sum_exact _ _ Hsum). reflexivity.
Qed.

End Encoding.

Section Validation.
Import Emitter.

(** X9.  [validateLuac] reads five bytes of the buffer behind the array
    and nothing else: it accepts exactly when that buffer begins with
    61 75 4C 1B 53, the signature as [writeHeader] stores it and the
    version, wherever in the buffer the array starts and whatever its
    length is, so that a subarray is judged like the array it is taken
    from.  It answers [false] when the buffer has fewer than five
    bytes, and also when it begins with 1B 4C 75 61, the signature in
    the order in which a Lua 5.3 chunk has it. *)
Theorem validateLuac_reads_five_bytes (bytecode : Uint8Array) :
  Forall (fun x => 0 <= x < 256) (buffer bytecode) ->
  (validateLuac bytecode = true <->
   firstn 5 (buffer bytecode) = [0x61; 0x75; 0x4C; 0x1B; 0x53]) /\
  (forall start, validateLuac (subarray bytecode start) = validateLuac bytecode).
Proof.
  intros Hbytes. split; [|reflexivity].
  unfold validateLuac, getUint32_at0, getUint8_at, LUA_SIGNATURE, LUAC_VERSION.
  cbv zeta.
  destruct (buffer bytecode) as [|b0 [|b1 [|b2 [|b3 [|b4 rest]]]]];
    cbn [firstn nth_error];
    try (split; [intros H; try discriminate H|intros H; discriminate H]).
  - destruct (negb _); discriminate H.
  - repeat match goal with
           | H : Forall _ (_ :: _) |- _ => inversion H; subst; clear H
           end.
    destruct (Z.eqb_spec (b0 + 256 * (b1 + 256 * (b2 + 256 * b3))) 0x1B4C7561)
      as [Hsig|Hsig]; cbn [negb].
    + destruct (Z.eqb_spec b4 0x53) as [->|Hv]; cbn [negb].
      * split; [intros _|reflexivity].
        assert (b0 = 0x61 /\ b1 = 0x75 /\ b2 = 0x4C /\ b3 = 0x1B) by lia.
        repeat f_equal; lia.
      * split; [discriminate|]. intros H. injection H as _ _ _ _ H. contradiction.
    + split; [discriminate|]. intros H. injection H as -> -> -> -> _.
      exfalso. apply Hsig. reflexivity.
Qed.

End Validation.

Lemma encodeInstruction_layout_witness :
  Emitter.little_endian 4
    (Emitter.encodeInstruction
       (VMInstructions.mkInstruction VMInstructions.JMP 0 0 0 None (Some (-1)) None None))
  = Emitter.little_endian 4
      (VMInstructions.opcode_number VMInstructions.JMP + 0 mod 256 * 2 ^ 6
       + (-1 + 131071) mod 2 ^ 18 * 2 ^ 14).
Proof.
  apply (proj2 (proj2 (proj2
           (encodeInstruction_layout VMInstructions.JMP 0 0 0 None None)))).
  lia.
Defined.

(** The array of the five bytes behind two others, taken from an array
    of seven: its own bytes are the signature and the version, and it
    is refused, as the buffer begins with the two others. *)
Lemma validateLuac_reads_five_bytes_witness :
  Emitter.elements
    (Emitter.subarray (Emitter.new_Uint8Array [0; 0; 0x61; 0x75; 0x4C; 0x1B; 0x53]) 2)
  = [0x61; 0x75; 0x4C; 0x1B; 0x53] /\
  (Emitter.validateLuac
     (Emitter.subarray (Emitter.new_Uint8Array [0; 0; 0x61; 0x75; 0x4C; 0x1B; 0x53]) 2)
   = true <->
   firstn 5
     (Emitter.buffer
        (Emitter.subarray (Emitter.new_Uint8Array [0; 0; 0x61; 0x75; 0x4C; 0x1B; 0x53]) 2))
   = [0x61; 0x75; 0x4C; 0x1B; 0x53]).
Proof.
  split; [reflexivity|].
  apply (validateLuac_reads_five_bytes
           (Emitter.subarray
              (Emitter.new_Uint8Array [0; 0; 0x61; 0x75; 0x4C; 0x1B; 0x53]) 2)).
  repeat constructor; lia.
Defined.

Section Capacity.
Import VMInstructions Emitter LuacHeader.

Variable Number_toString : JSNumber -> jsstring.
Variable String_toNumber : jsstring -> JSNumber.

Ltac next_step H :=
  match type of H with
  | match set_bytes ?d ?o ?b with _ => _ end = Some _ =>
      let E := fresh "E" in
      destruct (set_bytes d o b) eqn:E; [|discriminate H];
      apply (set_bytes_frame 0) in E; [destruct E as [? ?]|lia]
  | match ?w with _ => _ end = Some _ =>
      let E := fresh "E" in
      let newView := fresh "dataView" in
      let newOffset := fresh "offset" in
      destruct w as [[newView newOffset]|] eqn:E; [|discriminate H]
  end.

(** A loop that writes one 32-bit word for each item. *)
Lemma write_words {A} (word : A -> Z) items : forall dataView offset dataView' offset',
  write_each (fun dataView offset item =>
                dataView <- setUint32 dataView offset (word item) ;;
                Some (dataView, offset + 4))
             dataView offset items = Some (dataView', offset') ->
  offset' = offset + 4 * Z.of_nat (List.length items) /\
  List.length dataView' = List.length dataView /\
  (items <> [] -> offset' <= Z.of_nat (List.length dataView)).
Proof.
  induction items as [|x rest IH]; intros dataView offset dataView' offset' H.
  - cbn [write_each] in H. injection H as <- <-.
    split; [cbn [List.length]; lia|]. split; [reflexivity|]. intros E. contradiction.
  - cbn [write_each] in H. unfold setUint32, set_bytes in H.
    destruct ((0 <=? offset) &&
              (offset + Z.of_nat (List.length (little_endian 4 (word x)))
               <=? Z.of_nat (List.length dataView))) eqn:Hfit; [|discriminate].
    apply andb_true_iff in Hfit. destruct Hfit as [H0 Hfit].
    apply Z.leb_le in H0, Hfit. cbn [little_endian List.length] in Hfit.
    apply IH in H. destruct H as (Hoff & Hlen & Hbound).
    destruct (store_bytes_frame 0 (little_endian 4 (word x)) (Z.to_nat offset) dataView)
      as [_ Hstore]; [lia|].
    rewrite Hstore in Hlen, Hbound.
    split; [cbn [List.length]; lia|]. split; [exact Hlen|].
    intros _. destruct rest as [|y rest].
    + cbn [List.length] in Hoff. lia.
    + apply Hbound. discriminate.
Qed.

(** X10.  The emitter writes into a buffer of 64 KB that it never
    enlarges: for a prototype with 16384 instructions or more the write
    of an instruction word falls outside the buffer, and [generateLuac]
    throws instead of returning an image. *)
Theorem generateLuac_overflows (proto : VMProto) :
  16384 <= Z.of_nat (List.length (instructions proto)) ->
  generateLuac Number_toString String_toNumber proto = None.
Proof.
  intros Hmany. rewrite generateLuac_unfold.
  destruct writeHeader_fresh as (dataView & Hh & _).
  unfold generateLuac_in. rewrite Hh.
  assert (Hstart : Z.of_nat 0 <= 0) by lia.
  pose proof (writeHeader_preserves 0 (ArrayBuffer (1024 * 64)) 0 (dataView, 33)
                                    Hstart Hh) as (_ & Hsize & _).
  cbn [fst snd] in Hsize.
  unfold ArrayBuffer in Hsize. rewrite repeat_length in Hsize.
  destruct (writeFunction Number_toString String_toNumber dataView 33 proto)
    as [[dataView' offset']|] eqn:H; [exfalso|reflexivity].
  destruct proto as [i cs u ps s ld lld np va ms].
  cbn [instructions] in Hmany.
  cbn [writeFunction source lineDefined lastLineDefined numParams
       isVararg maxStackSize instructions constants upvalues protos] in H.
  next_step H.
  assert (Es : frame 0 (dataView, 33) (dataView0, offset)).
  { destruct (truthy (VString s));
      apply (writeString_preserves 0) in E; (assumption || lia). }
  clear E. destruct Es as (_ & E2 & E3). cbn [fst snd] in *.
  unfold setUint8, setUint32 at 1 2 3 in H.
  do 6 (next_step H).
  next_step H.
  apply write_words in E. destruct E as (Hoff & _ & Hbound).
  assert (Hne : i <> []) by (destruct i; [cbn in Hmany; lia|discriminate]).
  specialize (Hbound Hne).
  lia.
Qed.

End Capacity.

Lemma generateLuac_overflows_witness :
  Emitter.generateLuac (fun _ => []) (fun _ => F64 0)
    (VMInstructions.mkProto
       (repeat (VMInstructions.mkInstruction VMInstructions.MOVE 0 0 0 None None None None)
               (Z.to_nat 16384))
       [] [] [] [] 0 0 0 false 2)
  = None.
Proof.
  apply (generateLuac_overflows (fun _ => []) (fun _ => F64 0)).
  cbn [VMInstructions.instructions]. rewrite repeat_length. lia.
Defined.

(* ================================================================== *)
(** * Further properties of the lexer                                  *)
(* ================================================================== *)

Section WhileInvariant.
Import Loops.
Context {St : Type}.
Variable cond : St -> bool.
Variable body : St -> option (Step St).
Variable P : St -> Prop.

Hypothesis body_keeps :
  forall s r, P s -> cond s = true -> body s = Some r -> P (step_state r).

(** What every round keeps holds when the loop is left. *)
Lemma while_preserves : forall n s s', P s -> while cond body n s = Some s' -> P s'.
Proof.
  induction n as [|n IH]; intros s s' Hs H; [discriminate|].
  cbn [while] in H. destruct (cond s) eqn:C.
  - destruct (body s) as [[s1|s1]|] eqn:B; [| |discriminate].
    + apply (IH s1 s'); [|exact H]. apply (body_keeps s _ Hs C B).
    + injection H as <-. apply (body_keeps s _ Hs C B).
  - injection H as <-. exact Hs.
Qed.
End WhileInvariant.

Section TokenFacts.
Import Loops Lexer LexerSpec TokenSpec.
Variable input : jsstring.

Local Abbreviation pos := cur_position.
Local Abbreviation len := (input_length input).

Local Abbreviation consistent := (TokenSpec.consistent input).
Local Abbreviation good := (TokenSpec.good input).
Local Abbreviation reads := (TokenSpec.reads input).
Local Abbreviation tokens_so_far := (TokenSpec.tokens_so_far input).

Lemma firstn_snoc (l : jsstring) p c :
  nth_error l p = Some c -> firstn (S p) l = firstn p l ++ [c].
Proof.
  revert l. induction p as [|p IH]; intros [|x l] H; try discriminate.
  - injection H as ->. reflexivity.
  - change (firstn (S (S p)) (x :: l)) with (x :: firstn (S p) l).
    rewrite (IH l H). reflexivity.
Qed.

Lemma count_occ_snoc (l : jsstring) c :
  count_occ Z.eq_dec (l ++ [c]) LF
  = (count_occ Z.eq_dec l LF + if Z.eqb c LF then 1 else 0)%nat.
Proof.
  rewrite count_occ_app. cbn [count_occ].
  destruct (Z.eq_dec c LF) as [->|Hne].
  - reflexivity.
  - destruct (Z.eqb_spec c LF); [contradiction|reflexivity].
Qed.

Lemma advance_step st c :
  nth_error input (pos st) = Some c -> consistent st ->
  consistent (if is_char (current_char input st) LF
              then mkLex (S (pos st)) (S (cur_line st)) 1
              else mkLex (S (pos st)) (cur_line st) (S (cur_column st))).
Proof.
  intros Hc [Hline Hcol]. unfold current_char, at_. rewrite Hc. cbn [is_char].
  unfold consistent, line_of, column_of in *.
  destruct (c =? LF) eqn:E; cbn [cur_position cur_line cur_column];
    rewrite (firstn_snoc _ _ _ Hc), count_occ_snoc, rev_app_distr, E;
    cbn [rev app Parser.leading negb]; rewrite ?E; cbn [negb]; split; lia.
Qed.

Lemma advance_good n : forall st, good st -> good (advance input n st).
Proof.
  induction n as [|n IH]; intros st [Hb Hc]; [split; assumption|].
  cbn [advance]. destruct (in_input input st) eqn:Hin; [|split; assumption].
  apply in_input_lt in Hin.
  destruct (nth_error input (pos st)) as [c|] eqn:E;
    [|apply nth_error_None in E; unfold input_length in Hin; lia].
  apply IH. split.
  - unfold LexerSpec.bounded in *.
    destruct (is_char (current_char input st) LF); cbn [cur_position]; lia.
  - apply (advance_step st c E Hc).
Qed.

Lemma advance_exact n : forall st,
  (pos st + n <= len)%nat -> pos (advance input n st) = (pos st + n)%nat.
Proof.
  induction n as [|n IH]; intros st Hn; cbn [advance]; [lia|].
  destruct (in_input input st) eqn:Hin.
  - rewrite IH; destruct (is_char (current_char input st) LF); cbn [cur_position]; lia.
  - apply Nat.ltb_ge in Hin. lia.
Qed.

(** The loops of the readers keep the lexer good. *)
Lemma scan_good (c : LexState -> bool) (b : LexState -> option (Step LexState)) n st st' :
  (forall s r, good s -> c s = true -> b s = Some r -> good (step_state r)) ->
  good st -> while c b n st = Some st' -> good st'.
Proof. intros Hb. apply while_preserves. exact Hb. Qed.

Ltac advancing :=
  let s := fresh "s" in
  let r := fresh "r" in
  let Hs := fresh "Hs" in
  let Hc := fresh "Hc" in
  let Hb := fresh "Hb" in
  intros s r Hs Hc Hb; cbv beta zeta in Hb;
  repeat match type of Hb with
         | (if ?b then _ else _) = Some _ => destruct b
         end;
  match type of Hb with
  | Some ?x = Some _ =>
      let Hr := fresh "Hr" in
      assert (Hr : r = x) by congruence; rewrite Hr; clear Hr Hb
  end;
  unfold step_state;
  first [ exact Hs
        | apply advance_good; exact Hs
        | apply advance_good; apply advance_good; exact Hs ].

Lemma readLongString_reads level st t st' :
  good st -> readLongString input level st = Some (t, st') -> reads st t st'.
Proof.
  intros Hg H. unfold readLongString in H.
  match type of H with context [while ?c ?b ?n ?s] =>
    destruct (while c b n s) as [st1|] eqn:W; [|discriminate];
    apply (scan_good c b n s st1) in W; [|advancing|apply advance_good, Hg]
  end.
  injection H as <- <-. repeat split; try reflexivity; apply W.
Qed.

Lemma readComment_reads st t st' :
  good st -> readComment input st = Some (t, st') -> reads st t st'.
Proof.
  intros Hg H. unfold readComment in H.
  assert (Hshort :
    (st1 <- while (fun st => in_input input st &&
                             negb (is_char (current_char input st) LF))
              (fun st => Some (Continue (advance input 1 st))) (rounds input)
              (advance input 2 st) ;;
     Some (createToken COMMENT (substring input (pos st) (pos st1))
                       (createPosition st), st1)) = Some (t, st') ->
    reads st t st').
  { intros Hs.
    match type of Hs with context [while ?c ?b ?n ?s] =>
      destruct (while c b n s) as [st1|] eqn:W; [|discriminate];
      apply (scan_good c b n s st1) in W; [|advancing|apply advance_good, Hg]
    end.
    injection Hs as <- <-. repeat split; try reflexivity; apply W. }
  destruct (is_char (current_char input (advance input 2 st)) (ch "["));
    [|exact (Hshort H)].
  destruct (checkLongStringStart input (advance input 2 st)) as [[level|]|];
    [| exact (Hshort H) | discriminate].
  destruct (readLongString input level (advance input 2 st)) as [[t1 st1]|] eqn:L;
    [|discriminate].
  apply readLongString_reads in L; [|apply advance_good, Hg].
  injection H as <- <-. repeat split; try reflexivity; apply L.
Qed.

Lemma readNumber_reads st t st' :
  good st -> readNumber input st = Some (t, st') -> reads st t st'.
Proof.
  intros Hg H. unfold readNumber in H.
  match type of H with context [while ?c ?b ?n ?s] =>
    destruct (while c b n s) as [st1|] eqn:W; [|discriminate];
    apply (scan_good c b n s st1) in W; [|advancing|exact Hg]
  end.
  injection H as <- <-. repeat split; try reflexivity; apply W.
Qed.

Lemma readString_reads quote st t st' :
  good st -> readString input quote st = Some (t, st') -> reads st t st'.
Proof.
  intros Hg H. unfold readString in H.
  match type of H with context [while ?c ?b ?n ?s] =>
    destruct (while c b n s) as [st1|] eqn:W; [|discriminate];
    apply (scan_good c b n s st1) in W; [|advancing|apply advance_good, Hg]
  end.
  destruct (isEncryptedString _); injection H as <- <-;
    repeat split; try reflexivity; apply W.
Qed.

Lemma readIdentifier_reads st t st' :
  good st -> readIdentifier input st = Some (t, st') -> reads st t st'.
Proof.
  intros Hg H. unfold readIdentifier in H.
  match type of H with context [while ?c ?b ?n ?s] =>
    destruct (while c b n s) as [st1|] eqn:W; [|discriminate];
    apply (scan_good c b n s st1) in W; [|advancing|exact Hg]
  end.
  destruct (assoc_string _ keywords); [|destruct (isObfuscatedName _)];
    injection H as <- <-; repeat split; try reflexivity; apply W.
Qed.

Lemma string_eqb_refl_eq (x y : jsstring) : string_eqb x y = true -> x = y.
Proof.
  revert y. induction x as [|u x IH]; intros [|v y] H; try discriminate; [reflexivity|].
  cbn [string_eqb] in H. apply andb_true_iff in H. destruct H as [H1 H2].
  apply Z.eqb_eq in H1. subst v. f_equal. apply IH, H2.
Qed.

Lemma assoc_string_in {A} key (l : list (jsstring * A)) v :
  assoc_string key l = Some v -> In (key, v) l.
Proof.
  induction l as [|[k w] l IH]; [discriminate|]. cbn [assoc_string].
  destruct (string_eqb key k) eqn:E.
  - intros H. injection H as <-. left. apply string_eqb_refl_eq in E. subst k. reflexivity.
  - intros H. right. apply IH, H.
Qed.

Lemma some_pair {A B} (a c : A) (b d : B) : Some (a, b) = Some (c, d) -> a = c /\ b = d.
Proof. intros H. injection H as -> ->. split; reflexivity. Qed.

(** The operators: the token is the text that was compared. *)
Lemma operator_reads st tok st' :
  good st -> in_input input st = true ->
  match assoc_string (firstn 2 (skipn (pos st) input)) twoCharOperators with
  | Some t => Some (Some (createToken t (firstn 2 (skipn (pos st) input))
                                      (createPosition st)), advance input 2 st)
  | None =>
      match current_char input st with
      | Some c =>
          match assoc_string [c] singleCharTokens with
          | Some t => Some (Some (createToken t [c] (createPosition st)),
                            advance input 1 st)
          | None => Some (None, advance input 1 st)
          end
      | None => Some (None, advance input 1 st)
      end
  end = Some (tok, st') ->
  good st' /\ forall t, tok = Some t -> reads st t st'.
Proof.
  intros Hg Hin H. apply in_input_lt in Hin.
  pose proof (advance_good 1 st Hg) as Hg1.
  pose proof (advance_good 2 st Hg) as Hg2.
  destruct (assoc_string (firstn 2 (skipn (pos st) input)) twoCharOperators)
    as [ty|] eqn:Htwo.
  - apply some_pair in H. destruct H as [Htok Hst]. subst tok st'.
    split; [exact Hg2|].
    intros t E. injection E as E. subst t.
    assert (Hlen : List.length (firstn 2 (skipn (pos st) input)) = 2%nat).
    { apply assoc_string_in in Htwo. unfold twoCharOperators in Htwo.
      cbn [In] in Htwo.
      repeat match type of Htwo with
             | _ \/ _ =>
                 let E := fresh "E" in
                 destruct Htwo as [E|Htwo];
                 [apply (f_equal fst) in E; cbn [fst] in E; rewrite <- E; reflexivity|]
             end.
      contradiction. }
    rewrite length_firstn, length_skipn in Hlen.
    split; [|split; [reflexivity|split; [reflexivity|split; [reflexivity|exact Hg2]]]].
    unfold substring.
    rewrite advance_exact by (unfold input_length; lia).
    replace (pos st + 2 - pos st)%nat with 2%nat by lia. reflexivity.
  - destruct (current_char input st) as [c|] eqn:Hc.
    + assert (Hone : [c] = substring input (pos st) (pos (advance input 1 st))).
      { unfold substring. rewrite advance_exact by (unfold input_length in *; lia).
        destruct (skipn_at input (pos st) c Hc) as (rest & -> & _).
        replace (pos st + 1 - pos st)%nat with 1%nat by lia. reflexivity. }
      destruct (assoc_string [c] singleCharTokens);
        apply some_pair in H; destruct H as [Htok Hst]; subst tok st';
        (split; [exact Hg1|]); intros t E; [|discriminate].
      injection E as E. subst t.
      split; [exact Hone|].
      split; [reflexivity|split; [reflexivity|split; [reflexivity|exact Hg1]]].
    + apply some_pair in H. destruct H as [Htok Hst]. subst tok st'.
      split; [exact Hg1|]. intros t E. discriminate.
Qed.

Lemma nextToken_reads st tok st' :
  good st -> in_input input st = true -> nextToken input st = Some (tok, st') ->
  good st' /\ forall t, tok = Some t -> reads st t st'.
Proof.
  intros Hg Hin H. unfold nextToken in H.
  assert (Hsome : forall r,
             (forall t1 st1, r = Some (t1, st1) -> reads st t1 st1) ->
             (' (t0, st0) <- r ;; Some (Some t0, st0)) = Some (tok, st') ->
             good st' /\ forall t, tok = Some t -> reads st t st').
  { intros r Hr E. destruct r as [[t1 st1]|]; [|discriminate].
    injection E as <- <-. specialize (Hr t1 st1 eq_refl).
    split; [apply Hr|]. intros t E. injection E as <-. exact Hr. }
  assert (Hident :
    (if isAlpha (current_char input st) || is_char (current_char input st) (ch "_")
     then ' (t0, st0) <- readIdentifier input st ;; Some (Some t0, st0)
     else
       match assoc_string (firstn 2 (skipn (pos st) input)) twoCharOperators with
       | Some t => Some (Some (createToken t (firstn 2 (skipn (pos st) input))
                                           (createPosition st)), advance input 2 st)
       | None =>
           match current_char input st with
           | Some c =>
               match assoc_string [c] singleCharTokens with
               | Some t => Some (Some (createToken t [c] (createPosition st)),
                                 advance input 1 st)
               | None => Some (None, advance input 1 st)
               end
           | None => Some (None, advance input 1 st)
           end
       end) = Some (tok, st') ->
    good st' /\ forall t, tok = Some t -> reads st t st').
  { destruct (isAlpha (current_char input st) || is_char (current_char input st) (ch "_")).
    - apply Hsome. intros t1 st1. apply readIdentifier_reads, Hg.
    - apply operator_reads; assumption. }
  destruct (is_char (current_char input st) (ch "-") && is_char (peek input st 1) (ch "-")).
  { revert H. apply Hsome. intros t1 st1. apply readComment_reads, Hg. }
  destruct (isDigit (current_char input st)).
  { revert H. apply Hsome. intros t1 st1. apply readNumber_reads, Hg. }
  destruct (is_char (current_char input st) DQUOTE || is_char (current_char input st) SQUOTE).
  { revert H. apply Hsome. intros t1 st1. apply readString_reads, Hg. }
  destruct (is_char (current_char input st) (ch "[")); [|exact (Hident H)].
  destruct (checkLongStringStart input st) as [[level|]|]; [| exact (Hident H) | discriminate].
  revert H. apply Hsome. intros t1 st1. apply readLongString_reads, Hg.
Qed.

Lemma skipWhitespace_good st st' :
  good st -> skipWhitespace input st = Some st' -> good st'.
Proof.
  intros Hg H. unfold skipWhitespace in H.
  match type of H with while ?c ?b ?n ?s = _ =>
    apply (scan_good c b n s st') in H; [exact H|advancing|exact Hg]
  end.
Qed.

Lemma substring_length p p' :
  (p <= p' <= List.length input)%nat ->
  List.length (substring input p p') = (p' - p)%nat.
Proof.
  intros H. unfold substring. rewrite length_firstn, length_skipn. lia.
Qed.

Lemma disjoint_slices_snoc tokens t :
  disjoint_slices input tokens ->
  (forall a, In a tokens -> (token_end a <= position t)%nat) ->
  value t = substring input (position t) (token_end t) ->
  (token_end t <= List.length input)%nat ->
  disjoint_slices input (tokens ++ [t]).
Proof.
  intros Hd Hle Hv He i a Ha.
  destruct (Nat.lt_ge_cases i (List.length tokens)) as [Hi|Hi].
  - rewrite nth_error_app1 in Ha by exact Hi.
    destruct (Hd i a Ha) as (H1 & H2 & H3).
    split; [exact H1|]. split; [exact H2|]. intros b Hb.
    destruct (Nat.lt_ge_cases (S i) (List.length tokens)) as [Hi'|Hi'].
    + rewrite nth_error_app1 in Hb by exact Hi'. apply (H3 b Hb).
    + rewrite nth_error_app2 in Hb by exact Hi'.
      replace (S i - List.length tokens)%nat with 0%nat in Hb by lia.
      injection Hb as <-. apply Hle, (nth_error_In _ _ Ha).
  - rewrite nth_error_app2 in Ha by exact Hi.
    destruct (i - List.length tokens)%nat as [|k] eqn:E;
      [|destruct k; discriminate].
    injection Ha as <-. split; [exact Hv|]. split; [exact He|].
    intros b Hb. rewrite nth_error_app2 in Hb by lia.
    replace (S i - List.length tokens)%nat with 1%nat in Hb by lia. discriminate.
Qed.

Lemma tokenize_loop_tokens :
  exists st tokens,
    tokenize_loop input (mkLex 0 1 1, []) = Some (st, tokens) /\
    tokens_so_far (st, tokens).
Proof.
  destruct (tokenize_loop_total input) as (st & tokens & Hloop & _).
  exists st, tokens. split; [exact Hloop|].
  unfold tokenize_loop in Hloop.
  match type of Hloop with while ?c ?b ?k ?s0 = _ =>
    refine (while_preserves c b tokens_so_far _ k s0 _ _ Hloop); clear Hloop
  end.
  - clear st tokens.
    intros [st tokens] r (Hg & Hd & Hl & Hle) Hin Hbody. cbn [fst snd] in *.
    destruct (skipWhitespace input st) as [st1|] eqn:Hs; [|discriminate].
    pose proof (skipWhitespace_good _ _ Hg Hs) as Hg1.
    destruct (skipWhitespace_total input st (proj1 Hg)) as (st1' & Hs' & _ & Hle1).
    rewrite Hs in Hs'. injection Hs' as <-.
    destruct (in_input input st1) eqn:Hin1; cbn [negb] in Hbody.
    + destruct (nextToken input st1) as [[tok st2]|] eqn:Hn; [|discriminate].
      destruct (nextToken_reads _ _ _ Hg1 Hin1 Hn) as [Hg2 Hreads].
      destruct (nextToken_total input st1 (proj1 Hg1) Hin1)
        as (tok' & st2' & Hn' & _ & Hm & _).
      rewrite Hn in Hn'. injection Hn' as <- <-. unfold moved in Hm.
      destruct tok as [t|]; injection Hbody as <-; unfold tokens_so_far;
        cbn [step_state fst snd]; (split; [exact Hg2|]).
      * destruct (Hreads t eq_refl) as (Hv & Hline & Hcol & Hp & _).
        assert (Hend : token_end t = pos st2).
        { unfold token_end. rewrite Hv, Hp, substring_length; [lia|].
          destruct Hg2 as [Hb2 _]. unfold LexerSpec.bounded, input_length in Hb2. lia. }
        split; [|split].
        -- apply disjoint_slices_snoc; [exact Hd| | |].
           ++ intros a Ha. specialize (Hle a Ha). lia.
           ++ rewrite Hend, Hp. exact Hv.
           ++ rewrite Hend. apply Hg2.
        -- apply Forall_app. split; [exact Hl|]. constructor; [|constructor].
           destruct Hg1 as [_ [Hc1 Hc2]]. unfold located.
           rewrite Hline, Hcol, Hp. split; assumption.
        -- intros a Ha. apply in_app_or in Ha. destruct Ha as [Ha|[<-|[]]]; [|lia].
           specialize (Hle a Ha). lia.
      * split; [exact Hd|]. split; [exact Hl|].
        intros a Ha. specialize (Hle a Ha). lia.
    + injection Hbody as <-. unfold tokens_so_far. cbn [step_state fst snd].
      split; [exact Hg1|]. split; [exact Hd|]. split; [exact Hl|].
      intros a Ha. specialize (Hle a Ha). lia.
  - unfold tokens_so_far. cbn [fst snd]. split; [|split; [|split]].
    + split; [unfold LexerSpec.bounded; cbn; lia|]. split; reflexivity.
    + intros i a Ha. destruct i; discriminate.
    + constructor.
    + intros t [].
Qed.

(** X11.  The tokens are pieces of the input that do not overlap: the
    value of every token is the text that starts at its offset, it ends
    inside the input, and the next token starts at or behind its end.
    The closing EOF token is the empty piece at the offset where the
    lexer stopped. *)
Theorem tokens_are_disjoint_slices :
  exists tokens, tokenize input = Some tokens /\ disjoint_slices input tokens.
Proof.
  destruct tokenize_loop_tokens as (st & tokens & Hloop & Hg & Hd & _ & Hle).
  cbn [fst snd] in *. unfold tokenize. rewrite Hloop.
  eexists. split; [reflexivity|].
  apply disjoint_slices_snoc; [exact Hd| | |].
  - exact Hle.
  - unfold token_end. cbn [value position List.length]. unfold substring.
    rewrite Nat.add_0_r, Nat.sub_diag. reflexivity.
  - unfold token_end. cbn [value position List.length]. rewrite Nat.add_0_r. apply Hg.
Qed.

(** X12.  The line and the column of every token, the EOF token
    included, are those of its offset: the line is one more than the
    number of line feeds in front of the offset, and the column is one
    more than the number of characters between the last of these line
    feeds, or the start of the input, and the offset. *)
Theorem tokens_are_located :
  exists tokens, tokenize input = Some tokens /\ Forall (located input) tokens.
Proof.
  destruct tokenize_loop_tokens as (st & tokens & Hloop & Hg & _ & Hl & _).
  cbn [fst snd] in *. unfold tokenize. rewrite Hloop.
  eexists. split; [reflexivity|].
  apply Forall_app. split; [exact Hl|]. constructor; [|constructor].
  destruct Hg as [_ [Hc1 Hc2]]. split; assumption.
Qed.

End TokenFacts.

Section OneToken.
Import Loops Lexer LexerSpec TokenSpec.
Variable input : jsstring.

Local Abbreviation pos := cur_position.
Local Abbreviation len := (input_length input).

(** A loop that advances over a class of characters, none of them a
    line feed, runs to the end of an input that holds nothing else. *)
Lemma scan_to_end (cls : Z -> bool) (c : LexState -> bool) :
  (forall st, c st = true -> in_input input st = true) ->
  (forall st x, nth_error input (pos st) = Some x -> c st = cls x) ->
  (forall x, cls x = true -> x <> LF) ->
  forall n st,
    forallb cls (skipn (pos st) input) = true ->
    (pos st <= len)%nat -> (len - pos st < n)%nat ->
    while c (fun st => Some (Continue (advance input 1 st))) n st
    = Some (mkLex len (cur_line st) (cur_column st + (len - pos st))).
Proof.
  intros Hin Hcls Hlf.
  induction n as [|n IH]; intros st Hall Hle Hn; [lia|].
  cbn [while].
  destruct (nth_error input (pos st)) as [x|] eqn:Hx.
  - destruct (skipn_at input (pos st) x Hx) as (rest & Hskip & _).
    assert (Hlt : (pos st < len)%nat)
      by (apply nth_error_Some; congruence).
    rewrite Hskip in Hall. cbn [forallb] in Hall.
    apply andb_true_iff in Hall. destruct Hall as [Hcx Hrest].
    rewrite (Hcls st x Hx), Hcx.
    assert (Hadv : advance input 1 st
                   = mkLex (S (pos st)) (cur_line st) (S (cur_column st))).
    { apply advance_one; [apply in_input_lt; exact Hlt|].
      unfold current_char, at_. rewrite Hx. cbn [is_char].
      apply Z.eqb_neq, Hlf, Hcx. }
    rewrite Hadv, IH; cbn [cur_position cur_line cur_column].
    + f_equal. f_equal. lia.
    + replace (S (pos st)) with (1 + pos st)%nat by lia.
      rewrite <- skipn_skipn, Hskip. exact Hrest.
    + lia.
    + lia.
  - assert (Hend : pos st = len)
      by (apply nth_error_None in Hx; unfold input_length in *; lia).
    destruct (c st) eqn:C.
    + apply Hin, in_input_lt in C. lia.
    + destruct st as [p l col]. cbn [cur_position cur_line cur_column] in *.
      subst p. f_equal. f_equal. lia.
Qed.

Lemma skipWhitespace_stays st x :
  nth_error input (pos st) = Some x -> is_space x = false ->
  skipWhitespace input st = Some st.
Proof.
  intros Hx Hs. unfold skipWhitespace, rounds. cbn [while].
  unfold current_char, at_. rewrite Hx. cbn [isWhitespace]. rewrite Hs.
  rewrite andb_false_r. reflexivity.
Qed.

(** An input from which [nextToken] makes one token. *)
Lemma single_token t line column :
  (0 < len)%nat ->
  skipWhitespace input (mkLex 0 1 1) = Some (mkLex 0 1 1) ->
  nextToken input (mkLex 0 1 1) = Some (Some t, mkLex len line column) ->
  tokenize input = Some [t; mkToken EOF [] line column len].
Proof.
  intros Hlen Hskip Hnext.
  assert (Hin : in_input input (mkLex 0 1 1) = true) by (apply in_input_lt; exact Hlen).
  unfold tokenize, tokenize_loop, rounds. cbn [while].
  rewrite Hin, Hskip, Hin. cbn [negb]. rewrite Hnext.
  destruct len as [|n] eqn:E; [lia|]. cbn [while].
  unfold in_input at 1. cbn [cur_position]. rewrite E, Nat.ltb_irrefl.
  reflexivity.
Qed.

End OneToken.

Section WholeInputs.
Import Loops Lexer LexerSpec TokenSpec.

Lemma digit_facts d :
  is_digit d = true ->
  is_space d = false /\ (d =? ch "-") = false /\ number_char d = true.
Proof.
  unfold is_digit, in_range, number_char. intros H.
  apply andb_true_iff in H. destruct H as [H1 H2].
  apply Z.leb_le in H1, H2.
  split; [|split].
  - unfold is_space, in_range.
    repeat match goal with
           | |- context [?a <=? ?b] => destruct (Z.leb_spec a b); try lia
           | |- context [?a =? ?b] => destruct (Z.eqb_spec a b); try lia
           end; reflexivity.
  - apply Z.eqb_neq. cbn. lia.
  - unfold is_digit, in_range.
    destruct (Z.leb_spec 48 d); [|lia]. destruct (Z.leb_spec d 57); [|lia]. reflexivity.
Qed.

Lemma number_char_is_no_line_feed x : number_char x = true -> x <> LF.
Proof.
  intros H ->. vm_compute in H. discriminate.
Qed.

(** X13.  [readNumber] takes signs, dots and the letter [e] for parts
    of a number wherever they stand: an input that starts with a digit
    and holds nothing but digits and the characters [.], [e], [E], [+]
    and [-] is one NUMBER token, so that [1+2] is read as a number and
    not as an addition. *)
Theorem number_swallows_operators (d : Z) (rest : jsstring) :
  is_digit d = true -> forallb number_char rest = true ->
  tokenize (d :: rest)
  = Some [ mkToken NUMBER (d :: rest) 1 1 0;
           mkToken EOF [] 1 (2 + List.length rest) (1 + List.length rest) ].
Proof.
  intros Hd Hrest. destruct (digit_facts d Hd) as (Hspace & Hminus & Hnum).
  apply (single_token (d :: rest)).
  - cbn. lia.
  - apply (skipWhitespace_stays (d :: rest) _ d); [reflexivity|exact Hspace].
  - unfold nextToken. change (current_char (d :: rest) (mkLex 0 1 1)) with (Some d).
    cbn [is_char isDigit]. rewrite Hminus, Hd. cbn [andb].
    unfold readNumber.
    rewrite (scan_to_end (d :: rest) number_char).
    + cbn [cur_position cur_line cur_column createPosition createToken].
      unfold substring, input_length. rewrite Nat.sub_0_r. cbn [skipn].
      rewrite firstn_all. reflexivity.
    + intros st H. apply andb_true_iff in H. apply H.
    + intros st x Hx. unfold current_char, at_. rewrite Hx.
      assert (Hin : in_input (d :: rest) st = true).
      { apply in_input_lt, nth_error_Some. congruence. }
      rewrite Hin. reflexivity.
    + apply number_char_is_no_line_feed.
    + cbn [cur_position skipn forallb]. rewrite Hnum, Hrest. reflexivity.
    + cbn [cur_position]. lia.
    + unfold rounds. cbn [cur_position]. lia.
Qed.

Lemma keywords_table :
  Forall (fun kv => assoc_string (fst kv) keywords = Some (snd kv) /\
                    forallb (in_range 97 122) (fst kv) = true /\ fst kv <> [])
         keywords.
Proof.
  unfold keywords.
  repeat constructor; try reflexivity; discriminate.
Qed.

Lemma lower_case_letter x :
  in_range 97 122 (lower_ascii x) = true ->
  is_alpha x = true /\ is_word x = true /\ is_digit x = false /\ is_space x = false /\
  x <> LF /\ (x =? ch "-") = false /\ (x =? DQUOTE) = false /\ (x =? SQUOTE) = false /\
  (x =? ch "[") = false.
Proof.
  unfold lower_ascii, in_range. intros H.
  assert (Hx : 65 <= x <= 90 \/ 97 <= x <= 122).
  { revert H. destruct ((65 <=? x) && (x <=? 90)) eqn:E; intros H.
    - left. apply andb_true_iff in E. destruct E as [E1 E2].
      apply Z.leb_le in E1, E2. lia.
    - right. apply andb_true_iff in H. destruct H as [E1 E2].
      apply Z.leb_le in E1, E2. lia. }
  clear H.
  unfold is_word, is_alnum, is_alpha, is_digit, is_space, in_range, LF, DQUOTE, SQUOTE.
  change (ch "-") with 45. change (ch "[") with 91.
  repeat split;
    repeat match goal with
           | |- context [?a <=? ?b] => destruct (Z.leb_spec a b); try lia
           | |- context [?a =? ?b] => destruct (Z.eqb_spec a b); try lia
           end; try reflexivity; lia.
Qed.

(** X14.  The lexer recognises keywords whatever their case: a word
    that is a keyword once its capital letters are made small, such as
    [END] or [Local], is one token of the type of that keyword, with
    the word as it was written for its value. *)
Theorem keywords_ignore_case (w : jsstring) (T : LuaTokenType) :
  In (map lower_ascii w, T) keywords ->
  tokenize w
  = Some [ mkToken T w 1 1 0;
           mkToken EOF [] 1 (S (List.length w)) (List.length w) ].
Proof.
  intros Hin.
  pose proof keywords_table as Htable. rewrite Forall_forall in Htable.
  destruct (Htable _ Hin) as (Hassoc & Hlower & Hne). cbn [fst snd] in *.
  assert (Hletters : forall x, In x w -> in_range 97 122 (lower_ascii x) = true).
  { intros x Hx. rewrite forallb_forall in Hlower. apply Hlower, in_map, Hx. }
  destruct w as [|c rest]; [contradiction Hne; reflexivity|].
  destruct (lower_case_letter c (Hletters c (or_introl eq_refl)))
    as (Ha & _ & Hd & Hs & _ & Hminus & Hdq & Hsq & Hbr).
  apply (single_token (c :: rest)).
  - cbn. lia.
  - apply (skipWhitespace_stays (c :: rest) _ c); [reflexivity|exact Hs].
  - unfold nextToken. change (current_char (c :: rest) (mkLex 0 1 1)) with (Some c).
    cbn [is_char isDigit isAlpha]. rewrite Hminus, Hd, Hdq, Hsq, Hbr, Ha.
    cbn [andb orb].
    unfold readIdentifier.
    rewrite (scan_to_end (c :: rest) is_word).
    + cbn [cur_position cur_line cur_column createPosition createToken].
      unfold substring, input_length. rewrite Nat.sub_0_r. cbn [skipn].
      rewrite firstn_all, Hassoc.
      unfold getKeywordTokenType. rewrite Hassoc.
      replace (1 + List.length (c :: rest))%nat with (S (List.length (c :: rest)))
        by lia.
      reflexivity.
    + intros st H. apply andb_true_iff in H. apply H.
    + intros st x Hx. unfold current_char, at_. rewrite Hx.
      assert (Hinp : in_input (c :: rest) st = true).
      { apply in_input_lt, nth_error_Some. congruence. }
      rewrite Hinp. reflexivity.
    + intros x Hx ->. vm_compute in Hx. discriminate.
    + cbn [cur_position skipn]. apply forallb_forall. intros x Hx.
      apply (lower_case_letter x (Hletters x Hx)).
    + cbn [cur_position]. lia.
    + unfold rounds. cbn [cur_position]. lia.
Qed.

End WholeInputs.

Lemma keywords_ignore_case_witness :
  Lexer.tokenize (str "END")
  = Some [ Lexer.mkToken Lexer.END (str "END") 1 1 0; Lexer.mkToken Lexer.EOF [] 1 4 3 ].
Proof.
  apply (keywords_ignore_case (str "END") Lexer.END).
  vm_compute. tauto.
Defined.

Lemma number_swallows_operators_witness :
  Lexer.tokenize (str "1+2")
  = Some [ Lexer.mkToken Lexer.NUMBER (str "1+2") 1 1 0; Lexer.mkToken Lexer.EOF [] 1 4 3 ].
Proof.
  apply (number_swallows_operators (ch "1") (str "+2")); reflexivity.
Defined.

(* ================================================================== *)
(** * Further properties of the reconstructor                          *)
(* ================================================================== *)

Section PatternOrder.
Import AST VMInstructions SymbolicExecutor Reconstructor.

(** A pattern that matches has a first part that matches. *)
Lemma match_here_prefix p q : forall s groups,
  match_here (p ++ q) s = Some groups -> exists groups', match_here p s = Some groups'.
Proof.
  induction p as [|item p IH]; intros s groups H.
  - eexists. reflexivity.
  - cbn [app match_here] in *. destruct item as [c| |].
    + destruct s as [|x rest]; [discriminate|].
      destruct (x =? c); [|discriminate]. apply (IH _ _ H).
    + destruct (span is_digit s) as [digits rest].
      destruct digits as [|d digits]; [discriminate|].
      destruct (match_here (p ++ q) rest) as [g|] eqn:E; [|discriminate].
      destruct (IH _ _ E) as [g' ->]. eexists. reflexivity.
    + destruct (span is_space s) as [spaces rest]. apply (IH _ _ H).
Qed.

Lemma regex_match_prefix p q : forall s,
  regex_match (p ++ q) s <> None -> regex_match p s <> None.
Proof.
  induction s as [|x s IH]; cbn [regex_match]; intros H.
  - destruct (match_here (p ++ q) []) as [g|] eqn:E; [|contradiction].
    destruct (match_here_prefix _ _ _ _ E) as [g' ->]. discriminate.
  - destruct (match_here (p ++ q) (x :: s)) as [g|] eqn:E.
    + destruct (match_here_prefix _ _ _ _ E) as [g' ->]. discriminate.
    + destruct (match_here p (x :: s)); [discriminate|]. apply IH, H.
Qed.

Lemma move_shadows_arithmetic handlerCode :
  regex_match move_regex handlerCode = None ->
  regex_match add_regex handlerCode = None /\
  regex_match sub_regex handlerCode = None.
Proof.
  intros Hmove. split.
  - destruct (regex_match add_regex handlerCode) eqn:E; [|reflexivity].
    exfalso. apply (regex_match_prefix move_regex
                      ([Spaces; Chr (ch "+"); Spaces] ++ register_group) handlerCode);
      [|exact Hmove].
    change (regex_match add_regex handlerCode <> None). congruence.
  - destruct (regex_match sub_regex handlerCode) eqn:E; [|reflexivity].
    exfalso. apply (regex_match_prefix move_regex
                      ([Spaces; Chr (ch "-"); Spaces] ++ register_group) handlerCode);
      [|exact Hmove].
    change (regex_match sub_regex handlerCode <> None). congruence.
Qed.

(** X15.  Every handler is lifted to one instruction, and that
    instruction is a MOVE, a LOADK, a CALL or a RETURN with the index
    of the handler for its line and without extended operands.  The
    patterns for ADD and SUB are never reached: a text they match is
    matched by the pattern for MOVE, which is tried first. *)
Theorem reconstructed_opcodes (handler : LuraphVMHandler)
        (context : ReconstructionContext) :
  exists i,
    reconstructHandler handler context = Some i /\
    In (opcode i) [MOVE; LOADK; CALL; RETURN] /\
    line i = Some (h_index handler) /\
    bx i = None /\ sbx i = None /\ ax i = None.
Proof.
  rewrite reconstructHandler_by_patterns.
  set (handlerCode := handlerCode_of handler context).
  unfold reconstructFromPatterns.
  destruct (regex_match move_regex handlerCode) eqn:Hmove;
    [eexists; split; [reflexivity|]; cbn; tauto|].
  destruct (move_shadows_arithmetic handlerCode Hmove) as [Hadd Hsub].
  rewrite Hadd, Hsub.
  destruct (regex_match loadk_regex handlerCode);
    [eexists; split; [reflexivity|]; cbn; tauto|].
  destruct (regex_match call_regex handlerCode);
    [eexists; split; [reflexivity|]; cbn; tauto|].
  destruct (regex_match return_regex handlerCode);
    eexists; (split; [reflexivity|]); cbn; tauto.
Qed.

End PatternOrder.

Section ColonInConstant.
Import AST VMInstructions SymbolicExecutor Reconstructor.

Variable Number_toString : JSNumber -> jsstring.
Variable parseFloat : jsstring -> JSNumber.
Variable JSON_parse_other : jsstring -> Outcome JSValue.

Local Abbreviation COLON := (ch ":").
Local Abbreviation passes := ConstantKeySpec.passes.
Local Abbreviation constant_key := (constant_key Number_toString).
Local Abbreviation number_constants := (number_constants Number_toString).
Local Abbreviation rebuild_constant := (rebuild_constant parseFloat JSON_parse_other).
Local Abbreviation rebuild_constants := (rebuild_constants parseFloat JSON_parse_other).
Local Abbreviation JSON_parse := (JSON_parse JSON_parse_other).

Lemma split_on_first sep pre : forall post,
  ~ In sep pre ->
  split_on sep (pre ++ sep :: post) = pre :: split_on sep post.
Proof.
  induction pre as [|c pre IH]; intros post Hpre; cbn [app split_on].
  - rewrite Z.eqb_refl. reflexivity.
  - destruct (Z.eqb_spec c sep) as [->|Hne]; [exfalso; apply Hpre; left; reflexivity|].
    rewrite IH; [reflexivity|]. intros H. apply Hpre. right. exact H.
Qed.

Lemma hex_digit_is_no_colon n : hex_digit n <> COLON.
Proof.
  unfold hex_digit. change COLON with 58.
  destruct (Z.ltb_spec n 10); lia.
Qed.

Lemma escape_u_passes c : passes (BACKSLASH :: ch "u" :: hex4 c).
Proof.
  split.
  - unfold hex4. cbn [In]. intros [H|[H|[H|[H|[H|[H|[]]]]]]];
      try discriminate H; apply (hex_digit_is_no_colon _ H).
  - intros tail Htail. unfold hex4. cbn [app json_string_body].
    change (BACKSLASH =? DQUOTE) with false. change (BACKSLASH <? 32) with false.
    change (BACKSLASH =? BACKSLASH) with true.
    change (ch "u" =? DQUOTE) with false. change (ch "u" =? BACKSLASH) with false.
    change (ch "u" =? ch "/") with false. change (ch "u" =? ch "b") with false.
    change (ch "u" =? ch "f") with false. change (ch "u" =? ch "n") with false.
    change (ch "u" =? ch "r") with false. change (ch "u" =? ch "t") with false.
    change (ch "u" =? ch "u") with true. cbv iota. cbn [firstn].
    destruct (hex_of 0 _); [|reflexivity].
    rewrite Htail. reflexivity.
Qed.

Lemma simple_escape_passes e :
  In e [DQUOTE; BACKSLASH; ch "b"; ch "f"; ch "n"; ch "r"; ch "t"] ->
  passes [BACKSLASH; e].
Proof.
  intros He. split.
  - cbn [In] in *. intros [H|[H|[]]]; [discriminate H|].
    subst e. repeat (destruct He as [He|He]; [discriminate He|]). exact He.
  - intros tail Htail. cbn [In] in He.
    repeat (destruct He as [<-|He];
            [cbn [app json_string_body]; cbn; rewrite Htail; reflexivity|]).
    contradiction.
Qed.

Lemma plain_passes c :
  c <> COLON -> (c =? DQUOTE) = false -> (c <? 32) = false -> (c =? BACKSLASH) = false ->
  passes [c].
Proof.
  intros Hc H1 H2 H3. split.
  - intros [H|[]]. congruence.
  - intros tail Htail. cbn [app json_string_body].
    rewrite H1, H2, H3, Htail. reflexivity.
Qed.

Lemma json_escape_passes c : c <> COLON -> passes (json_escape c).
Proof.
  intros Hc. unfold json_escape.
  repeat match goal with
         | |- context [if ?x =? ?y then _ else _] =>
             destruct (x =? y) eqn:?;
             [apply simple_escape_passes; cbn [In]; tauto|]
         end.
  destruct (c <? 32) eqn:?; [apply escape_u_passes|].
  apply plain_passes; assumption.
Qed.

Lemma surrogate_facts c :
  is_high_surrogate c || is_low_surrogate c = true ->
  c <> COLON /\ (c =? DQUOTE) = false /\ (c <? 32) = false /\ (c =? BACKSLASH) = false.
Proof.
  unfold is_high_surrogate, is_low_surrogate, in_range, DQUOTE, BACKSLASH.
  change COLON with 58. intros H.
  assert (Hc : 55296 <= c).
  { apply orb_true_iff in H. destruct H as [H|H];
      apply andb_true_iff in H; destruct H as [H _]; apply Z.leb_le in H; lia. }
  split; [lia|]. split; [apply Z.eqb_neq; lia|].
  split; [apply Z.ltb_ge; lia|apply Z.eqb_neq; lia].
Qed.

Lemma passes_app a b : passes a -> passes b -> passes (a ++ b).
Proof.
  intros [Ha1 Ha2] [Hb1 Hb2]. split.
  - intros H. apply in_app_or in H. tauto.
  - intros tail Htail. rewrite <- app_assoc. apply Ha2, Hb2, Htail.
Qed.

(** The text of a string with a colon, cut at its first colon, is the
    start of a string literal that is not closed. *)
Lemma json_body_cut s : forall low_half,
  (low_half = true -> exists d rest, s = d :: rest /\ is_low_surrogate d = true) ->
  In COLON s ->
  exists before after,
    json_body low_half s = before ++ COLON :: after /\ passes before.
Proof.
  induction s as [|c rest IH]; intros low_half Hlow Hin; [contradiction|].
  assert (Hnil : passes []).
  { split; [intros []|]. intros tail Htail. exact Htail. }
  assert (Hnext : forall low_half' encoded,
             (low_half' = true ->
              exists d rest', rest = d :: rest' /\ is_low_surrogate d = true) ->
             c <> COLON -> passes encoded ->
             exists before after,
               encoded ++ json_body low_half' rest = before ++ COLON :: after /\
               passes before).
  { intros low_half' encoded Hlow' Hc Henc.
    destruct Hin as [Hin|Hin]; [congruence|].
    destruct (IH low_half' Hlow' Hin) as (before & after & -> & Hb).
    exists (encoded ++ before), after. rewrite <- app_assoc.
    split; [reflexivity|apply passes_app; assumption]. }
  cbn [json_body]. destruct low_half.
  - destruct (Hlow eq_refl) as (d & rest' & E & Hd). injection E as <- <-.
    destruct (surrogate_facts c) as (Hc & H1 & H2 & H3); [rewrite Hd; apply orb_true_r|].
    apply (Hnext false [c]); [discriminate|exact Hc|].
    apply plain_passes; assumption.
  - destruct (is_high_surrogate c) eqn:Hhigh.
    + destruct (surrogate_facts c) as (Hc & H1 & H2 & H3); [rewrite Hhigh; reflexivity|].
      destruct rest as [|d rest'].
      * destruct Hin as [Hin|[]]. congruence.
      * destruct (is_low_surrogate d) eqn:Hd.
        -- apply (Hnext true [c]); [|exact Hc|apply plain_passes; assumption].
           intros _. exists d, rest'. split; [reflexivity|exact Hd].
        -- apply (Hnext false (json_escape_surrogate c));
             [discriminate|exact Hc|apply escape_u_passes].
    + destruct (is_low_surrogate c) eqn:Hlowc.
      * destruct (surrogate_facts c) as (Hc & _); [rewrite Hlowc; apply orb_true_r|].
        apply (Hnext false (json_escape_surrogate c));
          [discriminate|exact Hc|apply escape_u_passes].
      * destruct (Z.eq_dec c COLON) as [->|Hc].
        -- exists [], (json_body false rest). split; [reflexivity|exact Hnil].
        -- apply (Hnext false (json_escape c));
             [discriminate|exact Hc|apply json_escape_passes, Hc].
Qed.

Lemma colon_key_is_rejected constant s index :
  ctype constant = TString -> cvalue constant = VString s -> In COLON s ->
  exists message, rebuild_constant (constant_key constant, index) = Threw message.
Proof.
  intros Htype Hvalue Hin.
  unfold Reconstructor.rebuild_constant, Reconstructor.constant_key.
  rewrite Htype, Hvalue. cbn [type_name JSON_stringify].
  unfold JSON_stringify_string.
  destruct (json_body_cut s false ltac:(discriminate) Hin)
    as (before & after & -> & Hb1 & Hb2).
  change (str "string" ++ str ":" ++ DQUOTE :: (before ++ COLON :: after) ++ [DQUOTE])
    with (str "string" ++ COLON :: (DQUOTE :: (before ++ COLON :: after) ++ [DQUOTE])).
  rewrite split_on_first by (cbn; intuition discriminate).
  replace (DQUOTE :: (before ++ COLON :: after) ++ [DQUOTE])
    with ((DQUOTE :: before) ++ COLON :: (after ++ [DQUOTE]))
    by (cbn [app]; rewrite <- app_assoc; reflexivity).
  rewrite split_on_first.
  2:{ intros [H|H]; [discriminate H|exact (Hb1 H)]. }
  change (string_eqb (str "string") (str "number")) with false. cbv iota.
  unfold Reconstructor.JSON_parse.
  change (drop_json_space (DQUOTE :: before)) with (DQUOTE :: before).
  change (startsWith (str "null") (DQUOTE :: before)) with false.
  change (startsWith (str "true") (DQUOTE :: before)) with false.
  change (startsWith (str "false") (DQUOTE :: before)) with false.
  cbv iota. rewrite Z.eqb_refl.
  specialize (Hb2 [] eq_refl). rewrite app_nil_r in Hb2. rewrite Hb2.
  eexists. reflexivity.
Qed.

Lemma rebuild_constants_rejects entries entry message :
  In entry entries -> rebuild_constant entry = Threw message ->
  exists message', rebuild_constants entries = Threw message'.
Proof.
  induction entries as [|e entries IH]; intros Hin Hthrow; [contradiction|].
  cbn [Reconstructor.rebuild_constants].
  destruct Hin as [->|Hin].
  - rewrite Hthrow. eexists. reflexivity.
  - destruct (rebuild_constant e); [|eexists; reflexivity].
    destruct (IH Hin Hthrow) as [message' ->]. eexists. reflexivity.
Qed.

Lemma key_index_in m key v :
  key_index m key = Some v -> In (key, v) m.
Proof.
  induction m as [|[k w] m IH]; [discriminate|]. cbn [key_index].
  destruct (string_eqb k key) eqn:E.
  - intros H. injection H as <-. left. apply string_eqb_eq in E. subst k. reflexivity.
  - intros H. right. apply IH, H.
Qed.

Lemma number_constants_keeps constants : forall index unique mapping entry,
  In entry unique ->
  In entry (fst (number_constants constants index unique mapping)).
Proof.
  induction constants as [|k constants IH]; intros index unique mapping entry Hin.
  - exact Hin.
  - cbn [Reconstructor.number_constants].
    destruct (key_index unique (constant_key k)); apply IH; [exact Hin|].
    apply in_or_app. left. exact Hin.
Qed.

Lemma number_constants_has_key constants constant : forall index unique mapping,
  In constant constants ->
  exists v, In (constant_key constant, v)
               (fst (number_constants constants index unique mapping)).
Proof.
  induction constants as [|k constants IH]; intros index unique mapping Hin;
    [contradiction|].
  cbn [Reconstructor.number_constants].
  destruct Hin as [->|Hin].
  - destruct (key_index unique (constant_key constant)) as [known|] eqn:E.
    + exists known. apply number_constants_keeps, key_index_in, E.
    + eexists. apply number_constants_keeps, in_or_app. right. left. reflexivity.
  - destruct (key_index unique (constant_key k)); apply IH, Hin.
Qed.

Lemma optimizeConstantLoading_rejects proto constant s :
  In constant (constants proto) ->
  ctype constant = TString -> cvalue constant = VString s -> In COLON s ->
  exists message,
    optimizeConstantLoading Number_toString parseFloat JSON_parse_other proto
    = Threw message.
Proof.
  intros Hin Htype Hvalue Hcolon.
  unfold optimizeConstantLoading.
  destruct (number_constants_has_key (constants proto) constant 0 [] [] Hin)
    as [v Hkey].
  destruct (Reconstructor.number_constants Number_toString (constants proto) 0 [] [])
    as [unique mapping].
  cbn [fst] in Hkey.
  destruct (colon_key_is_rejected constant s v Htype Hvalue Hcolon) as [message Hrej].
  destruct (rebuild_constants_rejects _ _ _ Hkey Hrej) as [message' ->].
  eexists. reflexivity.
Qed.

(** X16.  A colon in a string constant makes the whole reconstruction
    fail.  The optimizer builds the key of a constant from its type, a
    colon and the JSON text of its value, and cuts the key at every
    colon when it rebuilds the pool: of a string with a colon it parses
    the text up to that colon, which is no JSON text.  The pass throws,
    and [reconstructFromVM] answers [success = false] with the empty
    prototype and one error, whatever the handlers are. *)
Theorem colon_in_string_constant_fails
        (context : ReconstructionContext) (constant : VMConstant) (s : jsstring) :
  In constant (decryptConstants (rc_constants context) (encryptionInfo context)) ->
  ctype constant = TString -> cvalue constant = VString s -> In (ch ":") s ->
  exists result message,
    reconstructFromVM Number_toString parseFloat JSON_parse_other context = Some result /\
    rr_success result = false /\
    rr_proto result = createEmptyProto /\
    errors (statistics result) = [message].
Proof.
  intros Hin Htype Hvalue Hcolon.
  unfold reconstructFromVM.
  match goal with |- context [process_handlers ?h context ?l ?st] =>
    pose proof (process_handlers_counts context h l st) as Hcount;
    destruct (process_handlers h context l st) as [instructions' stats'] end.
  destruct Hcount as (_ & _ & _ & _ & Herrors).
  cbn [errors] in Herrors.
  unfold optimizeReconstructedBytecode.
  match goal with |- context [optimizeConstantLoading _ _ _ ?p] =>
    destruct (optimizeConstantLoading_rejects p constant s) as [message ->];
      [exact Hin|exact Htype|exact Hvalue|exact Hcolon|]
  end.
  eexists; exists message. split; [reflexivity|].
  cbn [rr_success rr_proto statistics errors]. rewrite Herrors.
  repeat split.
Qed.

End ColonInConstant.

Lemma colon_in_string_constant_fails_witness :
  exists result message,
    Reconstructor.reconstructFromVM (fun _ => []) (fun _ => F64 0) (fun _ => AST.Threw [])
      (Reconstructor.mkReconstruction []
         [VMInstructions.mkConstant VMInstructions.TString (VString (str "a:b")) 0]
         (Decryptor.mkInfo (str "xor_v1") [] None (str "xor_v1") (str "11.5"))
         (str "11.5") [])
    = Some result /\
    Reconstructor.rr_success result = false /\
    Reconstructor.rr_proto result = Reconstructor.createEmptyProto /\
    Reconstructor.errors (Reconstructor.statistics result) = [message].
Proof.
  apply (colon_in_string_constant_fails (fun _ => []) (fun _ => F64 0) (fun _ => AST.Threw [])
           _ (VMInstructions.mkConstant VMInstructions.TString (VString (str "a:b")) 0)
           (str "a:b")).
  - vm_compute. left. reflexivity.
  - reflexivity.
  - reflexivity.
  - vm_compute. tauto.
Defined.

(* ================================================================== *)
(** * Further properties of the analysis of the virtual machine        *)
(* ================================================================== *)

Section Analysis.
Import AST VMInstructions SymbolicExecutor LuraphAnalysis AnalysisSpec.

Variable toLowerCase : jsstring -> jsstring.

Local Abbreviation extractVMHandlers := (LuraphAnalysis.extractVMHandlers toLowerCase).
Local Abbreviation extract_handler := (LuraphAnalysis.extract_handler toLowerCase).
Local Abbreviation analyzeAST := (LuraphAnalysis.analyzeAST toLowerCase).

Lemma map_set_not_empty {V} (m : NumberMap V) key v : map_set m key v <> [].
Proof.
  destruct m as [|[k v'] m]; cbn [map_set]; [discriminate|].
  destruct (k =? key); discriminate.
Qed.

Lemma extract_handler_keeps node run :
  handlers_found run -> handlers_found (extract_handler node run).
Proof.
  destruct run as [vm|e vm]; cbn [LuraphAnalysis.extract_handler handlers_found];
    [|trivial].
  intros H. destruct (variant_of node); try exact H.
  destruct isVMHandler; [|exact H]. destruct handlerIndex; [|exact H].
  destruct (guessOpcodeFromHandler toLowerCase name body); cbn [handlers_found];
    [|trivial].
  apply map_set_not_empty.
Qed.

Lemma extract_handler_finds node run name parameters body isLocal handlerIndex :
  variant_of node = FunctionDeclaration name parameters body isLocal true (Some handlerIndex) ->
  handlers_found (extract_handler node run).
Proof.
  intros E. destruct run as [vm|e vm]; cbn [LuraphAnalysis.extract_handler handlers_found];
    [|trivial].
  rewrite E. destruct (guessOpcodeFromHandler toLowerCase name body); cbn [handlers_found];
    [|trivial].
  apply map_set_not_empty.
Qed.

Lemma fold_keeps {St} (P : St -> Prop) (inspect : ASTNode -> St -> St) :
  (forall node s, P s -> P (inspect node s)) ->
  forall nodes s, P s -> P (fold_left (fun s n => inspect n s) nodes s).
Proof.
  intros Hkeep. induction nodes as [|n nodes IH]; intros s H; cbn [fold_left]; [exact H|].
  apply IH, Hkeep, H.
Qed.

Lemma extractVMHandlers_finds ast node name parameters body isLocal handlerIndex :
  In node (GateSpec.visited ast) ->
  variant_of node = FunctionDeclaration name parameters body isLocal true (Some handlerIndex) ->
  forall run, handlers_found (extractVMHandlers ast run).
Proof.
  intros Hin E run.
  rewrite (checkNode_visits Run extract_handler extractVMHandlers);
    [|intros; reflexivity].
  destruct (in_split _ _ Hin) as (front & back & ->).
  rewrite fold_left_app. cbn [fold_left].
  apply (fold_keeps handlers_found extract_handler extract_handler_keeps).
  apply (extract_handler_finds _ _ _ _ _ _ _ E).
Qed.

Lemma find_info_keeps node run :
  handlers_found run -> handlers_found (find_info node run).
Proof.
  destruct run as [vm|e vm]; cbn [find_info handlers_found]; [|trivial].
  intros H. destruct (variant_of node); try exact H.
  - destruct (hd_error right) as [value|]; [|exact H].
    destruct (variant_of value); try exact H.
    destruct value0; try exact H.
    destruct (isEncryptionKey s); exact H.
  - destruct encryptionMethod; exact H.
Qed.

Lemma extract_fields_keeps fields : forall index vm,
  same_handlers vm (extract_fields fields index vm).
Proof.
  induction fields as [|field fields IH]; intros index vm; cbn [extract_fields];
    [reflexivity|].
  assert (H : same_handlers vm (extract_field field index vm)).
  { unfold extract_field. destruct (variant_of field); cbn [same_handlers]; trivial.
    - destruct value; cbn [same_handlers]; trivial.
    - destruct (variant_of value); cbn [same_handlers]; trivial.
    - destruct value as [[| | | |]|]; cbn [same_handlers]; trivial. }
  destruct (extract_field field index vm) as [vm'|e vm']; cbn [same_handlers] in *;
    [|trivial].
  specialize (IH (index + 1) vm').
  destruct (extract_fields fields (index + 1) vm'); cbn [same_handlers] in *; [|trivial].
  congruence.
Qed.

Lemma extract_table_keeps node run :
  handlers_found run -> handlers_found (extract_table node run).
Proof.
  destruct run as [vm|e vm]; cbn [extract_table handlers_found]; [|trivial].
  intros H. destruct (variant_of node); try exact H.
  destruct isConstantTable; [|exact H].
  pose proof (extract_fields_keeps fields 0 vm) as Hsame.
  destruct (extract_fields fields 0 vm); cbn [same_handlers handlers_found] in *;
    [|trivial].
  congruence.
Qed.

Lemma mapVMOperations_throws run :
  handlers_found run -> exists message vm, mapVMOperations run = Thrown message vm.
Proof.
  destruct run as [vm|e vm]; cbn [mapVMOperations handlers_found]; intros H.
  - destruct (vm_handlers vm) as [|[index handler] rest]; [contradiction|].
    cbn [mapVMOperations_loop HandlerPatterns.analyzeHandlerPattern_of].
    eexists. eexists. reflexivity.
  - eexists. eexists. reflexivity.
Qed.

(** X17.  The analysis cannot cope with a handler: when the traversal
    of [analyzeAST] meets a function declaration that is marked as a
    handler of the virtual machine and has a handler index, the call
    throws.  [mapVMOperations] hands the handlers it has collected to
    [analyzeHandlerPattern], which reads the [body] they do not have. *)
Theorem analyzeAST_throws_on_handlers
        (vm : VMState) (ast node name : ASTNode) (parameters : list ASTNode)
        (body : ASTNode) (isLocal : bool) (handlerIndex : Z) :
  In node (GateSpec.visited ast) ->
  variant_of node = FunctionDeclaration name parameters body isLocal true (Some handlerIndex) ->
  exists message vm', analyzeAST vm ast = (Threw message, vm').
Proof.
  intros Hin E. unfold LuraphAnalysis.analyzeAST. cbv zeta.
  set (start := Running _).
  pose proof (extractVMHandlers_finds ast node _ _ _ _ _ Hin E start) as H.
  set (run1 := extractVMHandlers ast start) in *.
  assert (H2 : handlers_found (findEncryptionInfo ast run1)).
  { rewrite (checkNode_visits Run find_info findEncryptionInfo); [|intros; reflexivity].
    apply (fold_keeps handlers_found find_info find_info_keeps), H. }
  set (run2 := findEncryptionInfo ast run1) in *.
  assert (H3 : handlers_found (extractConstants ast run2)).
  { rewrite (checkNode_visits Run extract_table extractConstants); [|intros; reflexivity].
    apply (fold_keeps handlers_found extract_table extract_table_keeps), H2. }
  destruct (mapVMOperations_throws _ H3) as (message & vm' & ->).
  exists message, vm'. reflexivity.
Qed.

Lemma mapVMOperations_returns run vm :
  mapVMOperations run = Running vm -> run = Running vm /\ vm_handlers vm = [].
Proof.
  destruct run as [vm0|e vm0]; cbn [mapVMOperations]; [|discriminate].
  destruct (vm_handlers vm0) as [|[index handler] rest] eqn:E;
    cbn [mapVMOperations_loop HandlerPatterns.analyzeHandlerPattern_of];
    [|discriminate].
  intros H. injection H as <-. split; [reflexivity|exact E].
Qed.

Variable Number_toString : JSNumber -> jsstring.
Variable parseFloat : jsstring -> JSNumber.
Variable JSON_parse_other : jsstring -> Outcome JSValue.

Local Abbreviation reconstructBytecode :=
  (LuraphAnalysis.reconstructBytecode Number_toString parseFloat JSON_parse_other).

Lemma optimizeConstantLoading_code proto proto' :
  Reconstructor.optimizeConstantLoading Number_toString parseFloat JSON_parse_other proto
  = Returned proto' ->
  instructions proto = [] -> instructions proto' = [].
Proof.
  unfold Reconstructor.optimizeConstantLoading.
  destruct (Reconstructor.number_constants _ _ _ _ _) as [uniqueConstants constantMapping].
  destruct (Reconstructor.rebuild_constants _ _ _); [|discriminate].
  intros H Hcode. injection H as <-. cbn. rewrite Hcode. reflexivity.
Qed.

Lemma nothing_to_reconstruct vm :
  vm_handlers vm = [] ->
  exists proto, reconstructBytecode vm = Some proto /\ instructions proto = [].
Proof.
  intros E. unfold LuraphAnalysis.reconstructBytecode, Reconstructor.reconstructFromVM.
  cbn [Reconstructor.handlers]. rewrite E.
  cbn [Reconstructor.sort_entries fold_left Reconstructor.process_handlers].
  cbv zeta. unfold Reconstructor.optimizeReconstructedBytecode.
  cbn [instructions Reconstructor.with_code Reconstructor.removeRedundantInstructions].
  cbv zeta.
  destruct (Reconstructor.optimizeConstantLoading _ _ _ _) as [proto|e] eqn:Eopt.
  - apply optimizeConstantLoading_code in Eopt; [|reflexivity].
    unfold Reconstructor.removeDeadCode. rewrite Eopt.
    cbn. eexists. split; [reflexivity|]. cbn. reflexivity.
  - cbn. eexists. split; reflexivity.
Qed.

(** X18.  When [analyzeAST] returns, it has found no handler, and its
    answer holds no instruction: [extractedInstructions] and the
    instructions of [reconstructedProto] are empty, and a call of
    [reconstructBytecode] behind it returns a prototype without
    instructions as well. *)
Theorem analyzeAST_returns_no_instruction
        (vm vm' : VMState) (ast : ASTNode) (context : DeobfuscationContext) :
  analyzeAST vm ast = (Returned context, vm') ->
  vm_handlers vm' = [] /\
  extractedInstructions context = [] /\
  instructions (reconstructedProto context) = [] /\
  exists proto, reconstructBytecode vm' = Some proto /\ instructions proto = [].
Proof.
  unfold LuraphAnalysis.analyzeAST. cbv zeta.
  destruct (mapVMOperations _) as [vm1|e vm1] eqn:E; [|discriminate].
  intros H. injection H as <- <-.
  apply mapVMOperations_returns in E. destruct E as [_ E].
  repeat split; try reflexivity; [exact E|].
  apply nothing_to_reconstruct, E.
Qed.

End Analysis.

Lemma analyzeAST_throws_on_handlers_witness :
  exists message vm',
    LuraphAnalysis.analyzeAST (map lower_ascii) LuraphAnalysis.new_LuraphVM
      (AST.node AST.PosUndefined
         (AST.BlockStatement
            [AST.node AST.PosUndefined
               (AST.FunctionDeclaration
                  (AST.node AST.PosUndefined (AST.Identifier (str "vm_handler_1") false)) []
                  (AST.node AST.PosUndefined (AST.BlockStatement []))
                  false true (Some 1))]))
    = (AST.Threw message, vm').
Proof.
  eapply (analyzeAST_throws_on_handlers (map lower_ascii)).
  - cbn. right. left. reflexivity.
  - reflexivity.
Defined.

Lemma analyzeAST_returns_no_instruction_witness :
  LuraphAnalysis.vm_handlers LuraphAnalysis.new_LuraphVM = [] /\
  LuraphAnalysis.extractedInstructions
    (LuraphAnalysis.mkDeobfuscation
       (LuraphAnalysis.vmContext LuraphAnalysis.new_LuraphVM) [] []
       (LuraphAnalysis.createEmptyProto LuraphAnalysis.new_LuraphVM)) = [] /\
  VMInstructions.instructions
    (LuraphAnalysis.reconstructedProto
       (LuraphAnalysis.mkDeobfuscation
          (LuraphAnalysis.vmContext LuraphAnalysis.new_LuraphVM) [] []
          (LuraphAnalysis.createEmptyProto LuraphAnalysis.new_LuraphVM))) = [] /\
  exists proto,
    LuraphAnalysis.reconstructBytecode (fun _ => []) (fun _ => F64 0) (fun _ => AST.Threw [])
                                       LuraphAnalysis.new_LuraphVM = Some proto /\
    VMInstructions.instructions proto = [].
Proof.
  apply (analyzeAST_returns_no_instruction (map lower_ascii)
           (fun _ => []) (fun _ => F64 0) (fun _ => AST.Threw [])
           LuraphAnalysis.new_LuraphVM LuraphAnalysis.new_LuraphVM
           (AST.node AST.PosUndefined (AST.BlockStatement []))).
  reflexivity.
Defined.

Section Constants.
Import AST VMInstructions SymbolicExecutor LuraphAnalysis AnalysisSpec.

Lemma decryptConstants_from_app front back info : forall i,
  Reconstructor.decryptConstants_from i (front ++ back) info
  = Reconstructor.decryptConstants_from i front info ++
    Reconstructor.decryptConstants_from (i + Z.of_nat (List.length front)) back info.
Proof.
  induction front as [|constant front IH]; intros i;
    cbn [app Reconstructor.decryptConstants_from List.length].
  - rewrite Z.add_0_r. reflexivity.
  - rewrite IH.
    replace (i + Z.of_nat (S (List.length front))) with (i + 1 + Z.of_nat (List.length front))
      by lia.
    reflexivity.
Qed.

Lemma decryptString_xor encrypted info :
  Decryptor.info_method info = str "xor_v1" \/ Decryptor.info_method info = str "xor_v2" ->
  let once := Reconstructor.decryptString encrypted info in
  Decryptor.success once = true /\
  Decryptor.success (Reconstructor.decryptString (Decryptor.decrypted once) info) = true /\
  Decryptor.decrypted (Reconstructor.decryptString (Decryptor.decrypted once) info)
  = encrypted.
Proof.
  intros [E|E]; unfold Reconstructor.decryptString, Decryptor.call_depth;
    cbn [Decryptor.decryptString]; rewrite E; cbn [string_eqb]; cbv zeta.
  - change (string_eqb (str "xor_v1") (str "xor_v1")) with true. cbv iota.
    cbn [Decryptor.xorDecryptV1 Decryptor.success Decryptor.decrypted].
    repeat split. apply xorDecryptV1_twice.
  - change (string_eqb (str "xor_v2") (str "xor_v1")) with false.
    change (string_eqb (str "xor_v2") (str "xor_v2")) with true. cbv iota.
    cbn [Decryptor.xorDecryptV2 Decryptor.success Decryptor.decrypted].
    repeat split. apply xorDecryptV2_twice.
Qed.

(** X19.  An encrypted string of a constant table is decrypted twice:
    once when [extractConstants] puts it into the pool, and once more
    when the reconstructor runs [decryptConstants] over the pool.  With
    one of the XOR methods, which undo themselves, the constant comes
    out of the second pass as the text it was encrypted as. *)
Theorem xor_constants_are_decrypted_twice
        (vm : VMState) (position : Position) (children : option (list ASTNode))
        (key : option ASTNode) (kind : FieldKind) (value : ASTNode)
        (encryptedValue encryptionMethod : jsstring) (index : Z) :
  Decryptor.info_method (vm_encryptionInfo vm) = str "xor_v1" \/
  Decryptor.info_method (vm_encryptionInfo vm) = str "xor_v2" ->
  variant_of value = EncryptedString encryptedValue encryptionMethod ->
  exists vm',
    extract_field (Node position children (TableField key value kind)) index vm
    = Running vm' /\
    vm_encryptionInfo vm' = vm_encryptionInfo vm /\
    map cvalue (Reconstructor.decryptConstants (vm_constants vm') (vm_encryptionInfo vm'))
    = map cvalue (Reconstructor.decryptConstants (vm_constants vm) (vm_encryptionInfo vm))
      ++ [VString encryptedValue].
Proof.
  intros Hmethod Hvalue.
  destruct (decryptString_xor encryptedValue _ Hmethod) as (Hfirst & Hsecond & Htwice).
  eexists. split; [|split].
  - unfold extract_field. cbn [variant_of]. rewrite Hvalue. reflexivity.
  - reflexivity.
  - cbn [push_constant vm_constants vm_encryptionInfo].
    unfold Reconstructor.decryptConstants. rewrite decryptConstants_from_app, map_app.
    f_equal. rewrite Hfirst.
    cbn [Reconstructor.decryptConstants_from ctype cvalue map].
    rewrite Hsecond, Htwice. reflexivity.
Qed.

Lemma hex_digit_is_base64_like c : is_hex_digit c = true -> Detection.is_base64_like c = true.
Proof.
  unfold is_hex_digit, Detection.is_base64_like, is_alnum, is_alpha, is_digit, in_range.
  intros H. apply orb_prop in H. destruct H as [H|H].
  - apply orb_prop in H. destruct H as [H|H].
    + rewrite H. repeat rewrite orb_true_r. reflexivity.
    + apply andb_prop in H. destruct H as [H1 H2].
      apply Z.leb_le in H1, H2.
      replace ((97 <=? c) && (c <=? 122)) with true; [reflexivity|].
      symmetry. apply andb_true_intro. split; apply Z.leb_le; lia.
  - apply andb_prop in H. destruct H as [H1 H2].
    apply Z.leb_le in H1, H2.
    replace ((65 <=? c) && (c <=? 90)) with true;
      [rewrite orb_true_r; reflexivity|].
    symmetry. apply andb_true_intro. split; apply Z.leb_le; lia.
Qed.

(** X20.  The second test of [isEncryptionKey], for a hexadecimal key,
    adds nothing to the first: a text counts as an encryption key
    exactly when it has sixteen characters or more and all of them are
    letters, digits, [+], [/] or [=]. *)
Theorem isEncryptionKey_is_the_base64_test (value : jsstring) :
  isEncryptionKey value
  = (16 <=? List.length value)%nat && forallb Detection.is_base64_like value.
Proof.
  unfold isEncryptionKey, all_of.
  destruct value as [|c rest]; [reflexivity|].
  set (text := c :: rest).
  destruct ((16 <=? List.length text)%nat) eqn:E16; cbn [andb orb].
  - destruct (forallb Detection.is_base64_like text) eqn:E64; [reflexivity|].
    cbn [orb]. destruct (forallb is_hex_digit text) eqn:Ehex;
      [|apply andb_false_r].
    exfalso. rewrite forallb_forall in Ehex.
    assert (forallb Detection.is_base64_like text = true); [|congruence].
    apply forallb_forall. intros x Hx. apply hex_digit_is_base64_like, Ehex, Hx.
  - replace ((32 <=? List.length text)%nat) with false; [reflexivity|].
    symmetry. apply Nat.leb_gt. apply Nat.leb_gt in E16. lia.
Qed.

Variable toLowerCase : jsstring -> jsstring.

(** X21.  [guessOpcodeFromHandler] never answers GETTABLE or SETTABLE:
    the test for a name with [table] in it, which answers NEWTABLE,
    stands in front of the two tests that ask for [get] or [set] and
    [table]; and the patterns of the body give MOVE, LOADK or ADD. *)
Theorem guessOpcodeFromHandler_never_indexes (name body : ASTNode) (opcode : LuaOpcode) :
  guessOpcodeFromHandler toLowerCase name body = Returned opcode ->
  opcode <> GETTABLE /\ opcode <> SETTABLE.
Proof.
  unfold guessOpcodeFromHandler.
  destruct (LuraphVM_003.name_property name) as [text|]; [|discriminate].
  destruct (guessFromName (toLowerCase text)) as [guess|] eqn:E.
  - intros H. injection H as <-. revert E. unfold guessFromName. cbv beta zeta.
    generalize (toLowerCase text). intros lower.
    destruct (includes lower (str "table")); rewrite ?andb_false_r;
      repeat match goal with
             | |- (if ?c then _ else _) = _ -> _ => destruct c
             end;
      intros E; try discriminate; injection E as <-; split; discriminate.
  - unfold analyzeHandlerBody.
    destruct (variant_of body); try discriminate.
    intros H. injection H as <-.
    induction statements as [|stmt rest IH]; cbn [analyzeHandlerBody_loop];
      [split; discriminate|].
    destruct (variant_of stmt); try exact IH.
    destruct (hd_error left) as [left0|]; [|exact IH].
    destruct (hd_error right) as [right0|]; [|exact IH].
    destruct (isRegisterAccess left0 && isRegisterAccess right0); [split; discriminate|].
    destruct (isRegisterAccess left0 && isConstantAccess right0); [split; discriminate|].
    destruct (variant_of right0); try exact IH.
    destruct (string_eqb operator (str "+")); [split; discriminate|exact IH].
Qed.

End Constants.

Lemma xor_constants_are_decrypted_twice_witness :
  exists vm',
    LuraphAnalysis.extract_field
      (AST.node AST.PosUndefined
         (AST.TableField None
            (AST.node AST.PosUndefined (AST.EncryptedString (str "abc") (str "xor_v1")))
            AST.ListField))
      0 (LuraphAnalysis.set_method LuraphAnalysis.new_LuraphVM (str "xor_v1"))
    = LuraphAnalysis.Running vm' /\
    LuraphAnalysis.vm_encryptionInfo vm'
    = LuraphAnalysis.vm_encryptionInfo
        (LuraphAnalysis.set_method LuraphAnalysis.new_LuraphVM (str "xor_v1")) /\
    map VMInstructions.cvalue
        (Reconstructor.decryptConstants (LuraphAnalysis.vm_constants vm')
                                        (LuraphAnalysis.vm_encryptionInfo vm'))
    = map VMInstructions.cvalue
          (Reconstructor.decryptConstants
             (LuraphAnalysis.vm_constants
                (LuraphAnalysis.set_method LuraphAnalysis.new_LuraphVM (str "xor_v1")))
             (LuraphAnalysis.vm_encryptionInfo
                (LuraphAnalysis.set_method LuraphAnalysis.new_LuraphVM (str "xor_v1"))))
      ++ [VString (str "abc")].
Proof.
  apply (xor_constants_are_decrypted_twice
           (LuraphAnalysis.set_method LuraphAnalysis.new_LuraphVM (str "xor_v1"))
           AST.PosUndefined None None AST.ListField
           (AST.node AST.PosUndefined (AST.EncryptedString (str "abc") (str "xor_v1")))
           (str "abc") (str "xor_v1") 0).
  - left. reflexivity.
  - reflexivity.
Defined.

Lemma guessOpcodeFromHandler_never_indexes_witness :
  VMInstructions.NEWTABLE <> VMInstructions.GETTABLE /\
  VMInstructions.NEWTABLE <> VMInstructions.SETTABLE.
Proof.
  apply (guessOpcodeFromHandler_never_indexes (map lower_ascii)
           (AST.node AST.PosUndefined (AST.Identifier (str "get_table") false))
           (AST.node AST.PosUndefined (AST.BlockStatement []))).
  vm_compute. reflexivity.
Defined.

(* ================================================================== *)
(** * Further properties of the symbolic executor                      *)
(* ================================================================== *)

Section SymbolicExecution.
Import AST VMInstructions SymbolicExecutor AnalysisSpec.




Lemma executeBlock_loop_stops statements steps lastInstruction ctx :
  (maxExecutionSteps < steps)%nat ->
  executeBlock_loop statements steps lastInstruction ctx = (lastInstruction, ctx).
Proof.
  intros H. destruct statements as [|statement rest]; cbn [executeBlock_loop];
    [reflexivity|].
  replace (maxExecutionSteps <? steps)%nat with true
    by (symmetry; apply Nat.ltb_lt; exact H).
  reflexivity.
Qed.

Lemma executeBlock_loop_limit front extra : forall steps lastInstruction ctx,
  (maxExecutionSteps < steps + List.length front)%nat ->
  executeBlock_loop (front ++ extra) steps lastInstruction ctx
  = executeBlock_loop front steps lastInstruction ctx.
Proof.
  induction front as [|statement front IH]; intros steps lastInstruction ctx Hsteps;
    cbn [app List.length] in *.
  - rewrite Nat.add_0_r in Hsteps. rewrite executeBlock_loop_stops by exact Hsteps.
    reflexivity.
  - cbn [executeBlock_loop].
    destruct (maxExecutionSteps <? steps)%nat; [reflexivity|].
    destruct (executeStatement ctx statement) as [result ctx'].
    apply IH. lia.
Qed.


(** X23.  The symbolic execution looks at the first 1001 statements of
    a body and at no other: statements behind them change neither the
    answer nor the registers.  (The bound [maxExecutionSteps] is 1000;
    the loop compares it with the count before the count goes up.) *)
Theorem statements_past_the_limit_are_ignored
        (handler longer name : ASTNode) (parameters : list ASTNode) (position : Position)
        (children : option (list ASTNode)) (front extra : list ASTNode)
        (isLocal isVMHandler : bool) (handlerIndex : option Z)
        (vmConstants : list VMConstant) :
  variant_of handler
  = FunctionDeclaration name parameters (Node position children (BlockStatement front))
                        isLocal isVMHandler handlerIndex ->
  variant_of longer
  = FunctionDeclaration name parameters
      (Node position children (BlockStatement (front ++ extra)))
      isLocal isVMHandler handlerIndex ->
  (maxExecutionSteps < List.length front)%nat ->
  executeVMHandler longer vmConstants = executeVMHandler handler vmConstants.
Proof.
  intros Ehandler Elonger Hfront.
  unfold executeVMHandler, body_of. rewrite Ehandler, Elonger. cbn [executeBlock].
  rewrite executeBlock_loop_limit by (cbn [Nat.add]; exact Hfront).
  reflexivity.
Qed.

End SymbolicExecution.

Section Patterns.
Import AST VMInstructions SymbolicExecutor HandlerPatterns AnalysisSpec.

Lemma analyzeNode_block position children statement rest patterns :
  analyzeNode (Node position children (BlockStatement (statement :: rest))) patterns
  = match analyzeNode statement patterns with
    | Returned patterns => analyzeNode (Node position children (BlockStatement rest)) patterns
    | Threw e => Threw e
    end.
Proof. cbn [analyzeNode]. destruct (analyzeNode statement patterns); reflexivity. Qed.

Local Abbreviation register_patterns :=
  (Forall (fun p => p = str "register_assignment" \/ p = str "register_call")).

Local Abbreviation calls := (existsb (string_eqb (str "register_call"))).

Lemma analyzeNode_plain statement patterns patterns' :
  plain_statement statement = true ->
  analyzeNode statement patterns = Returned patterns' ->
  register_patterns patterns ->
  register_patterns patterns' /\
  calls patterns' = calls patterns || register_call statement.
Proof.
  destruct statement as [position children variant].
  unfold plain_statement, register_call. cbn [variant_of analyzeNode].
  intros Hplain H Hps.
  destruct variant; try discriminate;
    try (injection H as <-; split; [exact Hps|rewrite orb_false_r; reflexivity]).
  - destruct (isRegisterAccess callee); injection H as <-.
    + split.
      * apply Forall_app. split; [exact Hps|]. constructor; [right; reflexivity|constructor].
      * rewrite existsb_app. cbn. rewrite orb_true_r. reflexivity.
    + split; [exact Hps|rewrite orb_false_r; reflexivity].
  - destruct (hd_error left) as [left0|]; [|discriminate].
    injection H as <-. destruct (isRegisterAccess left0).
    + split.
      * apply Forall_app. split; [exact Hps|]. constructor; [left; reflexivity|constructor].
      * rewrite existsb_app. cbn. rewrite !orb_false_r. reflexivity.
    + split; [exact Hps|rewrite orb_false_r; reflexivity].
Qed.

Lemma analyzeNode_plain_block position children statements :
  forallb plain_statement statements = true ->
  forall patterns patterns',
    analyzeNode (Node position children (BlockStatement statements)) patterns
    = Returned patterns' ->
    register_patterns patterns ->
    register_patterns patterns' /\
    calls patterns' = calls patterns || existsb register_call statements.
Proof.
  induction statements as [|statement rest IH]; intros Hplain patterns patterns' H Hps.
  - cbn in H. injection H as <-. split; [exact Hps|].
    cbn [existsb]. rewrite orb_false_r. reflexivity.
  - rewrite analyzeNode_block in H. cbn [forallb] in Hplain.
    apply andb_prop in Hplain. destruct Hplain as [Hstatement Hrest].
    destruct (analyzeNode statement patterns) as [patterns1|e] eqn:E; [|discriminate].
    destruct (analyzeNode_plain _ _ _ Hstatement E Hps) as [Hps1 Hcalls1].
    destruct (IH Hrest _ _ H Hps1) as [Hps' Hcalls'].
    split; [exact Hps'|].
    rewrite Hcalls', Hcalls1. cbn [existsb]. rewrite orb_assoc. reflexivity.
Qed.

Lemma no_binary_pattern patterns pattern :
  register_patterns patterns ->
  startsWith (str "binary_") pattern = true ->
  existsb (string_eqb pattern) patterns = false.
Proof.
  intros Hps Hpattern. induction Hps as [|p patterns Hp _ IH]; [reflexivity|].
  cbn [existsb]. rewrite IH, orb_false_r.
  destruct (string_eqb pattern p) eqn:E; [|reflexivity].
  apply string_eqb_eq in E. subst pattern.
  destruct Hp as [-> | ->]; vm_compute in Hpattern; discriminate.
Qed.

(** X24.  [analyzeHandlerPattern] looks at the statements of the body
    and not into them.  Unless one of them is itself a binary
    expression or a block, the likely opcode is CALL when a statement
    calls a register and MOVE otherwise, so that the handler of
    [R[1] = R[2] + R[3]] counts as a MOVE; and the complexity it
    reports is 0 for every handler. *)
Theorem assignments_are_never_arithmetic
        (handler name : ASTNode) (parameters : list ASTNode) (position : Position)
        (children : option (list ASTNode)) (statements : list ASTNode)
        (isLocal isVMHandler : bool) (handlerIndex : option Z)
        (analysis : PatternAnalysis) :
  variant_of handler
  = FunctionDeclaration name parameters
      (Node position children (BlockStatement statements))
      isLocal isVMHandler handlerIndex ->
  forallb plain_statement statements = true ->
  analyzeHandlerPattern handler = Returned analysis ->
  complexity analysis = 0 /\
  likelyOpcode analysis = if existsb register_call statements then CALL else MOVE.
Proof.
  intros Ehandler Hplain.
  unfold analyzeHandlerPattern, body_of. rewrite Ehandler.
  cbn [analyzeHandlerPattern_of].
  destruct (analyzeNode _ []) as [patterns|e] eqn:E; [|discriminate].
  intros H. injection H as <-. cbn [complexity likelyOpcode].
  split; [reflexivity|].
  destruct (analyzeNode_plain_block _ _ _ Hplain _ _ E (Forall_nil _)) as [Hps Hcalls].
  cbn [existsb orb] in Hcalls.
  unfold determineOpcodeFromPatterns. cbv zeta.
  rewrite (no_binary_pattern patterns (str "binary_+") Hps) by reflexivity.
  rewrite (no_binary_pattern patterns (str "binary_-") Hps) by reflexivity.
  rewrite !andb_false_r, Hcalls.
  destruct (existsb register_call statements); [reflexivity|].
  destruct (_ && _); reflexivity.
Qed.

End Patterns.


Lemma statements_past_the_limit_are_ignored_witness :
  SymbolicExecutor.executeVMHandler
    (AST.object
       (AST.FunctionDeclaration
          (AST.object (AST.Identifier (str "handler") false)) []
          (AST.object
             (AST.BlockStatement
                (repeat (AST.object (AST.Literal VNull (str "nil"))) 1001
                 ++ [AST.object (AST.ReturnStatement [])])))
          false true (Some 1)))
    []
  = SymbolicExecutor.executeVMHandler
      (AST.object
         (AST.FunctionDeclaration
            (AST.object (AST.Identifier (str "handler") false)) []
            (AST.object
               (AST.BlockStatement
                  (repeat (AST.object (AST.Literal VNull (str "nil"))) 1001)))
            false true (Some 1)))
      [].
Proof.
  eapply statements_past_the_limit_are_ignored.
  - reflexivity.
  - reflexivity.
  - rewrite repeat_length. unfold SymbolicExecutor.maxExecutionSteps. lia.
Defined.

Lemma assignments_are_never_arithmetic_witness :
  HandlerPatterns.complexity
    (HandlerPatterns.mkAnalysis [str "register_assignment"] 0 VMInstructions.MOVE) = 0 /\
  HandlerPatterns.likelyOpcode
    (HandlerPatterns.mkAnalysis [str "register_assignment"] 0 VMInstructions.MOVE)
  = VMInstructions.MOVE.
Proof.
  apply (assignments_are_never_arithmetic
           (AST.object
              (AST.FunctionDeclaration
                 (AST.object (AST.Identifier (str "handler") false)) []
                 (AST.object
                    (AST.BlockStatement
                       [AST.object
                          (AST.AssignmentExpression
                             [AST.object
                                (AST.BinaryExpression
                                   (AST.object (AST.Identifier (str "R") false)) (str "[]")
                                   (AST.object (AST.Identifier (str "a") false)))]
                             [AST.object
                                (AST.BinaryExpression
                                   (AST.object
                                      (AST.BinaryExpression
                                         (AST.object (AST.Identifier (str "R") false))
                                         (str "[]")
                                         (AST.object (AST.Identifier (str "b") false))))
                                   (str "+")
                                   (AST.object
                                      (AST.BinaryExpression
                                         (AST.object (AST.Identifier (str "R") false))
                                         (str "[]")
                                         (AST.object (AST.Identifier (str "c") false)))))]
                             false)]))
                 false true (Some 1)))
           _ _ _ _ _ _ _ _ _ eq_refl eq_refl eq_refl).
Defined.

(* ================================================================== *)
(** * Further properties of the parser                                 *)
(* ================================================================== *)

Section Statements.
Import AST Lexer Loops Parser ParserSpec StatementSpec.

Variable tokens : list LuaToken.
Variable parseFloat : jsstring -> JSNumber.

Local Abbreviation in_sync := (ParserSpec.in_sync tokens).
Local Abbreviation sees := (StatementSpec.sees tokens).
Local Abbreviation isAtEnd := (Parser.isAtEnd tokens).
Local Abbreviation advanced := (Parser.advanced tokens).
Local Abbreviation check := (Parser.check tokens).
Local Abbreviation match_ := (Parser.match_ tokens).
Local Abbreviation consume := (Parser.consume tokens).
Local Abbreviation advance := (Parser.advance tokens).
Local Abbreviation previous := (Parser.previous tokens).


Lemma bind_returned {A B} (m : M A) (k : A -> M B) s x s' :
  m s = Some (Returned x, s') -> bind m k s = k x s'.
Proof. unfold bind. intros ->. reflexivity. Qed.

Lemma bind_threw {A B} (m : M A) (k : A -> M B) s e s' :
  m s = Some (Threw e, s') -> bind m k s = Some (Threw e, s').
Proof. unfold bind. intros ->. reflexivity. Qed.

Lemma bind_ret {A B} (x : A) (k : A -> M B) s : bind (ret x) k s = k x s.
Proof. reflexivity. Qed.

Lemma bind_read {A B} (f : ParserState -> A) (k : A -> M B) s :
  bind (read f) k s = k (f s) s.
Proof. reflexivity. Qed.

Lemma bind_update {B} (f : ParserState -> ParserState) (k : unit -> M B) s :
  bind (update f) k s = k tt (f s).
Proof. reflexivity. Qed.

(** Runs the first call of a method with the equation [E] for it. *)
Ltac pure_steps :=
  repeat (rewrite ?bind_assoc;
          first [rewrite bind_ret | rewrite bind_read | rewrite bind_update];
          cbv beta).

Ltac run E :=
  rewrite ?bind_assoc; rewrite (bind_returned _ _ _ _ _ E); cbv beta; pure_steps.

(** Takes the branch that the equation [E] chooses. *)
Ltac pick E := rewrite E; cbv iota; pure_steps.

Lemma check_sees type_ s :
  in_sync s -> check type_ s = Some (Returned (sees s type_), s).
Proof.
  intros Hs. unfold Parser.check, StatementSpec.sees, bind, read.
  destruct (isAtEnd s) eqn:E; [reflexivity|].
  destruct (not_at_end tokens s Hs E) as (_ & token & Hcur & _).
  unfold deref. rewrite Hcur. reflexivity.
Qed.

Lemma match_sees type_ s :
  in_sync s ->
  match_ [type_] s
  = Some (Returned (sees s type_), if sees s type_ then advanced s else s).
Proof.
  intros Hs. cbn [Parser.match_].
  rewrite (bind_returned _ _ _ _ _ (check_sees type_ s Hs)).
  destruct (sees s type_); reflexivity.
Qed.

Lemma sees_token s type_ :
  sees s type_ = true ->
  isAtEnd s = false /\
  exists token, current s = Some token /\ type_tag (type token) = type_tag type_.
Proof.
  unfold StatementSpec.sees. intros H. apply andb_prop in H. destruct H as [Hend H].
  apply negb_true_iff in Hend. split; [exact Hend|].
  destruct (current s) as [token|]; [|discriminate].
  exists token. split; [reflexivity|]. apply Nat.eqb_eq, H.
Qed.

Lemma sees_other s a b :
  sees s a = true -> type_eqb a b = false -> sees s b = false.
Proof.
  intros H Hab. destruct (sees_token s a H) as (Hend & token & Hcur & Htag).
  unfold StatementSpec.sees. rewrite Hend, Hcur. cbn [negb andb].
  unfold type_eqb in *. rewrite Htag. exact Hab.
Qed.

(** [previous] behind a token that was consumed. *)
Lemma previous_advanced s token :
  in_sync s -> isAtEnd s = false -> current s = Some token ->
  previous (advanced s) = Some token.
Proof.
  intros Hs Hend Hcur.
  destruct (not_at_end tokens s Hs Hend) as (_ & token' & Hcur' & Hnth & _).
  unfold Parser.previous, Parser.advanced. rewrite Hend. cbn [position].
  congruence.
Qed.

(** The start of [tryStatement] in front of a token that is no line
    break: the loop over the line breaks does nothing. *)
Lemma skip_no_newline {B} (k : unit -> M B) s :
  in_sync s -> sees s NEWLINE = false ->
  bind (loop (Parser.rounds tokens)
             (fun _ => newline <~ match_ [NEWLINE] ;;
                       ret (if newline then Continue tt else Break tt)) tt) k s
  = k tt s.
Proof.
  intros Hs Hsees. unfold Parser.rounds. cbn [loop].
  apply bind_returned.
  rewrite (bind_returned _ _ _ _ _ (bind_returned _ _ _ _ _ (match_sees NEWLINE s Hs))).
  rewrite Hsees. reflexivity.
Qed.

Lemma consume_throws type_ message s :
  in_sync s -> sees s type_ = false ->
  exists e, consume type_ message s = Some (Threw e, s).
Proof.
  intros Hs Hsees. unfold Parser.consume.
  rewrite (bind_returned _ _ _ _ _ (check_sees type_ s Hs)), Hsees.
  eexists. reflexivity.
Qed.

Lemma identifier_list_one s token :
  in_sync s -> previous s = Some token -> sees s COMMA = false ->
  identifier_list tokens s = Some (Returned [identifier_of token], s).
Proof.
  intros Hs Hprev Hcomma. unfold identifier_list, parseIdentifier, Parser.rounds.
  cbn [loop].
  assert (E : deref previous s = Some (Returned token, s)).
  { unfold deref. rewrite Hprev. reflexivity. }
  run E. run (match_sees COMMA s Hs). rewrite Hcomma. reflexivity.
Qed.

#[local] Arguments loop : simpl never.
#[local] Arguments Parser.match_ : simpl never.
#[local] Arguments Parser.rounds : simpl never.
#[local] Arguments str : simpl never.
#[local] Arguments Parser.identifier_list : simpl never.
#[local] Arguments Parser.synchronize : simpl never.
#[local] Arguments Parser.consume : simpl never.
#[local] Arguments Parser.check : simpl never.
#[local] Arguments Parser.advance : simpl never.
#[local] Arguments Parser.parseIdentifier : simpl never.
#[local] Arguments some : simpl never.
#[local] Arguments try_catch : simpl never.
#[local] Arguments bind : simpl never.

(** A statement that throws right behind its first word. *)
Lemma dropped_statement n s e :
  in_sync s -> isAtEnd s = false ->
  tryStatement tokens parseFloat n s = Some (Threw e, advanced s) ->
  exists s', parseStatement tokens parseFloat (S n) s = Some (Returned None, s') /\
             resumes tokens (advanced s) s'.
Proof.
  intros Hs Hend E. simpl parseStatement. unfold try_catch. rewrite E.
  destruct (synchronize_resumes tokens (advanced s) (advanced_in_sync tokens s Hs))
    as (s' & E' & H').
  exists s'. split; [|exact H'].
  rewrite (bind_returned _ _ _ _ _ E'). reflexivity.
Qed.

Lemma returned_statement n s stmt s' :
  tryStatement tokens parseFloat n s = Some (Returned stmt, s') ->
  parseStatement tokens parseFloat (S n) s = Some (Returned stmt, s').
Proof. intros E. simpl parseStatement. unfold try_catch. rewrite E. reflexivity. Qed.

Lemma function_throws n s :
  in_sync s -> sees s FUNCTION = true -> sees (advanced s) LPAREN = false ->
  exists e, tryStatement tokens parseFloat (S (S n)) s = Some (Threw e, advanced s).
Proof.
  intros Hs Hfunction Hparen.
  destruct (sees_token s FUNCTION Hfunction) as (Hend & token & Hcur & _).
  pose proof (advanced_in_sync tokens s Hs) as Hs1.
  simpl tryStatement.
  rewrite skip_no_newline; [|exact Hs|apply (sees_other s FUNCTION); auto].
  pure_steps. pick Hend.
  run (match_sees LOCAL s Hs). pick (sees_other s FUNCTION LOCAL Hfunction eq_refl).
  run (match_sees FUNCTION s Hs). pick Hfunction.
  unfold some. simpl parseFunctionDeclaration. unfold parseIdentifier.
  assert (E : deref previous (advanced s) = Some (Returned token, advanced s)).
  { unfold deref. rewrite (previous_advanced s token Hs Hend Hcur). reflexivity. }
  run E.
  destruct (consume_throws LPAREN "Expected '(' after function name" _ Hs1 Hparen)
    as [e He].
  exists e. rewrite ?bind_assoc. apply (bind_threw _ _ _ _ _ He).
Qed.

Lemma call_depth_SSS : exists n, call_depth tokens = S (S (S n)).
Proof. unfold call_depth. exists (29 + 32 * List.length tokens)%nat. lia. Qed.

(** X25.  A function with a name is not parsed.  [parseIdentifier]
    reads the token behind the parser, which is the word [function]
    itself, and consumes nothing; the token that follows must then be
    the opening parenthesis.  When it is anything else, as the name of
    the function is, the statement throws, and [parseStatement] returns
    null after [synchronize] has dropped the tokens up to the next
    recovery point. *)
Theorem named_function_is_dropped (s : ParserState) :
  in_sync s ->
  sees s FUNCTION = true ->
  sees (advanced s) LPAREN = false ->
  exists s',
    parseStatement tokens parseFloat (call_depth tokens) s = Some (Returned None, s') /\
    resumes tokens (advanced s) s'.
Proof.
  intros Hs Hfunction Hparen. destruct call_depth_SSS as [n ->].
  destruct (function_throws n s Hs Hfunction Hparen) as [e E].
  apply (dropped_statement _ s e Hs); [|exact E].
  apply (sees_token s FUNCTION Hfunction).
Qed.

Lemma for_throws n s :
  in_sync s -> sees s FOR = true ->
  sees (advanced s) ASSIGN = false -> sees (advanced s) COMMA = false ->
  sees (advanced s) IN = false ->
  exists e, tryStatement tokens parseFloat (S (S n)) s = Some (Threw e, advanced s).
Proof.
  intros Hs Hfor Hassign Hcomma Hin.
  destruct (sees_token s FOR Hfor) as (Hend & token & Hcur & _).
  pose proof (advanced_in_sync tokens s Hs) as Hs1.
  simpl tryStatement.
  rewrite skip_no_newline; [|exact Hs|apply (sees_other s FOR); auto].
  pure_steps. pick Hend.
  run (match_sees LOCAL s Hs). pick (sees_other s FOR LOCAL Hfor eq_refl).
  run (match_sees FUNCTION s Hs). pick (sees_other s FOR FUNCTION Hfor eq_refl).
  run (match_sees IF s Hs). pick (sees_other s FOR IF Hfor eq_refl).
  run (match_sees FOR s Hs). pick Hfor.
  unfold some. simpl parseForStatement. unfold parseIdentifier.
  assert (E : deref previous (advanced s) = Some (Returned token, advanced s)).
  { unfold deref. rewrite (previous_advanced s token Hs Hend Hcur). reflexivity. }
  run E. run E.
  run (match_sees ASSIGN _ Hs1). pick Hassign.
  replace (mkParser (position (advanced s)) (current (advanced s))) with (advanced s)
    by (destruct (advanced s); reflexivity).
  run (identifier_list_one _ token Hs1 (previous_advanced s token Hs Hend Hcur) Hcomma).
  destruct (consume_throws IN "Expected 'in' in generic for loop" _ Hs1 Hin) as [e He].
  exists e. rewrite ?bind_assoc. apply (bind_threw _ _ _ _ _ He).
Qed.

(** X26.  A [for] loop is not parsed either.  The loop variable is
    read from the token behind the parser, the word [for], so that the
    test for [=] meets the variable itself; the parser then takes the
    loop for a generic one and asks for [in] at the same place.  Unless
    the token behind [for] is [=], a comma or [in], the statement
    throws and is dropped up to the next recovery point. *)
Theorem for_loop_is_dropped (s : ParserState) :
  in_sync s ->
  sees s FOR = true ->
  sees (advanced s) ASSIGN = false ->
  sees (advanced s) COMMA = false ->
  sees (advanced s) IN = false ->
  exists s',
    parseStatement tokens parseFloat (call_depth tokens) s = Some (Returned None, s') /\
    resumes tokens (advanced s) s'.
Proof.
  intros Hs Hfor Hassign Hcomma Hin. destruct call_depth_SSS as [n ->].
  destruct (for_throws n s Hs Hfor Hassign Hcomma Hin) as [e E].
  apply (dropped_statement _ s e Hs); [|exact E].
  apply (sees_token s FOR Hfor).
Qed.

(** X27.  A [local] statement keeps no name.  The one name it records
    is made of the token behind the parser, the word [local]; unless
    that word is followed by [function], a comma or [=], the statement
    ends there: it declares the variable [local] without a value, and
    the names that follow are left to the next statement. *)
Theorem local_statement_keeps_no_name (s : ParserState) (token : LuaToken) :
  in_sync s ->
  sees s LOCAL = true ->
  current s = Some token ->
  sees (advanced s) FUNCTION = false ->
  sees (advanced s) COMMA = false ->
  sees (advanced s) ASSIGN = false ->
  parseStatement tokens parseFloat (call_depth tokens) s
  = Some (Returned
            (Some (node (PosOffset (Lexer.position token))
                        (AssignmentExpression
                           [node (PosOffset (Lexer.position token))
                                 (Identifier (value token) false)]
                           [] true))),
          advanced s).
Proof.
  intros Hs Hlocal Hcur Hfunction Hcomma Hassign. destruct call_depth_SSS as [n ->].
  destruct (sees_token s LOCAL Hlocal) as (Hend & token' & Hcur' & Htag).
  assert (token' = token) by congruence. subst token'.
  pose proof (advanced_in_sync tokens s Hs) as Hs1.
  pose proof (previous_advanced s token Hs Hend Hcur) as Hprev.
  apply returned_statement.
  assert (E : tryStatement tokens parseFloat (S (S n)) s
              = Some (Returned
                        (Some (node (PosOffset (Lexer.position token))
                                    (AssignmentExpression [identifier_of token] [] true))),
                      advanced s)).
  { simpl tryStatement.
    rewrite skip_no_newline; [|exact Hs|apply (sees_other s LOCAL); auto].
    pure_steps. pick Hend.
    run (match_sees LOCAL s Hs). pick Hlocal.
    unfold some. simpl parseLocalStatement.
    run (check_sees FUNCTION _ Hs1). pick Hfunction.
    run (identifier_list_one _ token Hs1 Hprev Hcomma).
    run (match_sees ASSIGN _ Hs1). pick Hassign.
    assert (Ed : deref previous (advanced s) = Some (Returned token, advanced s)).
    { unfold deref. rewrite Hprev. reflexivity. }
    run Ed. reflexivity. }
  rewrite E. unfold identifier_of.
  replace (type_eqb (type token) OBFUSCATED_NAME) with false; [reflexivity|].
  unfold type_eqb. rewrite Htag. reflexivity.
Qed.

End Statements.

Lemma named_function_is_dropped_witness :
  exists s',
    Parser.parseStatement StatementSpec.named_function (fun _ => F64 0)
                          (Parser.call_depth StatementSpec.named_function)
                          (Parser.start StatementSpec.named_function)
    = Some (AST.Returned None, s') /\
    ParserSpec.resumes StatementSpec.named_function
                       (Parser.advanced StatementSpec.named_function
                                        (Parser.start StatementSpec.named_function))
                       s'.
Proof.
  apply (named_function_is_dropped StatementSpec.named_function (fun _ => F64 0)
                                   (Parser.start StatementSpec.named_function)).
  - split; [vm_compute; lia|reflexivity].
  - reflexivity.
  - reflexivity.
Defined.

Lemma for_loop_is_dropped_witness :
  exists s',
    Parser.parseStatement StatementSpec.numeric_for (fun _ => F64 0)
                          (Parser.call_depth StatementSpec.numeric_for)
                          (Parser.start StatementSpec.numeric_for)
    = Some (AST.Returned None, s') /\
    ParserSpec.resumes StatementSpec.numeric_for
                       (Parser.advanced StatementSpec.numeric_for
                                        (Parser.start StatementSpec.numeric_for))
                       s'.
Proof.
  apply (for_loop_is_dropped StatementSpec.numeric_for (fun _ => F64 0)
                             (Parser.start StatementSpec.numeric_for)).
  - split; [vm_compute; lia|reflexivity].
  - reflexivity.
  - reflexivity.
  - reflexivity.
  - reflexivity.
Defined.

Lemma local_statement_keeps_no_name_witness :
  Parser.parseStatement StatementSpec.local_variable (fun _ => F64 0)
                        (Parser.call_depth StatementSpec.local_variable)
                        (Parser.start StatementSpec.local_variable)
  = Some (AST.Returned
            (Some (AST.node (AST.PosOffset 0)
                     (AST.AssignmentExpression
                        [AST.node (AST.PosOffset 0) (AST.Identifier (str "local") false)]
                        [] true))),
          Parser.advanced StatementSpec.local_variable
                          (Parser.start StatementSpec.local_variable)).
Proof.
  apply (local_statement_keeps_no_name StatementSpec.local_variable (fun _ => F64 0)
           (Parser.start StatementSpec.local_variable)
           (Lexer.mkToken Lexer.LOCAL (str "local") 1 1 0)).
  - split; [vm_compute; lia|reflexivity].
  - reflexivity.
  - reflexivity.
  - reflexivity.
  - reflexivity.
  - reflexivity.
Defined.

(* ================================================================== *)
(** * Further properties of the optimizer                              *)
(* ================================================================== *)

Section DeadCode.
Import AST VMInstructions SymbolicExecutor Reconstructor OptimizerSpec.

Local Abbreviation upto n := (map Z.of_nat (seq 0 n)).

Lemma upto_has n k : existsb (Z.eqb (Z.of_nat k)) (upto n) = (k <? n)%nat.
Proof.
  induction n as [|n IH].
  - reflexivity.
  - rewrite seq_S, map_app, existsb_app, IH. cbn [Nat.add map existsb].
    rewrite orb_false_r.
    destruct (Nat.ltb_spec k n) as [H|H], (Nat.ltb_spec k (S n)) as [H'|H']; lia.
Qed.

Lemma opcode_eqb_eq x y : opcode_eqb x y = true -> x = y.
Proof. unfold opcode_eqb. destruct x, y; cbn; intros H; try reflexivity; discriminate. Qed.

(** Code without jumps is walked through in its order, up to the first
    RETURN or to the end. *)
Lemma reachable_straight todo : forall done rounds,
  (List.length todo < rounds)%nat ->
  no_jump todo = true ->
  reachable_from rounds (done ++ todo) (upto (List.length done))
                 [Z.of_nat (List.length done)]
  = Some (Returned (upto (List.length done + List.length (upto_return todo)))).
Proof.
  induction todo as [|i rest IH]; intros done rounds Hrounds Hjump;
    (destruct rounds as [|r]; [cbn [List.length] in Hrounds; lia|]);
    cbn [reachable_from].
  - rewrite upto_has, app_nil_r.
    replace (Z.of_nat (List.length done) <=? Z.of_nat (List.length done)) with true
      by (symmetry; apply Z.leb_le; lia).
    rewrite orb_true_r. cbn [upto_return List.length]. rewrite Nat.add_0_r.
    destruct r; reflexivity.
  - rewrite upto_has.
    replace (List.length done <? List.length done)%nat with false
      by (symmetry; apply Nat.ltb_ge; lia).
    replace (Z.of_nat (List.length (done ++ i :: rest)) <=? Z.of_nat (List.length done))
      with false
      by (symmetry; apply Z.leb_gt; rewrite length_app; cbn [List.length]; lia).
    cbn [orb].
    replace (Z.of_nat (List.length done) <? 0) with false
      by (symmetry; apply Z.ltb_ge; lia).
    rewrite Nat2Z.id, nth_error_app2, Nat.sub_diag by lia. cbn [nth_error].
    assert (Hnext : upto (List.length done) ++ [Z.of_nat (List.length done)]
                    = upto (List.length (done ++ [i]))).
    { rewrite length_app. cbn [List.length]. rewrite Nat.add_1_r, seq_S, map_app.
      reflexivity. }
    rewrite Hnext.
    cbn [no_jump forallb] in Hjump. apply andb_prop in Hjump.
    destruct Hjump as [Hi Hrest]. apply negb_true_iff in Hi.
    cbn [upto_return List.length] in *.
    destruct (opcode_eqb (opcode i) RETURN) eqn:Hreturn.
    + apply opcode_eqb_eq in Hreturn. rewrite Hreturn.
      cbn [List.length]. rewrite length_app. cbn [List.length].
      destruct r; reflexivity.
    + assert (Hgo : reachable_from r (done ++ i :: rest) (upto (List.length (done ++ [i])))
                                   [Z.of_nat (List.length done) + 1]
                    = Some (Returned (upto (List.length done
                                            + S (List.length (upto_return rest)))))).
      { replace (Z.of_nat (List.length done) + 1) with (Z.of_nat (List.length (done ++ [i])))
          by (rewrite length_app; cbn [List.length]; lia).
        replace (done ++ i :: rest) with ((done ++ [i]) ++ rest)
          by (rewrite <- app_assoc; reflexivity).
        rewrite (IH (done ++ [i]) r) by (try lia; exact Hrest).
        rewrite length_app. cbn [List.length].
        replace (List.length done + 1 + List.length (upto_return rest))%nat
          with (List.length done + S (List.length (upto_return rest)))%nat by lia.
        reflexivity. }
      cbn [List.length].
      destruct (opcode i) eqn:Hop; try exact Hgo; discriminate.
Qed.

Lemma filter_upto {A} n (l : list A) : forall k,
  filter_indexed (fun index => existsb (Z.eqb index) (upto n)) (Z.of_nat k) l
  = firstn (n - k) l.
Proof.
  induction l as [|x l IH]; intros k; cbn [filter_indexed].
  - rewrite firstn_nil. reflexivity.
  - rewrite upto_has.
    replace (Z.of_nat k + 1) with (Z.of_nat (S k)) by lia. rewrite IH.
    destruct (Nat.ltb_spec k n) as [H|H].
    + replace (n - k)%nat with (S (n - S k)) by lia. reflexivity.
    + replace (n - k)%nat with 0%nat by lia. replace (n - S k)%nat with 0%nat by lia.
      reflexivity.
Qed.

Lemma firstn_upto_return l : firstn (List.length (upto_return l)) l = upto_return l.
Proof.
  induction l as [|i l IH]; cbn [upto_return]; [reflexivity|].
  destruct (opcode_eqb (opcode i) RETURN); cbn [List.length firstn]; [reflexivity|].
  rewrite IH. reflexivity.
Qed.

Lemma removeDeadCode_straight proto :
  no_jump (instructions proto) = true ->
  removeDeadCode proto
  = Some (Returned (with_code proto (upto_return (instructions proto)))).
Proof.
  intros Hjump. unfold removeDeadCode.
  rewrite (reachable_straight (instructions proto) [] _) by (try lia; exact Hjump).
  cbn [List.length Nat.add]. cbv beta iota.
  rewrite (filter_upto _ _ 0), Nat.sub_0_r, firstn_upto_return. reflexivity.
Qed.

Lemma upto_return_ends instructions : ends_at_return (upto_return instructions).
Proof.
  induction instructions as [|x l IH]; intros front i back E Hi; cbn [upto_return] in E.
  - destruct front; discriminate.
  - destruct (opcode_eqb (opcode x) RETURN) eqn:Hx.
    + destruct front as [|y front]; cbn [app] in E.
      * injection E as _ <-. reflexivity.
      * injection E as _ E. destruct front; discriminate.
    + destruct front as [|y front]; cbn [app] in E.
      * injection E as -> _. rewrite Hi in Hx. discriminate.
      * injection E as _ E. apply (IH _ _ _ E Hi).
Qed.

(** X28.  In code without a jump, [removeDeadCode] keeps the
    instructions up to the first RETURN and drops every instruction
    behind it; code without a RETURN it leaves as it is.  On such code
    the pass does not throw. *)
Theorem dead_code_follows_the_first_return (proto : VMProto) :
  no_jump (instructions proto) = true ->
  removeDeadCode proto
  = Some (Returned (with_code proto (upto_return (instructions proto)))) /\
  ends_at_return (upto_return (instructions proto)) /\
  (forallb (fun i => negb (opcode_eqb (opcode i) RETURN)) (instructions proto) = true ->
   upto_return (instructions proto) = instructions proto).
Proof.
  intros Hjump. split; [apply removeDeadCode_straight, Hjump|]. split.
  - apply upto_return_ends.
  - generalize (instructions proto). clear. intros l H.
    induction l as [|x l IH]; cbn [upto_return forallb] in *; [reflexivity|].
    apply andb_prop in H. destruct H as [Hx Hl]. apply negb_true_iff in Hx.
    rewrite Hx, (IH Hl). reflexivity.
Qed.

End DeadCode.

Lemma dead_code_follows_the_first_return_witness :
  Reconstructor.removeDeadCode OptimizerSpec.return_in_the_middle
  = Some (AST.Returned
            (Reconstructor.with_code OptimizerSpec.return_in_the_middle
               (OptimizerSpec.upto_return
                  (VMInstructions.instructions OptimizerSpec.return_in_the_middle)))) /\
  OptimizerSpec.ends_at_return
    (OptimizerSpec.upto_return
       (VMInstructions.instructions OptimizerSpec.return_in_the_middle)) /\
  (forallb (fun i => negb (VMInstructions.opcode_eqb (VMInstructions.opcode i)
                                                     VMInstructions.RETURN))
           (VMInstructions.instructions OptimizerSpec.return_in_the_middle) = true ->
   OptimizerSpec.upto_return
     (VMInstructions.instructions OptimizerSpec.return_in_the_middle)
   = VMInstructions.instructions OptimizerSpec.return_in_the_middle).
Proof.
  apply (dead_code_follows_the_first_return OptimizerSpec.return_in_the_middle).
  reflexivity.
Defined.

Section WholeReconstruction.
Import AST VMInstructions SymbolicExecutor Reconstructor OptimizerSpec.

Variable Number_toString : JSNumber -> jsstring.
Variable parseFloat : jsstring -> JSNumber.
Variable JSON_parse_other : jsstring -> Outcome JSValue.

Local Abbreviation reconstructFromVM :=
  (Reconstructor.reconstructFromVM Number_toString parseFloat JSON_parse_other).
Local Abbreviation optimizeConstantLoading :=
  (Reconstructor.optimizeConstantLoading Number_toString parseFloat JSON_parse_other).

Lemma reconstructFromPatterns_no_jump handler handlerCode i :
  reconstructFromPatterns handler handlerCode = Some i ->
  opcode_eqb (opcode i) JMP = false.
Proof.
  unfold reconstructFromPatterns.
  repeat match goal with
         | |- context [match regex_match ?p ?s with _ => _ end] =>
             destruct (regex_match p s)
         end;
    intros H; injection H as <-; reflexivity.
Qed.

Lemma no_jump_app front back : no_jump (front ++ back) = no_jump front && no_jump back.
Proof. apply forallb_app. Qed.

Lemma process_handlers_no_jump context handlerArray : forall instructions stats,
  no_jump instructions = true ->
  no_jump (fst (process_handlers handlerArray context instructions stats)) = true.
Proof.
  induction handlerArray as [|[index handler] rest IH]; intros instructions stats H.
  - exact H.
  - cbn [process_handlers]. rewrite reconstructHandler_by_patterns.
    destruct (reconstructFromPatterns handler (handlerCode_of handler context)) as [i|] eqn:E.
    + apply IH. rewrite no_jump_app, H. cbn.
      rewrite (reconstructFromPatterns_no_jump _ _ _ E). reflexivity.
    + apply IH, H.
Qed.

Lemma removeRedundantInstructions_no_jump instructions :
  no_jump instructions = true ->
  no_jump (removeRedundantInstructions instructions) = true.
Proof.
  induction instructions as [|current rest IH]; intros H; [reflexivity|].
  cbn [no_jump forallb] in H. apply andb_prop in H. destruct H as [Hcurrent Hrest].
  cbn [removeRedundantInstructions]. cbv zeta.
  repeat match goal with
         | |- context [if ?c then _ else _] => destruct c
         end; try (apply IH, Hrest).
  cbn [no_jump forallb]. rewrite Hcurrent. apply IH, Hrest.
Qed.

Lemma remap_instruction_opcode constantMapping i :
  opcode (remap_instruction constantMapping i) = opcode i.
Proof.
  unfold remap_instruction. destruct (bx i); [|reflexivity].
  destruct (opcode_eqb (opcode i) LOADK); reflexivity.
Qed.

Lemma remap_no_jump constantMapping instructions :
  no_jump (map (remap_instruction constantMapping) instructions) = no_jump instructions.
Proof.
  unfold no_jump. induction instructions as [|i rest IH]; [reflexivity|].
  cbn [map forallb]. rewrite remap_instruction_opcode, IH. reflexivity.
Qed.

Lemma optimizeConstantLoading_no_jump proto proto' :
  optimizeConstantLoading proto = Returned proto' ->
  no_jump (instructions proto') = no_jump (instructions proto).
Proof.
  unfold Reconstructor.optimizeConstantLoading.
  destruct (number_constants _ _ _ _ _) as [uniqueConstants constantMapping].
  destruct (rebuild_constants _ _ _); [|discriminate].
  intros H. injection H as <-. cbn. apply remap_no_jump.
Qed.

(** What [reconstructFromVM] answers: the empty prototype, or one that
    has passed the dead-code pass without jumps and then the pass over
    the registers.  No bound of the model is met. *)
Lemma reconstructFromVM_shape context :
  exists result,
    reconstructFromVM context = Some result /\
    (rr_proto result = createEmptyProto \/
     exists proto,
       rr_proto result
       = optimizeRegisterUsage (with_code proto (upto_return (instructions proto)))).
Proof.
  unfold Reconstructor.reconstructFromVM. cbv zeta.
  pose proof (process_handlers_no_jump context (sort_entries (handlers context)) []
                (mkStatistics 0 0
                   (Z.of_nat (List.length (decryptConstants (rc_constants context)
                                                            (encryptionInfo context))))
                   []) eq_refl) as Hjump.
  cbn [handlersProcessed instructionsReconstructed errors].
  destruct (process_handlers _ _ _ _) as [instructions0 statistics].
  cbn [fst] in Hjump.
  unfold optimizeReconstructedBytecode. cbv zeta. cbn [instructions with_code].
  apply removeRedundantInstructions_no_jump in Hjump.
  destruct (optimizeConstantLoading _) as [proto|e] eqn:Eopt.
  - apply optimizeConstantLoading_no_jump in Eopt. cbn [instructions with_code] in Eopt.
    rewrite Hjump in Eopt.
    rewrite (removeDeadCode_straight proto Eopt). cbn.
    eexists. split; [reflexivity|]. right. exists proto. reflexivity.
  - cbn. eexists. split; [reflexivity|]. left. reflexivity.
Qed.

(** X29.  [reconstructFromVM] returns for every context, and in the
    prototype it returns no instruction stands behind a RETURN: the
    handlers are lifted in the order of their indexes, no handler is
    lifted to a jump, and the dead-code pass cuts the code off behind
    the first RETURN.  A handler whose index is above that of a RETURN
    handler leaves no instruction. *)
Theorem nothing_follows_a_return (context : ReconstructionContext) :
  exists result,
    reconstructFromVM context = Some result /\
    ends_at_return (instructions (rr_proto result)).
Proof.
  destruct (reconstructFromVM_shape context) as (result & E & [Hempty|[proto Hproto]]);
    exists result; (split; [exact E|]).
  - rewrite Hempty. intros front i back H. destruct front; discriminate.
  - rewrite Hproto. cbn [optimizeRegisterUsage with_maxStackSize instructions with_code].
    apply upto_return_ends.
Qed.

Lemma map_set_keys {V} (m : NumberMap V) key v k :
  In k (map fst (map_set m key v)) <-> k = key \/ In k (map fst m).
Proof.
  induction m as [|[k0 v0] m IH]; cbn [map_set map fst In].
  - intuition.
  - destruct (k0 =? key) eqn:E; cbn [map fst In].
    + apply Z.eqb_eq in E. subst. intuition.
    + rewrite IH. intuition.
Qed.

Lemma count_use_keys registerUsage r k :
  In k (map fst (count_use registerUsage r)) <-> k = r \/ In k (map fst registerUsage).
Proof. apply map_set_keys. Qed.

Lemma track_usage_keys registerUsage i k :
  In k (map fst (track_usage registerUsage i)) <->
  In k (map fst registerUsage) \/ k = a i \/
  (b i < 256 /\ k = b i) \/ (c i < 256 /\ k = c i).
Proof.
  unfold track_usage.
  destruct (Z.ltb_spec (b i) 256), (Z.ltb_spec (c i) 256);
    rewrite ?count_use_keys; intuition lia.
Qed.

Lemma fold_track_usage_keys instructions : forall registerUsage k,
  In k (map fst registerUsage) \/
  (exists i, In i instructions /\
             (k = a i \/ (b i < 256 /\ k = b i) \/ (c i < 256 /\ k = c i))) ->
  In k (map fst (fold_left track_usage instructions registerUsage)).
Proof.
  induction instructions as [|i rest IH]; intros registerUsage k H; cbn [fold_left].
  - destruct H as [H|(i & Hi & _)]; [exact H|destruct Hi].
  - apply IH. destruct H as [H|(j & [<-|Hj] & H)].
    + left. apply track_usage_keys. tauto.
    + left. apply track_usage_keys. tauto.
    + right. exists j. tauto.
Qed.

Lemma max_of_keys keys : forall k, In k keys -> k <= fold_right Z.max 0 keys.
Proof.
  induction keys as [|x keys IH]; intros k Hk; [destruct Hk|].
  cbn [fold_right]. destruct Hk as [<-|H]; [lia|].
  specialize (IH k H). lia.
Qed.

Lemma fold_track_usage_keys_from instructions : forall registerUsage k,
  In k (map fst (fold_left track_usage instructions registerUsage)) ->
  In k (map fst registerUsage) \/
  (exists i, In i instructions /\
             (k = a i \/ (b i < 256 /\ k = b i) \/ (c i < 256 /\ k = c i))).
Proof.
  induction instructions as [|i rest IH]; intros registerUsage k H; cbn [fold_left] in H.
  - left. exact H.
  - destruct (IH _ _ H) as [Hk|(j & Hj & Hk)].
    + apply track_usage_keys in Hk. destruct Hk as [Hk|Hk]; [left; exact Hk|].
      right. exists i. split; [left; reflexivity|exact Hk].
    + right. exists j. split; [right; exact Hj|exact Hk].
Qed.

Lemma max_of_keys_below keys bound :
  0 < bound -> (forall k, In k keys -> k < bound) -> fold_right Z.max 0 keys < bound.
Proof.
  intros Hbound. induction keys as [|x keys IH]; intros H; cbn [fold_right]; [lia|].
  assert (x < bound) by (apply H; left; reflexivity).
  assert (fold_right Z.max 0 keys < bound) by (apply IH; intros k Hk; apply H; right; exact Hk).
  lia.
Qed.

Lemma optimizeRegisterUsage_fits proto :
  (forall i, In i (instructions proto) -> a i < 2 ^ 53) ->
  forall i, In i (instructions proto) ->
            fits (maxStackSize (optimizeRegisterUsage proto)) i.
Proof.
  intros Hsmall i Hi. unfold optimizeRegisterUsage. cbn [with_maxStackSize maxStackSize].
  set (usage := fold_left track_usage (instructions proto) []).
  assert (H : forall k, (k = a i \/ (b i < 256 /\ k = b i) \/ (c i < 256 /\ k = c i)) ->
                        k <= fold_right Z.max 0 (map fst usage)).
  { intros k Hk. apply max_of_keys, fold_track_usage_keys. right. exists i. tauto. }
  assert (Hmax : 0 <= fold_right Z.max 0 (map fst usage) < 2 ^ 53).
  { split.
    - generalize (map fst usage). intros keys.
      induction keys as [|x keys IH]; cbn [fold_right]; lia.
    - apply max_of_keys_below; [lia|]. intros k Hk.
      apply fold_track_usage_keys_from in Hk. destruct Hk as [[]|(j & Hj & Hk)].
      specialize (Hsmall j Hj). change (2 ^ 53) with 9007199254740992 in *.
      destruct Hk as [->|[[? ->]|[? ->]]]; lia. }
  rewrite double_sum_exact by lia.
  pose proof (H (a i)) as Ha. pose proof (H (b i)) as Hb. pose proof (H (c i)) as Hc.
  unfold fits. repeat split; intros; lia.
Qed.

(** X30.  The stack of a reconstructed prototype covers its code as
    long as the registers are below [2^53]: register A of every
    instruction then lies below [maxStackSize], and so do the operands
    B and C that are registers, those below 256.  (From [2^53] on,
    adding 1 to a register gives the register again.) *)
Theorem registers_fit_the_stack
        (context : ReconstructionContext) (result : ReconstructionResult) :
  reconstructFromVM context = Some result ->
  (forall i, In i (instructions (rr_proto result)) -> a i < 2 ^ 53) ->
  forall i, In i (instructions (rr_proto result)) ->
            fits (maxStackSize (rr_proto result)) i.
Proof.
  intros E.
  destruct (reconstructFromVM_shape context) as (result' & E' & H).
  rewrite E in E'. injection E' as <-.
  destruct H as [Hempty|[proto Hproto]].
  - rewrite Hempty. intros _ i [].
  - rewrite Hproto. intros Hsmall i Hi.
    exact (optimizeRegisterUsage_fits
             (with_code proto (upto_return (instructions proto))) Hsmall i Hi).
Qed.

End WholeReconstruction.

Lemma registers_fit_the_stack_witness :
  exists result,
    Reconstructor.reconstructFromVM (fun _ => []) (fun _ => F64 0) (fun _ => AST.Threw [])
                                    OptimizerSpec.one_move
    = Some result /\
    VMInstructions.instructions (Reconstructor.rr_proto result)
    = [VMInstructions.mkInstruction VMInstructions.MOVE 5 3 0 None None None (Some 1)] /\
    forall i, In i (VMInstructions.instructions (Reconstructor.rr_proto result)) ->
              OptimizerSpec.fits
                (VMInstructions.maxStackSize (Reconstructor.rr_proto result)) i.
Proof.
  eexists. split; [vm_compute; reflexivity|]. split; [reflexivity|].
  apply (registers_fit_the_stack (fun _ => []) (fun _ => F64 0) (fun _ => AST.Threw [])
                                 OptimizerSpec.one_move).
  - vm_compute. reflexivity.
  - intros i [<-|[]]. reflexivity.
Defined.

(** From [2^53] on the stack size does not cover the register: the
    handler [R[9007199254740992] = R[0]] gives a MOVE whose register A
    is the stack size itself. *)
Lemma large_register_is_not_below_the_stack :
  exists result,
    Reconstructor.reconstructFromVM (fun _ => []) (fun _ => F64 0) (fun _ => AST.Threw [])
                                    OptimizerSpec.one_large_move
    = Some result /\
    map VMInstructions.a (VMInstructions.instructions (Reconstructor.rr_proto result))
    = [2 ^ 53] /\
    VMInstructions.maxStackSize (Reconstructor.rr_proto result) = 2 ^ 53.
Proof.
  eexists. split; [vm_compute; reflexivity|]. split; reflexivity.
Qed.
